(** * Viewport-triggered animation readiness coordinator

    A shallow embedding of the animation script of the site (the second
    immediately-invoked function of the page script): the readiness
    predicates, the resource wait primitives, the dependency aggregator,
    the animation dispatcher and the viewport observer, over a small model
    of the browser objects the script talks to (DOM nodes, promises with
    their reaction jobs, event listeners, animation frames, the
    intersection observer).  After it come the first function of the page
    script (the executor of start-up callbacks, the resize handler with
    its debounced listener and timers, the menu) and the script that stops
    the animation of the parents of loaded images. *)

From Stdlib Require Import Ascii String ZArith QArith.QArith_base Lia.
From stdpp Require Import base strings list gmap.

Local Open Scope string_scope.
Local Open Scope list_scope.

(** ** The DOM, as the script reads it *)

(** The properties of an element the script reads.  Identity is a number:
    two references are the same element when their [eid] agree.  Strings
    are sequences of code units below 256. *)
Record ElementProps := {
  eid : nat;
  localName : string;
  classList : list string;
  complete : bool;            (* HTMLImageElement.complete *)
  readyState : Z;             (* HTMLMediaElement.readyState, 0 to 4 *)
  poster : string;            (* HTMLVideoElement.poster, empty when absent *)
  fontFamily : string;        (* getComputedStyle(el).fontFamily *)
  fontStyle : string;         (* getComputedStyle(el).fontStyle *)
  fontWeight : string;        (* getComputedStyle(el).fontWeight *)
}.

#[warnings="-register-all"]
Inductive Node :=
| TextNode (data : string)
| CommentNode (data : string)
| ElementNode (props : ElementProps) (childNodes : list Node).

(** [joinStrings] concatenates the pieces of a flattened text. *)
Definition joinStrings (l : list string) : string :=
  fold_right String.append "" l.

(** The text of the Text descendants of a node in tree order; comments
    contribute nothing to the text of an ancestor. *)
Fixpoint descendantText (n : Node) : string :=
  match n with
  | TextNode d => d
  | CommentNode _ => ""
  | ElementNode _ cs => joinStrings (List.map descendantText cs)
  end.

(** [node.textContent]: the data of a character-data node, the descendant
    text of an element.  It is [null] only for documents and doctypes,
    which never reach the script; the option keeps the script's test. *)
Definition textContent (n : Node) : option string :=
  match n with
  | TextNode d => Some d
  | CommentNode d => Some d
  | ElementNode _ cs => Some (joinStrings (List.map descendantText cs))
  end.

(** White space and line terminators that [String.prototype.trim] strips,
    among the code units below 256: TAB, LF, VT, FF, CR, SP, NBSP. *)
Definition isWhiteSpace (c : ascii) : bool :=
  let n := nat_of_ascii c in
  (n =? 9)%nat || (n =? 10)%nat || (n =? 11)%nat || (n =? 12)%nat
  || (n =? 13)%nat || (n =? 32)%nat || (n =? 160)%nat.

Fixpoint trimStart (s : string) : string :=
  match s with
  | EmptyString => EmptyString
  | String c s' => if isWhiteSpace c then trimStart s' else s
  end.

(** [trimEnd] keeps a character when it is not white space or when
    something survives after it. *)
Fixpoint trimEnd (s : string) : string :=
  match s with
  | EmptyString => EmptyString
  | String c s' =>
      match trimEnd s' with
      | EmptyString => if isWhiteSpace c then EmptyString else String c EmptyString
      | t => String c t
      end
  end.

Definition trim (s : string) : string := trimEnd (trimStart s).

(** Elements in tree order below a node, the node itself excluded. *)
Fixpoint descendantElements (n : Node) : list (ElementProps * list Node) :=
  match n with
  | TextNode _ | CommentNode _ => []
  | ElementNode _ cs =>
      List.flat_map (fun c =>
        match c with
        | ElementNode p cs' => (p, cs') :: descendantElements c
        | _ => []
        end) cs
  end.

(** [element.getElementsByTagName(name)]: the descendant elements with
    that local name, in tree order. *)
Definition getElementsByTagName (n : Node) (name : string)
  : list (ElementProps * list Node) :=
  List.filter (fun e => String.eqb (localName (fst e)) name) (descendantElements n).

(** [element.firstElementChild] *)
Fixpoint firstElement (cs : list Node) : option (ElementProps * list Node) :=
  match cs with
  | [] => None
  | ElementNode p cs' :: _ => Some (p, cs')
  | _ :: rest => firstElement rest
  end.

(** [element.classList.contains(token)] *)
Definition classListContains (p : ElementProps) (token : string) : bool :=
  existsb (String.eqb token) (classList p).

(** ** Readiness predicates *)

(** [hasTextContent]: the double negation of
    [textContent !== null && textContent !== undefined && textContent.trim().length]. *)
Definition hasTextContent (element : Node) : bool :=
  match textContent element with
  | None => false
  | Some t => negb (Nat.eqb (String.length (trim t)) 0)
  end.

Definition hasDependencies (element : Node) : bool :=
  let hasImages := Nat.ltb 0 (List.length (getElementsByTagName element "img")) in
  let hasVideos := Nat.ltb 0 (List.length (getElementsByTagName element "video")) in
  hasTextContent element || hasImages || hasVideos.

(** The descendant relation of the tree, independent of any traversal. *)
Inductive descendant : Node -> Node -> Prop :=
| descendant_child p cs c : In c cs -> descendant c (ElementNode p cs)
| descendant_deeper p cs c d :
    In c cs -> descendant d c -> descendant d (ElementNode p cs).

Definition isElementNamed (name : string) (n : Node) : Prop :=
  exists p cs, n = ElementNode p cs /\ localName p = name.

(** ** Promises, reactions and jobs *)

Inductive PromiseState := Pending | Fulfilled | Rejected.

(** The closures the script and the promise machinery hand to the host.
    Each constructor is one closure of the source or one built-in
    function; the numbers are the promises and elements they capture. *)
Inductive Callback :=
| CbResolve (p : nat)                  (* [() => resolve()] of a wait primitive *)
| CbReject (p : nat)                   (* [() => reject()] of a wait primitive *)
| CbResolveFunction (p : nat)          (* built-in resolving function of [p] *)
| CbRejectFunction (p : nat)           (* built-in rejecting function of [p] *)
| CbAllResolveElement (all index : nat) (* Promise.all resolve element function *)
| CbAsyncResume (element result : nat) (* startAnimationForElement after its await *)
| CbAsyncThrow (result : nat)          (* the await throws into the async function *)
| CbAnimationStart (element : nat).    (* the arrow given to requestAnimationFrame *)

Record Reaction := { onFulfilled : Callback; onRejected : Callback }.

Record Promise := { state : PromiseState; reactions : list Reaction }.

Inductive Job :=
| JobReaction (cb : Callback)
| JobResolveThenable (p thenable : nat).

(** The record shared by the resolve element functions of one Promise.all
    call: which positions of the values list are filled, and the count of
    positions still awaited. *)
Record AllRecord := { values : list bool; remainingElementsCount : nat }.

Record World := {
  heap : list Promise;                       (* a promise is its index *)
  allRecords : gmap nat AllRecord;           (* keyed by the Promise.all promise *)
  listeners : list (nat * string * Callback); (* addEventListener registrations *)
  loadingAttr : gmap nat string;             (* writes to [image.loading] *)
  microtasks : list Job;
  animationFrameCallbacks : list Callback;
  animationPlayState : gmap nat string;      (* [element.style.animationPlayState] *)
}.

Definition setHeap (h : list Promise) (w : World) : World :=
  {| heap := h; allRecords := allRecords w; listeners := listeners w;
     loadingAttr := loadingAttr w; microtasks := microtasks w;
     animationFrameCallbacks := animationFrameCallbacks w;
     animationPlayState := animationPlayState w |}.

Definition setAllRecords (r : gmap nat AllRecord) (w : World) : World :=
  {| heap := heap w; allRecords := r; listeners := listeners w;
     loadingAttr := loadingAttr w; microtasks := microtasks w;
     animationFrameCallbacks := animationFrameCallbacks w;
     animationPlayState := animationPlayState w |}.

Definition setListeners (l : list (nat * string * Callback)) (w : World) : World :=
  {| heap := heap w; allRecords := allRecords w; listeners := l;
     loadingAttr := loadingAttr w; microtasks := microtasks w;
     animationFrameCallbacks := animationFrameCallbacks w;
     animationPlayState := animationPlayState w |}.

Definition setLoadingAttr (l : gmap nat string) (w : World) : World :=
  {| heap := heap w; allRecords := allRecords w; listeners := listeners w;
     loadingAttr := l; microtasks := microtasks w;
     animationFrameCallbacks := animationFrameCallbacks w;
     animationPlayState := animationPlayState w |}.

Definition setMicrotasks (q : list Job) (w : World) : World :=
  {| heap := heap w; allRecords := allRecords w; listeners := listeners w;
     loadingAttr := loadingAttr w; microtasks := q;
     animationFrameCallbacks := animationFrameCallbacks w;
     animationPlayState := animationPlayState w |}.

Definition setAnimationFrameCallbacks (q : list Callback) (w : World) : World :=
  {| heap := heap w; allRecords := allRecords w; listeners := listeners w;
     loadingAttr := loadingAttr w; microtasks := microtasks w;
     animationFrameCallbacks := q;
     animationPlayState := animationPlayState w |}.

Definition setAnimationPlayState (s : gmap nat string) (w : World) : World :=
  {| heap := heap w; allRecords := allRecords w; listeners := listeners w;
     loadingAttr := loadingAttr w; microtasks := microtasks w;
     animationFrameCallbacks := animationFrameCallbacks w;
     animationPlayState := s |}.

(** The state of a promise; a number that names no promise reads as
    pending for ever. *)
Definition stateOf (w : World) (p : nat) : PromiseState :=
  match heap w !! p with
  | Some pr => state pr
  | None => Pending
  end.

Definition reactionsOf (w : World) (p : nat) : list Reaction :=
  match heap w !! p with
  | Some pr => reactions pr
  | None => []
  end.

(** ** The script's effects: a state monad over the world *)

Definition M (A : Type) : Type := World -> A * World.

Definition ret {A} (a : A) : M A := fun w => (a, w).

Definition bind {A B} (c : M A) (k : A -> M B) : M B :=
  fun w => let '(a, w') := c w in k a w'.

Declare Scope m_scope.
Delimit Scope m_scope with M.
Notation "x <- c ;; k" := (bind c (fun x => k))
  (at level 62, c at next level, right associativity) : m_scope.
Notation "c ;;; k" := (bind c (fun _ => k))
  (at level 62, right associativity) : m_scope.
Local Open Scope m_scope.

Definition exec {A} (c : M A) (w : World) : World := snd (c w).

(** Runs [f] on every element of a list, in order. *)
Fixpoint forEach {A} (f : A -> M unit) (l : list A) : M unit :=
  match l with
  | [] => ret tt
  | x :: rest => f x ;;; forEach f rest
  end.

(** [new Promise(...)] before its executor runs. *)
Definition newPromise : M nat := fun w =>
  (length (heap w),
   setHeap (heap w ++ [ {| state := Pending; reactions := [] |} ]) w).

Definition reactionJob (s : PromiseState) (r : Reaction) : Job :=
  JobReaction (match s with Rejected => onRejected r | _ => onFulfilled r end).

(** Settles a pending promise and queues a job for each of its
    reactions; a settled promise ignores the call. *)
Definition settle (s : PromiseState) (p : nat) : M unit := fun w =>
  match heap w !! p with
  | Some pr =>
      match state pr with
      | Pending =>
          (tt, setMicrotasks (microtasks w ++ List.map (reactionJob s) (reactions pr))
                 (setHeap (<[p := {| state := s; reactions := [] |}]> (heap w)) w))
      | _ => (tt, w)
      end
  | None => (tt, w)
  end.

Definition resolvePromise : nat -> M unit := settle Fulfilled.
Definition rejectPromise : nat -> M unit := settle Rejected.

Definition enqueueJob (j : Job) : M unit := fun w =>
  (tt, setMicrotasks (microtasks w ++ [j]) w).

(** [p.then(onFulfilled, onRejected)] for its effect on [p]: the reaction
    is stored while [p] is pending and queued at once when it is settled.
    The derived promise of [then] is never observed and is left out. *)
Definition performThen (p : nat) (r : Reaction) : M unit := fun w =>
  match heap w !! p with
  | Some pr =>
      match state pr with
      | Pending =>
          (tt, setHeap (<[p := {| state := Pending; reactions := reactions pr ++ [r] |}]> (heap w)) w)
      | s => enqueueJob (reactionJob s r) w
      end
  | None => (tt, w)
  end.

(** Resolving [p] with the promise [thenable]: [p] will follow it. *)
Definition resolveWithThenable (p thenable : nat) : M unit :=
  enqueueJob (JobResolveThenable p thenable).

Definition getAllRecord (all : nat) : M AllRecord := fun w =>
  (default {| values := []; remainingElementsCount := 0 |} (allRecords w !! all), w).

Definition putAllRecord (all : nat) (r : AllRecord) : M unit := fun w =>
  (tt, setAllRecords (<[all := r]> (allRecords w)) w).

(** One turn of the loop of Promise.all over its iterable. *)
Definition allStep (all : nat) (member : nat) : M unit :=
  r <- getAllRecord all ;;
  putAllRecord all {| values := values r ++ [false];
                      remainingElementsCount := S (remainingElementsCount r) |} ;;;
  performThen member {| onFulfilled := CbAllResolveElement all (length (values r));
                        onRejected := CbRejectFunction all |}.

(** [Promise.all(members)]: the count starts at one, each member adds
    one, and the end of the loop takes one away; an empty list therefore
    resolves the aggregate before [Promise.all] returns. *)
Definition promiseAll (members : list nat) : M nat :=
  all <- newPromise ;;
  putAllRecord all {| values := []; remainingElementsCount := 1 |} ;;;
  forEach (allStep all) members ;;;
  r <- getAllRecord all ;;
  putAllRecord all {| values := values r;
                      remainingElementsCount := pred (remainingElementsCount r) |} ;;;
  (if Nat.eqb (pred (remainingElementsCount r)) 0 then resolvePromise all else ret tt) ;;;
  ret all.

(** The Promise.all resolve element function of position [index]. *)
Definition allResolveElement (all index : nat) : M unit :=
  r <- getAllRecord all ;;
  match values r !! index with
  | Some false =>
      putAllRecord all {| values := <[index := true]> (values r);
                          remainingElementsCount := pred (remainingElementsCount r) |} ;;;
      (if Nat.eqb (pred (remainingElementsCount r)) 0 then resolvePromise all else ret tt)
  | _ => ret tt
  end.

Definition addEventListener (target : nat) (type : string) (cb : Callback) : M unit :=
  fun w => (tt, setListeners (listeners w ++ [(target, type, cb)]) w).

Definition requestAnimationFrame (cb : Callback) : M unit := fun w =>
  (tt, setAnimationFrameCallbacks (animationFrameCallbacks w ++ [cb]) w).

Definition setLoading (image : nat) (v : string) : M unit := fun w =>
  (tt, setLoadingAttr (<[image := v]> (loadingAttr w)) w).

Definition setPlayState (element : nat) (v : string) : M unit := fun w =>
  (tt, setAnimationPlayState (<[element := v]> (animationPlayState w)) w).

Definition runCallback (cb : Callback) : M unit :=
  match cb with
  | CbResolve p | CbResolveFunction p => resolvePromise p
  | CbReject p | CbRejectFunction p | CbAsyncThrow p => rejectPromise p
  | CbAllResolveElement all index => allResolveElement all index
  | CbAsyncResume element result =>
      requestAnimationFrame (CbAnimationStart element) ;;; resolvePromise result
  | CbAnimationStart element => setPlayState element "running"
  end.

Definition runJob (j : Job) : M unit :=
  match j with
  | JobReaction cb => runCallback cb
  | JobResolveThenable p thenable =>
      performThen thenable {| onFulfilled := CbResolveFunction p;
                              onRejected := CbRejectFunction p |}
  end.

(** ** Fonts of the document *)

(** A face of [document.fonts]; [loaded] is the promise of the face. *)
Record FontFace := {
  family : string;
  style : string;
  weight : string;
  loaded : nat;
}.

(** [fonts] lists [document.fonts] in iteration order; [ready] is the
    promise [document.fonts.ready]. *)
Record Document := {
  fonts : list FontFace;
  ready : nat;
}.

(** The template literal [`${a}_${b}_${c}`]. *)
Definition fontKeyOf (a b c : string) : string :=
  a ++ "_" ++ b ++ "_" ++ c.

(** ** Resource wait primitives *)

Definition loadImage (image : ElementProps) : M nat :=
  p <- newPromise ;;
  (if complete image then resolvePromise p
   else
     setLoading (eid image) "eager" ;;;
     addEventListener (eid image) "load" (CbResolve p) ;;;
     addEventListener (eid image) "error" (CbReject p)) ;;;
  ret p.

(** [video.readyState >= 2 || video.poster]: a string is truthy when it
    is not empty. *)
Definition videoReady (video : ElementProps) : bool :=
  (2 <=? readyState video)%Z || negb (String.eqb (poster video) "").

Definition loadVideo (video : ElementProps) : M nat :=
  p <- newPromise ;;
  (if videoReady video then resolvePromise p
   else
     addEventListener (eid video) "loadeddata" (CbResolve p) ;;;
     addEventListener (eid video) "error" (CbReject p)) ;;;
  ret p.

(** [font?.loaded || document.fonts.ready]: the promise of a face is an
    object, hence truthy, so the fallback is taken exactly when the key
    is absent from the map. *)
Definition loadFonts (doc : Document) (span : ElementProps)
    (loadedFontsMap : gmap string FontFace) : nat :=
  let fontKey := fontKeyOf (fontFamily span) (fontStyle span) (fontWeight span) in
  match loadedFontsMap !! fontKey with
  | Some font => loaded font
  | None => ready doc
  end.

(** ** Dependency aggregator *)

(** The map filled by [document.fonts.forEach]: a later face replaces an
    earlier one with the same key. *)
Definition loadedFontsOf (doc : Document) : gmap string FontFace :=
  fold_left (fun m font => <[fontKeyOf (family font) (style font) (weight font) := font]> m)
            (fonts doc) ∅.

(** Pushes the result of [f] on every item, in order, onto the array. *)
Fixpoint pushEach {A} (f : A -> M nat) (items : list A) (acc : list nat)
  : M (list nat) :=
  match items with
  | [] => ret acc
  | x :: rest => p <- f x ;; pushEach f rest (acc ++ [p])
  end.

(** The three loops of [loadElementResources]: the array
    [loadingPromises] when [Promise.all] is reached. *)
Definition collectLoadingPromises (doc : Document) (element : Node) : M (list nat) :=
  let images := getElementsByTagName element "img" in
  acc <- pushEach (fun e => loadImage (fst e)) images [] ;;
  let videos := getElementsByTagName element "video" in
  acc <- pushEach (fun e => loadVideo (fst e)) videos acc ;;
  let loadedFonts := loadedFontsOf doc in
  let spans := getElementsByTagName element "span" in
  pushEach (fun e => ret (loadFonts doc (fst e) loadedFonts)) spans acc.

(** [loadElementResources] is an async function: its promise is created
    on entry and resolved with the promise that [Promise.all] returns. *)
Definition loadElementResources (doc : Document) (element : Node) : M nat :=
  result <- newPromise ;;
  loadingPromises <- collectLoadingPromises doc element ;;
  all <- promiseAll loadingPromises ;;
  resolveWithThenable result all ;;;
  ret result.

(** ** Animation dispatcher *)

(** [requestAnimationFrameAndStart] of the dispatcher. *)
Definition requestAnimationFrameAndStart (element : nat) : M unit :=
  requestAnimationFrame (CbAnimationStart element).

(** [startAnimationForElement] is an async function: it returns its
    promise, fulfilled when the body ends and rejected when the body
    throws.  The recursive call on the first element child is not
    awaited.  A node that is not an element has no [classList], so the
    first statement throws. *)
Fixpoint startAnimationForElement (doc : Document) (element : Node) : M nat :=
  match element with
  | ElementNode props childNodes =>
      result <- newPromise ;;
      let isAnimated := classListContains props "animated" in
      if isAnimated && hasDependencies element then
        resources <- loadElementResources doc element ;;
        performThen resources
          {| onFulfilled := CbAsyncResume (eid props) result;
             onRejected := CbAsyncThrow result |} ;;;
        ret result
      else if isAnimated then
        requestAnimationFrameAndStart (eid props) ;;;
        resolvePromise result ;;;
        ret result
      else
        (fix firstElementChild (l : list Node) : M nat :=
           match l with
           | [] => resolvePromise result ;;; ret result
           | (ElementNode _ _ as child) :: _ =>
               startAnimationForElement doc child ;;;
               resolvePromise result ;;;
               ret result
           | _ :: rest => firstElementChild rest
           end) childNodes
  | _ =>
      result <- newPromise ;;
      rejectPromise result ;;;
      ret result
  end.

(** ** What the host does between two runs of the script *)

Inductive Event :=
| EvDom (target : nat) (type : string)  (* an event is fired at an element *)
| EvFontFace (i : nat) (ok : bool)      (* face [i] of document.fonts loads or fails *)
| EvFontsReady                          (* document.fonts.ready is fulfilled *)
| EvAnimationFrame                      (* the frame callbacks are run *)
| EvMicrotask.                          (* the oldest queued job is run *)

Definition listenerMatches (target : nat) (type : string)
    (l : nat * string * Callback) : bool :=
  Nat.eqb (fst (fst l)) target && String.eqb (snd (fst l)) type.

Definition dispatchEvent (target : nat) (type : string) : M unit := fun w =>
  forEach (fun l => runCallback (snd l))
          (List.filter (listenerMatches target type) (listeners w)) w.

Definition runAnimationFrame : M unit := fun w =>
  forEach runCallback (animationFrameCallbacks w)
          (setAnimationFrameCallbacks [] w).

Definition runMicrotask : M unit := fun w =>
  match microtasks w with
  | [] => (tt, w)
  | j :: rest => runJob j (setMicrotasks rest w)
  end.

Definition step (doc : Document) (ev : Event) : M unit :=
  match ev with
  | EvDom target type => dispatchEvent target type
  | EvFontFace i ok =>
      match fonts doc !! i with
      | Some font => settle (if ok then Fulfilled else Rejected) (loaded font)
      | None => ret tt
      end
  | EvFontsReady => resolvePromise (ready doc)
  | EvAnimationFrame => runAnimationFrame
  | EvMicrotask => runMicrotask
  end.

(** What happens on the page: the observer hands an element to the
    dispatcher, or the host does something. *)
Inductive Action :=
| ActStart (element : Node)
| ActEvent (ev : Event).

Definition perform (doc : Document) (a : Action) (w : World) : World :=
  match a with
  | ActStart element => exec (startAnimationForElement doc element) w
  | ActEvent ev => exec (step doc ev) w
  end.

Definition performAll (doc : Document) (acts : list Action) (w : World) : World :=
  fold_left (fun w a => perform doc a w) acts w.

(** The page before the script has run: only the promises of the host
    exist, in whatever state they are. *)
Definition initialWorld (hostPromises : list PromiseState) : World :=
  {| heap := List.map (fun s => {| state := s; reactions := [] |}) hostPromises;
     allRecords := ∅; listeners := []; loadingAttr := ∅; microtasks := [];
     animationFrameCallbacks := []; animationPlayState := ∅ |}.

(** The promises of a document are host promises of the page. *)
Definition documentOk (doc : Document) (hostPromises : list PromiseState) : Prop :=
  ready doc < List.length hostPromises /\
  Forall (fun font => loaded font < List.length hostPromises /\ loaded font <> ready doc)
         (fonts doc).

(** ** Well-formed worlds *)

(** The promise a closure captures, if any. *)
Definition callbackPromise (cb : Callback) : option nat :=
  match cb with
  | CbResolve p | CbReject p | CbResolveFunction p | CbRejectFunction p
  | CbAllResolveElement p _ | CbAsyncResume _ p | CbAsyncThrow p => Some p
  | CbAnimationStart _ => None
  end.

(** A closure captures only promises that exist when there are [n]. *)
Definition callbackBelow (n : nat) (cb : Callback) : Prop :=
  match callbackPromise cb with
  | Some p => p < n
  | None => True
  end.

Definition listenersBelow (n : nat) (w : World) : Prop :=
  Forall (fun l => callbackBelow n (snd l)) (listeners w).

(** The world after a wait that has to listen: the new pending promise
    and the two listeners after those already there. *)
Definition listeningWorld (target : nat) (okType : string) (p : nat) (w : World) : World :=
  setListeners (listeners w ++ [(target, okType, CbResolve p); (target, "error", CbReject p)])
    (setHeap (heap w ++ [ {| state := Pending; reactions := [] |} ]) w).

(** The face a font key names in [document.fonts]: the last one with
    that key, since a later [set] replaces an earlier one. *)
Definition fontKeyOfFace (font : FontFace) : string :=
  fontKeyOf (family font) (style font) (weight font).

Definition faceFor (doc : Document) (key : string) : option FontFace :=
  List.find (fun font => String.eqb (fontKeyOfFace font) key) (List.rev (fonts doc)).

(** ** The record of what the dispatcher has started *)

(** One run of the first branch of the dispatcher: the element, the
    promise the run returns, the promise of [loadElementResources], the
    array [loadingPromises] and the promise of [Promise.all]. *)
Record Instance := {
  iElement : nat;
  iResult : nat;
  iResources : nat;
  iMembers : list nat;
  iAll : nat;
}.

(** A run of the first branch, or of the second, which asks for the
    frame at once. *)
Inductive Entry :=
| Armed (inst : Instance)
| Immediate (element : nat).

(** The entries one call of [startAnimationForElement] adds, read off
    the world it is called in: the call descends through first element
    children until an animated element or a leaf. *)
Fixpoint entriesOf (doc : Document) (element : Node) (w : World) : list Entry :=
  match element with
  | ElementNode props childNodes =>
      let result := length (heap w) in
      let w1 := snd (newPromise w) in
      let isAnimated := classListContains props "animated" in
      if isAnimated && hasDependencies element then
        let w2 := snd (newPromise w1) in
        let '(members, w3) := collectLoadingPromises doc element w2 in
        [Armed {| iElement := eid props; iResult := result;
                  iResources := S result; iMembers := members;
                  iAll := length (heap w3) |}]
      else if isAnimated then [Immediate (eid props)]
      else
        (fix firstElementChild (l : list Node) : list Entry :=
           match l with
           | [] => []
           | (ElementNode _ _ as child) :: _ => entriesOf doc child w1
           | _ :: rest => firstElementChild rest
           end) childNodes
  | _ => []
  end.

(** The entries of a whole history, the latest first, and the world it
    leads to. *)
Fixpoint history (doc : Document) (acts : list Action) (w : World)
  : list Entry * World :=
  match acts with
  | [] => ([], w)
  | a :: rest =>
      let new :=
        match a with
        | ActStart element => entriesOf doc element w
        | ActEvent _ => []
        end in
      let '(log, w') := history doc rest (perform doc a w) in
      (log ++ new, w')
  end.

Definition logOf (doc : Document) (acts : list Action) (w : World) : list Entry :=
  fst (history doc acts w).

(** Every promise of the array is fulfilled. *)
Definition allFulfilled (w : World) (members : list nat) : Prop :=
  Forall (fun m => stateOf w m = Fulfilled) members.

(** The dispatcher has been through a branch that starts [element]: the
    second branch, or the first with every wait of the run fulfilled. *)
Definition releasedBy (w : World) (element : nat) (entry : Entry) : Prop :=
  match entry with
  | Immediate e => e = element
  | Armed inst => iElement inst = element /\ allFulfilled w (iMembers inst)
  end.

(** The reactions the script and the machinery register. *)
Definition allReaction (all index : nat) : Reaction :=
  {| onFulfilled := CbAllResolveElement all index; onRejected := CbRejectFunction all |}.

Definition thenableReaction (p : nat) : Reaction :=
  {| onFulfilled := CbResolveFunction p; onRejected := CbRejectFunction p |}.

Definition awaitReaction (element result : nat) : Reaction :=
  {| onFulfilled := CbAsyncResume element result; onRejected := CbAsyncThrow result |}.

(** ** The invariant of the page *)

Section Invariant.
Variable h : nat.              (* the promises below [h] are the host's *)
Variable log : list Entry.
Variable w : World.

Definition armed (inst : Instance) : Prop := In (Armed inst) log.

(** The promises of a run were created in the order result, resources,
    waits, aggregate; a member is a wait of the run or a host promise. *)
Definition instBounds (inst : Instance) : Prop :=
  h <= iResult inst /\ iResources inst = S (iResult inst) /\
  iResources inst < iAll inst /\ iAll inst < length (heap w) /\
  Forall (fun m => m < h \/ (iResources inst < m /\ m < iAll inst)) (iMembers inst).

Definition apart (i1 i2 : Instance) : Prop :=
  i1 = i2 \/ iAll i1 < iResult i2 \/ iAll i2 < iResult i1.

(** A promise the machinery settles itself. *)
Definition internal (x : nat) : Prop :=
  exists inst, armed inst /\
    (x = iResult inst \/ x = iResources inst \/ x = iAll inst).

Definition started (e : nat) : Prop :=
  In (Immediate e) log \/
  exists inst, armed inst /\ iElement inst = e /\
               stateOf w (iResources inst) = Fulfilled.

Definition recordOk (inst : Instance) : Prop :=
  exists r, allRecords w !! iAll inst = Some r /\
    length (values r) = length (iMembers inst) /\
    remainingElementsCount r = length (List.filter negb (values r)) /\
    (forall i, values r !! i = Some true ->
       exists m, iMembers inst !! i = Some m /\ stateOf w m = Fulfilled).

Definition chainOk (inst : Instance) : Prop :=
  (stateOf w (iAll inst) = Fulfilled -> allFulfilled w (iMembers inst)) /\
  (stateOf w (iResources inst) = Fulfilled -> stateOf w (iAll inst) = Fulfilled) /\
  (stateOf w (iResult inst) = Fulfilled -> stateOf w (iResources inst) = Fulfilled) /\
  (stateOf w (iAll inst) = Rejected ->
     exists m, In m (iMembers inst) /\ stateOf w m = Rejected) /\
  (stateOf w (iResources inst) = Rejected -> stateOf w (iAll inst) = Rejected) /\
  (stateOf w (iResult inst) = Rejected -> stateOf w (iResources inst) = Rejected).

Definition jobOk (j : Job) : Prop :=
  match j with
  | JobReaction (CbAllResolveElement a i) =>
      exists inst m, armed inst /\ iAll inst = a /\
        iMembers inst !! i = Some m /\ stateOf w m = Fulfilled
  | JobReaction (CbRejectFunction x) =>
      exists inst, armed inst /\
        ((iAll inst = x /\ exists m, In m (iMembers inst) /\ stateOf w m = Rejected)
         \/ (iResources inst = x /\ stateOf w (iAll inst) = Rejected))
  | JobReaction (CbResolveFunction x) =>
      exists inst, armed inst /\ iResources inst = x /\
        stateOf w (iAll inst) = Fulfilled
  | JobReaction (CbAsyncResume e s) =>
      exists inst, armed inst /\ iElement inst = e /\ iResult inst = s /\
        stateOf w (iResources inst) = Fulfilled
  | JobReaction (CbAsyncThrow s) =>
      exists inst, armed inst /\ iResult inst = s /\
        stateOf w (iResources inst) = Rejected
  | JobReaction _ => False
  | JobResolveThenable p t =>
      exists inst, armed inst /\ iResources inst = p /\ iAll inst = t
  end.

Definition reactionOk (p : nat) (r : Reaction) : Prop :=
  exists inst, armed inst /\
    ((exists i, r = allReaction (iAll inst) i /\ iMembers inst !! i = Some p)
     \/ (r = thenableReaction (iResources inst) /\ iAll inst = p)
     \/ (r = awaitReaction (iElement inst) (iResult inst) /\ iResources inst = p)).

Definition listenerOk (l : nat * string * Callback) : Prop :=
  exists x, (snd l = CbResolve x \/ snd l = CbReject x) /\
    h <= x /\ x < length (heap w) /\ ~ internal x.

Definition frameOk (cb : Callback) : Prop :=
  exists e, cb = CbAnimationStart e /\ started e.

(** What holds of every world the page can reach: nothing runs ahead
    of what it waits for. *)
Record Safe : Prop := {
  safe_host : h <= length (heap w);
  safe_bounds : forall inst, armed inst -> instBounds inst;
  safe_apart : forall i1 i2, armed i1 -> armed i2 -> apart i1 i2;
  safe_record : forall inst, armed inst -> recordOk inst;
  safe_chain : forall inst, armed inst -> chainOk inst;
  safe_jobs : forall j, In j (microtasks w) -> jobOk j;
  safe_reactions : forall p r, In r (reactionsOf w p) -> reactionOk p r;
  safe_listeners : forall l, In l (listeners w) -> listenerOk l;
  safe_frames : forall cb, In cb (animationFrameCallbacks w) -> frameOk cb;
  safe_play : forall e v, animationPlayState w !! e = Some v ->
                          v = "running" /\ started e;
}.

(** Nothing is lost on the way: what a settled promise owes to the
    next one is done or is in the queue [q]. *)
Variable q : list Job.

Definition filled (inst : Instance) (i : nat) : Prop :=
  exists r, allRecords w !! iAll inst = Some r /\ values r !! i = Some true.

Definition memberLive (inst : Instance) : Prop :=
  forall i m, iMembers inst !! i = Some m ->
    (stateOf w m = Pending ->
       In (allReaction (iAll inst) i) (reactionsOf w m)) /\
    (stateOf w m = Rejected ->
       stateOf w (iAll inst) = Rejected \/
       In (JobReaction (CbRejectFunction (iAll inst))) q) /\
    (stateOf w m = Fulfilled ->
       filled inst i \/ In (JobReaction (CbAllResolveElement (iAll inst) i)) q).

Definition allLive (inst : Instance) : Prop :=
  let following := In (JobResolveThenable (iResources inst) (iAll inst)) q in
  (stateOf w (iAll inst) = Pending ->
     In (thenableReaction (iResources inst)) (reactionsOf w (iAll inst)) \/ following) /\
  (stateOf w (iAll inst) = Rejected ->
     stateOf w (iResources inst) = Rejected \/
     In (JobReaction (CbRejectFunction (iResources inst))) q \/ following) /\
  (stateOf w (iAll inst) = Fulfilled ->
     stateOf w (iResources inst) = Fulfilled \/
     In (JobReaction (CbResolveFunction (iResources inst))) q \/ following) /\
  (forall r, allRecords w !! iAll inst = Some r ->
     remainingElementsCount r = 0 -> stateOf w (iAll inst) = Fulfilled).

Definition resourcesLive (inst : Instance) : Prop :=
  (stateOf w (iResources inst) = Pending ->
     In (awaitReaction (iElement inst) (iResult inst))
        (reactionsOf w (iResources inst))) /\
  (stateOf w (iResources inst) = Rejected ->
     stateOf w (iResult inst) = Rejected \/
     In (JobReaction (CbAsyncThrow (iResult inst))) q) /\
  (stateOf w (iResources inst) = Fulfilled ->
     (stateOf w (iResult inst) = Fulfilled /\
      (In (CbAnimationStart (iElement inst)) (animationFrameCallbacks w) \/
       animationPlayState w !! iElement inst = Some "running")) \/
     In (JobReaction (CbAsyncResume (iElement inst) (iResult inst))) q).

Definition immediateLive (e : nat) : Prop :=
  In (CbAnimationStart e) (animationFrameCallbacks w) \/
  animationPlayState w !! e = Some "running".

Definition Live : Prop :=
  (forall inst, armed inst ->
     memberLive inst /\ allLive inst /\ resourcesLive inst) /\
  (forall e, In (Immediate e) log -> immediateLive e).
End Invariant.

(** The invariant: safety, and liveness with the real queue. *)
Definition Inv (h : nat) (log : list Entry) (w : World) : Prop :=
  Safe h log w /\ Live log w (microtasks w).

(** [w'] comes after [w]: no promise is lost and a settled promise keeps
    its state. *)
Definition later (w w' : World) : Prop :=
  length (heap w) <= length (heap w') /\
  forall p, stateOf w p <> Pending -> stateOf w' p = stateOf w p.

(** The world in which the pending promise [x] has been settled: its
    reactions have moved to the queue. *)
Definition settledWorld (s : PromiseState) (x : nat) (w : World) : World :=
  setMicrotasks (microtasks w ++ List.map (reactionJob s) (reactionsOf w x))
    (setHeap (<[x := {| state := s; reactions := [] |}]> (heap w)) w).

(** The world in which the reaction [r] has been stored on the pending
    promise [x]. *)
Definition thenWorld (x : nat) (r : Reaction) (w : World) : World :=
  setHeap (<[x := {| state := Pending; reactions := reactionsOf w x ++ [r] |}]> (heap w)) w.

(** The world after a resolve element function has filled its position,
    before it looks at the count. *)
Definition filledWorld (a i : nat) (r : AllRecord) (w : World) : World :=
  setAllRecords
    (<[a := {| values := <[i := true]> (values r);
               remainingElementsCount := pred (remainingElementsCount r) |}]>
       (allRecords w)) w.

(** The promises of the document are among the first [h] promises of
    the page, the host's. *)
Definition hostOk (h : nat) (doc : Document) : Prop :=
  ready doc < h /\ Forall (fun font => loaded font < h) (fonts doc).

(** When the machinery may settle [x] to [s]: a promise of a run only as
    the promise before it in the chain allows. *)
Definition settleAllowed (log : list Entry) (w : World) (s : PromiseState) (x : nat)
  : Prop :=
  forall inst, armed log inst ->
    (x = iAll inst ->
       (s = Fulfilled -> allFulfilled w (iMembers inst)) /\
       (s = Rejected -> exists m, In m (iMembers inst) /\ stateOf w m = Rejected)) /\
    (x = iResources inst -> stateOf w (iAll inst) = s) /\
    (x = iResult inst -> stateOf w (iResources inst) = s).

(** The effect of a job is there, so that the queue need not hold it any
    more. *)
Definition jobDone (w : World) (q : list Job) (j : Job) : Prop :=
  match j with
  | JobReaction (CbRejectFunction x) => stateOf w x = Rejected
  | JobReaction (CbResolveFunction x) => stateOf w x = Fulfilled
  | JobReaction (CbAllResolveElement a i) =>
      exists r, allRecords w !! a = Some r /\ values r !! i = Some true
  | JobReaction (CbAsyncResume e s) =>
      stateOf w s = Fulfilled /\ immediateLive w e
  | JobReaction (CbAsyncThrow s) => stateOf w s = Rejected
  | JobReaction _ => True
  | JobResolveThenable p t =>
      (stateOf w t = Pending -> In (thenableReaction p) (reactionsOf w t)) /\
      (stateOf w t = Rejected ->
         stateOf w p = Rejected \/ In (JobReaction (CbRejectFunction p)) q) /\
      (stateOf w t = Fulfilled ->
         stateOf w p = Fulfilled \/ In (JobReaction (CbResolveFunction p)) q)
  end.

(** Induction on a tree whose children are a list of trees: the
    hypothesis for an element holds of every child. *)
Section NodeInduction.
Variable P : Node -> Prop.
Hypothesis Htext : forall d, P (TextNode d).
Hypothesis Hcomment : forall d, P (CommentNode d).
Hypothesis Helement : forall p cs, Forall P cs -> P (ElementNode p cs).

Fixpoint Node_nested_ind (n : Node) : P n :=
  match n with
  | TextNode d => Htext d
  | CommentNode d => Hcomment d
  | ElementNode p cs =>
      Helement p cs
        ((fix all (l : list Node) : Forall P l :=
            match l with
            | [] => @List.Forall_nil _ P
            | c :: rest => @List.Forall_cons _ P c rest (Node_nested_ind c) (all rest)
            end) cs)
  end.
End NodeInduction.

(** A world made from [w] by new promises, listeners on them and writes
    to [loading]: the states and reactions of all promises of [w], its
    records and its queues are as they were. *)
Definition grown (w w' : World) : Prop :=
  length (heap w) <= length (heap w') /\
  (forall p, p < length (heap w) -> stateOf w' p = stateOf w p) /\
  (forall p, p < length (heap w) -> reactionsOf w' p = reactionsOf w p) /\
  (forall p, length (heap w) <= p -> reactionsOf w' p = []) /\
  allRecords w' = allRecords w /\ microtasks w' = microtasks w /\
  animationFrameCallbacks w' = animationFrameCallbacks w /\
  animationPlayState w' = animationPlayState w /\
  exists extra, listeners w' = listeners w ++ extra /\
    Forall (fun l => exists x, (snd l = CbResolve x \/ snd l = CbReject x) /\
                               length (heap w) <= x < length (heap w')) extra.

(** What the loop has done when it ends: the record counts every member,
    every pending member holds its reaction, and the queue holds a job
    for every member that was settled already. *)
Definition allLoopSpec (a : nat) (ms : list nat) (vs : list bool) (n : nat)
    (w w' : World) : Prop :=
  (forall p, stateOf w' p = stateOf w p) /\
  length (heap w') = length (heap w) /\
  allRecords w' =
    <[a := {| values := vs ++ replicate (length ms) false;
              remainingElementsCount := n + length ms |}]> (allRecords w) /\
  listeners w' = listeners w /\
  animationFrameCallbacks w' = animationFrameCallbacks w /\
  animationPlayState w' = animationPlayState w /\
  (forall p r, In r (reactionsOf w' p) ->
     In r (reactionsOf w p) \/
     exists k, ms !! k = Some p /\ r = allReaction a (length vs + k)) /\
  (forall p r, In r (reactionsOf w p) -> In r (reactionsOf w' p)) /\
  (forall k p, ms !! k = Some p -> stateOf w p = Pending -> p < length (heap w) ->
     In (allReaction a (length vs + k)) (reactionsOf w' p)) /\
  exists new, microtasks w' = microtasks w ++ new /\
    (forall j, In j new ->
       exists k m, ms !! k = Some m /\ stateOf w m <> Pending /\
         j = reactionJob (stateOf w m) (allReaction a (length vs + k))) /\
    (forall k m, ms !! k = Some m -> stateOf w m <> Pending -> m < length (heap w) ->
       In (reactionJob (stateOf w m) (allReaction a (length vs + k))) new).

(** What the first branch of the dispatcher does once the array
    [loadingPromises] is built. *)
Definition armTail (element result resources : nat) (members : list nat) : M unit :=
  all <- promiseAll members ;;
  resolveWithThenable resources all ;;;
  performThen resources (awaitReaction element result).

Definition armSpec (e s r : nat) (ms : list nat) (w w' : World) : Prop :=
  let a := length (heap w) in
  length (heap w') = S a /\
  (forall p, p <> a -> stateOf w' p = stateOf w p) /\
  stateOf w' a = match ms with [] => Fulfilled | _ => Pending end /\
  allRecords w' =
    <[a := {| values := replicate (length ms) false;
              remainingElementsCount := length ms |}]> (allRecords w) /\
  listeners w' = listeners w /\
  animationFrameCallbacks w' = animationFrameCallbacks w /\
  animationPlayState w' = animationPlayState w /\
  (forall p x, In x (reactionsOf w' p) ->
     In x (reactionsOf w p) \/
     (exists k, ms !! k = Some p /\ x = allReaction a k) \/
     (p = r /\ x = awaitReaction e s)) /\
  (forall p x, In x (reactionsOf w p) -> In x (reactionsOf w' p)) /\
  (forall k p, ms !! k = Some p -> stateOf w p = Pending ->
     In (allReaction a k) (reactionsOf w' p)) /\
  In (awaitReaction e s) (reactionsOf w' r) /\
  exists new, microtasks w' = microtasks w ++ new /\
    In (JobResolveThenable r a) new /\
    (forall j, In j new ->
       j = JobResolveThenable r a \/
       exists k m, ms !! k = Some m /\ stateOf w m <> Pending /\
         j = reactionJob (stateOf w m) (allReaction a k)) /\
    (forall k m, ms !! k = Some m -> stateOf w m <> Pending ->
       In (reactionJob (stateOf w m) (allReaction a k)) new).

(** What the induction on the tree carries: the invariant with the
    entries of the call, which all come after the promises there were. *)
Definition startOk (h : nat) (doc : Document) (element : Node) : Prop :=
  forall L w, Inv h L w ->
    Inv h (entriesOf doc element w ++ L) (exec (startAnimationForElement doc element) w) /\
    forall inst, In (Armed inst) (entriesOf doc element w) ->
                 length (heap w) <= iResult inst.

(** The third branch: the search for the first element child. *)
Definition firstChildStart (doc : Document) (result : nat) : list Node -> M nat :=
  fix firstElementChild (l : list Node) : M nat :=
    match l with
    | [] => resolvePromise result ;;; ret result
    | (ElementNode _ _ as child) :: _ =>
        startAnimationForElement doc child ;;;
        resolvePromise result ;;;
        ret result
    | _ :: rest => firstElementChild rest
    end.

Definition firstChildEntries (doc : Document) (w1 : World) : list Node -> list Entry :=
  fix firstElementChild (l : list Node) : list Entry :=
    match l with
    | [] => []
    | (ElementNode _ _ as child) :: _ => entriesOf doc child w1
    | _ :: rest => firstElementChild rest
    end.

(** No settled promise changes and no play state is touched. *)
Definition quiet (w w' : World) : Prop :=
  later w w' /\ animationPlayState w' = animationPlayState w.

Definition quietM {A} (c : M A) : Prop := forall w, quiet w (exec c w).

(** No settled promise changes and no running animation stops. *)
Definition keeps (w w' : World) : Prop :=
  later w w' /\
  forall e, animationPlayState w !! e = Some "running" ->
            animationPlayState w' !! e = Some "running".

(** What is left to do: a job that follows a thenable may queue one
    more job, a pending promise may be settled once and then queues a
    job for each of its reactions. *)
Definition jobWeight (j : Job) : nat :=
  match j with
  | JobReaction _ => 1
  | JobResolveThenable _ _ => 2
  end.

Definition promiseWeight (pr : Promise) : nat :=
  match state pr with
  | Pending => S (length (reactions pr))
  | _ => 0
  end.

Definition pendingWork (w : World) : nat :=
  list_sum (List.map jobWeight (microtasks w)) +
  list_sum (List.map promiseWeight (heap w)).

(** [n] turns of the job queue. *)
Definition microtaskTurns (n : nat) : list Action :=
  repeat (ActEvent EvMicrotask) n.

(** The first [n] promises are as they were. *)
Definition oldKept (n : nat) (w w' : World) : Prop :=
  length (heap w) <= length (heap w') /\
  forall p, p < n -> stateOf w' p = stateOf w p.

Definition keepsOld {A} (n : nat) (c : M A) : Prop :=
  forall w, n <= length (heap w) -> oldKept n w (exec c w).

(** The page after [acts], from the host promises [hs]. *)
Definition reach (doc : Document) (hs : list PromiseState) (acts : list Action) : World :=
  performAll doc acts (initialWorld hs).

Definition reachLog (doc : Document) (hs : list PromiseState) (acts : list Action)
  : list Entry :=
  logOf doc acts (initialWorld hs).

Definition entryElement (entry : Entry) : nat :=
  match entry with
  | Armed inst => iElement inst
  | Immediate e => e
  end.

(** What a call of the dispatcher on an animated element with
    dependencies makes, in the world [w] of the call: the promise of
    [loadElementResources], the array [loadingPromises] and the promise
    of [Promise.all]. *)
Definition resourcesOf (doc : Document) (element : Node) (w : World) : nat :=
  fst (loadElementResources doc element (snd (newPromise w))).

Definition joinSet (doc : Document) (element : Node) (w : World) : list nat :=
  fst (collectLoadingPromises doc element (snd (newPromise (snd (newPromise w))))).

Definition aggregateOf (doc : Document) (element : Node) (w : World) : nat :=
  let '(members, w3) :=
    collectLoadingPromises doc element (snd (newPromise (snd (newPromise w)))) in
  fst (promiseAll members w3).

Definition runOf (doc : Document) (props : ElementProps) (cs : list Node) (w : World)
  : Instance :=
  let element := ElementNode props cs in
  {| iElement := eid props;
     iResult := fst (startAnimationForElement doc element w);
     iResources := resourcesOf doc element w;
     iMembers := joinSet doc element w;
     iAll := aggregateOf doc element w |}.

(** The log holds no other call that starts the element of [inst]. *)
Definition dispatchedOnce (log : list Entry) (inst : Instance) : Prop :=
  forall entry, In entry log -> entryElement entry = iElement inst -> entry = Armed inst.

(** ** A page to run the script on *)

(** One face in [document.fonts]; promise 0 is [document.fonts.ready]
    and promise 1 the [loaded] promise of the face. *)
Definition arialFace : FontFace :=
  {| family := "Arial"; style := "normal"; weight := "400"; loaded := 1 |}.

Definition pageDocument : Document := {| fonts := [arialFace]; ready := 0 |}.

Definition pageHost : list PromiseState := [Pending; Pending].

Definition plainElement (id : nat) (name : string) (classes : list string)
  : ElementProps :=
  {| eid := id; localName := name; classList := classes; complete := false;
     readyState := 0; poster := EmptyString; fontFamily := "Arial";
     fontStyle := "normal"; fontWeight := "400" |}.

(** [<div class="animated"><img><img><span>Hi</span></div>]: neither
    image is loaded. *)
Definition galleryProps : ElementProps := plainElement 20 "div" ["animated"].

Definition galleryChildren : list Node :=
  [ ElementNode (plainElement 21 "img" []) [];
    ElementNode (plainElement 22 "img" []) [];
    ElementNode (plainElement 23 "span" []) [TextNode "Hi"] ].

Definition gallery : Node := ElementNode galleryProps galleryChildren.

(** [<div class="animated">Hello</div>] *)
Definition captionProps : ElementProps := plainElement 30 "div" ["animated"].

Definition captionChildren : list Node := [TextNode "Hello"].

Definition caption : Node := ElementNode captionProps captionChildren.

(** The gallery is started, the first image fails, the queue runs. *)
Definition failingHistory : list Action :=
  ActStart gallery :: ActEvent (EvDom 21 "error") :: microtaskTurns 4.

(** The gallery is started, the face fails, the queue runs. *)
Definition fontFailingHistory : list Action :=
  ActStart gallery :: ActEvent (EvFontFace 0 false) :: microtaskTurns 4.


(** [<div><div class="animated">...</div></div>]: a container that is
    not animated and whose first element child is the gallery. *)
Definition outerContainer : Node := ElementNode (plainElement 10 "div" []) [gallery].

(** The outer container is started, which starts the gallery, and the
    first image fails; then the gallery is started as a container of its
    own, both images and the face load, the queue runs and a frame
    comes. *)
Definition secondCallHistory : list Action :=
  ActStart outerContainer :: ActEvent (EvDom 21 "error") :: microtaskTurns 4 ++
  ActStart gallery :: ActEvent (EvDom 21 "load") :: ActEvent (EvDom 22 "load") ::
  ActEvent (EvFontFace 0 true) :: microtaskTurns 8 ++ [ActEvent EvAnimationFrame].

(** ** The viewport observer *)

(** An element as the observer holds it: its properties and children. *)
Definition Target : Type := ElementProps * list Node.

Definition targetId (t : Target) : nat := eid (fst t).

Definition targetNode (t : Target) : Node := ElementNode (fst t) (snd t).

Record IntersectionObserverEntry := {
  target : Target;
  isIntersecting : bool;
  intersectionRatio : Q;
}.

(** What the browser keeps for an observed target: the outcome of its
    last observation, [-1] and [false] before the first. *)
Record Registration := {
  observed : Target;
  previousThresholdIndex : Z;
  previousIsIntersecting : bool;
}.

Record IntersectionObserver := {
  thresholds : list Q;
  registrations : list Registration;
  queuedEntries : list IntersectionObserverEntry;
}.

(** The page: the world of promises and listeners, and the observer the
    script has made, if any. *)
Record Page := {
  world : World;
  intersectionObserver : option IntersectionObserver;
}.

Definition sameTarget (t : Target) (r : Registration) : bool :=
  Nat.eqb (targetId (observed r)) (targetId t).

(** [new IntersectionObserver(callback, {threshold})] *)
Definition newIntersectionObserver (threshold : Q) : IntersectionObserver :=
  {| thresholds := [threshold]; registrations := []; queuedEntries := [] |}.

(** [observer.observe(target)]: a target is registered once. *)
Definition observe (t : Target) (o : IntersectionObserver) : IntersectionObserver :=
  if existsb (sameTarget t) (registrations o) then o
  else {| thresholds := thresholds o;
          registrations := registrations o ++
            [{| observed := t; previousThresholdIndex := -1;
                previousIsIntersecting := false |}];
          queuedEntries := queuedEntries o |}.

(** [observer.unobserve(target)]: the registration goes, the entries
    already queued stay. *)
Definition unobserve (t : Target) (o : IntersectionObserver) : IntersectionObserver :=
  {| thresholds := thresholds o;
     registrations := List.filter (fun r => negb (sameTarget t r)) (registrations o);
     queuedEntries := queuedEntries o |}.

(** [observeAndAnimate], given the result of
    [document.querySelectorAll(".animation_container")]. *)
Definition observeAndAnimate (animationContainers : list Target) (p : Page) : Page :=
  if Nat.eqb (length animationContainers) 0 then p
  else
    {| world := world p;
       intersectionObserver :=
         Some (fold_left (fun o container => observe container o) animationContainers
                 (newIntersectionObserver (1 # 100))) |}.

(** The callback of the observer: the targets the dispatcher is called
    on, in order, and the observer after the calls of [unobserve]. *)
Fixpoint observerCallback (entries : list IntersectionObserverEntry)
    (o : IntersectionObserver) : list Target * IntersectionObserver :=
  match entries with
  | [] => ([], o)
  | entry :: rest =>
      if negb (isIntersecting entry) then observerCallback rest o
      else
        let '(calls, o') := observerCallback rest (unobserve (target entry) o) in
        (target entry :: calls, o')
  end.

(** *** The browser's side *)

(** Where an element is: whether it meets the viewport, and how much of
    its area does. *)
Definition Geometry : Type := nat -> bool * Q.

(** The index of the first threshold above the ratio, or their number. *)
Fixpoint thresholdIndexFrom (i : Z) (ts : list Q) (ratio : Q) : Z :=
  match ts with
  | [] => i
  | t :: rest =>
      if Qle_bool t ratio then thresholdIndexFrom (i + 1) rest ratio else i
  end.

(** One target in the update of the intersection observations: an entry
    is queued when the threshold index or the intersecting flag has
    changed. *)
Definition observeTarget (ts : list Q) (g : Geometry) (r : Registration)
  : Registration * list IntersectionObserverEntry :=
  let '(intersects, area) := g (targetId (observed r)) in
  let ratio := if intersects then area else 0%Q in
  let thresholdIndex := thresholdIndexFrom 0 ts ratio in
  if Z.eqb thresholdIndex (previousThresholdIndex r) &&
     Bool.eqb intersects (previousIsIntersecting r)
  then (r, [])
  else ({| observed := observed r; previousThresholdIndex := thresholdIndex;
           previousIsIntersecting := intersects |},
        [{| target := observed r; isIntersecting := intersects;
            intersectionRatio := ratio |}]).

Definition updateIntersectionObservations (g : Geometry) (o : IntersectionObserver)
  : IntersectionObserver :=
  let results := List.map (observeTarget (thresholds o) g) (registrations o) in
  {| thresholds := thresholds o;
     registrations := List.map fst results;
     queuedEntries := queuedEntries o ++ List.flat_map snd results |}.

(** The task that notifies the observer: the callback gets the queued
    entries, if there are any. *)
Definition notifyIntersectionObserver (doc : Document) (p : Page) : list Target * Page :=
  match intersectionObserver p with
  | None => ([], p)
  | Some o =>
      match queuedEntries o with
      | [] => ([], p)
      | entries =>
          let '(calls, o') :=
            observerCallback entries
              {| thresholds := thresholds o; registrations := registrations o;
                 queuedEntries := [] |} in
          (calls,
           {| world := performAll doc (List.map (fun t => ActStart (targetNode t)) calls)
                         (world p);
              intersectionObserver := Some o' |})
      end
  end.

(** What happens on a page with the observer. *)
Inductive PageEvent :=
| PeHost (ev : Event)            (* an event of the promises and listeners *)
| PeUpdate (g : Geometry)        (* the intersection observations are updated *)
| PeNotify.                      (* the observer is notified *)

Definition pageStep (doc : Document) (ev : PageEvent) (p : Page) : list Target * Page :=
  match ev with
  | PeHost e =>
      ([], {| world := exec (step doc e) (world p);
              intersectionObserver := intersectionObserver p |})
  | PeUpdate g =>
      ([], {| world := world p;
              intersectionObserver :=
                option_map (updateIntersectionObservations g) (intersectionObserver p) |})
  | PeNotify => notifyIntersectionObserver doc p
  end.

(** The calls of the dispatcher the observer makes in a run, in order,
    and the page after the run. *)
Fixpoint pageRun (doc : Document) (evs : list PageEvent) (p : Page)
  : list Target * Page :=
  match evs with
  | [] => ([], p)
  | ev :: rest =>
      let '(calls1, p1) := pageStep doc ev p in
      let '(calls2, p2) := pageRun doc rest p1 in
      (calls1 ++ calls2, p2)
  end.

(** Every update is followed by a notification before the next update:
    [queued] tells whether an update is waiting for its notification. *)
Fixpoint promptly (queued : bool) (evs : list PageEvent) : bool :=
  match evs with
  | [] => true
  | PeHost _ :: rest => promptly queued rest
  | PeUpdate _ :: rest => negb queued && promptly true rest
  | PeNotify :: rest => promptly false rest
  end.

(** A page on which the script has not run yet. *)
Definition freshPage (w : World) : Page := {| world := w; intersectionObserver := None |}.

(** The gallery fills half of the viewport, or is out of it. *)
Definition inView : Geometry := fun _ => (true, 1 # 2).

Definition outOfView : Geometry := fun _ => (false, 0%Q).

Definition galleryTarget : Target := (galleryProps, galleryChildren).

(** The elements an observer watches, and those its queued entries are
    about. *)
Definition regIds (o : IntersectionObserver) : list nat :=
  List.map (fun r => targetId (observed r)) (registrations o).

Definition entryIds (entries : list IntersectionObserverEntry) : list nat :=
  List.map (fun e => targetId (target e)) entries.

(** What holds of the observer of a page while updates and
    notifications alternate: [cs] are the elements the dispatcher has been
    called on. *)
Definition observerOk (cs : list nat) (queued : bool) (p : Page) : Prop :=
  NoDup cs /\
  match intersectionObserver p with
  | None => True
  | Some o =>
      NoDup (regIds o) /\ (forall i, In i (regIds o) -> ~ In i cs) /\
      NoDup (entryIds (queuedEntries o)) /\
      (forall i, In i (entryIds (queuedEntries o)) -> ~ In i cs) /\
      (queued = false -> queuedEntries o = [])
  end.

(** The events of a run that are not the observer's. *)
Definition hostActions (evs : list PageEvent) : list Action :=
  List.flat_map (fun ev => match ev with PeHost e => [ActEvent e] | _ => [] end) evs.

(** What holds of the observer in every run: it watches elements of
    [base] the dispatcher has not been called on, with the thresholds
    [ts]. *)
Definition watchOk (base cs : list nat) (ts : list Q) (p : Page) : Prop :=
  match intersectionObserver p with
  | None => True
  | Some o =>
      thresholds o = ts /\
      (forall i, In i (regIds o) -> In i base /\ ~ In i cs) /\
      (forall i, In i (entryIds (queuedEntries o)) -> In i base)
  end.

(** The element the dispatcher ends on: the first animated element on
    the chain of first element children, if there is one. *)
Fixpoint firstAnimated (element : Node) : option (ElementProps * list Node) :=
  match element with
  | ElementNode props childNodes =>
      if classListContains props "animated" then Some (props, childNodes)
      else
        (fix firstElementChild (l : list Node) : option (ElementProps * list Node) :=
           match l with
           | [] => None
           | (ElementNode _ _ as child) :: _ => firstAnimated child
           | _ :: rest => firstElementChild rest
           end) childNodes
  | _ => None
  end.

(** [<div class="animated"></div>]: nothing to wait for. *)
Definition spinnerProps : ElementProps := plainElement 40 "div" ["animated"].

Definition spinner : Node := ElementNode spinnerProps [].

(** [<section><div><div class="animated"></div></div><div class="animated">
    Hi</div></section>]: the spinner is on the chain of first element
    children, the caption is not. *)
Definition nestedPage : Node :=
  ElementNode (plainElement 50 "section" [])
    [ TextNode " ";
      ElementNode (plainElement 51 "div" []) [spinner];
      caption ].

(** [<div class="animated"><img><video poster="cover.png"></video></div>]
    with the image loaded: nothing is left to wait for. *)
Definition cachedProps : ElementProps := plainElement 60 "div" ["animated"].

Definition cachedChildren : list Node :=
  [ ElementNode {| eid := 61; localName := "img"; classList := []; complete := true;
                   readyState := 0; poster := EmptyString; fontFamily := "Arial";
                   fontStyle := "normal"; fontWeight := "400" |} [];
    ElementNode {| eid := 62; localName := "video"; classList := []; complete := false;
                   readyState := 0; poster := "cover.png"; fontFamily := "Arial";
                   fontStyle := "normal"; fontWeight := "400" |} [] ].

Definition cached : Node := ElementNode cachedProps cachedChildren.

(** ** A font that fails *)



(** ** The calls on the elements of one document *)




(** ** The start-up scripts: executor, resize handler, debounce *)

(** [Number.MAX_VALUE], the default priority: the largest finite double.
    Priorities are taken to be integers, on which the comparator
    [a.priority - b.priority] has the sign of the comparison on [Z]. *)
Definition Number_MAX_VALUE : Z := ((2 ^ 53 - 1) * 2 ^ 971)%Z.

(** The options object of [runOnResize]. *)
Record ResizeOptions : Type := {
  options_runOnLoad : bool;
  options_runOnWidthChange : bool;
  options_runOnHeightChange : bool;
  options_priority : Z;
}.

(** The options object a caller of [setupDebouncedResizeHandler] writes:
    every property may be left out. *)
Record GivenOptions : Type := {
  given_runOnLoad : option bool;
  given_runOnWidthChange : option bool;
  given_runOnHeightChange : option bool;
  given_priority : option Z;
}.

(** A function of the page, as far as the classes of the first script
    can tell functions apart: it has a label, written to [ran] when it is
    called, and while it runs it hands functions over, in this order, to
    [executeWhenReady], with a priority or without, or to
    [setupDebouncedResizeHandler] (as the callback of the menu script
    does). *)
Inductive Callable : Type :=
| callable (label : nat) (calls : list Statement)
with Statement : Type :=
| CallExecuteWhenReady (c : Callable) (p : option Z)
| CallSetupDebouncedResizeHandler (c : Callable) (given : GivenOptions).

(** [{ callback, priority }], an entry of [this.callbacks]. *)
Record CallbackWithPriority : Type := {
  callback : Callable;
  priority : Z;
}.

(** [{ callback, options, executed }], an entry of
    [this.resizeCallbacks]. The object is mutable and the array is sorted
    in place: [resizeCallback_id] is the identity of the object, the
    number of entries the array had when the object was made. *)
Record ResizeCallback : Type := {
  resizeCallback_id : nat;
  resizeCallback_callback : Callable;
  resizeCallback_options : ResizeOptions;
  resizeCallback_executed : bool;
}.

Record ResizeHandler : Type := {
  resizeCallbacks : list ResizeCallback;
  previousWindowWidth : Z;
  previousWindowHeight : Z;
}.

(** A timer of the host: its handle, the time from which it may run and
    the arguments its function was made with. *)
Record Timeout (A : Type) : Type := {
  timeoutHandle : nat;
  due : nat;
  timeoutArguments : A;
}.
Arguments timeoutHandle {A} _.
Arguments due {A} _.
Arguments timeoutArguments {A} _.

(** The timers of the host: the time in milliseconds, the next handle
    and the timers that have neither run nor been cleared. *)
Record Clock (A : Type) : Type := {
  time : nat;
  nextHandle : nat;
  timeouts : list (Timeout A);
}.
Arguments time {A} _.
Arguments nextHandle {A} _.
Arguments timeouts {A} _.

(** The window, as the first script uses it. The two slots
    [window.canva_scriptExecutor] and [window.canva_debounceResize] are
    written once; the listeners the constructors register are counted.
    [timeoutId] is the variable of the debounced listener. *)
Record Window : Type := {
  readyStateLoading : bool;
  canva_scriptExecutor : option (list CallbackWithPriority);
  domContentLoadedListeners : nat;
  canva_debounceResize : option ResizeHandler;
  resizeListeners : nat;
  timeoutId : option nat;
  clock : Clock unit;
  clientWidth : Z;
  innerHeight : Z;
  ran : list nat;
}.

Definition setReadyStateLoading (b : bool) (w : Window) : Window :=
  {| readyStateLoading := b; canva_scriptExecutor := canva_scriptExecutor w;
     domContentLoadedListeners := domContentLoadedListeners w;
     canva_debounceResize := canva_debounceResize w;
     resizeListeners := resizeListeners w; timeoutId := timeoutId w; clock := clock w;
     clientWidth := clientWidth w; innerHeight := innerHeight w; ran := ran w |}.

Definition setScriptExecutor (e : option (list CallbackWithPriority)) (w : Window) : Window :=
  {| readyStateLoading := readyStateLoading w; canva_scriptExecutor := e;
     domContentLoadedListeners := domContentLoadedListeners w;
     canva_debounceResize := canva_debounceResize w;
     resizeListeners := resizeListeners w; timeoutId := timeoutId w; clock := clock w;
     clientWidth := clientWidth w; innerHeight := innerHeight w; ran := ran w |}.

Definition addDOMContentLoadedListener (w : Window) : Window :=
  {| readyStateLoading := readyStateLoading w;
     canva_scriptExecutor := canva_scriptExecutor w;
     domContentLoadedListeners := S (domContentLoadedListeners w);
     canva_debounceResize := canva_debounceResize w;
     resizeListeners := resizeListeners w; timeoutId := timeoutId w; clock := clock w;
     clientWidth := clientWidth w; innerHeight := innerHeight w; ran := ran w |}.

Definition setDebounceResize (h : option ResizeHandler) (w : Window) : Window :=
  {| readyStateLoading := readyStateLoading w;
     canva_scriptExecutor := canva_scriptExecutor w;
     domContentLoadedListeners := domContentLoadedListeners w;
     canva_debounceResize := h;
     resizeListeners := resizeListeners w; timeoutId := timeoutId w; clock := clock w;
     clientWidth := clientWidth w; innerHeight := innerHeight w; ran := ran w |}.

Definition addResizeListener (w : Window) : Window :=
  {| readyStateLoading := readyStateLoading w;
     canva_scriptExecutor := canva_scriptExecutor w;
     domContentLoadedListeners := domContentLoadedListeners w;
     canva_debounceResize := canva_debounceResize w;
     resizeListeners := S (resizeListeners w); timeoutId := timeoutId w; clock := clock w;
     clientWidth := clientWidth w; innerHeight := innerHeight w; ran := ran w |}.

Definition setTimer (id : option nat) (k : Clock unit) (w : Window) : Window :=
  {| readyStateLoading := readyStateLoading w;
     canva_scriptExecutor := canva_scriptExecutor w;
     domContentLoadedListeners := domContentLoadedListeners w;
     canva_debounceResize := canva_debounceResize w;
     resizeListeners := resizeListeners w; timeoutId := id; clock := k;
     clientWidth := clientWidth w; innerHeight := innerHeight w; ran := ran w |}.

Definition setSize (width height : Z) (w : Window) : Window :=
  {| readyStateLoading := readyStateLoading w;
     canva_scriptExecutor := canva_scriptExecutor w;
     domContentLoadedListeners := domContentLoadedListeners w;
     canva_debounceResize := canva_debounceResize w;
     resizeListeners := resizeListeners w; timeoutId := timeoutId w; clock := clock w;
     clientWidth := width; innerHeight := height; ran := ran w |}.

Definition setRan (l : list nat) (w : Window) : Window :=
  {| readyStateLoading := readyStateLoading w;
     canva_scriptExecutor := canva_scriptExecutor w;
     domContentLoadedListeners := domContentLoadedListeners w;
     canva_debounceResize := canva_debounceResize w;
     resizeListeners := resizeListeners w; timeoutId := timeoutId w; clock := clock w;
     clientWidth := clientWidth w; innerHeight := innerHeight w; ran := l |}.

(** [array.sort((a, b) => key(a) - key(b))]: the sort of the host is
    stable, so the result is the one of this insertion sort, which puts an
    entry before the first later entry whose key is not smaller. *)
Fixpoint insertBy {A : Type} (key : A -> Z) (x : A) (l : list A) : list A :=
  match l with
  | [] => [x]
  | y :: rest => if (key x <=? key y)%Z then x :: y :: rest else y :: insertBy key x rest
  end.

Definition sortBy {A : Type} (key : A -> Z) (l : list A) : list A :=
  fold_right (insertBy key) [] l.

(** [new DOMContentLoadedHandler()], stored in the slot: an empty array
    and one more listener for [DOMContentLoaded]. *)
Definition newDOMContentLoadedHandler (w : Window) : Window :=
  setScriptExecutor (Some []) (addDOMContentLoadedListener w).

(** [window.canva_scriptExecutor = window.canva_scriptExecutor || new
    DOMContentLoadedHandler()]. *)
Definition ensureScriptExecutor (w : Window) : Window :=
  match canva_scriptExecutor w with
  | Some _ => w
  | None => newDOMContentLoadedHandler w
  end.

(** [this.callbacks.push(callbackWithPriority)]. *)
Definition pushCallback (callbackWithPriority : CallbackWithPriority) (w : Window) : Window :=
  match canva_scriptExecutor w with
  | Some callbacks => setScriptExecutor (Some (callbacks ++ [callbackWithPriority])) w
  | None => w
  end.

(** [runOnLoad], with the call of the callback as a parameter. *)
Definition runOnLoadWith (invoke : Window -> Window)
    (callbackWithPriority : CallbackWithPriority) (w : Window) : Window :=
  if readyStateLoading w then pushCallback callbackWithPriority w else invoke w.

Definition executeWhenReadyWith (invoke : Window -> Window) (c : Callable) (p : Z)
    (w : Window) : Window :=
  runOnLoadWith invoke {| callback := c; priority := p |} (ensureScriptExecutor w).

(** [new ResizeHandler(debounce)], stored in the slot: the sizes are
    read when the handler is made, and the debounced listener is
    registered for [resize]. *)
Definition newResizeHandler (w : Window) : Window :=
  setDebounceResize
    (Some {| resizeCallbacks := []; previousWindowWidth := clientWidth w;
             previousWindowHeight := innerHeight w |})
    (addResizeListener w).

Definition ensureResizeHandler (w : Window) : Window :=
  match canva_debounceResize w with
  | Some _ => w
  | None => newResizeHandler w
  end.

Definition setResizeCallbacks (l : list ResizeCallback) (h : ResizeHandler) : ResizeHandler :=
  {| resizeCallbacks := l; previousWindowWidth := previousWindowWidth h;
     previousWindowHeight := previousWindowHeight h |}.

(** The first two statements of [runOnResize]: push, then sort. *)
Definition pushResizeCallback (c : Callable) (options : ResizeOptions) (w : Window) : Window :=
  match canva_debounceResize w with
  | Some h =>
      setDebounceResize
        (Some (setResizeCallbacks
                 (sortBy (fun r => options_priority (resizeCallback_options r))
                    (resizeCallbacks h ++
                     [ {| resizeCallback_id := length (resizeCallbacks h);
                          resizeCallback_callback := c;
                          resizeCallback_options := options;
                          resizeCallback_executed := options_runOnLoad options |} ]))
                 h))
        w
  | None => w
  end.

Definition runOnResizeWith (invoke : Window -> Window) (c : Callable)
    (options : ResizeOptions) (w : Window) : Window :=
  let w1 := pushResizeCallback c options w in
  if options_runOnLoad options
  then executeWhenReadyWith invoke c (options_priority options) w1
  else w1.

(** The defaults of [setupDebouncedResizeHandler], with the properties
    the caller gave spread over them. *)
Definition withDefaults (given : GivenOptions) : ResizeOptions :=
  {| options_runOnLoad := default false (given_runOnLoad given);
     options_runOnWidthChange := default true (given_runOnWidthChange given);
     options_runOnHeightChange := default false (given_runOnHeightChange given);
     options_priority := default Number_MAX_VALUE (given_priority given) |}.

Definition setupDebouncedResizeHandlerWith (invoke : Window -> Window) (c : Callable)
    (given : GivenOptions) (w : Window) : Window :=
  runOnResizeWith invoke c (withDefaults given) (ensureResizeHandler w).

(** The default value of the parameter [priority]. *)
Definition priorityOrDefault (p : option Z) : Z := default Number_MAX_VALUE p.

(** A call of a function: its label is written down, then its calls are
    made in order. *)
Fixpoint call (c : Callable) (w : Window) : Window :=
  match c with
  | callable label calls =>
      (fix each (l : list Statement) (w : Window) : Window :=
         match l with
         | [] => w
         | CallExecuteWhenReady c' p :: rest =>
             each rest (executeWhenReadyWith (call c') c' (priorityOrDefault p) w)
         | CallSetupDebouncedResizeHandler c' given :: rest =>
             each rest (setupDebouncedResizeHandlerWith (call c') c' given w)
         end) calls (setRan (ran w ++ [label]) w)
  end.

Definition runOnLoad (callbackWithPriority : CallbackWithPriority) : Window -> Window :=
  runOnLoadWith (call (callback callbackWithPriority)) callbackWithPriority.

Definition executeWhenReady (c : Callable) (p : option Z) : Window -> Window :=
  executeWhenReadyWith (call c) c (priorityOrDefault p).

Definition runOnResize (c : Callable) (options : ResizeOptions) : Window -> Window :=
  runOnResizeWith (call c) c options.

Definition setupDebouncedResizeHandler (c : Callable) (given : GivenOptions)
    : Window -> Window :=
  setupDebouncedResizeHandlerWith (call c) c given.

(** One statement of a running function. *)
Definition runStatement (w : Window) (s : Statement) : Window :=
  match s with
  | CallExecuteWhenReady c p => executeWhenReady c p w
  | CallSetupDebouncedResizeHandler c given => setupDebouncedResizeHandler c given w
  end.

(** [onDOMContentLoaded]: the array is sorted in place and its entries
    are called in order. An entry pushed meanwhile lies behind the entries
    [forEach] visits. *)
Definition onDOMContentLoaded (w : Window) : Window :=
  match canva_scriptExecutor w with
  | Some callbacks =>
      let sorted := sortBy priority callbacks in
      fold_left (fun w entry => call (callback entry) w) sorted
        (setScriptExecutor (Some sorted) w)
  | None => w
  end.

(** The document is parsed: [readyState] leaves ["loading"], then the
    event [DOMContentLoaded] is sent to the listeners registered so far. *)
Definition domContentLoaded (w : Window) : Window :=
  Nat.iter (domContentLoadedListeners w) onDOMContentLoaded (setReadyStateLoading false w).

(** The array [this.resizeCallbacks] of the handler in the slot. *)
Definition resizeCallbacksOf (w : Window) : list ResizeCallback :=
  match canva_debounceResize w with
  | Some h => resizeCallbacks h
  | None => []
  end.

(** [resizeCallback.executed = true], on the object the loop holds,
    wherever a sort has moved it. *)
Definition markExecuted (id : nat) (w : Window) : Window :=
  match canva_debounceResize w with
  | Some h =>
      setDebounceResize
        (Some (setResizeCallbacks
                 (List.map (fun r =>
                    if (resizeCallback_id r =? id)%nat
                    then {| resizeCallback_id := resizeCallback_id r;
                            resizeCallback_callback := resizeCallback_callback r;
                            resizeCallback_options := resizeCallback_options r;
                            resizeCallback_executed := true |}
                    else r) (resizeCallbacks h))
                 h))
        w
  | None => w
  end.

(** The test of [onWindowResize] for one entry. *)
Definition shouldExecute (hasWidthChanged hasHeightChanged : bool) (r : ResizeCallback) : bool :=
  negb (resizeCallback_executed r)
  || (hasWidthChanged && options_runOnWidthChange (resizeCallback_options r))
  || (hasHeightChanged && options_runOnHeightChange (resizeCallback_options r)).

(** The body of the [forEach] of [onWindowResize] at one index: the
    entry is read from the array as it is then. *)
Definition visitResizeCallback (hasWidthChanged hasHeightChanged : bool) (index : nat)
    (w : Window) : Window :=
  match resizeCallbacksOf w !! index with
  | Some r =>
      if shouldExecute hasWidthChanged hasHeightChanged r
      then markExecuted (resizeCallback_id r) (call (resizeCallback_callback r) w)
      else w
  | None => w
  end.

(** [forEach] visits the indices below the length the array had when the
    loop began. *)
Fixpoint forEachResizeCallback (count index : nat) (hasWidthChanged hasHeightChanged : bool)
    (w : Window) : Window :=
  match count with
  | 0 => w
  | S count' =>
      forEachResizeCallback count' (S index) hasWidthChanged hasHeightChanged
        (visitResizeCallback hasWidthChanged hasHeightChanged index w)
  end.

Definition setPrevious (width height : Z) (w : Window) : Window :=
  match canva_debounceResize w with
  | Some h =>
      setDebounceResize
        (Some {| resizeCallbacks := resizeCallbacks h; previousWindowWidth := width;
                 previousWindowHeight := height |})
        w
  | None => w
  end.

Definition onWindowResize (w : Window) : Window :=
  match canva_debounceResize w with
  | Some h =>
      let currentWindowWidth := clientWidth w in
      let currentWindowHeight := innerHeight w in
      let hasWidthChanged := negb (previousWindowWidth h =? currentWindowWidth)%Z in
      let hasHeightChanged := negb (previousWindowHeight h =? currentWindowHeight)%Z in
      setPrevious currentWindowWidth currentWindowHeight
        (forEachResizeCallback (length (resizeCallbacks h)) 0
           hasWidthChanged hasHeightChanged w)
  | None => w
  end.

(** ** Timers and [debounce] *)

(** [setTimeout(function, delay)]: a new handle, and a timer that may
    run once the delay has passed. *)
Definition setTimeout {A : Type} (arguments : A) (delay : nat) (k : Clock A) : nat * Clock A :=
  (nextHandle k,
   {| time := time k; nextHandle := S (nextHandle k);
      timeouts := timeouts k ++
                  [ {| timeoutHandle := nextHandle k; due := time k + delay;
                       timeoutArguments := arguments |} ] |}).

(** [clearTimeout(id)]: nothing happens for [undefined] and for a handle
    whose timer has run. *)
Definition clearTimeout {A : Type} (id : option nat) (k : Clock A) : Clock A :=
  match id with
  | Some handle =>
      {| time := time k; nextHandle := nextHandle k;
         timeouts := List.filter (fun t => negb (timeoutHandle t =? handle)%nat) (timeouts k) |}
  | None => k
  end.

(** The function [debounce] returns, called with [args]: [timeoutId] is
    the variable of its closure, given and returned. The timer carries the
    arguments its function will pass to [callbackFunction]. *)
Definition debounced {A : Type} (delayInMilliseconds : nat) (args : A)
    (timeoutId : option nat) (k : Clock A) : option nat * Clock A :=
  let k1 := clearTimeout timeoutId k in
  (Some (fst (setTimeout args delayInMilliseconds k1)),
   snd (setTimeout args delayInMilliseconds k1)).

(** The host runs the timer with the given handle, if there is one and
    its delay has passed: the timer is gone, and its arguments are what the
    function is called with. *)
Definition takeTimeout {A : Type} (handle : nat) (k : Clock A) : option (A * Clock A) :=
  match List.find (fun t => (timeoutHandle t =? handle)%nat) (timeouts k) with
  | Some t =>
      if (due t <=? time k)%nat
      then Some (timeoutArguments t,
                 {| time := time k; nextHandle := nextHandle k;
                    timeouts := List.filter (fun t => negb (timeoutHandle t =? handle)%nat)
                                  (timeouts k) |})
      else None
  | None => None
  end.

Definition tick {A : Type} (milliseconds : nat) (k : Clock A) : Clock A :=
  {| time := time k + milliseconds; nextHandle := nextHandle k; timeouts := timeouts k |}.

(** The listener the constructor of [ResizeHandler] registers:
    [debounce(() => this.onWindowResize(), 100)]. *)
Definition debouncedResizeEvent (w : Window) : Window :=
  setTimer (fst (debounced 100 tt (timeoutId w) (clock w)))
           (snd (debounced 100 tt (timeoutId w) (clock w))) w.

(** The window is resized: the sizes change and the event [resize] is
    sent to the listeners. *)
Definition resize (width height : Z) (w : Window) : Window :=
  Nat.iter (resizeListeners w) debouncedResizeEvent (setSize width height w).

(** A timer of the window runs: it calls [onWindowResize]. *)
Definition runTimeout (handle : nat) (w : Window) : Window :=
  match takeTimeout handle (clock w) with
  | Some (_, k) => onWindowResize (setTimer (timeoutId w) k w)
  | None => w
  end.

(** What happens to a page: a script calls [executeWhenReady], the
    document is parsed, the window is resized, time passes, a timer runs. *)
Inductive WindowStep : Type :=
| StepScript (c : Callable) (p : option Z)
| StepDOMContentLoaded
| StepResize (width height : Z)
| StepTick (milliseconds : nat)
| StepTimeout (handle : nat).

Definition windowStep (w : Window) (s : WindowStep) : Window :=
  match s with
  | StepScript c p => executeWhenReady c p w
  | StepDOMContentLoaded => domContentLoaded w
  | StepResize width height => resize width height w
  | StepTick milliseconds => setTimer (timeoutId w) (tick milliseconds (clock w)) w
  | StepTimeout handle => runTimeout handle w
  end.

Definition windowSteps (steps : list WindowStep) (w : Window) : Window :=
  fold_left windowStep steps w.

(** A window before any script has run. *)
Definition newWindow (loading : bool) (width height : Z) : Window :=
  {| readyStateLoading := loading; canva_scriptExecutor := None;
     domContentLoadedListeners := 0; canva_debounceResize := None;
     resizeListeners := 0; timeoutId := None;
     clock := {| time := 0; nextHandle := 1; timeouts := [] |};
     clientWidth := width; innerHeight := height; ran := [] |}.

(** The function a statement hands over. *)
Definition handedOver (s : Statement) : Callable :=
  match s with
  | CallExecuteWhenReady c _ => c
  | CallSetupDebouncedResizeHandler c _ => c
  end.

(** The labels a call writes when the document is parsed, in order: a
    function handed to [executeWhenReady] runs where it is handed over,
    and so does one handed to [setupDebouncedResizeHandler] with
    [runOnLoad]. *)
Fixpoint callOrder (c : Callable) : list nat :=
  match c with
  | callable label calls =>
      label ::
      flat_map (fun s =>
                  match s with
                  | CallExecuteWhenReady c' _ => callOrder c'
                  | CallSetupDebouncedResizeHandler c' given =>
                      if options_runOnLoad (withDefaults given) then callOrder c' else []
                  end) calls
  end.

(** The entry [executeWhenReady] makes. *)
Definition entryOf (r : Callable * option Z) : CallbackWithPriority :=
  {| callback := fst r; priority := priorityOrDefault (snd r) |}.

(** The array of the executor, empty before there is one. *)
Definition callbacksOf (w : Window) : list CallbackWithPriority :=
  default [] (canva_scriptExecutor w).

(** Keys do not decrease along the list. *)
Definition ascending {A : Type} (key : A -> Z) (l : list A) : Prop :=
  forall i j a b, i < j -> l !! i = Some a -> l !! j = Some b -> (key a <= key b)%Z.

(** The statement for one function, given the one for the functions it
    hands over. *)
Definition parsedCall (c : Callable) : Prop :=
  forall w, readyStateLoading w = false ->
    ran (call c w) = ran w ++ callOrder c /\
    readyStateLoading (call c w) = false /\
    callbacksOf (call c w) = callbacksOf w.

(** The function the menu script hands to [setupDebouncedResizeHandler]:
    it adjusts the menu and hands nothing over. *)
Definition adjustMenu : Callable := callable 2 [].

(** The callback of the menu script on a page with a horizontal menu:
    its one hand-over is [setupDebouncedResizeHandler(..., { runOnLoad:
    true })]. *)
Definition menuMain : Callable :=
  callable 1
    [ CallSetupDebouncedResizeHandler adjustMenu
        {| given_runOnLoad := Some true; given_runOnWidthChange := None;
           given_runOnHeightChange := None; given_priority := None |} ].

(** The callback of the animation script: it hands nothing over. *)
Definition animationMain : Callable := callable 3 [].

(** The scripts of a page, as the calls of [executeWhenReady] they
    make. *)
Definition scriptSteps (scripts : list (Callable * option Z)) : list WindowStep :=
  List.map (fun r => StepScript (fst r) (snd r)) scripts.

(** The executor and its listener are made together. *)
Definition executorOk (w : Window) : Prop :=
  domContentLoadedListeners w =
    match canva_scriptExecutor w with Some _ => 1 | None => 0 end.

(** The resize handler and its listener are made together. *)
Definition handlerOk (w : Window) : Prop :=
  resizeListeners w = match canva_debounceResize w with Some _ => 1 | None => 0 end.

(** The priority [runOnResize] sorts by. *)
Definition resizePriority (r : ResizeCallback) : Z :=
  options_priority (resizeCallback_options r).

(** The entries of the array are distinct objects, numbered as they were
    made, and the array is in ascending order of priority. *)
Definition entriesOk (l : list ResizeCallback) : Prop :=
  Permutation (List.map resizeCallback_id l) (seq 0 (length l)) /\
  ascending resizePriority l.

Definition windowOk (w : Window) : Prop :=
  executorOk w /\ handlerOk w /\ entriesOk (resizeCallbacksOf w).

(** A function that hands nothing to [setupDebouncedResizeHandler],
    neither itself nor through a function it hands over. *)
Fixpoint setupFree (c : Callable) : bool :=
  match c with
  | callable _ calls =>
      forallb (fun s =>
                 match s with
                 | CallExecuteWhenReady c' _ => setupFree c'
                 | CallSetupDebouncedResizeHandler _ _ => false
                 end) calls
  end.

(** The entry with [executed] set. *)
Definition setExecuted (r : ResizeCallback) : ResizeCallback :=
  {| resizeCallback_id := resizeCallback_id r;
     resizeCallback_callback := resizeCallback_callback r;
     resizeCallback_options := resizeCallback_options r;
     resizeCallback_executed := true |}.

(** What the loop has done to an entry it has visited. *)
Definition visited (hw hh : bool) (r : ResizeCallback) : ResizeCallback :=
  if shouldExecute hw hh r then setExecuted r else r.

(** The window when the loop of [onWindowResize], begun in [w] on the
    handler [h], has visited the indices below [i]. *)
Definition passState (w : Window) (h : ResizeHandler) (hw hh : bool) (i : nat)
    (w' : Window) : Prop :=
  canva_debounceResize w' =
    Some (setResizeCallbacks
            (List.map (visited hw hh) (take i (resizeCallbacks h)) ++
             drop i (resizeCallbacks h)) h) /\
  ran w' = ran w ++
           flat_map (fun r => callOrder (resizeCallback_callback r))
             (List.filter (shouldExecute hw hh) (take i (resizeCallbacks h))) /\
  readyStateLoading w' = false /\
  clientWidth w' = clientWidth w /\ innerHeight w' = innerHeight w.

(** The page of the menu script: the script runs while the document is
    loading, the document is parsed, and the window is made narrower. *)
Definition menuPage : Window :=
  windowSteps [StepScript menuMain None; StepDOMContentLoaded; StepResize 500 600]
    (newWindow true 800 600).

(** ** A debounced function and its timers *)

(** The function [debounce(callbackFunction, delayInMilliseconds)]
    returns, with the timers of the host: the variable [timeoutId] of the
    closure, the clock, and the calls of [callbackFunction] made so far,
    each with the time of the call and its arguments. *)
Record Debouncer (A : Type) : Type := {
  debouncerTimeoutId : option nat;
  debouncerClock : Clock A;
  invocations : list (nat * A);
}.
Arguments debouncerTimeoutId {A} _.
Arguments debouncerClock {A} _.
Arguments invocations {A} _.

(** What happens to it: it is called, time passes, the host runs the
    timer with a given handle. *)
Inductive DebounceStep (A : Type) : Type :=
| DebouncedCall (args : A)
| DebounceTick (milliseconds : nat)
| DebounceTimeout (handle : nat).
Arguments DebouncedCall {A} _.
Arguments DebounceTick {A} _.
Arguments DebounceTimeout {A} _.

Definition debounceStep {A : Type} (delay : nat) (d : Debouncer A) (s : DebounceStep A)
    : Debouncer A :=
  match s with
  | DebouncedCall args =>
      {| debouncerTimeoutId :=
           fst (debounced delay args (debouncerTimeoutId d) (debouncerClock d));
         debouncerClock :=
           snd (debounced delay args (debouncerTimeoutId d) (debouncerClock d));
         invocations := invocations d |}
  | DebounceTick milliseconds =>
      {| debouncerTimeoutId := debouncerTimeoutId d;
         debouncerClock := tick milliseconds (debouncerClock d);
         invocations := invocations d |}
  | DebounceTimeout handle =>
      match takeTimeout handle (debouncerClock d) with
      | Some (args, k) =>
          {| debouncerTimeoutId := debouncerTimeoutId d;
             debouncerClock := k;
             invocations := invocations d ++ [(time k, args)] |}
      | None => d
      end
  end.

Definition debounceSteps {A : Type} (delay : nat) (steps : list (DebounceStep A))
    (d : Debouncer A) : Debouncer A :=
  fold_left (debounceStep delay) steps d.

(** The debounced function when [debounce] returns it, at time
    [start]. *)
Definition newDebouncer {A : Type} (start : nat) : Debouncer A :=
  {| debouncerTimeoutId := None;
     debouncerClock := {| time := start; nextHandle := 1; timeouts := [] |};
     invocations := [] |}.

(** The time that passes during steps. *)
Definition elapsed {A : Type} (steps : list (DebounceStep A)) : nat :=
  list_sum (List.map (fun s => match s with DebounceTick ms => ms | _ => 0 end) steps).

(** Steps without a call of the debounced function. *)
Definition noCall {A : Type} (steps : list (DebounceStep A)) : bool :=
  forallb (fun s => match s with DebouncedCall _ => false | _ => true end) steps.

(** The pending timer, if there is one, is the one of the last call: it
    has the handle in [timeoutId], the arguments of that call, and is due
    [delay] after it. *)
Definition debouncerOk {A : Type} (delay start : nat) (steps : list (DebounceStep A))
    (d : Debouncer A) : Prop :=
  time (debouncerClock d) = start + elapsed steps /\
  (timeouts (debouncerClock d) = [] \/
   exists handle pre args post,
     timeouts (debouncerClock d) =
       [ {| timeoutHandle := handle; due := start + elapsed pre + delay;
            timeoutArguments := args |} ] /\
     debouncerTimeoutId d = Some handle /\
     steps = pre ++ DebouncedCall args :: post /\ noCall post = true).

(** At most the timer of [timeoutId] is pending. *)
Definition timersOk (w : Window) : Prop :=
  timeouts (clock w) = [] \/
  exists t, timeouts (clock w) = [t] /\ timeoutId w = Some (timeoutHandle t).

(** Steps of a burst: the window is resized and time passes, and nothing
    else happens. *)
Definition quietBurst (steps : list WindowStep) : bool :=
  forallb (fun s => match s with StepResize _ _ | StepTick _ => true | _ => false end) steps.

(** The clock the host leaves when the one pending timer has run. *)
Definition timerGone (k : Clock unit) : Clock unit :=
  {| time := time k; nextHandle := nextHandle k; timeouts := [] |}.

Definition sameTimers (w w' : Window) : Prop :=
  clock w' = clock w /\ timeoutId w' = timeoutId w.

(** What resizing and the passing of time leave alone. *)
Definition samePage (w w' : Window) : Prop :=
  ran w' = ran w /\ readyStateLoading w' = readyStateLoading w /\
  canva_scriptExecutor w' = canva_scriptExecutor w /\
  domContentLoadedListeners w' = domContentLoadedListeners w /\
  canva_debounceResize w' = canva_debounceResize w /\
  resizeListeners w' = resizeListeners w.

(** The entry the menu script leaves in the resize handler. *)
Definition adjustEntry : ResizeCallback :=
  {| resizeCallback_id := 0;
     resizeCallback_callback := adjustMenu;
     resizeCallback_options :=
       {| options_runOnLoad := true; options_runOnWidthChange := true;
          options_runOnHeightChange := false; options_priority := Number_MAX_VALUE |};
     resizeCallback_executed := true |}.

(** The callback of the menu script on a page without a horizontal menu:
    it returns at once. *)
Definition menuMainWithoutMenu : Callable := callable 1 [].

(** Passes of the resize handler, each at the sizes the window has
    then. *)
Definition resizePasses (sizes : list (Z * Z)) (w : Window) : Window :=
  fold_left (fun w size => onWindowResize (setSize (fst size) (snd size) w)) sizes w.

(** How often the width differs from the width before. *)
Fixpoint widthChanges (previous : Z) (sizes : list (Z * Z)) : nat :=
  match sizes with
  | [] => 0
  | size :: rest =>
      (if (previous =? fst size)%Z then 0 else 1) + widthChanges (fst size) rest
  end.

(** The window of the menu script between passes. *)
Definition menuWindow (previousWidth previousHeight : Z) (w : Window) : Prop :=
  canva_debounceResize w =
    Some {| resizeCallbacks := [adjustEntry]; previousWindowWidth := previousWidth;
            previousWindowHeight := previousHeight |} /\
  readyStateLoading w = false.

(** ** The menu *)

(** What the menu script reads and writes of the document: the style
    properties of the three elements, the checkbox, and the width of the
    body. *)
Record MenuDocument : Type := {
  menuButton_display : string;
  verticalMenu_display : string;
  horizontalMenu_display : string;
  horizontalMenu_visibility : string;
  menuToggle_checked : bool;
  body_clientWidth : Z;
}.

(** A [MenuManager]: its elements are those of the document;
    [horizontalMenuWidth] is the width the horizontal menu had when the
    manager was made. *)
Record MenuManager : Type := {
  horizontalMenuWidth : Z;
}.

Definition showHamburgerMenu (d : MenuDocument) : MenuDocument :=
  {| menuButton_display := "flex"; verticalMenu_display := "block";
     horizontalMenu_display := "none"; horizontalMenu_visibility := "hidden";
     menuToggle_checked := menuToggle_checked d; body_clientWidth := body_clientWidth d |}.

Definition showHorizontalMenu (d : MenuDocument) : MenuDocument :=
  {| menuButton_display := "none"; verticalMenu_display := "none";
     horizontalMenu_display := "flex"; horizontalMenu_visibility := "visible";
     menuToggle_checked := menuToggle_checked d; body_clientWidth := body_clientWidth d |}.

Definition adjustMenuDisplay (menuManager : MenuManager) (d : MenuDocument) : MenuDocument :=
  let currentBodyWidth := body_clientWidth d in
  if (horizontalMenuWidth menuManager >? currentBodyWidth)%Z
  then showHamburgerMenu d
  else showHorizontalMenu d.

(** What happens to the menu: the body gets a new width, the resize
    handler calls the callback of the script, the fragment of the address
    changes, the visitor clicks the checkbox. *)
Inductive MenuEvent : Type :=
| BodyResized (width : Z)
| AdjustCalled
| HashChanged
| ToggleClicked.

Definition menuEvent (menuManager : MenuManager) (d : MenuDocument) (e : MenuEvent)
    : MenuDocument :=
  match e with
  | BodyResized width =>
      {| menuButton_display := menuButton_display d;
         verticalMenu_display := verticalMenu_display d;
         horizontalMenu_display := horizontalMenu_display d;
         horizontalMenu_visibility := horizontalMenu_visibility d;
         menuToggle_checked := menuToggle_checked d; body_clientWidth := width |}
  | AdjustCalled => adjustMenuDisplay menuManager d
  | HashChanged =>
      {| menuButton_display := menuButton_display d;
         verticalMenu_display := verticalMenu_display d;
         horizontalMenu_display := horizontalMenu_display d;
         horizontalMenu_visibility := horizontalMenu_visibility d;
         menuToggle_checked := false; body_clientWidth := body_clientWidth d |}
  | ToggleClicked =>
      {| menuButton_display := menuButton_display d;
         verticalMenu_display := verticalMenu_display d;
         horizontalMenu_display := horizontalMenu_display d;
         horizontalMenu_visibility := horizontalMenu_visibility d;
         menuToggle_checked := negb (menuToggle_checked d);
         body_clientWidth := body_clientWidth d |}
  end.

Definition menuEvents (menuManager : MenuManager) (events : list MenuEvent)
    (d : MenuDocument) : MenuDocument :=
  fold_left (menuEvent menuManager) events d.

(** The four style properties. *)
Definition menuStyles (d : MenuDocument) : string * string * string * string :=
  (menuButton_display d, verticalMenu_display d, horizontalMenu_display d,
   horizontalMenu_visibility d).

(** Events that are not calls of the callback. *)
Definition noAdjust (events : list MenuEvent) : bool :=
  forallb (fun e => match e with AdjustCalled => false | _ => true end) events.

(** ** The script that stops the animation of the parents of images *)

(** The elements below a node, each with the [eid] of its parent
    element, in tree order. *)
Fixpoint elementsWithParent (n : Node) : list (ElementProps * option nat) :=
  match n with
  | TextNode _ | CommentNode _ => []
  | ElementNode p cs =>
      List.flat_map (fun c =>
        match c with
        | ElementNode q _ => (q, Some (eid p)) :: elementsWithParent c
        | _ => []
        end) cs
  end.

(** [Array.from(document.getElementsByTagName("img"))], for the document
    with the given root element: the images in tree order, each with its
    [parentElement], which the root element has not. *)
Definition documentImages (root : Node) : list (ElementProps * option nat) :=
  List.filter (fun e => String.eqb (localName (fst e)) "img")
    (match root with
     | ElementNode p _ => (p, None) :: elementsWithParent root
     | _ => []
     end).

(** What the script writes and registers: [style.animation] of the
    elements it has written to, by [eid], and its listeners for [load],
    each with its image and the parent of that image. *)
Record ImagePage : Type := {
  animationStyle : gmap nat string;
  loadListeners : list (nat * option nat);
}.

Definition stopParentAnimation (parent : option nat) (styles : gmap nat string)
    : gmap nat string :=
  match parent with
  | Some p => <[p := "none"]> styles
  | None => styles
  end.

(** The body of the loop over the images. *)
Definition visitImage (s : ImagePage) (img : ElementProps * option nat) : ImagePage :=
  if complete (fst img)
  then {| animationStyle := stopParentAnimation (snd img) (animationStyle s);
          loadListeners := loadListeners s |}
  else {| animationStyle := animationStyle s;
          loadListeners := loadListeners s ++ [(eid (fst img), snd img)] |}.

(** The script, run on a document whose elements have the given values
    of [style.animation]. *)
Definition stopAnimations (root : Node) (styles : gmap nat string) : ImagePage :=
  fold_left visitImage (documentImages root)
    {| animationStyle := styles; loadListeners := [] |}.

(** The events of an image: it has loaded, or loading has failed. *)
Inductive ImageEvent : Type :=
| ImageLoaded (image : nat)
| ImageFailed (image : nat).

(** The listeners for [load] of the image are called, in the order they
    were registered; the script has no listener for [error]. *)
Definition imageEvent (s : ImagePage) (e : ImageEvent) : ImagePage :=
  match e with
  | ImageLoaded image =>
      {| animationStyle :=
           fold_left (fun styles l =>
                        if (fst l =? image)%nat then stopParentAnimation (snd l) styles
                        else styles)
             (loadListeners s) (animationStyle s);
         loadListeners := loadListeners s |}
  | ImageFailed _ => s
  end.

Definition imageEvents (events : list ImageEvent) (s : ImagePage) : ImagePage :=
  fold_left imageEvent events s.

(** The parent is the given element. *)
Definition isParent (p : nat) (parent : option nat) : bool :=
  match parent with
  | Some q => (q =? p)%nat
  | None => false
  end.

(** The image has loaded during the events. *)
Definition hasLoaded (events : list ImageEvent) (image : nat) : bool :=
  existsb (fun e => match e with ImageLoaded i => (i =? image)%nat | ImageFailed _ => false end)
    events.

(** The element is the parent of an image of the document that was
    complete when the script ran or has loaded since. *)
Definition stoppedBy (root : Node) (events : list ImageEvent) (p : nat) : bool :=
  existsb (fun img =>
             isParent p (snd img) &&
             (complete (fst img) || hasLoaded events (eid (fst img))))
    (documentImages root).

(** * Properties *)

(** ** Readiness predicates *)

Lemma trimEnd_empty_iff (s : string) :
  trimEnd s = "" <-> forall c, In c (list_ascii_of_string s) -> isWhiteSpace c = true.
Proof.
  induction s as [|a s IH]; simpl.
  - split; [intros _ c []|reflexivity].
  - destruct (trimEnd s) eqn:E.
    + destruct (isWhiteSpace a) eqn:Ea.
      * split; [|reflexivity]. intros _ c [<-|Hc]; [assumption|].
        apply IH; [reflexivity|assumption].
      * split; [discriminate|]. intros H. rewrite (H a) in Ea; [discriminate|now left].
    + split; [discriminate|]. intros H.
      assert (Hs : String a0 s0 = "") by (apply IH; intros c Hc; apply H; now right).
      discriminate.
Qed.

Lemma trimStart_chars (s : string) :
  (forall c, In c (list_ascii_of_string (trimStart s)) -> isWhiteSpace c = true) <->
  (forall c, In c (list_ascii_of_string s) -> isWhiteSpace c = true).
Proof.
  induction s as [|a s IH]; simpl; [tauto|].
  destruct (isWhiteSpace a) eqn:Ea; simpl; [|tauto].
  rewrite IH. split.
  - intros H c [<-|Hc]; auto.
  - intros H c Hc. apply H. now right.
Qed.

(** Trimming leaves something exactly when some character is not white
    space. *)
Lemma trim_nonempty_iff (s : string) :
  trim s <> "" <-> exists c, In c (list_ascii_of_string s) /\ isWhiteSpace c = false.
Proof.
  unfold trim. rewrite trimEnd_empty_iff, trimStart_chars. split.
  - intros H.
    induction s as [|a s IH]; simpl in *.
    + exfalso. apply H. intros c [].
    + destruct (isWhiteSpace a) eqn:Ea.
      * destruct IH as (c & Hc & Hw).
        { intros H'. apply H. intros c [<-|Hc]; auto. }
        exists c. split; [now right|assumption].
      * exists a. split; [now left|assumption].
  - intros (c & Hc & Hw) H. rewrite (H c Hc) in Hw. discriminate.
Qed.

Lemma hasTextContent_iff (node : Node) :
  hasTextContent node = true <-> exists t, textContent node = Some t /\ trim t <> "".
Proof.
  unfold hasTextContent. destruct (textContent node) as [t|].
  - rewrite Bool.negb_true_iff, Nat.eqb_neq. split.
    + intros H. exists t. split; [reflexivity|]. intros E. rewrite E in H. apply H. reflexivity.
    + intros (t' & [= <-] & H) E. apply H. destruct (trim t); [reflexivity|discriminate].
  - split; [discriminate|]. intros (t & [=] & _).
Qed.

Lemma descendantElements_descendant (n : Node) p cs :
  In (p, cs) (descendantElements n) <-> descendant (ElementNode p cs) n.
Proof.
  induction n as [d|d|q ks IH] using Node_nested_ind.
  - simpl. split; [intros []|inversion 1].
  - simpl. split; [intros []|inversion 1].
  - simpl. rewrite in_flat_map. split.
    + intros (c & Hc & Hin).
      rewrite Forall_forall in IH.
      destruct c as [?|?|pc kc]; simpl in Hin; try contradiction.
      destruct Hin as [[= <- <-]|Hin].
      * now apply descendant_child.
      * apply descendant_deeper with (c := ElementNode pc kc); [assumption|].
        apply (IH (ElementNode pc kc)); [now apply list_elem_of_In|assumption].
    + rewrite Forall_forall in IH.
      inversion 1 as [? ? ? Hc|? ? c ? Hc Hd]; subst.
      * exists (ElementNode p cs). split; [assumption|now left].
      * exists c. split; [assumption|].
        destruct c as [?|?|pc kc]; try (inversion Hd; fail).
        right. apply (IH (ElementNode pc kc)); [now apply list_elem_of_In|assumption].
Qed.

Lemma getElementsByTagName_nonempty (n : Node) (name : string) :
  Nat.ltb 0 (List.length (getElementsByTagName n name)) = true <->
  exists d, descendant d n /\ isElementNamed name d.
Proof.
  rewrite Nat.ltb_lt. unfold getElementsByTagName. split.
  - intros H.
    destruct (List.filter _ _) as [|[p cs] rest] eqn:E; [simpl in H; lia|].
    assert (Hin : In (p, cs) (List.filter (fun e => String.eqb (localName (fst e)) name)
                                (descendantElements n))) by (rewrite E; now left).
    apply filter_In in Hin as [Hin Hname]. simpl in Hname.
    apply String.eqb_eq in Hname.
    exists (ElementNode p cs). split.
    + now apply descendantElements_descendant.
    + now exists p, cs.
  - intros (d & Hd & p & cs & -> & Hname).
    apply descendantElements_descendant in Hd.
    assert (Hin : In (p, cs) (List.filter (fun e => String.eqb (localName (fst e)) name)
                                (descendantElements n))).
    { apply filter_In. split; [assumption|]. simpl. now apply String.eqb_eq. }
    destruct (List.filter _ _); [destruct Hin|simpl; lia].
Qed.

(** C8: [hasTextContent] holds exactly when the trimmed flattened text of
    the node is not empty, and [hasDependencies] exactly when
    [hasTextContent] holds or the node has an image descendant or a video
    descendant.  Both are functions of the tree alone: they take no world
    and return none, so they have no effect. *)
Theorem readiness_predicates_spec (node : Node) :
  (hasTextContent node = true <->
     exists t, textContent node = Some t /\ trim t <> "") /\
  (hasDependencies node = true <->
     hasTextContent node = true
     \/ (exists d, descendant d node /\ isElementNamed "img" d)
     \/ (exists d, descendant d node /\ isElementNamed "video" d)).
Proof.
  split; [apply hasTextContent_iff|].
  unfold hasDependencies. cbv zeta.
  rewrite !Bool.orb_true_iff, !getElementsByTagName_nonempty. tauto.
Qed.

(** ** The promise machinery *)

Lemma stateOf_lookup w p pr : heap w !! p = Some pr -> stateOf w p = state pr.
Proof. unfold stateOf. now intros ->. Qed.

Lemma stateOf_not_pending_lt w p : stateOf w p <> Pending -> p < length (heap w).
Proof.
  unfold stateOf. destruct (heap w !! p) eqn:E; [|congruence].
  intros _. now apply lookup_lt_Some in E.
Qed.

(** What [settle] does, case by case. *)
Lemma settle_pending s p w pr :
  heap w !! p = Some pr -> state pr = Pending ->
  settle s p w =
    (tt, setMicrotasks (microtasks w ++ List.map (reactionJob s) (reactions pr))
           (setHeap (<[p := {| state := s; reactions := [] |}]> (heap w)) w)).
Proof. intros H1 H2. unfold settle. now rewrite H1, H2. Qed.

Lemma settle_settled s p w : stateOf w p <> Pending -> settle s p w = (tt, w).
Proof.
  unfold stateOf, settle. destruct (heap w !! p) as [pr|]; [|congruence].
  destruct (state pr); congruence.
Qed.

Lemma settle_missing s p w : heap w !! p = None -> settle s p w = (tt, w).
Proof. unfold settle. now intros ->. Qed.

Lemma settle_length s p w : length (heap (exec (settle s p) w)) = length (heap w).
Proof.
  unfold exec, settle. destruct (heap w !! p) as [pr|]; [|reflexivity].
  destruct (state pr); simpl; try reflexivity. apply length_insert.
Qed.

Lemma settle_stateOf_other s p q w :
  p <> q -> stateOf (exec (settle s p) w) q = stateOf w q.
Proof.
  intros Hne. unfold exec, settle. destruct (heap w !! p) as [pr|]; [|reflexivity].
  destruct (state pr); simpl; try reflexivity.
  unfold stateOf. simpl. now rewrite list_lookup_insert_ne.
Qed.

Lemma settle_stateOf_pending s p w :
  p < length (heap w) -> stateOf w p = Pending ->
  stateOf (exec (settle s p) w) p = s.
Proof.
  intros Hlt Hp. unfold exec, settle, stateOf in *.
  destruct (heap w !! p) as [pr|] eqn:E.
  - rewrite Hp. simpl. now rewrite list_lookup_insert_eq.
  - apply lookup_ge_None in E. lia.
Qed.

(** A settled promise keeps its state. *)
Lemma settle_stateOf_stable s p q w :
  stateOf w q <> Pending -> stateOf (exec (settle s p) w) q = stateOf w q.
Proof.
  intros Hq. destruct (decide (p = q)) as [->|Hne].
  - unfold exec. now rewrite settle_settled.
  - now apply settle_stateOf_other.
Qed.

Lemma settle_listeners s p w : listeners (exec (settle s p) w) = listeners w.
Proof.
  unfold exec, settle. destruct (heap w !! p) as [pr|]; [|reflexivity].
  now destruct (state pr).
Qed.

Lemma settle_loadingAttr s p w : loadingAttr (exec (settle s p) w) = loadingAttr w.
Proof.
  unfold exec, settle. destruct (heap w !! p) as [pr|]; [|reflexivity].
  now destruct (state pr).
Qed.

Lemma settle_playState s p w :
  animationPlayState (exec (settle s p) w) = animationPlayState w.
Proof.
  unfold exec, settle. destruct (heap w !! p) as [pr|]; [|reflexivity].
  now destruct (state pr).
Qed.

Lemma settle_frames s p w :
  animationFrameCallbacks (exec (settle s p) w) = animationFrameCallbacks w.
Proof.
  unfold exec, settle. destruct (heap w !! p) as [pr|]; [|reflexivity].
  now destruct (state pr).
Qed.

Lemma settle_allRecords s p w : allRecords (exec (settle s p) w) = allRecords w.
Proof.
  unfold exec, settle. destruct (heap w !! p) as [pr|]; [|reflexivity].
  now destruct (state pr).
Qed.

Lemma exec_bind {A B} (c : M A) (k : A -> M B) w :
  exec (bind c k) w = exec (k (fst (c w))) (snd (c w)).
Proof. unfold exec, bind. now destruct (c w). Qed.

Lemma exec_ret {A} (a : A) w : exec (ret a) w = w.
Proof. reflexivity. Qed.

(** Running a closure leaves alone the state of every promise it does
    not capture. *)
Lemma allResolveElement_stateOf_other all index q w :
  all <> q -> stateOf (exec (allResolveElement all index) w) q = stateOf w q.
Proof.
  intros Hne. unfold allResolveElement, exec, bind, getAllRecord, putAllRecord.
  simpl. destruct (values _ !! index) as [[|]|]; try reflexivity.
  destruct (Nat.eqb _ 0); [|reflexivity].
  etransitivity; [apply (settle_stateOf_other Fulfilled all q _ Hne)|reflexivity].
Qed.

Lemma runCallback_stateOf_other cb q w :
  callbackPromise cb <> Some q ->
  stateOf (exec (runCallback cb) w) q = stateOf w q.
Proof.
  destruct cb; simpl; intros Hne;
    try (apply settle_stateOf_other; congruence);
    try reflexivity.
  - apply allResolveElement_stateOf_other. congruence.
  - unfold exec, bind, requestAnimationFrame. simpl.
    etransitivity; [apply (settle_stateOf_other Fulfilled result q _); congruence|reflexivity].
Qed.

Lemma allResolveElement_length all index w :
  length (heap (exec (allResolveElement all index) w)) = length (heap w).
Proof.
  unfold allResolveElement, exec, bind, getAllRecord, putAllRecord.
  simpl. destruct (values _ !! index) as [[|]|]; try reflexivity.
  destruct (Nat.eqb _ 0); [|reflexivity].
  etransitivity; [apply (settle_length Fulfilled all)|reflexivity].
Qed.

Lemma runCallback_length cb w :
  length (heap (exec (runCallback cb) w)) = length (heap w).
Proof.
  destruct cb; simpl; try apply settle_length; try reflexivity.
  - apply allResolveElement_length.
  - unfold exec, bind, requestAnimationFrame. simpl.
    etransitivity; [apply (settle_length Fulfilled result)|reflexivity].
Qed.

Lemma forEach_app {A} (f : A -> M unit) l1 l2 w :
  exec (forEach f (l1 ++ l2)) w = exec (forEach f l2) (exec (forEach f l1) w).
Proof.
  revert w. induction l1 as [|x l1 IH]; intros w; simpl; [reflexivity|].
  rewrite !exec_bind. apply IH.
Qed.

Lemma forEach_callbacks_stateOf_other {A} (g : A -> Callback) l q w :
  Forall (fun x => callbackPromise (g x) <> Some q) l ->
  stateOf (exec (forEach (fun x => runCallback (g x)) l) w) q = stateOf w q.
Proof.
  revert w. induction l as [|x l IH]; intros w Hall; [reflexivity|].
  apply Forall_cons in Hall as [Hx Hall]. simpl. rewrite exec_bind.
  rewrite IH by assumption. now apply runCallback_stateOf_other.
Qed.

Lemma forEach_callbacks_length {A} (g : A -> Callback) l w :
  length (heap (exec (forEach (fun x => runCallback (g x)) l) w)) = length (heap w).
Proof.
  revert w. induction l as [|x l IH]; intros w; [reflexivity|].
  simpl. rewrite exec_bind, IH. apply runCallback_length.
Qed.

(** ** Resource wait primitives *)

Lemma newPromise_stateOf_new w :
  stateOf (snd (newPromise w)) (length (heap w)) = Pending.
Proof.
  unfold stateOf, newPromise. simpl.
  rewrite lookup_app_r by lia. now rewrite Nat.sub_diag.
Qed.

Lemma newPromise_length w :
  length (heap (snd (newPromise w))) = S (length (heap w)).
Proof. unfold newPromise. simpl. rewrite length_app. simpl. lia. Qed.

Lemma dispatchEvent_exec target type w :
  exec (dispatchEvent target type) w =
  exec (forEach (fun l => runCallback (snd l))
          (List.filter (listenerMatches target type) (listeners w))) w.
Proof. reflexivity. Qed.

Lemma listenerMatches_refl target type cb :
  listenerMatches target type (target, type, cb) = true.
Proof. unfold listenerMatches. simpl. now rewrite Nat.eqb_refl, String.eqb_refl. Qed.

(** Firing an event at an element whose listener [mk p] settles the
    pending promise [p], when the listeners registered before it capture
    other promises and those after it are for other events: [p] ends in
    the state the listener gives it. *)
Lemma dispatchEvent_own_listener target type mk p s pre extra w :
  runCallback (mk p) = settle s p ->
  listeners w = pre ++ (target, type, mk p) :: extra ->
  Forall (fun l => listenerMatches target type l = true ->
                   callbackPromise (snd l) <> Some p) pre ->
  Forall (fun l => listenerMatches target type l = false) extra ->
  p < length (heap w) -> stateOf w p = Pending ->
  stateOf (exec (dispatchEvent target type) w) p = s.
Proof.
  intros Hrun Hls Hold Hextra Hlt Hp. rewrite dispatchEvent_exec, Hls.
  rewrite List.filter_app.
  assert (Hnil : List.filter (listenerMatches target type) extra = []).
  { clear -Hextra. induction Hextra as [|x l Hx _ IH]; [reflexivity|].
    simpl. now rewrite Hx. }
  cbn [List.filter]. rewrite listenerMatches_refl, Hnil.
  rewrite (forEach_app (fun l : nat * string * Callback => runCallback (snd l))).
  cbn [forEach]. rewrite exec_bind. cbn [snd]. rewrite Hrun, exec_ret.
  set (w1 := exec (forEach _ _) _).
  assert (Hs1 : stateOf w1 p = Pending).
  { unfold w1.
    rewrite (forEach_callbacks_stateOf_other (fun l : nat * string * Callback => snd l)).
    - exact Hp.
    - apply Forall_forall. intros l Hl.
      apply list_elem_of_In, filter_In in Hl as [Hl Hm].
      rewrite Forall_forall in Hold.
      exact (Hold l (proj2 (list_elem_of_In _ _) Hl) Hm). }
  assert (Hl1 : length (heap w1) = length (heap w)).
  { unfold w1.
    now rewrite (forEach_callbacks_length (fun l : nat * string * Callback => snd l)). }
  apply settle_stateOf_pending; [lia|assumption].
Qed.

Lemma listenersBelow_not_captured n w target type :
  listenersBelow n w ->
  Forall (fun l => listenerMatches target type l = true ->
                   callbackPromise (snd l) <> Some n) (listeners w).
Proof.
  unfold listenersBelow. intros H. eapply Forall_impl; [exact H|].
  cbv beta. intros l Hl _.
  unfold callbackBelow in Hl. destruct (callbackPromise (snd l)); [|congruence].
  intros [= ->]. lia.
Qed.

Lemma run_unit (c : M unit) w : c w = (tt, exec c w).
Proof. unfold exec. now destruct (c w) as [[] w']. Qed.

(** The world a wait primitive leaves when its resource is ready: only
    the new promise, fulfilled. *)
Lemma settle_new_promise s w :
  exec (settle s (length (heap w))) (snd (newPromise w)) =
  setHeap (heap w ++ [ {| state := s; reactions := [] |} ]) w.
Proof.
  unfold exec, settle, newPromise. cbn [snd heap setHeap].
  rewrite lookup_app_r by lia. rewrite Nat.sub_diag. cbn.
  unfold setMicrotasks, setHeap. cbn. rewrite app_nil_r. f_equal.
  rewrite insert_app_r_alt by lia. now rewrite Nat.sub_diag.
Qed.

Lemma stateOf_heap_snoc w pr :
  stateOf (setHeap (heap w ++ [pr]) w) (length (heap w)) = state pr.
Proof.
  unfold stateOf. cbn. rewrite lookup_app_r by lia. now rewrite Nat.sub_diag.
Qed.

Lemma loadImage_eq image w :
  loadImage image w =
  (length (heap w),
   if complete image
   then setHeap (heap w ++ [ {| state := Fulfilled; reactions := [] |} ]) w
   else setLoadingAttr (<[eid image := "eager"]> (loadingAttr w))
          (listeningWorld (eid image) "load" (length (heap w)) w)).
Proof.
  unfold loadImage, bind.
  change (newPromise w) with (length (heap w), snd (newPromise w)). cbv iota.
  destruct (complete image).
  - rewrite (run_unit (resolvePromise _)). unfold resolvePromise.
    now rewrite settle_new_promise.
  - cbn. unfold listeningWorld, setListeners, setLoadingAttr, setHeap. cbn.
    now rewrite <- app_assoc.
Qed.

Lemma loadVideo_eq video w :
  loadVideo video w =
  (length (heap w),
   if videoReady video
   then setHeap (heap w ++ [ {| state := Fulfilled; reactions := [] |} ]) w
   else listeningWorld (eid video) "loadeddata" (length (heap w)) w).
Proof.
  unfold loadVideo, bind.
  change (newPromise w) with (length (heap w), snd (newPromise w)). cbv iota.
  destruct (videoReady video).
  - rewrite (run_unit (resolvePromise _)). unfold resolvePromise.
    now rewrite settle_new_promise.
  - cbn. unfold listeningWorld, setListeners, setHeap. cbn.
    now rewrite <- app_assoc.
Qed.

(** In a listening world the success event fulfils the new promise and
    the error event rejects it. *)
Lemma listeningWorld_events target okType w (f : World -> World) :
  okType <> "error" ->
  listenersBelow (length (heap w)) w ->
  (forall w', listeners (f w') = listeners w') ->
  (forall w', heap (f w') = heap w') ->
  let p := length (heap w) in
  let w' := f (listeningWorld target okType p w) in
  stateOf w' p = Pending /\
  stateOf (exec (dispatchEvent target okType) w') p = Fulfilled /\
  stateOf (exec (dispatchEvent target "error") w') p = Rejected.
Proof.
  intros Hne Hbelow Hfl Hfh p w'.
  assert (Hst : stateOf w' p = Pending).
  { unfold w', stateOf. rewrite Hfh. cbn.
    rewrite lookup_app_r by (unfold p; lia). unfold p. now rewrite Nat.sub_diag. }
  assert (Hlen : p < length (heap w')).
  { unfold w'. rewrite Hfh. cbn. rewrite length_app. cbn. unfold p. lia. }
  assert (Hls : listeners w' = listeners w ++
            [(target, okType, CbResolve p); (target, "error", CbReject p)]).
  { unfold w'. now rewrite Hfl. }
  split; [exact Hst|]. split.
  - eapply (dispatchEvent_own_listener _ _ CbResolve p Fulfilled (listeners w)
              [(target, "error", CbReject p)]); try eassumption; try reflexivity.
    + now apply listenersBelow_not_captured.
    + constructor; [|constructor]. unfold listenerMatches. cbn [fst snd].
      rewrite Nat.eqb_refl, Bool.andb_true_l. apply String.eqb_neq. congruence.
  - eapply (dispatchEvent_own_listener _ _ CbReject p Rejected
              (listeners w ++ [(target, okType, CbResolve p)]) []);
      try eassumption; try reflexivity.
    + now rewrite <- app_assoc.
    + apply Forall_app. split.
      * now apply listenersBelow_not_captured.
      * constructor; [|constructor]. unfold listenerMatches. cbn [fst snd].
        rewrite Nat.eqb_refl, Bool.andb_true_l.
        rewrite (proj2 (String.eqb_neq _ _) Hne). discriminate.
    + constructor.
Qed.

(** C5: [loadImage] returns a new promise.  When the image is complete
    the promise is fulfilled on return and no listener is registered.
    Otherwise the image is marked for eager loading, a load and an error
    listener are registered, the promise is pending, and the load event
    fulfils it while the error event rejects it. *)
Theorem loadImage_spec (image : ElementProps) (w : World) :
  listenersBelow (length (heap w)) w ->
  let p := fst (loadImage image w) in
  let w' := snd (loadImage image w) in
  p = length (heap w) /\
  (complete image = true ->
     stateOf w' p = Fulfilled /\ listeners w' = listeners w /\
     loadingAttr w' = loadingAttr w) /\
  (complete image = false ->
     stateOf w' p = Pending /\
     loadingAttr w' !! eid image = Some "eager" /\
     listeners w' = listeners w ++ [(eid image, "load", CbResolve p);
                                    (eid image, "error", CbReject p)] /\
     stateOf (exec (dispatchEvent (eid image) "load") w') p = Fulfilled /\
     stateOf (exec (dispatchEvent (eid image) "error") w') p = Rejected).
Proof.
  intros Hbelow. rewrite loadImage_eq. cbn [fst snd].
  split; [reflexivity|]. destruct (complete image); split; try discriminate; intros _.
  - split; [apply stateOf_heap_snoc|now split].
  - destruct (listeningWorld_events (eid image) "load" w
                (setLoadingAttr (<[eid image := "eager"]> (loadingAttr w))))
      as (H1 & H2 & H3); try done.
    split; [exact H1|]. split; [apply lookup_insert_eq|]. now split.
Qed.

Lemma loadImage_spec_witness :
  let image := {| eid := 7; localName := "img"; classList := []; complete := false;
                  readyState := 0; poster := ""; fontFamily := ""; fontStyle := "";
                  fontWeight := "" |} in
  let w := initialWorld [Pending] in
  listenersBelow (length (heap w)) w /\
  stateOf (exec (dispatchEvent 7 "error") (snd (loadImage image w))) 1 = Rejected.
Proof.
  intros image w.
  assert (H : listenersBelow (length (heap w)) w) by constructor.
  split; [exact H|].
  exact (proj2 (proj2 (proj2 (proj2 (proj2 (proj2 (loadImage_spec image w H)) eq_refl))))).
Defined.

(** C6: [loadVideo] returns a new promise.  When the ready state of the
    video is at least 2 or its poster is not empty, the promise is
    fulfilled on return and no listener is registered.  Otherwise a
    loadeddata and an error listener are registered, the promise is
    pending, and the loadeddata event fulfils it while the error event
    rejects it. *)
Theorem loadVideo_spec (video : ElementProps) (w : World) :
  listenersBelow (length (heap w)) w ->
  let p := fst (loadVideo video w) in
  let w' := snd (loadVideo video w) in
  p = length (heap w) /\
  ((2 <= readyState video)%Z \/ poster video <> "" ->
     stateOf w' p = Fulfilled /\ listeners w' = listeners w) /\
  (~ ((2 <= readyState video)%Z \/ poster video <> "") ->
     stateOf w' p = Pending /\
     listeners w' = listeners w ++ [(eid video, "loadeddata", CbResolve p);
                                    (eid video, "error", CbReject p)] /\
     stateOf (exec (dispatchEvent (eid video) "loadeddata") w') p = Fulfilled /\
     stateOf (exec (dispatchEvent (eid video) "error") w') p = Rejected).
Proof.
  intros Hbelow. rewrite loadVideo_eq. cbn [fst snd].
  assert (Hready : videoReady video = true <->
                   (2 <= readyState video)%Z \/ poster video <> "").
  { unfold videoReady. rewrite Bool.orb_true_iff, Z.leb_le, Bool.negb_true_iff.
    now rewrite String.eqb_neq. }
  split; [reflexivity|]. destruct (videoReady video); split.
  - intros _. split; [apply stateOf_heap_snoc|reflexivity].
  - intros Hn. exfalso. apply Hn, Hready. reflexivity.
  - intros H. apply Hready in H. discriminate.
  - intros _.
    destruct (listeningWorld_events (eid video) "loadeddata" w (fun w' => w'))
      as (H1 & H2 & H3); try done.
Qed.

Lemma loadVideo_spec_witness :
  let video := {| eid := 9; localName := "video"; classList := []; complete := false;
                  readyState := 1; poster := "cover.png"; fontFamily := "";
                  fontStyle := ""; fontWeight := "" |} in
  let w := initialWorld [] in
  listenersBelow (length (heap w)) w /\
  stateOf (snd (loadVideo video w)) 0 = Fulfilled.
Proof.
  intros video w.
  assert (H : listenersBelow (length (heap w)) w) by constructor.
  split; [exact H|].
  refine (proj1 (proj1 (proj2 (loadVideo_spec video w H)) _)).
  right. discriminate.
Defined.

(** ** Font waits and the loops of the aggregator *)

Lemma find_append {A} (f : A -> bool) (l1 l2 : list A) :
  List.find f (l1 ++ l2) =
  match List.find f l1 with
  | Some x => Some x
  | None => List.find f l2
  end.
Proof.
  induction l1 as [|x l1 IH]; [reflexivity|]. cbn. now destruct (f x).
Qed.

Lemma fold_left_insert_lookup(l : list FontFace) (m : gmap string FontFace) key :
  fold_left (fun m font => <[fontKeyOfFace font := font]> m) l m !! key =
  match List.find (fun font => String.eqb (fontKeyOfFace font) key) (List.rev l) with
  | Some font => Some font
  | None => m !! key
  end.
Proof.
  revert m. induction l as [|f l IH]; intros m; [reflexivity|].
  cbn [fold_left List.rev]. rewrite IH, find_append.
  destruct (List.find _ (List.rev l)); [reflexivity|].
  cbn [List.find]. destruct (String.eqb (fontKeyOfFace f) key) eqn:E.
  - apply String.eqb_eq in E. subst key. apply lookup_insert_eq.
  - apply String.eqb_neq in E. now apply lookup_insert_ne.
Qed.

(** The map of one pass holds, for every key, the last face of
    [document.fonts] with that key. *)
Lemma loadedFontsOf_lookup doc key : loadedFontsOf doc !! key = faceFor doc key.
Proof.
  unfold loadedFontsOf, faceFor.
  change (fun m font => <[fontKeyOf (family font) (style font) (weight font) := font]> m)
    with (fun (m : gmap string FontFace) font => <[fontKeyOfFace font := font]> m).
  rewrite fold_left_insert_lookup. now destruct (List.find _ _).
Qed.

Lemma pushEach_ret {A} (g : A -> nat) items acc w :
  pushEach (fun x => ret (g x)) items acc w = (acc ++ List.map g items, w).
Proof.
  revert acc w. induction items as [|x items IH]; intros acc w.
  - cbn. unfold ret. now rewrite app_nil_r.
  - cbn [pushEach List.map]. unfold bind at 1. unfold ret at 1.
    rewrite IH. now rewrite <- app_assoc.
Qed.

(** A loop over wait primitives, each of which returns the promise it
    has just created: the array gains the new promises in order. *)
Lemma pushEach_fresh {A} (f : A -> M nat) items acc w :
  (forall x w, fst (f x w) = length (heap w) /\
               length (heap (snd (f x w))) = S (length (heap w))) ->
  fst (pushEach f items acc w) = acc ++ seq (length (heap w)) (length items) /\
  length (heap (snd (pushEach f items acc w))) = length (heap w) + length items.
Proof.
  intros Hf. revert acc w. induction items as [|x items IH]; intros acc w; cbn.
  - rewrite app_nil_r. split; [reflexivity|lia].
  - unfold bind. destruct (f x w) as [p w1] eqn:E.
    destruct (Hf x w) as [Hp Hl]. rewrite E in Hp, Hl. cbn in Hp, Hl.
    destruct (IH (acc ++ [p]) w1) as [H1 H2]. rewrite H1, H2, Hl, Hp.
    split; [now rewrite <- app_assoc|lia].
Qed.

Lemma loadImage_fresh (x : ElementProps * list Node) w :
  fst (loadImage (fst x) w) = length (heap w) /\
  length (heap (snd (loadImage (fst x) w))) = S (length (heap w)).
Proof.
  rewrite loadImage_eq. cbn [fst snd]. split; [reflexivity|].
  destruct (complete (fst x)); cbn; rewrite length_app; cbn; lia.
Qed.

Lemma loadVideo_fresh (x : ElementProps * list Node) w :
  fst (loadVideo (fst x) w) = length (heap w) /\
  length (heap (snd (loadVideo (fst x) w))) = S (length (heap w)).
Proof.
  rewrite loadVideo_eq. cbn [fst snd]. split; [reflexivity|].
  destruct (videoReady (fst x)); cbn; rewrite length_app; cbn; lia.
Qed.

(** The array [loadingPromises]: one new promise per image, then one
    per video, then for every span the promise [loadFonts] returns for
    it with the one map of the pass. *)
Lemma collectLoadingPromises_members doc element w :
  let images := getElementsByTagName element "img" in
  let videos := getElementsByTagName element "video" in
  let spans := getElementsByTagName element "span" in
  fst (collectLoadingPromises doc element w) =
    seq (length (heap w)) (length images + length videos)
    ++ List.map (fun e => loadFonts doc (fst e) (loadedFontsOf doc)) spans /\
  length (heap (snd (collectLoadingPromises doc element w))) =
    length (heap w) + (length images + length videos).
Proof.
  intros images videos spans. unfold collectLoadingPromises, bind.
  fold images videos spans.
  destruct (pushEach_fresh (fun e => loadImage (fst e)) images [] w loadImage_fresh)
    as [H1 H2].
  destruct (pushEach _ images [] w) as [acc1 w1]. cbn [fst snd] in H1, H2.
  destruct (pushEach_fresh (fun e => loadVideo (fst e)) videos acc1 w1 loadVideo_fresh)
    as [H3 H4].
  destruct (pushEach _ videos acc1 w1) as [acc2 w2]. cbn [fst snd] in H3, H4.
  rewrite (pushEach_ret (fun e : ElementProps * list Node =>
                           loadFonts doc (fst e) (loadedFontsOf doc))).
  cbn [fst snd]. subst acc2 acc1. rewrite H4, H2. split; [|lia].
  cbn [app]. rewrite seq_app. now rewrite <- Nat.add_comm.
Qed.

(** C7: for a span, [loadFonts] builds the key from the computed font
    family, style and weight, looks it up in the map of the pass, and
    returns the promise of the face found, which is the face of
    [document.fonts] with that key, or [document.fonts.ready] when there
    is none; and every font wait of one pass of the aggregator is made
    with the same map, built once from [document.fonts]. *)
Theorem loadFonts_spec (doc : Document) (span : ElementProps)
    (element : Node) (w : World) :
  let key := fontKeyOf (fontFamily span) (fontStyle span) (fontWeight span) in
  loadFonts doc span (loadedFontsOf doc) =
    match faceFor doc key with
    | Some font => loaded font
    | None => ready doc
    end /\
  exists media,
    fst (collectLoadingPromises doc element w) =
      media ++ List.map (fun e => loadFonts doc (fst e) (loadedFontsOf doc))
                        (getElementsByTagName element "span").
Proof.
  intros key. split.
  - unfold loadFonts. fold key. now rewrite loadedFontsOf_lookup.
  - eexists. apply collectLoadingPromises_members.
Qed.

(** ** Carrying the invariant from one world to the next *)

Lemma state_cases (s : PromiseState) : s = Pending \/ s = Fulfilled \/ s = Rejected.
Proof. destruct s; auto. Qed.

Lemma later_refl w : later w w.
Proof. split; [lia|reflexivity]. Qed.

Lemma later_trans w1 w2 w3 : later w1 w2 -> later w2 w3 -> later w1 w3.
Proof.
  intros [H1 H2] [H3 H4]. split; [lia|]. intros p Hp.
  rewrite H4; [now apply H2|]. now rewrite H2.
Qed.

Lemma later_fulfilled w w' p :
  later w w' -> stateOf w p = Fulfilled -> stateOf w' p = Fulfilled.
Proof. intros [_ H] Hp. rewrite H; congruence. Qed.

Lemma later_rejected w w' p :
  later w w' -> stateOf w p = Rejected -> stateOf w' p = Rejected.
Proof. intros [_ H] Hp. rewrite H; congruence. Qed.

Lemma later_pending w w' p :
  later w w' -> stateOf w' p = Pending -> stateOf w p = Pending.
Proof.
  intros [_ H] Hp. destruct (stateOf w p) eqn:E; [reflexivity| |];
    rewrite H in Hp; congruence.
Qed.

Lemma later_allFulfilled w w' ms :
  later w w' -> allFulfilled w ms -> allFulfilled w' ms.
Proof.
  intros Hl. unfold allFulfilled. intros H. eapply Forall_impl; [exact H|].
  cbv beta. intros m. now apply later_fulfilled.
Qed.

Lemma started_later L w w' e : later w w' -> started L w e -> started L w' e.
Proof.
  intros Hl [H|(inst & Ha & He & Hs)]; [now left|right].
  exists inst. repeat split; try assumption. now apply (later_fulfilled w).
Qed.

Lemma jobOk_later L w w' j : later w w' -> jobOk L w j -> jobOk L w' j.
Proof.
  intros Hl. destruct j as [cb|p t]; [|exact id].
  destruct cb; cbn; try exact id.
  - intros (inst & Ha & Hx & Hs). exists inst. repeat split; try assumption.
    now apply (later_fulfilled w).
  - intros (inst & Ha & [(Hx & m & Hm & Hs)|(Hx & Hs)]); exists inst; (split; [assumption|]).
    + left. split; [assumption|]. exists m. split; [assumption|].
      now apply (later_rejected w).
    + right. split; [assumption|]. now apply (later_rejected w).
  - intros (inst & m & Ha & Hx & Hm & Hs). exists inst, m. repeat split; try assumption.
    now apply (later_fulfilled w).
  - intros (inst & Ha & He & Hx & Hs). exists inst. repeat split; try assumption.
    now apply (later_fulfilled w).
  - intros (inst & Ha & Hx & Hs). exists inst. repeat split; try assumption.
    now apply (later_rejected w).
Qed.

Lemma listenerOk_later h L w w' l :
  later w w' -> listenerOk h L w l -> listenerOk h L w' l.
Proof.
  intros [Hlen _] (x & Hcb & Hh & Hx & Hi). exists x. repeat split; try assumption. lia.
Qed.

Lemma frameOk_later L w w' cb : later w w' -> frameOk L w cb -> frameOk L w' cb.
Proof.
  intros Hl (e & -> & Hs). exists e. split; [reflexivity|]. now apply (started_later L w).
Qed.

Lemma instBounds_later h w w' inst :
  later w w' -> instBounds h w inst -> instBounds h w' inst.
Proof.
  intros [Hlen _] (H1 & H2 & H3 & H4 & H5). repeat split; try assumption. lia.
Qed.

(** The safety half is carried over when the records and the chains of
    the runs are, and everything new in the queues is in order. *)
Lemma Safe_transfer h L w w' :
  Safe h L w -> later w w' ->
  (forall inst, armed L inst -> recordOk w' inst) ->
  (forall inst, armed L inst -> chainOk w' inst) ->
  (forall j, In j (microtasks w') -> In j (microtasks w) \/ jobOk L w' j) ->
  (forall p r, In r (reactionsOf w' p) ->
     In r (reactionsOf w p) \/ reactionOk L p r) ->
  (forall l, In l (listeners w') -> In l (listeners w) \/ listenerOk h L w' l) ->
  (forall cb, In cb (animationFrameCallbacks w') ->
     In cb (animationFrameCallbacks w) \/ frameOk L w' cb) ->
  (forall e v, animationPlayState w' !! e = Some v ->
     animationPlayState w !! e = Some v \/ (v = "running" /\ started L w' e)) ->
  Safe h L w'.
Proof.
  intros HS Hl Hrec Hchain Hjobs Hrx Hls Hfr Hplay.
  destruct HS as [Sh Sb Sa Sr Sc Sj Sx Sl Sf Sp].
  constructor; try assumption.
  - destruct Hl. lia.
  - intros inst Ha. apply (instBounds_later h w); auto.
  - intros j Hj. destruct (Hjobs j Hj) as [H|H]; [|exact H].
    apply (jobOk_later L w); auto.
  - intros p r Hr. destruct (Hrx p r Hr) as [H|H]; [|exact H]. now apply Sx.
  - intros l Hin. destruct (Hls l Hin) as [H|H]; [|exact H].
    apply (listenerOk_later h L w); auto.
  - intros cb Hin. destruct (Hfr cb Hin) as [H|H]; [|exact H].
    apply (frameOk_later L w); auto.
  - intros e v Hv. destruct (Hplay e v Hv) as [H|H]; [|exact H].
    destruct (Sp e v H) as [-> Hs]. split; [reflexivity|].
    now apply (started_later L w).
Qed.

Lemma recordOk_keep_at w w' inst :
  later w w' -> allRecords w' !! iAll inst = allRecords w !! iAll inst ->
  recordOk w inst -> recordOk w' inst.
Proof.
  intros Hl Hr (r & H1 & H2 & H3 & H4). exists r. rewrite Hr.
  refine (conj H1 (conj H2 (conj H3 _))).
  intros i Hi. destruct (H4 i Hi) as (m & Hm & Hs). exists m. split; [assumption|].
  now apply (later_fulfilled w).
Qed.

Lemma recordOk_keep w w' inst :
  later w w' -> allRecords w' = allRecords w -> recordOk w inst -> recordOk w' inst.
Proof. intros Hl Hr. apply recordOk_keep_at; [assumption|now rewrite Hr]. Qed.

Lemma chainOk_keep w w' inst :
  later w w' ->
  stateOf w' (iAll inst) = stateOf w (iAll inst) ->
  stateOf w' (iResources inst) = stateOf w (iResources inst) ->
  stateOf w' (iResult inst) = stateOf w (iResult inst) ->
  chainOk w inst -> chainOk w' inst.
Proof.
  intros Hl Ha Hr Hs (C1 & C2 & C3 & C4 & C5 & C6). unfold chainOk.
  rewrite Ha, Hr, Hs. refine (conj _ (conj C2 (conj C3 (conj _ (conj C5 C6))))).
  - intros H. apply (later_allFulfilled w); auto.
  - intros H. destruct (C4 H) as (m & Hm & Hms). exists m. split; [assumption|].
    now apply (later_rejected w).
Qed.

Section LiveTransfer.
Variables (L : list Entry) (w w' : World) (q q' : list Job).
Hypothesis Hl : later w w'.
Hypothesis Hrx : forall p r, stateOf w' p = Pending -> In r (reactionsOf w p) ->
  In r (reactionsOf w' p).
Hypothesis Hq : forall j, In j q -> In j q'.
Hypothesis Hnew : forall p r, stateOf w p = Pending -> stateOf w' p <> Pending ->
  In r (reactionsOf w p) -> In (reactionJob (stateOf w' p) r) q'.

Lemma memberLive_transfer inst :
  (forall i, filled w inst i -> filled w' inst i) ->
  memberLive w q inst -> memberLive w' q' inst.
Proof.
  intros Hfill HM i m Him. destruct (HM i m Him) as (M1 & M2 & M3).
  refine (conj _ (conj _ _)); intros Hp.
  - apply Hrx; [assumption|]. apply M1. now apply (later_pending w w').
  - destruct (state_cases (stateOf w m)) as [E|[E|E]].
    + right. specialize (Hnew m _ E ltac:(congruence) (M1 E)). now rewrite Hp in Hnew.
    + rewrite (later_fulfilled w w' m Hl E) in Hp. discriminate.
    + destruct (M2 E) as [H1|H1]; [left; now apply (later_rejected w)|right; auto].
  - destruct (state_cases (stateOf w m)) as [E|[E|E]].
    + right. specialize (Hnew m _ E ltac:(congruence) (M1 E)). now rewrite Hp in Hnew.
    + destruct (M3 E) as [H1|H1]; [left; now apply Hfill|right; auto].
    + rewrite (later_rejected w w' m Hl E) in Hp. discriminate.
Qed.

Lemma allLive_transfer inst :
  (forall r, allRecords w' !! iAll inst = Some r -> remainingElementsCount r = 0 ->
     allRecords w !! iAll inst = Some r \/ stateOf w' (iAll inst) = Fulfilled) ->
  allLive w q inst -> allLive w' q' inst.
Proof.
  intros Hzero (A1 & A2 & A3 & A4).
  refine (conj _ (conj _ (conj _ _))).
  - intros Hp. pose proof (later_pending w w' _ Hl Hp) as E.
    destruct (A1 E) as [H1|H1]; [left; now apply Hrx|right; now apply Hq].
  - intros Hp. destruct (state_cases (stateOf w (iAll inst))) as [E|[E|E]].
    + destruct (A1 E) as [H1|H1]; [|right; right; now apply Hq].
      right. left. specialize (Hnew _ _ E ltac:(congruence) H1).
      now rewrite Hp in Hnew.
    + rewrite (later_fulfilled w w' _ Hl E) in Hp. discriminate.
    + destruct (A2 E) as [H1|[H1|H1]].
      * left. now apply (later_rejected w).
      * right. left. now apply Hq.
      * right. right. now apply Hq.
  - intros Hp. destruct (state_cases (stateOf w (iAll inst))) as [E|[E|E]].
    + destruct (A1 E) as [H1|H1]; [|right; right; now apply Hq].
      right. left. specialize (Hnew _ _ E ltac:(congruence) H1).
      now rewrite Hp in Hnew.
    + destruct (A3 E) as [H1|[H1|H1]].
      * left. now apply (later_fulfilled w).
      * right. left. now apply Hq.
      * right. right. now apply Hq.
    + rewrite (later_rejected w w' _ Hl E) in Hp. discriminate.
  - intros r Hr H0. destruct (Hzero r Hr H0) as [H1|H1]; [|exact H1].
    apply (later_fulfilled w); [assumption|]. now apply (A4 r).
Qed.

Lemma resourcesLive_transfer inst :
  (immediateLive w (iElement inst) -> immediateLive w' (iElement inst)) ->
  resourcesLive w q inst -> resourcesLive w' q' inst.
Proof.
  intros Himm (R1 & R2 & R3). refine (conj _ (conj _ _)); intros Hp.
  - pose proof (later_pending w w' _ Hl Hp) as E. apply Hrx; [assumption|]. now apply R1.
  - destruct (state_cases (stateOf w (iResources inst))) as [E|[E|E]].
    + right. specialize (Hnew _ _ E ltac:(congruence) (R1 E)). now rewrite Hp in Hnew.
    + rewrite (later_fulfilled w w' _ Hl E) in Hp. discriminate.
    + destruct (R2 E) as [H1|H1]; [left; now apply (later_rejected w)|right; auto].
  - destruct (state_cases (stateOf w (iResources inst))) as [E|[E|E]].
    + right. specialize (Hnew _ _ E ltac:(congruence) (R1 E)). now rewrite Hp in Hnew.
    + destruct (R3 E) as [[H1 H2]|H1]; [|right; auto].
      left. split; [now apply (later_fulfilled w)|]. now apply Himm.
    + rewrite (later_rejected w w' _ Hl E) in Hp. discriminate.
Qed.

(** The liveness half is carried over when reactions stay while their
    promise is pending, the queue only grows, and the reactions of a
    promise that has just been settled are in the queue. *)
Lemma Live_transfer :
  Live L w q ->
  (forall inst i, armed L inst -> filled w inst i -> filled w' inst i) ->
  (forall inst r, armed L inst -> allRecords w' !! iAll inst = Some r ->
     remainingElementsCount r = 0 ->
     allRecords w !! iAll inst = Some r \/ stateOf w' (iAll inst) = Fulfilled) ->
  (forall e, immediateLive w e -> immediateLive w' e) ->
  Live L w' q'.
Proof.
  intros [HL HI] Hfill Hzero Himm. split; [|now auto].
  intros inst Ha. destruct (HL inst Ha) as (HM & HA & HR).
  refine (conj _ (conj _ _)).
  - apply memberLive_transfer; [|assumption]. intros i. now apply Hfill.
  - apply allLive_transfer; [|assumption]. intros r. now apply Hzero.
  - apply resourcesLive_transfer; auto.
Qed.
End LiveTransfer.

Lemma Live_carry L w w' q q' :
  Live L w q -> later w w' ->
  (forall p r, stateOf w' p = Pending -> In r (reactionsOf w p) ->
     In r (reactionsOf w' p)) ->
  (forall j, In j q -> In j q') ->
  (forall inst i, armed L inst -> filled w inst i -> filled w' inst i) ->
  (forall e, immediateLive w e -> immediateLive w' e) ->
  (forall p r, stateOf w p = Pending -> stateOf w' p <> Pending ->
     In r (reactionsOf w p) -> In (reactionJob (stateOf w' p) r) q') ->
  (forall inst r, armed L inst -> allRecords w' !! iAll inst = Some r ->
     remainingElementsCount r = 0 ->
     allRecords w !! iAll inst = Some r \/ stateOf w' (iAll inst) = Fulfilled) ->
  Live L w' q'.
Proof.
  intros HL Hl Hrx Hq Hfill Himm Hnew Hzero.
  now apply (Live_transfer L w w' q q').
Qed.

(** A job whose effect is there can leave the queue. *)
Lemma Live_discharge L w j q :
  Live L w (j :: q) -> jobDone w q j -> Live L w q.
Proof.
  intros [HL HI] Hd. split; [|exact HI].
  intros inst Ha. destruct (HL inst Ha) as (HM & (A1 & A2 & A3 & A4) & (R1 & R2 & R3)).
  refine (conj _ (conj (conj _ (conj _ (conj _ A4))) (conj R1 (conj _ _)))).
  - intros i m Him. destruct (HM i m Him) as (M1 & M2 & M3).
    refine (conj M1 (conj _ _)); intros Hp.
    + destruct (M2 Hp) as [H1|[H1|H1]]; auto. subst j. cbn in Hd. now left.
    + destruct (M3 Hp) as [H1|[H1|H1]]; auto. subst j. cbn in Hd. left. exact Hd.
  - intros Hp. destruct (A1 Hp) as [H1|[H1|H1]]; auto.
    subst j. cbn in Hd. left. now apply (proj1 Hd).
  - intros Hp. destruct (A2 Hp) as [H1|[[H1|H1]|[H1|H1]]]; auto.
    + subst j. cbn in Hd. now left.
    + subst j. cbn in Hd. destruct (proj1 (proj2 Hd) Hp) as [H2|H2]; auto.
  - intros Hp. destruct (A3 Hp) as [H1|[[H1|H1]|[H1|H1]]]; auto.
    + subst j. cbn in Hd. now left.
    + subst j. cbn in Hd. destruct (proj2 (proj2 Hd) Hp) as [H2|H2]; auto.
  - intros Hp. destruct (R2 Hp) as [H1|[H1|H1]]; auto. subst j. cbn in Hd. now left.
  - intros Hp. destruct (R3 Hp) as [H1|[H1|H1]]; auto. subst j. cbn in Hd. now left.
Qed.

(** Liveness only reads the promises, the records, the frame queue and
    the play states. *)
Lemma Live_same L w w' q :
  Live L w q ->
  heap w' = heap w -> allRecords w' = allRecords w ->
  animationFrameCallbacks w' = animationFrameCallbacks w ->
  animationPlayState w' = animationPlayState w ->
  Live L w' q.
Proof.
  intros HL Hh Hr Hf Hp.
  assert (Hst : forall p, stateOf w' p = stateOf w p)
    by (intros p; unfold stateOf; now rewrite Hh).
  assert (Hrx : forall p, reactionsOf w' p = reactionsOf w p)
    by (intros p; unfold reactionsOf; now rewrite Hh).
  apply (Live_carry L w w' q q HL).
  - split; [now rewrite Hh|]. intros p _. apply Hst.
  - intros p r _. now rewrite Hrx.
  - auto.
  - intros inst i _. unfold filled. now rewrite Hr.
  - intros e. unfold immediateLive. now rewrite Hf, Hp.
  - intros p r H1 H2. rewrite Hst in H2. contradiction.
  - intros inst r _ H1 _. left. now rewrite <- Hr.
Qed.

(** ** Settling a promise *)

Lemma stateOf_heap w w' p : heap w' = heap w -> stateOf w' p = stateOf w p.
Proof. unfold stateOf. now intros ->. Qed.

Lemma reactionsOf_heap w w' p : heap w' = heap w -> reactionsOf w' p = reactionsOf w p.
Proof. unfold reactionsOf. now intros ->. Qed.

Lemma stateOf_insert w w' x pr p :
  heap w' = <[x := pr]> (heap w) -> x < length (heap w) ->
  stateOf w' p = if decide (p = x) then state pr else stateOf w p.
Proof.
  intros E Hlt. unfold stateOf. rewrite E. destruct (decide (p = x)) as [->|Hne].
  - now rewrite list_lookup_insert_eq.
  - now rewrite list_lookup_insert_ne by congruence.
Qed.

Lemma reactionsOf_insert w w' x pr p :
  heap w' = <[x := pr]> (heap w) -> x < length (heap w) ->
  reactionsOf w' p = if decide (p = x) then reactions pr else reactionsOf w p.
Proof.
  intros E Hlt. unfold reactionsOf. rewrite E. destruct (decide (p = x)) as [->|Hne].
  - now rewrite list_lookup_insert_eq.
  - now rewrite list_lookup_insert_ne by congruence.
Qed.

Lemma stateOf_settled s x w p :
  x < length (heap w) ->
  stateOf (settledWorld s x w) p = if decide (p = x) then s else stateOf w p.
Proof. intros Hlt. now rewrite (stateOf_insert w (settledWorld s x w) x _ p eq_refl Hlt). Qed.

Lemma reactionsOf_settled s x w p :
  x < length (heap w) ->
  reactionsOf (settledWorld s x w) p = if decide (p = x) then [] else reactionsOf w p.
Proof. intros Hlt. now rewrite (reactionsOf_insert w (settledWorld s x w) x _ p eq_refl Hlt). Qed.

Lemma settle_cases s x w :
  exec (settle s x) w = w \/
  (stateOf w x = Pending /\ x < length (heap w) /\
   exec (settle s x) w = settledWorld s x w).
Proof.
  unfold exec, settle, stateOf, settledWorld, reactionsOf.
  destruct (heap w !! x) as [pr|] eqn:E; [|now left].
  destruct (state pr) eqn:Es; [|now left|now left].
  right. split; [reflexivity|]. split; [|reflexivity]. now apply lookup_lt_Some in E.
Qed.

Lemma settle_later s x w : s <> Pending -> later w (exec (settle s x) w).
Proof.
  intros Hs. split; [now rewrite settle_length|].
  intros p Hp. now apply settle_stateOf_stable.
Qed.

Lemma settle_state_cases s x w p v :
  stateOf (exec (settle s x) w) p = v ->
  stateOf w p = v \/ (p = x /\ stateOf w x = Pending /\ x < length (heap w) /\ s = v).
Proof.
  destruct (settle_cases s x w) as [->|(Hp & Hlt & ->)]; [now left|].
  rewrite (stateOf_settled s x w p Hlt).
  destruct (decide (p = x)) as [->|Hne]; [|now left]. cbn. intros <-. now right.
Qed.

Lemma settle_reactions s x w p r :
  In r (reactionsOf (exec (settle s x) w) p) -> In r (reactionsOf w p).
Proof.
  destruct (settle_cases s x w) as [->|(Hp & Hlt & ->)]; [exact id|].
  rewrite (reactionsOf_settled s x w p Hlt).
  destruct (decide (p = x)) as [->|Hne]; [intros []|exact id].
Qed.

Lemma settle_reactions_pending s x w p r :
  s <> Pending ->
  stateOf (exec (settle s x) w) p = Pending -> In r (reactionsOf w p) ->
  In r (reactionsOf (exec (settle s x) w) p).
Proof.
  intros Hs. destruct (settle_cases s x w) as [->|(Hp & Hlt & ->)]; [auto|].
  rewrite (reactionsOf_settled s x w p Hlt).
  rewrite (stateOf_settled s x w p Hlt).
  destruct (decide (p = x)) as [->|Hne]; [cbn; congruence|auto].
Qed.

Lemma settle_jobs s x w j :
  In j (microtasks (exec (settle s x) w)) ->
  In j (microtasks w) \/
  (stateOf w x = Pending /\ x < length (heap w) /\
   stateOf (exec (settle s x) w) x = s /\
   exists r, In r (reactionsOf w x) /\ j = reactionJob s r).
Proof.
  destruct (settle_cases s x w) as [E|(Hp & Hlt & E)]; rewrite E; [now left|].
  unfold settledWorld at 1. cbn [microtasks setMicrotasks]. rewrite in_app_iff, in_map_iff.
  intros [H|(r & <- & Hr)]; [now left|right].
  repeat split; try assumption.
  - rewrite (stateOf_settled s x w x Hlt). now rewrite decide_True.
  - now exists r.
Qed.

Lemma settle_jobs_eq s x w :
  exists new, microtasks (exec (settle s x) w) = microtasks w ++ new /\
    forall r, stateOf w x = Pending -> stateOf (exec (settle s x) w) x <> Pending ->
      In r (reactionsOf w x) ->
      In (reactionJob (stateOf (exec (settle s x) w) x) r) new.
Proof.
  destruct (settle_cases s x w) as [->|(Hp & Hlt & ->)].
  - exists []. split; [now rewrite app_nil_r|]. congruence.
  - eexists. split; [reflexivity|]. intros r _ _ Hr.
    rewrite (stateOf_settled s x w x Hlt), decide_True by reflexivity.
    cbn. now apply in_map.
Qed.

(** The job of a reaction of a promise that has been settled is in
    order. *)
Lemma reactionJob_ok L w s p r :
  s <> Pending -> stateOf w p = s -> reactionOk L p r -> jobOk L w (reactionJob s r).
Proof.
  intros Hs Hp (inst & Ha & [(i & -> & Hi)|[(-> & Hx)|(-> & Hx)]]);
    destruct s; try congruence; cbn.
  - exists inst, p. auto.
  - exists inst. split; [assumption|]. left. split; [reflexivity|].
    exists p. split; [|assumption]. apply list_elem_of_In.
    now apply list_elem_of_lookup_2 in Hi.
  - exists inst. subst p. auto.
  - exists inst. subst p. auto.
  - exists inst. subst p. auto.
  - exists inst. subst p. auto.
Qed.

Lemma chainOk_settle L w s x inst :
  s <> Pending -> settleAllowed L w s x -> armed L inst ->
  chainOk w inst -> chainOk (exec (settle s x) w) inst.
Proof.
  intros Hs Hal Ha (C1 & C2 & C3 & C4 & C5 & C6).
  destruct (Hal inst Ha) as (A1 & A2 & A3).
  pose proof (settle_later s x w Hs) as Hl.
  refine (conj _ (conj _ (conj _ (conj _ (conj _ _))))).
  - intros H. apply (later_allFulfilled w); [assumption|].
    apply settle_state_cases in H as [H|(E & _ & _ & ->)]; [auto|].
    now apply (A1 (eq_sym E)).
  - intros H. apply (later_fulfilled w); [assumption|].
    apply settle_state_cases in H as [H|(E & _ & _ & ->)]; [auto|].
    exact (A2 (eq_sym E)).
  - intros H. apply (later_fulfilled w); [assumption|].
    apply settle_state_cases in H as [H|(E & _ & _ & ->)]; [auto|].
    exact (A3 (eq_sym E)).
  - intros H.
    assert (exists m, In m (iMembers inst) /\ stateOf w m = Rejected) as (m & Hm & Hms).
    { apply settle_state_cases in H as [H|(E & _ & _ & ->)]; [auto|].
      now apply (A1 (eq_sym E)). }
    exists m. split; [assumption|]. now apply (later_rejected w).
  - intros H. apply (later_rejected w); [assumption|].
    apply settle_state_cases in H as [H|(E & _ & _ & ->)]; [auto|].
    exact (A2 (eq_sym E)).
  - intros H. apply (later_rejected w); [assumption|].
    apply settle_state_cases in H as [H|(E & _ & _ & ->)]; [auto|].
    exact (A3 (eq_sym E)).
Qed.

(** Settling a promise as allowed keeps the safety half. *)
Lemma Safe_settle h L w s x :
  Safe h L w -> s <> Pending -> settleAllowed L w s x ->
  Safe h L (exec (settle s x) w).
Proof.
  intros HS Hs Hal. pose proof (settle_later s x w Hs) as Hl.
  apply (Safe_transfer h L w); try assumption.
  - intros inst Ha. apply (recordOk_keep w); [assumption|apply settle_allRecords|].
    now apply (safe_record h L w HS).
  - intros inst Ha. apply (chainOk_settle L); try assumption.
    now apply (safe_chain h L w HS).
  - intros j Hj. apply settle_jobs in Hj as [Hj|(Hp & Hlt & Hx & r & Hr & ->)];
      [now left|right].
    apply (reactionJob_ok L _ s x); try assumption.
    now apply (safe_reactions h L w HS).
  - intros p r Hr. left. now apply settle_reactions in Hr.
  - intros l. rewrite settle_listeners. now left.
  - intros cb. rewrite settle_frames. now left.
  - intros e v. rewrite settle_playState. now left.
Qed.

(** Settling a promise keeps the liveness half, with the jobs of its
    reactions added to the queue. *)
Lemma Live_settle L w q s x :
  Live L w q -> s <> Pending ->
  exists new, microtasks (exec (settle s x) w) = microtasks w ++ new /\
              Live L (exec (settle s x) w) (q ++ new).
Proof.
  intros HL Hs. destruct (settle_jobs_eq s x w) as (new & Hq & Hnew).
  exists new. split; [assumption|].
  apply (Live_carry L w _ q); try assumption.
  - now apply settle_later.
  - intros p r. now apply settle_reactions_pending.
  - intros j Hj. apply in_app_iff. now left.
  - intros inst i _. unfold filled. now rewrite settle_allRecords.
  - intros e. unfold immediateLive. now rewrite settle_frames, settle_playState.
  - intros p r Hp Hp' Hr. apply in_app_iff. right.
    destruct (decide (p = x)) as [->|Hne]; [now apply Hnew|].
    rewrite settle_stateOf_other in Hp' by congruence. contradiction.
  - intros inst r _ H1 _. left. now rewrite settle_allRecords in H1.
Qed.

(** A promise that belongs to no run may be settled either way. *)
Lemma settleAllowed_external L w s x : ~ internal L x -> settleAllowed L w s x.
Proof.
  intros Hni inst Ha.
  refine (conj _ (conj _ _)); intros ->; exfalso; apply Hni; exists inst; auto.
Qed.

Lemma Inv_settle h L w s x :
  Inv h L w -> s <> Pending -> settleAllowed L w s x -> Inv h L (exec (settle s x) w).
Proof.
  intros [HS HL] Hs Hal. split; [now apply Safe_settle|].
  destruct (Live_settle L w _ s x HL Hs) as (new & -> & H). exact H.
Qed.

(** ** The events of the host keep the invariant *)

Lemma host_not_internal h L w x : Safe h L w -> x < h -> ~ internal L x.
Proof.
  intros HS Hx (inst & Ha & Hc).
  destruct (safe_bounds h L w HS inst Ha) as (H1 & H2 & H3 & H4 & _). lia.
Qed.

Lemma Inv_forEach_listeners h L (ls : list (nat * string * Callback)) w :
  Inv h L w ->
  Forall (fun l => exists x, (snd l = CbResolve x \/ snd l = CbReject x) /\
                             ~ internal L x) ls ->
  Inv h L (exec (forEach (fun l => runCallback (snd l)) ls) w).
Proof.
  intros HI Hall. revert w HI. induction Hall as [|l ls (x & Hcb & Hx) _ IH]; intros w HI.
  - exact HI.
  - cbn [forEach]. rewrite exec_bind. apply IH.
    rewrite (run_unit (runCallback (snd l))). cbn [snd].
    destruct Hcb as [-> | ->]; cbn [runCallback];
      (apply Inv_settle; [assumption|discriminate|now apply settleAllowed_external]).
Qed.

Lemma Inv_dispatchEvent h L w target type :
  Inv h L w -> Inv h L (exec (dispatchEvent target type) w).
Proof.
  intros HI. rewrite dispatchEvent_exec. apply Inv_forEach_listeners; [assumption|].
  apply Forall_forall. intros l Hl. apply list_elem_of_In, filter_In in Hl as [Hl _].
  destruct (safe_listeners h L w (proj1 HI) l Hl) as (x & Hcb & _ & _ & Hx).
  now exists x.
Qed.

Lemma Inv_host_settle h L w s x :
  Inv h L w -> s <> Pending -> x < h -> Inv h L (exec (settle s x) w).
Proof.
  intros HI Hs Hx. apply Inv_settle; try assumption.
  apply settleAllowed_external. now apply (host_not_internal h L w x (proj1 HI)).
Qed.

(** The frame callbacks set the play state of their elements. *)
Lemma forEach_frames_effect (cbs : list Callback) w :
  Forall (fun cb => exists e, cb = CbAnimationStart e) cbs ->
  let w' := exec (forEach runCallback cbs) w in
  heap w' = heap w /\ allRecords w' = allRecords w /\ microtasks w' = microtasks w /\
  listeners w' = listeners w /\ animationFrameCallbacks w' = animationFrameCallbacks w /\
  (forall e, In (CbAnimationStart e) cbs -> animationPlayState w' !! e = Some "running") /\
  (forall e, animationPlayState w !! e = Some "running" ->
     animationPlayState w' !! e = Some "running") /\
  (forall e v, animationPlayState w' !! e = Some v ->
     animationPlayState w !! e = Some v \/
     (v = "running" /\ In (CbAnimationStart e) cbs)).
Proof.
  intros Hall. revert w. induction Hall as [|cb cbs (e0 & ->) _ IH]; intros w.
  - cbn. repeat split; try reflexivity; [intros e []|auto|intros e v H; now left].
  - cbn [forEach]. cbv zeta. rewrite exec_bind.
    set (w1 := snd (runCallback (CbAnimationStart e0) w)).
    destruct (IH w1) as (H1 & H2 & H3 & H4 & H5 & H6 & H6' & H7).
    assert (Hp1 : animationPlayState w1 = <[e0 := "running"]> (animationPlayState w))
      by reflexivity.
    refine (conj H1 (conj H2 (conj H3 (conj H4 (conj H5 (conj _ (conj _ _))))))).
    + intros e [[= <-]|Hin]; [|now apply H6].
      apply H6'. rewrite Hp1. apply lookup_insert_eq.
    + intros e He. apply H6'. rewrite Hp1. destruct (decide (e0 = e)) as [->|Hne].
      * apply lookup_insert_eq.
      * now rewrite lookup_insert_ne.
    + intros e v Hv. destruct (H7 e v Hv) as [Hv1|[-> Hin]].
      * rewrite Hp1 in Hv1. destruct (decide (e0 = e)) as [->|Hne].
        -- rewrite lookup_insert_eq in Hv1. injection Hv1 as <-.
           right. split; [reflexivity|now left].
        -- rewrite lookup_insert_ne in Hv1 by assumption. now left.
      * right. split; [reflexivity|now right].
Qed.

Lemma later_same_heap w w' : heap w' = heap w -> later w w'.
Proof.
  intros E. split; [now rewrite E|]. intros p _. now apply stateOf_heap.
Qed.

Lemma chainOk_same_heap w w' inst : heap w' = heap w -> chainOk w inst -> chainOk w' inst.
Proof.
  intros E. apply chainOk_keep; [now apply later_same_heap|..]; now apply stateOf_heap.
Qed.

Lemma runAnimationFrame_exec w :
  exec runAnimationFrame w =
  exec (forEach runCallback (animationFrameCallbacks w))
       (setAnimationFrameCallbacks [] w).
Proof. reflexivity. Qed.

(** An animation frame keeps the invariant: the elements whose start
    was queued are running afterwards. *)
Lemma Inv_animationFrame h L w :
  Inv h L w -> Inv h L (exec runAnimationFrame w).
Proof.
  intros [HS HL]. rewrite runAnimationFrame_exec.
  assert (Hall : Forall (fun cb => exists e, cb = CbAnimationStart e)
                        (animationFrameCallbacks w)).
  { apply Forall_forall. intros cb Hcb. apply list_elem_of_In in Hcb.
    destruct (safe_frames h L w HS cb Hcb) as (e & -> & _). now exists e. }
  destruct (forEach_frames_effect _ (setAnimationFrameCallbacks [] w) Hall)
    as (H1 & H2 & H3 & H4 & H5 & H6 & H6' & H7).
  set (w' := exec _ _) in *. cbn in H1, H2, H3, H4, H5, H6', H7.
  assert (Hl : later w w') by now apply later_same_heap.
  split.
  - apply (Safe_transfer h L w); try assumption.
    + intros inst Ha. apply (recordOk_keep w); try assumption.
      now apply (safe_record h L w HS).
    + intros inst Ha. apply (chainOk_same_heap w); [assumption|].
      now apply (safe_chain h L w HS).
    + intros j. rewrite H3. now left.
    + intros p r. rewrite (reactionsOf_heap w w' p H1). now left.
    + intros l. rewrite H4. now left.
    + intros cb. rewrite H5. intros [].
    + intros e v Hv. destruct (H7 e v Hv) as [Hv'|[-> Hin]]; [now left|right].
      split; [reflexivity|].
      destruct (safe_frames h L w HS _ Hin) as (e' & [= <-] & Hs).
      now apply (started_later L w).
  - rewrite H3. apply (Live_carry L w w' (microtasks w)); try assumption.
    + intros p r _. now rewrite (reactionsOf_heap w w' p H1).
    + auto.
    + intros inst i _. unfold filled. now rewrite H2.
    + intros e [Hin|Hp]; right; [now apply H6|now apply H6'].
    + intros p r Hp Hp'. rewrite (stateOf_heap w w' p H1) in Hp'. contradiction.
    + intros inst r _ Hr _. left. now rewrite <- H2.
Qed.

(** ** The promises of different runs are different *)

Lemma roles h L w i1 i2 :
  Safe h L w -> armed L i1 -> armed L i2 ->
  (iAll i1 = iAll i2 -> i1 = i2) /\
  (iResources i1 = iResources i2 -> i1 = i2) /\
  (iResult i1 = iResult i2 -> i1 = i2) /\
  iAll i1 <> iResources i2 /\ iAll i1 <> iResult i2 /\
  iResources i1 <> iResult i2.
Proof.
  intros HS H1 H2.
  destruct (safe_bounds h L w HS i1 H1) as (B1 & B2 & B3 & B4 & _).
  destruct (safe_bounds h L w HS i2 H2) as (C1 & C2 & C3 & C4 & _).
  destruct (safe_apart h L w HS i1 i2 H1 H2) as [->|[Hd|Hd]];
    repeat split; intros; try reflexivity; lia.
Qed.

Lemma member_not_internal h L w inst m :
  Safe h L w -> armed L inst -> In m (iMembers inst) -> ~ internal L m.
Proof.
  intros HS Ha Hm (i2 & H2 & Hc).
  destruct (safe_bounds h L w HS inst Ha) as (B1 & B2 & B3 & B4 & B5).
  destruct (safe_bounds h L w HS i2 H2) as (C1 & C2 & C3 & C4 & _).
  rewrite Forall_forall in B5. specialize (B5 m (proj2 (list_elem_of_In _ _) Hm)).
  destruct (safe_apart h L w HS inst i2 Ha H2) as [->|[Hd|Hd]]; lia.
Qed.

Lemma settleAllowed_all h L w inst s :
  Safe h L w -> armed L inst ->
  (s = Fulfilled -> allFulfilled w (iMembers inst)) ->
  (s = Rejected -> exists m, In m (iMembers inst) /\ stateOf w m = Rejected) ->
  settleAllowed L w s (iAll inst).
Proof.
  intros HS Ha H1 H2 i2 Ha2.
  destruct (roles h L w inst i2 HS Ha Ha2) as (R1 & R2 & R3 & R4 & R5 & R6).
  refine (conj _ (conj _ _)); intros E.
  - apply R1 in E. subst i2. now split.
  - contradiction.
  - contradiction.
Qed.

Lemma settleAllowed_resources h L w inst s :
  Safe h L w -> armed L inst -> stateOf w (iAll inst) = s ->
  settleAllowed L w s (iResources inst).
Proof.
  intros HS Ha H1 i2 Ha2.
  destruct (roles h L w inst i2 HS Ha Ha2) as (R1 & R2 & R3 & R4 & R5 & R6).
  destruct (roles h L w i2 inst HS Ha2 Ha) as (Q1 & Q2 & Q3 & Q4 & Q5 & Q6).
  refine (conj _ (conj _ _)); intros E.
  - symmetry in E. contradiction.
  - apply R2 in E. now subst i2.
  - contradiction.
Qed.

Lemma settleAllowed_result h L w inst s :
  Safe h L w -> armed L inst -> stateOf w (iResources inst) = s ->
  settleAllowed L w s (iResult inst).
Proof.
  intros HS Ha H1 i2 Ha2.
  destruct (roles h L w inst i2 HS Ha Ha2) as (R1 & R2 & R3 & R4 & R5 & R6).
  destruct (roles h L w i2 inst HS Ha2 Ha) as (Q1 & Q2 & Q3 & Q4 & Q5 & Q6).
  refine (conj _ (conj _ _)); intros E.
  - symmetry in E. contradiction.
  - symmetry in E. contradiction.
  - apply R3 in E. now subst i2.
Qed.

Lemma settleAllowed_same_heap L w w' s x :
  heap w' = heap w -> settleAllowed L w s x -> settleAllowed L w' s x.
Proof.
  intros E Hal inst Ha. destruct (Hal inst Ha) as (A1 & A2 & A3).
  unfold allFulfilled. rewrite !(stateOf_heap w w' _ E).
  refine (conj _ (conj A2 A3)). intros Hx. destruct (A1 Hx) as [F1 F2]. split.
  - intros Hs. eapply Forall_impl; [exact (F1 Hs)|]. cbv beta. intros m.
    now rewrite (stateOf_heap w w' _ E).
  - intros Hs. destruct (F2 Hs) as (m & Hm & Hms). exists m.
    now rewrite (stateOf_heap w w' _ E).
Qed.

(** Taking the first job out of the queue keeps the safety half. *)
Lemma Safe_pop h L w j rest :
  Safe h L w -> microtasks w = j :: rest -> Safe h L (setMicrotasks rest w).
Proof.
  intros HS Hq. apply (Safe_transfer h L w); try assumption.
  - now apply later_same_heap.
  - intros inst Ha. apply (recordOk_keep w); [now apply later_same_heap|reflexivity|].
    now apply (safe_record h L w HS).
  - intros inst Ha. apply (chainOk_same_heap w); [reflexivity|].
    now apply (safe_chain h L w HS).
  - intros j' Hj'. left. rewrite Hq. now right.
  - intros p r. now left.
  - intros l. now left.
  - intros cb. now left.
  - intros e v. now left.
Qed.

(** ** Running a job keeps the invariant *)

Lemma runMicrotask_exec w j rest :
  microtasks w = j :: rest ->
  exec runMicrotask w = exec (runJob j) (setMicrotasks rest w).
Proof. intros E. unfold exec, runMicrotask. now rewrite E. Qed.

(** A job that ends by settling [x] to [s], from the world [w0] it has
    made of the world without the job. *)
Lemma Inv_settle_job h L w0 j rest s x :
  Safe h L w0 -> Live L w0 (j :: rest) -> microtasks w0 = rest ->
  s <> Pending -> settleAllowed L w0 s x -> x < length (heap w0) ->
  (stateOf w0 x = Pending \/ stateOf w0 x = s) ->
  (forall w' q', stateOf w' x = s ->
     animationFrameCallbacks w' = animationFrameCallbacks w0 ->
     jobDone w' q' j) ->
  Inv h L (exec (settle s x) w0).
Proof.
  intros HS HL Hq Hs Hal Hlt Hst Hdone. split; [now apply Safe_settle|].
  destruct (Live_settle L w0 (j :: rest) s x HL Hs) as (new & Hq' & HL').
  rewrite Hq', Hq. apply (Live_discharge L _ j). { exact HL'. }
  apply Hdone; [|apply settle_frames].
  destruct Hst as [Hp|Hp].
  - now apply settle_stateOf_pending.
  - rewrite settle_stateOf_stable; [assumption|]. congruence.
Qed.

Lemma Live_pop L w j rest :
  Live L w (microtasks w) -> microtasks w = j :: rest ->
  Live L (setMicrotasks rest w) (j :: rest).
Proof. intros HL Hq. rewrite Hq in HL. now apply (Live_same L w). Qed.

Lemma armed_lt h L w inst :
  Safe h L w -> armed L inst ->
  iResult inst < length (heap w) /\ iResources inst < length (heap w) /\
  iAll inst < length (heap w).
Proof.
  intros HS Ha. destruct (safe_bounds h L w HS inst Ha) as (B1 & B2 & B3 & B4 & _). lia.
Qed.

(** The built-in resolving and rejecting functions. *)
Lemma Inv_job_resolveFunction h L w x rest :
  Inv h L w -> microtasks w = JobReaction (CbResolveFunction x) :: rest ->
  Inv h L (exec runMicrotask w).
Proof.
  intros [HS HL] Hq. rewrite (runMicrotask_exec w _ rest Hq). cbn [runJob runCallback].
  pose proof (Safe_pop h L w _ rest HS Hq) as HS0.
  destruct (safe_jobs h L w HS _ ltac:(rewrite Hq; now left)) as (inst & Ha & <- & HA).
  destruct (safe_chain h L w HS inst Ha) as (C1 & C2 & C3 & C4 & C5 & C6).
  apply (Inv_settle_job h L _ (JobReaction (CbResolveFunction (iResources inst))) rest);
    try assumption; try reflexivity.
  - now apply Live_pop.
  - discriminate.
  - apply (settleAllowed_resources h); assumption.
  - apply (armed_lt h L w inst HS Ha).
  - change (stateOf w (iResources inst) = Pending \/ stateOf w (iResources inst) = Fulfilled).
    destruct (state_cases (stateOf w (iResources inst))) as [E|[E|E]]; auto.
    specialize (C5 E). congruence.
  - intros w' q' Hx _. exact Hx.
Qed.

Lemma Inv_job_asyncThrow h L w x rest :
  Inv h L w -> microtasks w = JobReaction (CbAsyncThrow x) :: rest ->
  Inv h L (exec runMicrotask w).
Proof.
  intros [HS HL] Hq. rewrite (runMicrotask_exec w _ rest Hq). cbn [runJob runCallback].
  pose proof (Safe_pop h L w _ rest HS Hq) as HS0.
  destruct (safe_jobs h L w HS _ ltac:(rewrite Hq; now left)) as (inst & Ha & <- & HA).
  destruct (safe_chain h L w HS inst Ha) as (C1 & C2 & C3 & C4 & C5 & C6).
  apply (Inv_settle_job h L _ (JobReaction (CbAsyncThrow (iResult inst))) rest);
    try assumption; try reflexivity.
  - now apply Live_pop.
  - discriminate.
  - apply (settleAllowed_result h); assumption.
  - apply (armed_lt h L w inst HS Ha).
  - change (stateOf w (iResult inst) = Pending \/ stateOf w (iResult inst) = Rejected).
    destruct (state_cases (stateOf w (iResult inst))) as [E|[E|E]]; auto.
    specialize (C3 E). congruence.
  - intros w' q' Hx _. exact Hx.
Qed.

Lemma Inv_job_rejectFunction h L w x rest :
  Inv h L w -> microtasks w = JobReaction (CbRejectFunction x) :: rest ->
  Inv h L (exec runMicrotask w).
Proof.
  intros [HS HL] Hq. rewrite (runMicrotask_exec w _ rest Hq). cbn [runJob runCallback].
  pose proof (Safe_pop h L w _ rest HS Hq) as HS0.
  destruct (safe_jobs h L w HS _ ltac:(rewrite Hq; now left))
    as (inst & Ha & [(<- & m & Hm & Hms)|(<- & HA)]);
    destruct (safe_chain h L w HS inst Ha) as (C1 & C2 & C3 & C4 & C5 & C6).
  - apply (Inv_settle_job h L _ (JobReaction (CbRejectFunction (iAll inst))) rest);
      try assumption; try reflexivity.
    + now apply Live_pop.
    + discriminate.
    + apply (settleAllowed_all h); try assumption; [discriminate|].
      intros _. now exists m.
    + apply (armed_lt h L w inst HS Ha).
    + change (stateOf w (iAll inst) = Pending \/ stateOf w (iAll inst) = Rejected).
      destruct (state_cases (stateOf w (iAll inst))) as [E|[E|E]]; auto.
      specialize (C1 E). unfold allFulfilled in C1. rewrite Forall_forall in C1.
      specialize (C1 m (proj2 (list_elem_of_In _ _) Hm)). congruence.
    + intros w' q' Hx _. exact Hx.
  - apply (Inv_settle_job h L _ (JobReaction (CbRejectFunction (iResources inst))) rest);
      try assumption; try reflexivity.
    + now apply Live_pop.
    + discriminate.
    + apply (settleAllowed_resources h); assumption.
    + apply (armed_lt h L w inst HS Ha).
    + change (stateOf w (iResources inst) = Pending \/
              stateOf w (iResources inst) = Rejected).
      destruct (state_cases (stateOf w (iResources inst))) as [E|[E|E]]; auto.
      specialize (C2 E). congruence.
    + intros w' q' Hx _. exact Hx.
Qed.

(** The dispatcher after its await: it asks for the frame and its
    promise is fulfilled. *)
Lemma Inv_job_asyncResume h L w e x rest :
  Inv h L w -> microtasks w = JobReaction (CbAsyncResume e x) :: rest ->
  Inv h L (exec runMicrotask w).
Proof.
  intros [HS HL] Hq. rewrite (runMicrotask_exec w _ rest Hq). cbn [runJob runCallback].
  rewrite exec_bind.
  pose proof (Safe_pop h L w _ rest HS Hq) as HS0.
  destruct (safe_jobs h L w HS _ ltac:(rewrite Hq; now left))
    as (inst & Ha & <- & <- & HR).
  destruct (safe_chain h L w HS inst Ha) as (C1 & C2 & C3 & C4 & C5 & C6).
  set (wp := setMicrotasks rest w) in *.
  set (w0 := snd (requestAnimationFrame (CbAnimationStart (iElement inst)) wp)).
  assert (Hh : heap w0 = heap wp) by reflexivity.
  assert (Hf : animationFrameCallbacks w0 =
               animationFrameCallbacks wp ++ [CbAnimationStart (iElement inst)])
    by reflexivity.
  assert (HS1 : Safe h L w0).
  { apply (Safe_transfer h L wp); try assumption.
    - now apply later_same_heap.
    - intros i Hi. apply (recordOk_keep wp); [now apply later_same_heap|reflexivity|].
      now apply (safe_record h L wp HS0).
    - intros i Hi. apply (chainOk_same_heap wp); [assumption|].
      now apply (safe_chain h L wp HS0).
    - intros j. now left.
    - intros p r. now left.
    - intros l. now left.
    - intros cb. rewrite Hf, in_app_iff. intros [H|[<-|[]]]; [now left|right].
      exists (iElement inst). split; [reflexivity|]. right. exists inst. auto.
    - intros e v. now left. }
  assert (HL1 : Live L w0 (JobReaction (CbAsyncResume (iElement inst) (iResult inst)) :: rest)).
  { apply (Live_carry L wp w0 _ _ (Live_pop L w _ rest HL Hq)).
    - now apply later_same_heap.
    - intros p r _. now rewrite (reactionsOf_heap wp w0 p Hh).
    - auto.
    - intros i k _. exact id.
    - intros e0. unfold immediateLive. rewrite Hf, in_app_iff. tauto.
    - intros p r Hp Hp'. rewrite (stateOf_heap wp w0 p Hh) in Hp'. contradiction.
    - intros i r _ Hr _. now left. }
  apply (Inv_settle_job h L w0 (JobReaction (CbAsyncResume (iElement inst) (iResult inst)))
           rest); try assumption; try reflexivity.
  - discriminate.
  - apply (settleAllowed_result h); assumption.
  - apply (armed_lt h L w inst HS Ha).
  - change (stateOf w (iResult inst) = Pending \/ stateOf w (iResult inst) = Fulfilled).
    destruct (state_cases (stateOf w (iResult inst))) as [E|[E|E]]; auto.
    specialize (C6 E). congruence.
  - intros w' q' Hx Hfr. split; [exact Hx|]. left. rewrite Hfr, Hf, in_app_iff.
    right. now left.
Qed.

(** ** Registering a reaction *)

Lemma performThen_cases x r w :
  (length (heap w) <= x /\ exec (performThen x r) w = w) \/
  (stateOf w x = Pending /\ x < length (heap w) /\
   exec (performThen x r) w = thenWorld x r w) \/
  (stateOf w x <> Pending /\ x < length (heap w) /\
   exec (performThen x r) w =
     setMicrotasks (microtasks w ++ [reactionJob (stateOf w x) r]) w).
Proof.
  unfold exec, performThen, stateOf, thenWorld, reactionsOf.
  destruct (heap w !! x) as [pr|] eqn:E.
  - apply lookup_lt_Some in E.
    destruct (state pr) eqn:Es; [right; left|right; right|right; right];
      repeat split; try assumption; discriminate.
  - left. split; [now apply lookup_ge_None|reflexivity].
Qed.

Lemma stateOf_thenWorld x r w p :
  stateOf w x = Pending -> stateOf (thenWorld x r w) p = stateOf w p.
Proof.
  intros Hp. destruct (decide (x < length (heap w))) as [Hlt|Hge].
  - rewrite (stateOf_insert w (thenWorld x r w) x _ p eq_refl Hlt).
    destruct (decide (p = x)) as [->|]; [now rewrite Hp|reflexivity].
  - unfold stateOf, thenWorld. cbn. now rewrite list_insert_ge by lia.
Qed.

Lemma reactionsOf_thenWorld x r w p :
  x < length (heap w) ->
  reactionsOf (thenWorld x r w) p =
  if decide (p = x) then reactionsOf w x ++ [r] else reactionsOf w p.
Proof.
  intros Hlt. now rewrite (reactionsOf_insert w (thenWorld x r w) x _ p eq_refl Hlt).
Qed.

Lemma performThen_stateOf x r w p :
  stateOf (exec (performThen x r) w) p = stateOf w p.
Proof.
  destruct (performThen_cases x r w) as [[_ ->]|[(Hp & _ & ->)|(_ & _ & ->)]];
    try reflexivity.
  now apply stateOf_thenWorld.
Qed.

Lemma performThen_length x r w :
  length (heap (exec (performThen x r) w)) = length (heap w).
Proof.
  destruct (performThen_cases x r w) as [[_ ->]|[(Hp & _ & ->)|(_ & _ & ->)]];
    try reflexivity.
  unfold thenWorld. cbn. apply length_insert.
Qed.

Lemma performThen_later x r w : later w (exec (performThen x r) w).
Proof.
  split; [now rewrite performThen_length|]. intros p _. apply performThen_stateOf.
Qed.

Lemma performThen_reactions x r w p r' :
  In r' (reactionsOf (exec (performThen x r) w) p) ->
  In r' (reactionsOf w p) \/ (p = x /\ r' = r /\ stateOf w x = Pending).
Proof.
  destruct (performThen_cases x r w) as [[_ ->]|[(Hp & Hlt & ->)|(_ & _ & ->)]];
    try (now left).
  rewrite (reactionsOf_thenWorld x r w p Hlt).
  destruct (decide (p = x)) as [->|]; [|now left].
  rewrite in_app_iff. intros [H|[<-|[]]]; [now left|now right].
Qed.

Lemma performThen_reactions_old x r w p r' :
  In r' (reactionsOf w p) -> In r' (reactionsOf (exec (performThen x r) w) p).
Proof.
  destruct (performThen_cases x r w) as [[_ ->]|[(Hp & Hlt & ->)|(_ & _ & ->)]];
    try exact id.
  rewrite (reactionsOf_thenWorld x r w p Hlt).
  destruct (decide (p = x)) as [->|]; [|exact id].
  rewrite in_app_iff. now left.
Qed.

Lemma performThen_registered x r w :
  x < length (heap w) -> stateOf w x = Pending ->
  In r (reactionsOf (exec (performThen x r) w) x).
Proof.
  intros Hlt Hp.
  destruct (performThen_cases x r w) as [[? _]|[(_ & _ & ->)|(? & _ & _)]];
    [lia| |contradiction].
  rewrite (reactionsOf_thenWorld x r w x Hlt), decide_True by reflexivity.
  rewrite in_app_iff. right. now left.
Qed.

Lemma performThen_jobs x r w :
  exists new, microtasks (exec (performThen x r) w) = microtasks w ++ new /\
    (forall j, In j new -> j = reactionJob (stateOf w x) r /\ stateOf w x <> Pending) /\
    (stateOf w x <> Pending -> x < length (heap w) ->
     In (reactionJob (stateOf w x) r) new).
Proof.
  destruct (performThen_cases x r w) as [[Hge ->]|[(Hp & _ & ->)|(Hp & _ & ->)]].
  - exists []. rewrite app_nil_r. split; [reflexivity|].
    split; [intros j []|lia].
  - exists []. cbn. rewrite app_nil_r. split; [reflexivity|].
    split; [intros j []|contradiction].
  - eexists. split; [reflexivity|]. split.
    + intros j [<-|[]]. now split.
    + intros _ _. now left.
Qed.

Lemma performThen_others x r w :
  let w' := exec (performThen x r) w in
  allRecords w' = allRecords w /\ listeners w' = listeners w /\
  animationFrameCallbacks w' = animationFrameCallbacks w /\
  animationPlayState w' = animationPlayState w /\ loadingAttr w' = loadingAttr w.
Proof.
  cbv zeta.
  destruct (performThen_cases x r w) as [[_ ->]|[(_ & _ & ->)|(_ & _ & ->)]];
    repeat split.
Qed.

Lemma Safe_performThen h L w x r :
  Safe h L w -> reactionOk L x r -> Safe h L (exec (performThen x r) w).
Proof.
  intros HS Hr. pose proof (performThen_later x r w) as Hl.
  destruct (performThen_others x r w) as (O1 & O2 & O3 & O4 & _).
  apply (Safe_transfer h L w); try assumption.
  - intros inst Ha. apply (recordOk_keep w); try assumption.
    now apply (safe_record h L w HS).
  - intros inst Ha.
    apply (chainOk_keep w); try assumption; try apply performThen_stateOf.
    now apply (safe_chain h L w HS).
  - intros j. destruct (performThen_jobs x r w) as (new & -> & Hnew & _).
    rewrite in_app_iff. intros [H|H]; [now left|right].
    destruct (Hnew j H) as [-> Hne].
    apply (reactionJob_ok L _ _ x); try assumption. apply performThen_stateOf.
  - intros p r' Hin. apply performThen_reactions in Hin as [H|(-> & -> & _)];
      [now left|now right].
  - intros l. rewrite O2. now left.
  - intros cb. rewrite O3. now left.
  - intros e v. rewrite O4. now left.
Qed.

Lemma Live_performThen L w q x r :
  Live L w q ->
  exists new, microtasks (exec (performThen x r) w) = microtasks w ++ new /\
    Live L (exec (performThen x r) w) (q ++ new) /\
    (stateOf w x <> Pending -> x < length (heap w) ->
     In (reactionJob (stateOf w x) r) new).
Proof.
  intros HL. destruct (performThen_jobs x r w) as (new & Hq & _ & Hnew).
  destruct (performThen_others x r w) as (O1 & O2 & O3 & O4 & _).
  exists new. split; [assumption|]. split; [|assumption].
  apply (Live_carry L w _ q); try assumption.
  - apply performThen_later.
  - intros p r' _. apply performThen_reactions_old.
  - intros j Hj. apply in_app_iff. now left.
  - intros inst i _. unfold filled. now rewrite O1.
  - intros e. unfold immediateLive. now rewrite O3, O4.
  - intros p r' Hp Hp'. rewrite performThen_stateOf in Hp'. contradiction.
  - intros inst r' _ Hr _. left. now rewrite <- O1.
Qed.

(** The job that makes the promise of [loadElementResources] follow the
    promise of [Promise.all]. *)
Lemma Inv_job_thenable h L w p t rest :
  Inv h L w -> microtasks w = JobResolveThenable p t :: rest ->
  Inv h L (exec runMicrotask w).
Proof.
  intros [HS HL] Hq. rewrite (runMicrotask_exec w _ rest Hq). cbn [runJob].
  pose proof (Safe_pop h L w _ rest HS Hq) as HS0.
  destruct (safe_jobs h L w HS _ ltac:(rewrite Hq; now left)) as (inst & Ha & <- & <-).
  set (w0 := setMicrotasks rest w) in *.
  set (r := {| onFulfilled := CbResolveFunction (iResources inst);
               onRejected := CbRejectFunction (iResources inst) |}).
  assert (Hr : reactionOk L (iAll inst) r).
  { exists inst. split; [assumption|]. right. left. now split. }
  split; [now apply Safe_performThen|].
  destruct (Live_performThen L w0 _ (iAll inst) r (Live_pop L w _ rest HL Hq))
    as (new & Hq' & HL' & Hnew).
  rewrite Hq'. apply (Live_discharge L _ (JobResolveThenable (iResources inst) (iAll inst))).
  { exact HL'. }
  assert (Hlt : iAll inst < length (heap w0)) by apply (armed_lt h L w inst HS Ha).
  cbn [jobDone]. rewrite !performThen_stateOf.
  refine (conj _ (conj _ _)); intros E.
  - now apply performThen_registered.
  - right. apply in_app_iff. right.
    assert (Hne : stateOf w0 (iAll inst) <> Pending) by congruence.
    specialize (Hnew Hne Hlt). now rewrite E in Hnew.
  - right. apply in_app_iff. right.
    assert (Hne : stateOf w0 (iAll inst) <> Pending) by congruence.
    specialize (Hnew Hne Hlt). now rewrite E in Hnew.
Qed.

(** ** The resolve element functions of Promise.all *)

Lemma count_false_insert (vs : list bool) i :
  vs !! i = Some false ->
  length (List.filter negb (<[i := true]> vs)) = pred (length (List.filter negb vs)) /\
  0 < length (List.filter negb vs).
Proof.
  revert i. induction vs as [|v vs IH]; intros i Hi; [discriminate|].
  destruct i as [|i]; cbn in Hi.
  - injection Hi as ->. cbn. lia.
  - destruct (IH i Hi) as [H1 H2].
    change (<[S i := true]> (v :: vs)) with (v :: <[i := true]> vs).
    destruct v; cbn [List.filter negb length]; rewrite ?H1; lia.
Qed.

Lemma count_false_zero (vs : list bool) k :
  length (List.filter negb vs) = 0 -> k < length vs -> vs !! k = Some true.
Proof.
  revert k. induction vs as [|v vs IH]; intros k H0 Hk; [cbn in Hk; lia|].
  destruct v; cbn in H0; [|discriminate].
  destruct k as [|k]; [reflexivity|]. cbn. apply IH; [assumption|cbn in Hk; lia].
Qed.

(** Settling in a world that differs from a safe one by its records
    only, when the records are in order afterwards. *)
Lemma Safe_settle_gen h L w w1 s x :
  Safe h L w -> heap w1 = heap w -> microtasks w1 = microtasks w ->
  listeners w1 = listeners w ->
  animationFrameCallbacks w1 = animationFrameCallbacks w ->
  animationPlayState w1 = animationPlayState w ->
  s <> Pending -> settleAllowed L w s x ->
  (forall inst, armed L inst -> recordOk (exec (settle s x) w1) inst) ->
  Safe h L (exec (settle s x) w1).
Proof.
  intros HS Hh Hq Hls Hf Hp Hs Hal Hrec.
  assert (Hl : later w (exec (settle s x) w1)).
  { apply (later_trans w w1); [now apply later_same_heap|now apply settle_later]. }
  apply (Safe_transfer h L w); try assumption.
  - intros inst Ha. apply (chainOk_settle L); try assumption.
    + now apply (settleAllowed_same_heap L w).
    + apply (chainOk_same_heap w); [assumption|]. now apply (safe_chain h L w HS).
  - intros j Hj. apply settle_jobs in Hj as [Hj|(Hpx & Hlt & Hx & r & Hr & ->)].
    + left. now rewrite <- Hq.
    + right. apply (reactionJob_ok L _ s x); try assumption.
      apply (safe_reactions h L w HS). now rewrite <- (reactionsOf_heap w w1 x Hh).
  - intros p r Hr. left. apply settle_reactions in Hr.
    now rewrite <- (reactionsOf_heap w w1 p Hh).
  - intros l. rewrite settle_listeners, Hls. now left.
  - intros cb. rewrite settle_frames, Hf. now left.
  - intros e v. rewrite settle_playState, Hp. now left.
Qed.

Lemma allResolveElement_cases a i w r :
  allRecords w !! a = Some r ->
  (values r !! i <> Some false /\ exec (allResolveElement a i) w = w) \/
  (values r !! i = Some false /\
   exec (allResolveElement a i) w =
     if Nat.eqb (pred (remainingElementsCount r)) 0
     then exec (settle Fulfilled a) (filledWorld a i r w)
     else filledWorld a i r w).
Proof.
  intros Hr. unfold exec, allResolveElement, bind, getAllRecord. rewrite Hr. cbn [default].
  change (id r) with r.
  destruct (values r !! i) as [[|]|] eqn:E; [left; now split| |left; now split].
  right. split; [reflexivity|]. unfold putAllRecord, filledWorld.
  now destruct (Nat.eqb _ 0).
Qed.

Section Fill.
Variables (h : nat) (L : list Entry) (w : World).
Variables (inst : Instance) (i m : nat) (r : AllRecord).
Hypothesis HS : Safe h L w.
Hypothesis Ha : armed L inst.
Hypothesis Hm : iMembers inst !! i = Some m.
Hypothesis Hms : stateOf w m = Fulfilled.
Hypothesis Hr : allRecords w !! iAll inst = Some r.
Hypothesis Hlen : length (values r) = length (iMembers inst).
Hypothesis Hrem : remainingElementsCount r = length (List.filter negb (values r)).
Hypothesis Hfill : forall k, values r !! k = Some true ->
  exists m', iMembers inst !! k = Some m' /\ stateOf w m' = Fulfilled.
Hypothesis Hi : values r !! i = Some false.

Let r1 := {| values := <[i := true]> (values r);
             remainingElementsCount := pred (remainingElementsCount r) |}.

Lemma fill_lt : i < length (values r).
Proof. now apply lookup_lt_Some in Hi. Qed.

(** The records are in order in every later world that holds the new
    record. *)
Lemma fill_records w' :
  later w w' ->
  allRecords w' = <[iAll inst := r1]> (allRecords w) ->
  forall inst', armed L inst' -> recordOk w' inst'.
Proof.
  intros Hl Hrec inst' Ha'.
  destruct (decide (iAll inst' = iAll inst)) as [E|Hne].
  - destruct (roles h L w inst' inst HS Ha' Ha) as (R1 & _). specialize (R1 E).
    subst inst'. exists r1. rewrite Hrec, lookup_insert_eq.
    destruct (count_false_insert (values r) i Hi) as [Hc _].
    refine (conj eq_refl (conj _ (conj _ _))).
    + cbn. now rewrite length_insert.
    + cbn. now rewrite Hc, Hrem.
    + intros k Hk. cbn in Hk. destruct (decide (i = k)) as [<-|Hik].
      * exists m. split; [assumption|]. now apply (later_fulfilled w).
      * rewrite list_lookup_insert_ne in Hk by assumption.
        destruct (Hfill k Hk) as (m' & Hm' & Hs'). exists m'. split; [assumption|].
        now apply (later_fulfilled w).
  - apply (recordOk_keep_at w); [assumption| |now apply (safe_record h L w HS)].
    rewrite Hrec. now apply lookup_insert_ne.
Qed.

(** When the count reaches 0 every member is fulfilled. *)
Lemma fill_all_fulfilled :
  pred (remainingElementsCount r) = 0 -> allFulfilled w (iMembers inst).
Proof.
  intros Hz. destruct (count_false_insert (values r) i Hi) as [Hc _].
  rewrite <- Hrem, Hz in Hc.
  apply Forall_lookup. intros k m' Hk.
  assert (Hklt : k < length (<[i := true]> (values r))).
  { rewrite length_insert, Hlen. now apply lookup_lt_Some in Hk. }
  pose proof (count_false_zero _ k Hc Hklt) as Hv.
  destruct (decide (i = k)) as [<-|Hik].
  - congruence.
  - rewrite list_lookup_insert_ne in Hv by assumption.
    destruct (Hfill k Hv) as (m'' & Hm'' & Hs''). congruence.
Qed.

Lemma fill_filled w' inst' k :
  allRecords w' = <[iAll inst := r1]> (allRecords w) ->
  filled w inst' k -> filled w' inst' k.
Proof.
  intros Hrec (r' & Hr' & Hk). unfold filled. rewrite Hrec.
  destruct (decide (iAll inst = iAll inst')) as [E|Hne].
  - rewrite <- E, lookup_insert_eq. exists r1. split; [reflexivity|].
    rewrite <- E, Hr in Hr'. injection Hr' as <-. cbn.
    destruct (decide (i = k)) as [<-|Hik]; [congruence|].
    now rewrite list_lookup_insert_ne.
  - rewrite lookup_insert_ne by assumption. now exists r'.
Qed.

Lemma fill_done w' :
  allRecords w' = <[iAll inst := r1]> (allRecords w) ->
  exists r', allRecords w' !! iAll inst = Some r' /\ values r' !! i = Some true.
Proof.
  intros Hrec. exists r1. rewrite Hrec, lookup_insert_eq. split; [reflexivity|].
  cbn. apply list_lookup_insert_eq. apply fill_lt.
Qed.

(** A record with a zero count in the later world is the new one with
    its count at zero, or an old one. *)
Lemma fill_zero w' inst' r' :
  armed L inst' ->
  allRecords w' = <[iAll inst := r1]> (allRecords w) ->
  allRecords w' !! iAll inst' = Some r' -> remainingElementsCount r' = 0 ->
  allRecords w !! iAll inst' = Some r' \/
  (inst' = inst /\ pred (remainingElementsCount r) = 0).
Proof.
  intros Ha' Hrec Hr' H0. rewrite Hrec in Hr'.
  destruct (decide (iAll inst' = iAll inst)) as [E|Hne].
  - destruct (roles h L w inst' inst HS Ha' Ha) as (R1 & _). specialize (R1 E).
    subst inst'. rewrite lookup_insert_eq in Hr'. injection Hr' as <-. now right.
  - rewrite lookup_insert_ne in Hr' by congruence. now left.
Qed.
End Fill.

Lemma Inv_job_allResolveElement h L w a i rest :
  Inv h L w -> microtasks w = JobReaction (CbAllResolveElement a i) :: rest ->
  Inv h L (exec runMicrotask w).
Proof.
  intros [HS HL] Hq. rewrite (runMicrotask_exec w _ rest Hq). cbn [runJob runCallback].
  pose proof (Safe_pop h L w _ rest HS Hq) as HS0.
  pose proof (Live_pop L w _ rest HL Hq) as HL0.
  destruct (safe_jobs h L w HS _ ltac:(rewrite Hq; now left))
    as (inst & m & Ha & <- & Hm & Hms).
  destruct (safe_record h L w HS inst Ha) as (r & Hr & Hlen & Hrem & Hfill).
  destruct (safe_chain h L w HS inst Ha) as (C1 & C2 & C3 & C4 & C5 & C6).
  set (w0 := setMicrotasks rest w) in *.
  set (j := JobReaction (CbAllResolveElement (iAll inst) i)) in *.
  assert (Hilt : i < length (values r)).
  { rewrite Hlen. now apply lookup_lt_Some in Hm. }
  destruct (allResolveElement_cases (iAll inst) i w0 r Hr) as [[Hv ->]|[Hv ->]].
  - (* the position is filled already *)
    split; [assumption|]. apply (Live_discharge L w0 j); [assumption|].
    exists r. split; [assumption|].
    destruct (lookup_lt_is_Some_2 _ _ Hilt) as [[|] Hb]; congruence.
  - set (w1 := filledWorld (iAll inst) i r w0).
    assert (Hrec1 : allRecords w1 = <[iAll inst := {|
        values := <[i := true]> (values r);
        remainingElementsCount := pred (remainingElementsCount r) |}]> (allRecords w0))
      by reflexivity.
    assert (HS1 : Safe h L w1).
    { apply (Safe_transfer h L w0); try assumption.
      - now apply later_same_heap.
      - apply (fill_records h L w0 inst i m r HS0 Ha Hm Hms Hlen Hrem Hfill Hv);
          [now apply later_same_heap|assumption].
      - intros inst' Ha'. apply (chainOk_same_heap w0); [reflexivity|].
        now apply (safe_chain h L w0 HS0).
      - intros j'. now left.
      - intros p r'. now left.
      - intros l. now left.
      - intros cb. now left.
      - intros e v. now left. }
    destruct (Nat.eqb (pred (remainingElementsCount r)) 0) eqn:Ez.
    + (* the last position: the aggregate is fulfilled *)
      apply Nat.eqb_eq in Ez.
      pose proof (fill_all_fulfilled w inst i m r Hm Hms Hlen Hrem Hfill Hv Ez) as Hall.
      assert (Hlt : iAll inst < length (heap w1)) by apply (armed_lt h L w inst HS Ha).
      assert (Hst : stateOf w1 (iAll inst) = Pending \/ stateOf w1 (iAll inst) = Fulfilled).
      { change (stateOf w (iAll inst) = Pending \/ stateOf w (iAll inst) = Fulfilled).
        destruct (state_cases (stateOf w (iAll inst))) as [E|[E|E]]; auto.
        destruct (C4 E) as (m' & Hm' & Hs'). unfold allFulfilled in Hall.
        rewrite Forall_forall in Hall.
        specialize (Hall m' (proj2 (list_elem_of_In _ _) Hm')). congruence. }
      assert (Hfin : stateOf (exec (settle Fulfilled (iAll inst)) w1) (iAll inst) = Fulfilled).
      { destruct Hst as [E|E].
        - now apply settle_stateOf_pending.
        - rewrite settle_stateOf_stable; [assumption|congruence]. }
      split.
      * apply Safe_settle; [assumption|discriminate|].
        apply (settleAllowed_all h); try assumption; [|discriminate].
        intros _. exact Hall.
      * destruct (settle_jobs_eq Fulfilled (iAll inst) w1) as (new & Hq' & Hnew).
        rewrite Hq'. apply (Live_discharge L _ j).
        2:{ cbn [jobDone j]. rewrite settle_allRecords.
            now apply (fill_done w0 inst i r Hv). }
        apply (Live_carry L w0 _ (j :: rest) (j :: microtasks w1 ++ new) HL0).
        -- apply (later_trans w0 w1); [now apply later_same_heap|].
           apply settle_later. discriminate.
        -- intros p r'. apply (settle_reactions_pending Fulfilled (iAll inst) w1).
           discriminate.
        -- intros j' [<-|Hj']; [now left|right]. apply in_app_iff. now left.
        -- intros inst' k _. apply (fill_filled w0 inst i r Hr Hv).
           now rewrite settle_allRecords.
        -- intros e. unfold immediateLive. now rewrite settle_frames, settle_playState.
        -- intros p r' Hp Hp' Hr'. right. apply in_app_iff. right.
           destruct (decide (p = iAll inst)) as [->|Hne]; [now apply Hnew|].
           rewrite settle_stateOf_other in Hp' by congruence. contradiction.
        -- intros inst' r' Ha' Hr' H0. rewrite settle_allRecords in Hr'.
           destruct (fill_zero h L w0 inst i r HS0 Ha w1 inst' r' Ha' Hrec1 Hr' H0)
             as [H1|[-> _]]; [now left|now right].
    + (* other positions are still awaited *)
      apply Nat.eqb_neq in Ez. split; [assumption|].
      apply (Live_discharge L _ j); [|now apply (fill_done w0 inst i r Hv)].
      apply (Live_carry L w0 w1 _ _ HL0).
      * now apply later_same_heap.
      * intros p r' _. exact id.
      * auto.
      * intros inst' k _. now apply (fill_filled w0 inst i r Hr Hv).
      * intros e. exact id.
      * intros p r' Hp Hp'. contradiction.
      * intros inst' r' Ha' Hr' H0.
        destruct (fill_zero h L w0 inst i r HS0 Ha w1 inst' r' Ha' Hrec1 Hr' H0)
          as [H1|[_ H1]]; [now left|contradiction].
Qed.

(** Every job keeps the invariant. *)
Lemma Inv_runMicrotask h L w : Inv h L w -> Inv h L (exec runMicrotask w).
Proof.
  intros HI. destruct (microtasks w) as [|j rest] eqn:Hq.
  - unfold exec, runMicrotask. now rewrite Hq.
  - pose proof (safe_jobs h L w (proj1 HI) j ltac:(rewrite Hq; now left)) as Hj.
    destruct j as [cb|p t]; [|now apply (Inv_job_thenable h L w p t rest)].
    destruct cb; try (now destruct Hj).
    + now apply (Inv_job_resolveFunction h L w p rest).
    + now apply (Inv_job_rejectFunction h L w p rest).
    + now apply (Inv_job_allResolveElement h L w all index rest).
    + now apply (Inv_job_asyncResume h L w element result rest).
    + now apply (Inv_job_asyncThrow h L w result rest).
Qed.

(** Whatever the host does keeps the invariant. *)
Lemma Inv_step h L doc w ev :
  hostOk h doc -> Inv h L w -> Inv h L (exec (step doc ev) w).
Proof.
  intros [Hready Hfonts] HI. destruct ev as [target type|i ok| | |]; cbn [step].
  - now apply Inv_dispatchEvent.
  - destruct (fonts doc !! i) as [font|] eqn:E; [|exact HI].
    apply Inv_host_settle; [assumption|now destruct ok|].
    rewrite Forall_forall in Hfonts. apply Hfonts.
    now apply list_elem_of_lookup_2 in E.
  - apply Inv_host_settle; [assumption|discriminate|assumption].
  - now apply Inv_animationFrame.
  - now apply Inv_runMicrotask.
Qed.

(** ** Creating promises and listening keeps the invariant *)

Lemma stateOf_newPromise w p : stateOf (snd (newPromise w)) p = stateOf w p.
Proof.
  unfold stateOf, newPromise. cbn [snd heap setHeap].
  destruct (decide (p < length (heap w))) as [Hlt|Hge].
  - now rewrite lookup_app_l.
  - rewrite (lookup_ge_None_2 (heap w) p) by lia.
    destruct (decide (p = length (heap w))) as [->|Hne].
    + rewrite lookup_app_r by lia. now rewrite Nat.sub_diag.
    + rewrite lookup_ge_None_2; [reflexivity|]. rewrite length_app. cbn. lia.
Qed.

Lemma reactionsOf_newPromise w p : reactionsOf (snd (newPromise w)) p = reactionsOf w p.
Proof.
  unfold reactionsOf, newPromise. cbn [snd heap setHeap].
  destruct (decide (p < length (heap w))) as [Hlt|Hge].
  - now rewrite lookup_app_l.
  - rewrite (lookup_ge_None_2 (heap w) p) by lia.
    destruct (decide (p = length (heap w))) as [->|Hne].
    + rewrite lookup_app_r by lia. now rewrite Nat.sub_diag.
    + rewrite lookup_ge_None_2; [reflexivity|]. rewrite length_app. cbn. lia.
Qed.

Lemma grown_refl w : grown w w.
Proof.
  unfold grown. repeat split; try reflexivity; try lia.
  - intros p Hp. unfold reactionsOf. now rewrite lookup_ge_None_2.
  - exists []. split; [now rewrite app_nil_r|constructor].
Qed.

Lemma grown_trans w1 w2 w3 : grown w1 w2 -> grown w2 w3 -> grown w1 w3.
Proof.
  intros (A1 & A2 & A3 & A4 & A5 & A6 & A7 & A8 & e1 & A9 & A10)
         (B1 & B2 & B3 & B4 & B5 & B6 & B7 & B8 & e2 & B9 & B10).
  unfold grown.
  refine (conj _ (conj _ (conj _ (conj _ (conj _ (conj _ (conj _ (conj _ _)))))))).
  - lia.
  - intros p Hp. rewrite B2 by lia. now apply A2.
  - intros p Hp. rewrite B3 by lia. now apply A3.
  - intros p Hp. destruct (decide (p < length (heap w2))) as [Hlt|Hge].
    + rewrite B3 by assumption. now apply A4.
    + apply B4. lia.
  - congruence.
  - congruence.
  - congruence.
  - congruence.
  - exists (e1 ++ e2). split; [now rewrite B9, A9, app_assoc|].
    apply Forall_app. split.
    + eapply Forall_impl; [exact A10|]. cbv beta. intros l (x & Hx & Hr).
      exists x. split; [assumption|lia].
    + eapply Forall_impl; [exact B10|]. cbv beta. intros l (x & Hx & Hr).
      exists x. split; [assumption|lia].
Qed.

Lemma reactionsOf_out w p : length (heap w) <= p -> reactionsOf w p = [].
Proof. intros Hp. unfold reactionsOf. now rewrite lookup_ge_None_2. Qed.

Lemma stateOf_out w p : length (heap w) <= p -> stateOf w p = Pending.
Proof. intros Hp. unfold stateOf. now rewrite lookup_ge_None_2. Qed.

(** One more promise without reactions, in any state. *)
Lemma grown_snoc w s :
  grown w (setHeap (heap w ++ [ {| state := s; reactions := [] |} ]) w).
Proof.
  unfold grown. cbn [heap setHeap allRecords microtasks animationFrameCallbacks
                     animationPlayState listeners].
  rewrite length_app. cbn [length].
  refine (conj _ (conj _ (conj _ (conj _ (conj eq_refl (conj eq_refl
            (conj eq_refl (conj eq_refl _)))))))).
  - lia.
  - intros p Hp. unfold stateOf. cbn. now rewrite lookup_app_l.
  - intros p Hp. unfold reactionsOf. cbn. now rewrite lookup_app_l.
  - intros p Hp. unfold reactionsOf. cbn.
    destruct (decide (p = length (heap w))) as [->|Hne].
    + rewrite lookup_app_r by lia. now rewrite Nat.sub_diag.
    + rewrite lookup_ge_None_2; [reflexivity|]. rewrite length_app. cbn. lia.
  - exists []. split; [now rewrite app_nil_r|constructor].
Qed.

Lemma grown_newPromise w : grown w (snd (newPromise w)).
Proof. apply grown_snoc. Qed.

(** A new pending promise with its two listeners, and any write to the
    loading attributes. *)
Lemma grown_listening target okType w la :
  grown w (setLoadingAttr la (listeningWorld target okType (length (heap w)) w)).
Proof.
  destruct (grown_snoc w Pending) as (A1 & A2 & A3 & A4 & A5 & A6 & A7 & A8 & _).
  unfold grown.
  refine (conj A1 (conj A2 (conj A3 (conj A4 (conj A5 (conj A6 (conj A7 (conj A8 _)))))))).
  eexists. split; [reflexivity|].
  cbn [heap setLoadingAttr listeningWorld setListeners setHeap].
  rewrite length_app. cbn [length].
  repeat constructor; eexists; (split; [cbn; eauto|lia]).
Qed.

Lemma grown_loadImage image w : grown w (snd (loadImage image w)).
Proof.
  rewrite loadImage_eq. cbn [snd]. destruct (complete image).
  - apply grown_snoc.
  - apply grown_listening.
Qed.

Lemma grown_loadVideo video w : grown w (snd (loadVideo video w)).
Proof.
  rewrite loadVideo_eq. cbn [snd]. destruct (videoReady video).
  - apply grown_snoc.
  - apply (grown_listening (eid video) "loadeddata" w (loadingAttr w)).
Qed.

Lemma grown_pushEach {A} (f : A -> M nat) items acc w :
  (forall x w, grown w (snd (f x w))) -> grown w (snd (pushEach f items acc w)).
Proof.
  intros Hf. revert acc w. induction items as [|x items IH]; intros acc w.
  - apply grown_refl.
  - cbn [pushEach]. unfold bind. specialize (Hf x w).
    destruct (f x w) as [p w1]. cbn [snd] in Hf.
    apply (grown_trans w w1); [assumption|apply IH].
Qed.

Lemma grown_collect doc element w :
  grown w (snd (collectLoadingPromises doc element w)).
Proof.
  unfold collectLoadingPromises, bind.
  pose proof (grown_pushEach (fun e : ElementProps * list Node => loadImage (fst e))
                (getElementsByTagName element "img") [] w
                (fun x w => grown_loadImage (fst x) w)) as H1.
  destruct (pushEach _ (getElementsByTagName element "img") [] w) as [acc1 w1].
  pose proof (grown_pushEach (fun e : ElementProps * list Node => loadVideo (fst e))
                (getElementsByTagName element "video") acc1 w1
                (fun x w => grown_loadVideo (fst x) w)) as H2.
  destruct (pushEach _ (getElementsByTagName element "video") acc1 w1) as [acc2 w2].
  rewrite (pushEach_ret (fun e : ElementProps * list Node =>
                           loadFonts doc (fst e) (loadedFontsOf doc))).
  cbn [snd] in *. now apply (grown_trans w w1).
Qed.

Lemma grown_later w w' : grown w w' -> later w w'.
Proof.
  intros (A1 & A2 & _). split; [assumption|]. intros p Hp.
  apply A2. now apply stateOf_not_pending_lt.
Qed.

Lemma grown_stateOf w w' p : grown w w' -> p < length (heap w) -> stateOf w' p = stateOf w p.
Proof. intros (_ & A2 & _). apply A2. Qed.

Lemma internal_lt h L w x : Safe h L w -> internal L x -> x < length (heap w).
Proof.
  intros HS (inst & Ha & Hx). destruct (armed_lt h L w inst HS Ha) as (H1 & H2 & H3).
  destruct Hx as [->|[->| ->]]; assumption.
Qed.

(** New promises and listeners on them keep the invariant. *)
Lemma Inv_grown h L w w' : Inv h L w -> grown w w' -> Inv h L w'.
Proof.
  intros [HS HL] Hg. pose proof (grown_later w w' Hg) as Hl.
  destruct Hg as (A1 & A2 & A3 & A4 & A5 & A6 & A7 & A8 & extra & A9 & A10).
  split.
  - apply (Safe_transfer h L w); try assumption.
    + intros inst Ha. apply (recordOk_keep w); try assumption.
      now apply (safe_record h L w HS).
    + intros inst Ha. destruct (armed_lt h L w inst HS Ha) as (H1 & H2 & H3).
      apply (chainOk_keep w); try assumption; try (now apply A2).
      now apply (safe_chain h L w HS).
    + intros j. rewrite A6. now left.
    + intros p r. destruct (decide (p < length (heap w))) as [Hlt|Hge].
      * rewrite A3 by assumption. now left.
      * rewrite A4 by lia. intros [].
    + intros l. rewrite A9, in_app_iff. intros [H|H]; [now left|right].
      rewrite Forall_forall in A10.
      destruct (A10 l (proj2 (list_elem_of_In _ _) H)) as (x & Hx & Hr).
      exists x. split; [assumption|]. pose proof (safe_host h L w HS).
      split; [lia|]. split; [lia|]. intros Hi.
      pose proof (internal_lt h L w x HS Hi). lia.
    + intros cb. rewrite A7. now left.
    + intros e v. rewrite A8. now left.
  - rewrite A6. apply (Live_carry L w w' _ _ HL); try assumption.
    + intros p r _ Hr. destruct (decide (p < length (heap w))) as [Hlt|Hge].
      * now rewrite A3.
      * rewrite reactionsOf_out in Hr by lia. destruct Hr.
    + auto.
    + intros inst i _. unfold filled. now rewrite A5.
    + intros e. unfold immediateLive. now rewrite A7, A8.
    + intros p r Hp Hp' Hr. destruct (decide (p < length (heap w))) as [Hlt|Hge].
      * rewrite A2 in Hp' by assumption. contradiction.
      * rewrite reactionsOf_out in Hr by lia. destruct Hr.
    + intros inst r _ Hr _. left. now rewrite <- A5.
Qed.

(** A new promise that is settled at once, as the dispatcher does with
    its own promise when it has nothing to wait for. *)
Lemma settle_fresh_grown s w :
  grown w (exec (settle s (length (heap w))) (snd (newPromise w))).
Proof. rewrite settle_new_promise. apply grown_snoc. Qed.

(** ** The loop of Promise.all *)

Lemma allStep_exec a m w vs n :
  allRecords w !! a = Some {| values := vs; remainingElementsCount := n |} ->
  exec (allStep a m) w =
  exec (performThen m (allReaction a (length vs)))
       (setAllRecords (<[a := {| values := vs ++ [false];
                                 remainingElementsCount := S n |}]> (allRecords w)) w).
Proof.
  intros Hr. unfold allStep, exec, bind, getAllRecord, putAllRecord. rewrite Hr.
  reflexivity.
Qed.

Lemma allLoop_effect a ms : forall vs n w,
  allRecords w !! a = Some {| values := vs; remainingElementsCount := n |} ->
  allLoopSpec a ms vs n w (exec (forEach (allStep a) ms) w).
Proof.
  induction ms as [|m ms IH]; intros vs n w Hr.
  - cbn [forEach]. rewrite exec_ret. unfold allLoopSpec. cbn [length replicate].
    rewrite app_nil_r, Nat.add_0_r, (insert_id _ _ _ Hr).
    refine (conj _ (conj eq_refl (conj eq_refl (conj eq_refl (conj eq_refl
              (conj eq_refl (conj _ (conj _ (conj _ _))))))))); auto.
    + intros k p Hk. discriminate.
    + exists []. rewrite app_nil_r. split; [reflexivity|].
      split; [intros j []|]. intros k p Hk. discriminate.
  - cbn [forEach]. rewrite exec_bind. cbv beta.
    change (snd (allStep a m w)) with (exec (allStep a m) w).
    rewrite (allStep_exec a m w vs n Hr).
    set (wr := setAllRecords _ w).
    set (r := allReaction a (length vs)).
    set (w1 := exec (performThen m r) wr).
    assert (Hst1 : forall p, stateOf w1 p = stateOf w p)
      by (intros p; unfold w1; now rewrite performThen_stateOf).
    assert (Hlen1 : length (heap w1) = length (heap w))
      by (unfold w1; now rewrite performThen_length).
    destruct (performThen_others m r wr) as (O1 & O2 & O3 & O4 & _). fold w1 in O1, O2, O3, O4.
    assert (Hr1 : allRecords w1 !! a =
                  Some {| values := vs ++ [false]; remainingElementsCount := S n |}).
    { rewrite O1. unfold wr. cbn. apply lookup_insert_eq. }
    destruct (IH _ _ w1 Hr1) as (B1 & B2 & B3 & B4 & B5 & B6 & B7 & B8 & B9 & new2 & B10 & B11 & B12).
    destruct (performThen_jobs m r wr) as (new1 & Hq1 & Hn1 & Hn1'). fold w1 in Hq1.
    unfold allLoopSpec. cbn [length replicate].
    refine (conj _ (conj _ (conj _ (conj _ (conj _ (conj _ (conj _ (conj _ (conj _ _))))))))).
    + intros p. now rewrite B1.
    + lia.
    + rewrite B3, O1. unfold wr. cbn [allRecords setAllRecords].
      rewrite insert_insert_eq, <- app_assoc. cbn [app]. f_equal. f_equal. lia.
    + now rewrite B4, O2.
    + now rewrite B5, O3.
    + now rewrite B6, O4.
    + intros p r' Hin. destruct (B7 p r' Hin) as [H|(k & Hk & ->)].
      * apply performThen_reactions in H as [H|(-> & -> & _)]; [now left|right].
        exists 0. split; [reflexivity|]. unfold r. now rewrite Nat.add_0_r.
      * right. exists (S k). split; [assumption|].
        rewrite length_app. cbn [length]. f_equal. lia.
    + intros p r' Hin. apply B8. now apply performThen_reactions_old.
    + intros k p Hk Hp Hlt. destruct k as [|k]; cbn in Hk.
      * injection Hk as ->. apply B8. rewrite Nat.add_0_r.
        now apply performThen_registered.
      * specialize (B9 k p Hk). rewrite Hst1, Hlen1 in B9. specialize (B9 Hp Hlt).
        rewrite length_app in B9. cbn [length] in B9.
        now replace (length vs + S k) with (length vs + 1 + k) by lia.
    + exists (new1 ++ new2). split; [now rewrite B10, Hq1, app_assoc|]. split.
      * intros j Hj. apply in_app_iff in Hj as [Hj|Hj].
        -- destruct (Hn1 j Hj) as [-> Hne]. exists 0, m.
           split; [reflexivity|]. split; [assumption|]. unfold r. now rewrite Nat.add_0_r.
        -- destruct (B11 j Hj) as (k & m' & Hk & Hne & ->). exists (S k), m'.
           rewrite Hst1 in *. split; [assumption|]. split; [assumption|].
           rewrite length_app. cbn [length]. do 2 f_equal. lia.
      * intros k m' Hk Hne Hlt. apply in_app_iff. destruct k as [|k]; cbn in Hk.
        -- injection Hk as ->. left. rewrite Nat.add_0_r. now apply Hn1'.
        -- right. specialize (B12 k m' Hk). rewrite Hst1, Hlen1 in B12.
           specialize (B12 Hne Hlt). rewrite length_app in B12. cbn [length] in B12.
           now replace (length vs + S k) with (length vs + 1 + k) by lia.
Qed.

(** ** Arming a run: Promise.all, the following job and the await *)

Lemma promiseAll_exec ms w :
  let a := length (heap w) in
  let w1 := setAllRecords (<[a := {| values := []; remainingElementsCount := 1 |}]>
                             (allRecords (snd (newPromise w)))) (snd (newPromise w)) in
  let w2 := exec (forEach (allStep a) ms) w1 in
  forall r, allRecords w2 !! a = Some r ->
  promiseAll ms w =
  (a, exec (if Nat.eqb (pred (remainingElementsCount r)) 0
            then resolvePromise a else ret tt)
        (setAllRecords (<[a := {| values := values r;
              remainingElementsCount := pred (remainingElementsCount r) |}]>
            (allRecords w2)) w2)).
Proof.
  intros a w1 w2 r Hr. unfold promiseAll, bind.
  change (newPromise w) with (a, snd (newPromise w)). cbv iota.
  unfold putAllRecord at 1. cbv iota. fold w1.
  rewrite (run_unit (forEach (allStep a) ms) w1). fold w2. cbv iota.
  unfold getAllRecord. rewrite Hr. cbn [default]. change (id r) with r. cbv iota.
  unfold putAllRecord. cbv iota.
  unfold exec.
  destruct ((if Nat.eqb (pred (remainingElementsCount r)) 0
             then resolvePromise a else ret tt) _) as [[] w'].
  reflexivity.
Qed.

Lemma settle_jobs_nil s x w :
  reactionsOf w x = [] -> microtasks (exec (settle s x) w) = microtasks w.
Proof.
  intros Hr. destruct (settle_cases s x w) as [->|(_ & _ & ->)]; [reflexivity|].
  unfold settledWorld. cbn. rewrite Hr. cbn. apply app_nil_r.
Qed.

Lemma settle_reactions_other s x w p :
  p <> x -> reactionsOf (exec (settle s x) w) p = reactionsOf w p.
Proof.
  intros Hne. destruct (settle_cases s x w) as [->|(_ & Hlt & ->)]; [reflexivity|].
  rewrite (reactionsOf_settled s x w p Hlt). now rewrite decide_False.
Qed.

(** The world when [Promise.all] returns. *)
Lemma promiseAll_effect ms w :
  Forall (fun m => m < length (heap w)) ms ->
  let a := length (heap w) in
  let w' := snd (promiseAll ms w) in
  fst (promiseAll ms w) = a /\
  length (heap w') = S a /\
  (forall p, p <> a -> stateOf w' p = stateOf w p) /\
  stateOf w' a = match ms with [] => Fulfilled | _ => Pending end /\
  allRecords w' =
    <[a := {| values := replicate (length ms) false;
              remainingElementsCount := length ms |}]> (allRecords w) /\
  listeners w' = listeners w /\
  animationFrameCallbacks w' = animationFrameCallbacks w /\
  animationPlayState w' = animationPlayState w /\
  (forall p x, In x (reactionsOf w' p) ->
     In x (reactionsOf w p) \/ exists k, ms !! k = Some p /\ x = allReaction a k) /\
  (forall p x, In x (reactionsOf w p) -> In x (reactionsOf w' p)) /\
  (forall k p, ms !! k = Some p -> stateOf w p = Pending ->
     In (allReaction a k) (reactionsOf w' p)) /\
  exists new, microtasks w' = microtasks w ++ new /\
    (forall j, In j new ->
       exists k m, ms !! k = Some m /\ stateOf w m <> Pending /\
         j = reactionJob (stateOf w m) (allReaction a k)) /\
    (forall k m, ms !! k = Some m -> stateOf w m <> Pending ->
       In (reactionJob (stateOf w m) (allReaction a k)) new).
Proof.
  intros Hms a.
  set (w0 := snd (newPromise w)).
  set (w1 := setAllRecords (<[a := {| values := []; remainingElementsCount := 1 |}]>
                              (allRecords w0)) w0).
  set (w2 := exec (forEach (allStep a) ms) w1).
  assert (Hr1 : allRecords w1 !! a = Some {| values := []; remainingElementsCount := 1 |})
    by apply lookup_insert_eq.
  destruct (allLoop_effect a ms [] 1 w1 Hr1)
    as (B1 & B2 & B3 & B4 & B5 & B6 & B7 & B8 & B9 & new & B10 & B11 & B12).
  fold w2 in B1, B2, B3, B4, B5, B6, B7, B8, B9, B10.
  cbn [app length Nat.add] in B3, B7, B9, B11, B12.
  assert (Hr2 : allRecords w2 !! a =
                Some {| values := replicate (length ms) false;
                        remainingElementsCount := S (length ms) |}).
  { rewrite B3. apply lookup_insert_eq. }
  pose (w3 := setAllRecords
               (<[a := {| values := replicate (length ms) false;
                          remainingElementsCount := length ms |}]> (allRecords w2)) w2).
  assert (Hpa : promiseAll ms w =
     (a, exec (if Nat.eqb (length ms) 0 then resolvePromise a else ret tt) w3)).
  { rewrite (promiseAll_exec ms w _ Hr2). reflexivity. }
  cbv zeta. rewrite Hpa. cbn [fst snd].
  assert (Hst0 : forall p, stateOf w1 p = stateOf w p)
    by (intros p; apply (stateOf_newPromise w p)).
  assert (Hrx0 : forall p, reactionsOf w1 p = reactionsOf w p)
    by (intros p; apply (reactionsOf_newPromise w p)).
  assert (Hlen3 : length (heap w3) = S a).
  { change (length (heap w2) = S a). rewrite B2. apply newPromise_length. }
  assert (Hrec3 : allRecords w3 =
    <[a := {| values := replicate (length ms) false;
              remainingElementsCount := length ms |}]> (allRecords w)).
  { unfold w3. cbn [allRecords setAllRecords]. rewrite B3. unfold w1.
    cbn [allRecords setAllRecords]. now rewrite !insert_insert_eq. }
  assert (Hrxa : reactionsOf w3 a = []).
  { destruct (reactionsOf w3 a) as [|x l] eqn:E; [reflexivity|exfalso].
    destruct (B7 a x) as [H|(k & Hk & _)].
    - change (In x (reactionsOf w3 a)). rewrite E. now left.
    - rewrite Hrx0, reactionsOf_out in H by (unfold a; lia). destruct H.
    - rewrite Forall_forall in Hms. apply list_elem_of_lookup_2 in Hk.
      specialize (Hms a Hk). unfold a in Hms. lia. }
  assert (Hmslt : forall k p, ms !! k = Some p -> p < length (heap w1) /\ p <> a).
  { intros k p Hk. rewrite Forall_forall in Hms. apply list_elem_of_lookup_2 in Hk.
    specialize (Hms p Hk). unfold w1. cbn [heap setAllRecords].
    unfold w0. rewrite newPromise_length. unfold a. lia. }
  set (w4 := exec (if Nat.eqb (length ms) 0 then resolvePromise a else ret tt) w3).
  assert (H4 : (forall p, p <> a -> stateOf w4 p = stateOf w3 p) /\
               stateOf w4 a = match ms with [] => Fulfilled | _ => Pending end /\
               length (heap w4) = length (heap w3) /\
               (forall p, p <> a -> reactionsOf w4 p = reactionsOf w3 p) /\
               allRecords w4 = allRecords w3 /\ microtasks w4 = microtasks w3 /\
               listeners w4 = listeners w3 /\
               animationFrameCallbacks w4 = animationFrameCallbacks w3 /\
               animationPlayState w4 = animationPlayState w3).
  { assert (Hpend : stateOf w3 a = Pending).
    { change (stateOf w2 a = Pending). rewrite B1, Hst0. apply stateOf_out. unfold a. lia. }
    unfold w4. destruct ms as [|m0 ms']; cbn [length Nat.eqb].
    - unfold resolvePromise.
      refine (conj _ (conj _ (conj _ (conj _ (conj _ (conj _ (conj _ (conj _ _)))))))).
      + intros p Hp. apply settle_stateOf_other. congruence.
      + apply settle_stateOf_pending; [lia|assumption].
      + apply settle_length.
      + intros p Hp. now apply settle_reactions_other.
      + apply settle_allRecords.
      + now apply settle_jobs_nil.
      + apply settle_listeners.
      + apply settle_frames.
      + apply settle_playState.
    - rewrite exec_ret. repeat split; try reflexivity. assumption. }
  destruct H4 as (D1 & D2 & D3 & D4 & D5 & D6 & D7 & D8 & D9).
  split; [reflexivity|]. split; [|split; [|split; [exact D2|]]].
  3: refine (conj _ (conj _ (conj _ (conj _ (conj _ (conj _ (conj _ _))))))).
  - now rewrite D3.
  - intros p Hp. rewrite D1 by assumption. change (stateOf w2 p = stateOf w p).
    now rewrite B1.
  - now rewrite D5.
  - now rewrite D7.
  - now rewrite D8.
  - now rewrite D9.
  - intros p x Hin. destruct (decide (p = a)) as [->|Hne].
    + exfalso. destruct (state_cases (stateOf w4 a)) as [E|[E|E]].
      * destruct ms; [congruence|].
        unfold w4 in Hin. cbn [length Nat.eqb] in Hin. rewrite exec_ret, Hrxa in Hin.
        destruct Hin.
      * destruct ms; [|congruence]. unfold w4 in Hin. cbn [length Nat.eqb] in Hin.
        apply settle_reactions in Hin. rewrite Hrxa in Hin. destruct Hin.
      * destruct ms; congruence.
    + rewrite D4 in Hin by assumption. change (In x (reactionsOf w2 p)) in Hin.
      destruct (B7 p x Hin) as [H|H]; [left; now rewrite <- Hrx0|now right].
  - intros p x Hin. destruct (decide (p = a)) as [->|Hne].
    + rewrite reactionsOf_out in Hin by (unfold a; lia). destruct Hin.
    + rewrite D4 by assumption. apply B8. now rewrite Hrx0.
  - intros k p Hk Hp. destruct (Hmslt k p Hk) as [Hlt Hne].
    rewrite D4 by assumption. apply B9; [assumption|now rewrite Hst0|assumption].
  - exists new. rewrite D6. split; [exact B10|]. split.
    + intros j Hj. destruct (B11 j Hj) as (k & m & Hk & Hne & ->).
      exists k, m. rewrite Hst0 in *. auto.
    + intros k m Hk Hne. destruct (Hmslt k m Hk) as [Hlt _].
      specialize (B12 k m Hk). rewrite Hst0 in B12. now apply B12.
Qed.

Lemma armTail_exec e s r ms w :
  exec (armTail e s r ms) w =
  exec (performThen r (awaitReaction e s))
    (setMicrotasks (microtasks (snd (promiseAll ms w)) ++
                      [JobResolveThenable r (fst (promiseAll ms w))])
                   (snd (promiseAll ms w))).
Proof.
  unfold armTail, exec, bind. destruct (promiseAll ms w) as [a w5]. reflexivity.
Qed.

(** The world when the dispatcher has reached its await. *)
Lemma armTail_effect e s r ms w :
  Forall (fun m => m < length (heap w)) ms ->
  r < length (heap w) -> stateOf w r = Pending ->
  armSpec e s r ms w (exec (armTail e s r ms) w).
Proof.
  intros Hms Hr Hrp. rewrite armTail_exec.
  destruct (promiseAll_effect ms w Hms)
    as (P0 & P1 & P2 & P3 & P4 & P5 & P6 & P7 & P8 & P9 & P10 & new & P11 & P12 & P13).
  rewrite P0. set (a := length (heap w)) in *. set (w5 := snd (promiseAll ms w)) in *.
  set (w6 := setMicrotasks _ w5). set (x := awaitReaction e s).
  assert (Hra : r <> a) by (unfold a; lia).
  assert (Hr6 : stateOf w6 r = Pending).
  { change (stateOf w5 r = Pending). now rewrite P2. }
  assert (Hlt6 : r < length (heap w6)).
  { change (r < length (heap w5)). rewrite P1. unfold a. lia. }
  destruct (performThen_others r x w6) as (O1 & O2 & O3 & O4 & _).
  destruct (performThen_jobs r x w6) as (new' & Hq & Hnew' & _).
  assert (Hnil : new' = []).
  { destruct new' as [|j l]; [reflexivity|exfalso].
    destruct (Hnew' j ltac:(now left)) as [_ Hne]. contradiction. }
  subst new'. rewrite app_nil_r in Hq.
  unfold armSpec. fold a.
  refine (conj _ (conj _ (conj _ (conj _ (conj _ (conj _ (conj _ (conj _ (conj _
            (conj _ (conj _ _))))))))))).
  - now rewrite performThen_length.
  - intros p Hp. rewrite performThen_stateOf. change (stateOf w5 p = stateOf w p).
    now apply P2.
  - rewrite performThen_stateOf. exact P3.
  - rewrite O1. exact P4.
  - rewrite O2. exact P5.
  - rewrite O3. exact P6.
  - rewrite O4. exact P7.
  - intros p y Hin. apply performThen_reactions in Hin as [H|(-> & -> & _)].
    + change (In y (reactionsOf w5 p)) in H.
      destruct (P8 p y H) as [H1|H1]; [now left|right; now left].
    + right. right. now split.
  - intros p y Hin. apply performThen_reactions_old.
    change (In y (reactionsOf w5 p)). now apply P9.
  - intros k p Hk Hp. apply performThen_reactions_old.
    change (In (allReaction a k) (reactionsOf w5 p)). now apply (P10 k p).
  - now apply performThen_registered.
  - exists (new ++ [JobResolveThenable r a]). split.
    + rewrite Hq. unfold w6. cbn [microtasks setMicrotasks].
      now rewrite P11, app_assoc.
    + split; [apply in_app_iff; right; now left|]. split.
      * intros j Hj. apply in_app_iff in Hj as [Hj|[<-|[]]]; [right|now left].
        now apply P12.
      * intros k m Hk Hne. apply in_app_iff. left. now apply (P13 k m).
Qed.

(** ** A longer log *)

Lemma armed_cons L entry inst : armed L inst -> armed (entry :: L) inst.
Proof. intros H. now right. Qed.

Lemma armed_cons_inv L entry inst :
  armed (entry :: L) inst -> entry = Armed inst \/ armed L inst.
Proof. intros [H|H]; auto. Qed.

Lemma started_cons L entry w e : started L w e -> started (entry :: L) w e.
Proof.
  intros [H|(inst & Ha & He & Hs)]; [left; now right|right].
  exists inst. split; [now right|now split].
Qed.

Lemma jobOk_cons L entry w j : jobOk L w j -> jobOk (entry :: L) w j.
Proof.
  destruct j as [cb|p t].
  - destruct cb; cbn; try exact id.
    + intros (inst & Ha & H). exists inst. split; [now right|assumption].
    + intros (inst & Ha & H). exists inst. split; [now right|assumption].
    + intros (inst & m & Ha & H). exists inst, m. split; [now right|assumption].
    + intros (inst & Ha & H). exists inst. split; [now right|assumption].
    + intros (inst & Ha & H). exists inst. split; [now right|assumption].
  - cbn. intros (inst & Ha & H). exists inst. split; [now right|assumption].
Qed.

Lemma reactionOk_cons L entry p r : reactionOk L p r -> reactionOk (entry :: L) p r.
Proof. intros (inst & Ha & H). exists inst. split; [now right|assumption]. Qed.

Lemma frameOk_cons L entry w cb : frameOk L w cb -> frameOk (entry :: L) w cb.
Proof. intros (e & -> & H). exists e. split; [reflexivity|now apply started_cons]. Qed.

Lemma count_false_replicate n : length (List.filter negb (replicate n false)) = n.
Proof. induction n as [|n IH]; [reflexivity|]. cbn. now rewrite IH. Qed.

(** An entry of the second branch adds no run. *)
Lemma armed_immediate L e inst : armed (Immediate e :: L) inst <-> armed L inst.
Proof. split; [intros [H|H]; [discriminate|assumption]|now right]. Qed.

Lemma internal_immediate L e x : internal (Immediate e :: L) x <-> internal L x.
Proof.
  split; intros (inst & Ha & H); exists inst; (split; [|assumption]).
  - now apply armed_immediate in Ha.
  - now apply armed_immediate.
Qed.

(** Logging a run of the second branch whose frame request is queued. *)
Lemma Inv_immediate h L w e :
  Inv h L w -> In (CbAnimationStart e) (animationFrameCallbacks w) ->
  Inv h (Immediate e :: L) w.
Proof.
  intros [HS HL] Hin. destruct HS as [Sh Sb Sa Sr Sc Sj Sx Sl Sf Sp]. split.
  - constructor; try assumption.
    + intros inst Ha. apply Sb. now apply armed_immediate in Ha.
    + intros i1 i2 H1 H2. apply Sa; now apply (armed_immediate L e).
    + intros inst Ha. apply Sr. now apply armed_immediate in Ha.
    + intros inst Ha. apply Sc. now apply armed_immediate in Ha.
    + intros j Hj. apply jobOk_cons. now apply Sj.
    + intros p r Hr. apply reactionOk_cons. now apply Sx.
    + intros l Hl. destruct (Sl l Hl) as (x & H1 & H2 & H3 & H4).
      exists x. repeat split; try assumption. now rewrite internal_immediate.
    + intros cb Hcb. apply frameOk_cons. now apply Sf.
    + intros e' v Hv. destruct (Sp e' v Hv) as [Hr Hs]. split; [assumption|].
      now apply started_cons.
  - destruct HL as [H1 H2]. split.
    + intros inst Ha. apply H1. now apply armed_immediate in Ha.
    + intros e' [[= <-]|H]; [now left|now apply H2].
Qed.

(** ** Logging a run of the first branch *)

Section Arm.
Variables (h : nat) (L : list Entry) (w w' : World) (e s r : nat) (ms : list nat).
Let a := length (heap w).
Let inst := {| iElement := e; iResult := s; iResources := r;
               iMembers := ms; iAll := a |}.
Let L' := Armed inst :: L.
Hypothesis HI : Inv h L w.
Hypothesis Hold : forall i, armed L i -> iAll i < s.
Hypothesis Hhs : h <= s.
Hypothesis Hr : r = S s.
Hypothesis Hra : r < a.
Hypothesis Hsp : stateOf w s = Pending.
Hypothesis Hrp : stateOf w r = Pending.
Hypothesis Hms : Forall (fun m => m < h \/ (r < m /\ m < a)) ms.
Hypothesis Hls : forall l x, In l (listeners w) ->
  snd l = CbResolve x \/ snd l = CbReject x -> x < s \/ (r < x /\ x < a).
Hypothesis Hspec : armSpec e s r ms w w'.

Lemma arm_later : later w w'.
Proof.
  destruct Hspec as (P1 & P2 & _). fold a in P1, P2. split; [lia|].
  intros p Hp. apply P2. apply stateOf_not_pending_lt in Hp. unfold a. lia.
Qed.

Lemma arm_member_lt k m : ms !! k = Some m -> m < a.
Proof.
  intros Hk. rewrite Forall_forall in Hms. apply list_elem_of_lookup_2 in Hk.
  specialize (Hms m Hk). pose proof (safe_host h L w (proj1 HI)). unfold a in *. lia.
Qed.

Lemma arm_member_state k m : ms !! k = Some m -> stateOf w' m = stateOf w m.
Proof.
  intros Hk. destruct Hspec as (_ & P2 & _). apply P2.
  pose proof (arm_member_lt k m Hk). fold a. lia.
Qed.

Lemma arm_armed i : armed L' i -> i = inst \/ armed L i.
Proof. intros [[= <-]|H]; auto. Qed.

Lemma arm_old_lt i : armed L i ->
  iResult i < s /\ iResources i < s /\ iAll i < s.
Proof.
  intros Ha.
  destruct (safe_bounds h L w (proj1 HI) i Ha) as (B1 & B2 & B3 & B4 & _).
  specialize (Hold i Ha). lia.
Qed.

Lemma arm_reactionOk_all k m :
  ms !! k = Some m -> reactionOk L' m (allReaction a k).
Proof.
  intros Hk. exists inst. split; [now left|]. left. exists k. now split.
Qed.

Lemma arm_not_internal x :
  ~ internal L x -> x < s \/ (r < x /\ x < a) -> ~ internal L' x.
Proof.
  intros Hni Hx (i & Ha & Hi). apply arm_armed in Ha as [->|Ha].
  - cbn in Hi. lia.
  - apply Hni. now exists i.
Qed.

Lemma arm_safe : Safe h L' w'.
Proof.
  destruct HI as [HS HL]. pose proof arm_later as Hl.
  destruct Hspec as (P1 & P2 & P3 & P4 & P5 & P6 & P7 & P8 & P9 & P10 & P11
                     & new & P12 & P13 & P14 & P15).
  fold a in P1, P2, P3, P4, P8, P10, P13, P14, P15.
  constructor.
  - pose proof (safe_host h L w HS). lia.
  - intros i Ha. apply arm_armed in Ha as [->|Ha].
    + unfold instBounds. cbn. repeat split; try lia. exact Hms.
    + apply (instBounds_later h w); [assumption|]. now apply (safe_bounds h L w HS).
  - intros i1 i2 H1 H2. apply arm_armed in H1 as [->|H1];
      apply arm_armed in H2 as [->|H2].
    + now left.
    + right. right. cbn. apply (arm_old_lt i2 H2).
    + right. left. cbn. apply (arm_old_lt i1 H1).
    + now apply (safe_apart h L w HS).
  - intros i Ha. apply arm_armed in Ha as [->|Ha].
    + eexists. cbn [iAll iMembers inst]. rewrite P4, lookup_insert_eq.
      split; [reflexivity|]. cbn [values remainingElementsCount].
      rewrite length_replicate, count_false_replicate.
      split; [reflexivity|]. split; [reflexivity|].
      intros i Hi. apply lookup_replicate in Hi as [Hi _]. discriminate.
    + apply (recordOk_keep_at w); [assumption| |now apply (safe_record h L w HS)].
      rewrite P4. apply lookup_insert_ne. pose proof (arm_old_lt i Ha).
      destruct (armed_lt h L w i HS Ha). unfold a. lia.
  - intros i Ha. apply arm_armed in Ha as [->|Ha].
    + unfold chainOk. cbn [iAll iResources iResult iMembers inst].
      rewrite (P2 r) by lia. rewrite (P2 s) by lia. rewrite P3, Hsp, Hrp.
      destruct ms; repeat split; try discriminate. intros _. constructor.
    + pose proof (arm_old_lt i Ha).
      apply (chainOk_keep w); try assumption; try (apply P2; lia).
      now apply (safe_chain h L w HS).
  - intros j. rewrite P12, in_app_iff. intros [Hj|Hj].
    + apply jobOk_cons. apply (jobOk_later L w); [assumption|].
      now apply (safe_jobs h L w HS).
    + destruct (P14 j Hj) as [->|(k & m & Hk & Hne & ->)].
      * exists inst. split; [now left|now split].
      * apply (reactionJob_ok L' w' _ m); [assumption| |now apply (arm_reactionOk_all k)].
        now apply (arm_member_state k).
  - intros p x Hin. destruct (P8 p x Hin) as [H|[(k & Hk & ->)|(-> & ->)]].
    + apply reactionOk_cons. now apply (safe_reactions h L w HS).
    + now apply (arm_reactionOk_all k).
    + exists inst. split; [now left|]. right. right. now split.
  - intros l. rewrite P5. intros Hin.
    destruct (safe_listeners h L w HS l Hin) as (x & Hx & H1 & H2 & H3).
    exists x. split; [assumption|]. split; [assumption|]. split; [lia|].
    apply arm_not_internal; [assumption|]. now apply (Hls l).
  - intros cb. rewrite P6. intros Hin. apply frameOk_cons.
    apply (frameOk_later L w); [assumption|]. now apply (safe_frames h L w HS).
  - intros e' v. rewrite P7. intros Hv.
    destruct (safe_play h L w HS e' v Hv) as [-> Hst]. split; [reflexivity|].
    apply started_cons. now apply (started_later L w).
Qed.

Lemma arm_live_old : Live L w' (microtasks w').
Proof.
  destruct HI as [HS HL]. pose proof arm_later as Hl.
  destruct Hspec as (P1 & P2 & P3 & P4 & P5 & P6 & P7 & P8 & P9 & P10 & P11
                     & new & P12 & P13 & P14 & P15).
  fold a in P1, P2, P3, P4, P8, P10, P13, P14, P15.
  apply (Live_carry L w w' (microtasks w)); try assumption.
  - intros p x _. apply P9.
  - intros j Hj. rewrite P12. apply in_app_iff. now left.
  - intros i k Ha (r0 & Hr0 & Hk). exists r0. split; [|assumption].
    rewrite P4, lookup_insert_ne; [assumption|].
    destruct (armed_lt h L w i HS Ha). unfold a. lia.
  - intros e'. unfold immediateLive. now rewrite P6, P7.
  - intros p x Hp Hp' Hin. exfalso.
    destruct (decide (p = a)) as [->|Hne].
    + rewrite reactionsOf_out in Hin by (unfold a; lia). destruct Hin.
    + rewrite P2 in Hp' by assumption. contradiction.
  - intros i r0 Ha Hr0 _. left. rewrite P4, lookup_insert_ne in Hr0; [assumption|].
    destruct (armed_lt h L w i HS Ha). unfold a. lia.
Qed.

Lemma arm_live : Live L' w' (microtasks w').
Proof.
  destruct arm_live_old as [HL1 HL2].
  destruct Hspec as (P1 & P2 & P3 & P4 & P5 & P6 & P7 & P8 & P9 & P10 & P11
                     & new & P12 & P13 & P14 & P15).
  fold a in P1, P2, P3, P4, P8, P10, P13, P14, P15.
  split.
  - intros i Ha. apply arm_armed in Ha as [->|Ha]; [|now apply HL1].
    assert (Hfollow : In (JobResolveThenable r a) (microtasks w')).
    { rewrite P12. apply in_app_iff. now right. }
    refine (conj _ (conj _ _)).
    + intros k m Hk. cbn [iMembers iAll inst] in *.
      rewrite (arm_member_state k m Hk).
      refine (conj _ (conj _ _)); intros Hst.
      * now apply (P10 k m).
      * right. rewrite P12. apply in_app_iff. right.
        assert (Hne : stateOf w m <> Pending) by congruence.
        specialize (P15 k m Hk Hne). now rewrite Hst in P15.
      * right. rewrite P12. apply in_app_iff. right.
        assert (Hne : stateOf w m <> Pending) by congruence.
        specialize (P15 k m Hk Hne). now rewrite Hst in P15.
    + unfold allLive. cbn [iAll iResources inst].
      refine (conj _ (conj _ (conj _ _))); try (intros _; auto).
      intros r0 Hr0 H0. rewrite P4, lookup_insert_eq in Hr0.
      injection Hr0 as <-. cbn in H0. rewrite P3.
      destruct ms; [reflexivity|discriminate].
    + unfold resourcesLive. cbn [iResources iResult iElement inst].
      rewrite (P2 r) by lia. rewrite Hrp.
      refine (conj _ (conj _ _)); try discriminate. intros _. exact P11.
  - intros e' [[=]|H]. now apply HL2.
Qed.

(** The dispatcher has reached its await: the run is logged and the
    invariant holds of the longer log. *)
Lemma Inv_arm : Inv h L' w'.
Proof. split; [apply arm_safe|apply arm_live]. Qed.
End Arm.

(** ** The dispatcher keeps the invariant *)

(** The first branch, step by step: the promise of the call, the promise
    of [loadElementResources], the array, and the arming. *)
Lemma start_armed_exec doc props cs w :
  classListContains props "animated" && hasDependencies (ElementNode props cs) = true ->
  let element := ElementNode props cs in
  let s := length (heap w) in
  let w2 := snd (newPromise (snd (newPromise w))) in
  let ms := fst (collectLoadingPromises doc element w2) in
  let w3 := snd (collectLoadingPromises doc element w2) in
  startAnimationForElement doc element w =
    (s, exec (armTail (eid props) s (S s) ms) w3) /\
  entriesOf doc element w =
    [Armed {| iElement := eid props; iResult := s; iResources := S s;
              iMembers := ms; iAll := length (heap w3) |}].
Proof.
  intros Hc. cbv zeta. split.
  - cbn [startAnimationForElement]. unfold bind at 1.
    change (newPromise w) with (length (heap w), snd (newPromise w)). cbv iota.
    rewrite Hc. unfold loadElementResources, bind.
    change (newPromise (snd (newPromise w)))
      with (length (heap (snd (newPromise w))), snd (newPromise (snd (newPromise w)))).
    cbv iota. rewrite (newPromise_length w).
    destruct (collectLoadingPromises doc (ElementNode props cs) _) as [ms' w3'].
    cbn [fst snd]. rewrite armTail_exec. unfold exec.
    destruct (promiseAll ms' w3') as [a w5]. cbn [fst snd].
    unfold resolveWithThenable, enqueueJob, ret. cbn [fst snd].
    unfold awaitReaction.
    now destruct (performThen (S (length (heap w))) _ _) as [[] w7].
  - cbn [entriesOf]. rewrite Hc.
    now destruct (collectLoadingPromises doc (ElementNode props cs) _).
Qed.

Lemma faceFor_In doc key font : faceFor doc key = Some font -> In font (fonts doc).
Proof.
  unfold faceFor. intros H. apply find_some in H as [H _]. now apply in_rev in H.
Qed.

(** A font wait is a promise of the host. *)
Lemma loadFonts_host h doc span :
  hostOk h doc -> loadFonts doc span (loadedFontsOf doc) < h.
Proof.
  intros [Hready Hfonts]. unfold loadFonts. rewrite loadedFontsOf_lookup.
  destruct (faceFor doc _) as [font|] eqn:E; [|assumption].
  rewrite Forall_forall in Hfonts. apply Hfonts, list_elem_of_In.
  exact (faceFor_In doc _ font E).
Qed.

(** Every member of the array is a wait created by the pass or a promise
    of the host. *)
Lemma collect_members_bound h doc element w :
  hostOk h doc ->
  Forall (fun m => m < h \/
                   (length (heap w) <= m /\
                    m < length (heap (snd (collectLoadingPromises doc element w)))))
         (fst (collectLoadingPromises doc element w)).
Proof.
  intros Hh. destruct (collectLoadingPromises_members doc element w) as [-> ->].
  apply Forall_app. split.
  - apply Forall_forall. intros m Hm. apply list_elem_of_In, in_seq in Hm. right. lia.
  - apply Forall_forall. intros m Hm. apply list_elem_of_In, in_map_iff in Hm.
    destruct Hm as (x & <- & _). left. now apply loadFonts_host.
Qed.

Lemma Inv_start_armed h L doc props cs w :
  hostOk h doc -> Inv h L w ->
  classListContains props "animated" && hasDependencies (ElementNode props cs) = true ->
  Inv h (entriesOf doc (ElementNode props cs) w ++ L)
        (exec (startAnimationForElement doc (ElementNode props cs)) w).
Proof.
  intros Hh HI Hc. destruct (start_armed_exec doc props cs w Hc) as [E1 E2].
  cbv zeta in E1, E2. unfold exec at 1. rewrite E1, E2. cbn [snd app].
  set (s := length (heap w)) in *.
  set (w1 := snd (newPromise w)) in *.
  set (w2 := snd (newPromise w1)) in *.
  set (ms := fst (collectLoadingPromises doc (ElementNode props cs) w2)) in *.
  set (w3 := snd (collectLoadingPromises doc (ElementNode props cs) w2)) in *.
  pose proof (grown_newPromise w) as G1. fold w1 in G1.
  pose proof (grown_newPromise w1) as G2. fold w2 in G2.
  pose proof (grown_collect doc (ElementNode props cs) w2) as G3. fold w3 in G3.
  assert (Hl1 : length (heap w1) = S s) by apply newPromise_length.
  assert (Hl2 : length (heap w2) = S (S s))
    by (unfold w2; now rewrite newPromise_length, Hl1).
  assert (Hl3 : length (heap w2) <= length (heap w3)) by apply G3.
  assert (G13 : grown w1 w3) by now apply (grown_trans w1 w2).
  assert (G03 : grown w w3) by now apply (grown_trans w w1).
  pose proof (collect_members_bound h doc (ElementNode props cs) w2 Hh) as Hms.
  fold ms w3 in Hms.
  destruct HI as [HS HL].
  apply (Inv_arm h L w3 _ (eid props) s (S s) ms).
  - now apply (Inv_grown h L w).
  - intros i Ha. apply (armed_lt h L w i HS Ha).
  - apply (safe_host h L w HS).
  - reflexivity.
  - lia.
  - rewrite (grown_stateOf w1 w3 s G13) by lia. apply newPromise_stateOf_new.
  - rewrite (grown_stateOf w2 w3 (S s) G3) by lia.
    rewrite <- Hl1. apply newPromise_stateOf_new.
  - eapply Forall_impl; [exact Hms|]. cbv beta. intros m [H|H]; [now left|right; lia].
  - intros l x Hin Hx.
    destruct G3 as (_ & _ & _ & _ & _ & _ & _ & _ & extra & Hls & Hextra).
    rewrite Hls in Hin. apply in_app_iff in Hin as [Hin|Hin].
    + left. change (In l (listeners w)) in Hin.
      destruct (safe_listeners h L w HS l Hin) as (y & Hy & _ & Hlt & _).
      assert (x = y) by (destruct Hx as [Hx|Hx]; destruct Hy as [Hy|Hy]; congruence).
      subst y. exact Hlt.
    + right. rewrite Forall_forall in Hextra.
      destruct (Hextra l (proj2 (list_elem_of_In _ _) Hin)) as (y & Hy & Hr).
      assert (x = y) by (destruct Hx as [Hx|Hx]; destruct Hy as [Hy|Hy]; congruence).
      subst y. lia.
  - apply armTail_effect.
    + eapply Forall_impl; [exact Hms|]. cbv beta.
      pose proof (safe_host h L w HS). intros m [H1|H1]; lia.
    + lia.
    + rewrite (grown_stateOf w2 w3 (S s) G3) by lia.
      rewrite <- Hl1. apply newPromise_stateOf_new.
Qed.

(** The second branch asks for the frame: the entry is logged with the
    request in the queue. *)
Lemma Inv_request_immediate h L w e :
  Inv h L w ->
  Inv h (Immediate e :: L) (snd (requestAnimationFrame (CbAnimationStart e) w)).
Proof.
  intros [HS HL]. set (w' := snd _).
  assert (Hf : animationFrameCallbacks w' =
               animationFrameCallbacks w ++ [CbAnimationStart e]) by reflexivity.
  assert (Hl : later w w') by now apply later_same_heap.
  destruct HS as [Sh Sb Sa Sr Sc Sj Sx Sl Sf Sp]. split.
  - constructor; try assumption.
    + intros inst Ha. apply Sb. now apply armed_immediate in Ha.
    + intros i1 i2 H1 H2. apply Sa; now apply (armed_immediate L e).
    + intros inst Ha. apply Sr. now apply armed_immediate in Ha.
    + intros inst Ha. apply Sc. now apply armed_immediate in Ha.
    + intros j Hj. apply jobOk_cons. now apply Sj.
    + intros p r Hr. apply reactionOk_cons. now apply Sx.
    + intros l Hin. destruct (Sl l Hin) as (x & H1 & H2 & H3 & H4).
      exists x. repeat split; try assumption. now rewrite internal_immediate.
    + intros cb. rewrite Hf, in_app_iff. intros [Hcb|[<-|[]]].
      * apply frameOk_cons. now apply Sf.
      * exists e. split; [reflexivity|]. left. now left.
    + intros e' v Hv. destruct (Sp e' v Hv) as [Hr Hs]. split; [assumption|].
      now apply started_cons.
  - assert (HL' : Live L w' (microtasks w)).
    { apply (Live_carry L w w' _ _ HL); try assumption.
      - intros p r _. exact id.
      - auto.
      - intros inst i _. exact id.
      - intros e'. unfold immediateLive. rewrite Hf, in_app_iff. tauto.
      - intros p r Hp Hp'. contradiction.
      - intros inst r _ Hr _. now left. }
    destruct HL' as [H1 H2]. split.
    + intros inst Ha. apply H1. now apply armed_immediate in Ha.
    + intros e' [[= <-]|H]; [|now apply H2].
      left. rewrite Hf, in_app_iff. right. now left.
Qed.

Lemma Inv_start_immediate h L props w :
  Inv h L w ->
  Inv h (Immediate (eid props) :: L)
    (exec (resolvePromise (length (heap w)))
       (snd (requestAnimationFrame (CbAnimationStart (eid props)) (snd (newPromise w))))).
Proof.
  intros HI. pose proof (Inv_grown h L w _ HI (grown_newPromise w)) as H1.
  apply Inv_settle; [now apply Inv_request_immediate|discriminate|].
  apply settleAllowed_external. rewrite internal_immediate. intros Hi.
  pose proof (internal_lt h L w _ (proj1 HI) Hi). lia.
Qed.

Lemma settle_after_start h L new w s :
  Inv h (new ++ L) w ->
  (forall i, armed L i -> iAll i < s) ->
  (forall i, In (Armed i) new -> s < iResult i) ->
  Inv h (new ++ L) (exec (resolvePromise s) w).
Proof.
  intros HI Hold Hnew. apply Inv_settle; [assumption|discriminate|].
  apply settleAllowed_external. intros (i & Ha & Hx).
  destruct (safe_bounds h _ w (proj1 HI) i Ha) as (B1 & B2 & B3 & _).
  apply in_app_iff in Ha as [Ha|Ha].
  - specialize (Hnew i Ha). lia.
  - specialize (Hold i Ha). lia.
Qed.

Lemma exec_not_element h L w s :
  Inv h L w ->
  Inv h L (exec (result <- newPromise ;; settle s result ;;; ret result) w).
Proof.
  intros HI. rewrite exec_bind, exec_bind, exec_ret.
  apply (Inv_grown h L w); [assumption|apply settle_fresh_grown].
Qed.

Lemma descend_ok h doc cs :
  Forall (startOk h doc) cs ->
  forall L w, Inv h L w ->
    Inv h (firstChildEntries doc (snd (newPromise w)) cs ++ L)
          (exec (firstChildStart doc (length (heap w)) cs) (snd (newPromise w))) /\
    forall inst, In (Armed inst) (firstChildEntries doc (snd (newPromise w)) cs) ->
                 length (heap w) <= iResult inst.
Proof.
  induction 1 as [|c rest Hc _ IH]; intros L w HI.
  - cbn [firstChildEntries firstChildStart app]. split; [|intros inst []].
    rewrite exec_bind, exec_ret.
    apply (Inv_grown h L w); [assumption|apply settle_fresh_grown].
  - destruct c as [d|d|props cs'];
      [exact (IH L w HI)|exact (IH L w HI)|].
    cbn [firstChildEntries firstChildStart].
    pose proof (Inv_grown h L w _ HI (grown_newPromise w)) as HI1.
    destruct (Hc L _ HI1) as [H1 H2]. rewrite newPromise_length in H2. split.
    + rewrite exec_bind, exec_bind, exec_ret.
      apply settle_after_start.
      * exact H1.
      * intros i Ha. apply (armed_lt h L w i (proj1 HI) Ha).
      * intros i Hi. specialize (H2 i Hi). lia.
    + intros inst Hi. specialize (H2 inst Hi). lia.
Qed.

(** A call of the dispatcher keeps the invariant, with its entries
    added to the log. *)
Lemma Inv_start h doc :
  hostOk h doc -> forall element, startOk h doc element.
Proof.
  intros Hh element.
  induction element as [d|d|props cs IH] using Node_nested_ind; intros L w HI.
  - split; [|intros inst []]. now apply (exec_not_element h L w Rejected).
  - split; [|intros inst []]. now apply (exec_not_element h L w Rejected).
  - destruct (classListContains props "animated" &&
              hasDependencies (ElementNode props cs)) eqn:Hc.
    + split; [now apply Inv_start_armed|].
      destruct (start_armed_exec doc props cs w Hc) as [_ E]. cbv zeta in E.
      rewrite E. intros inst [[= <-]|[]]. cbn. lia.
    + cbn [entriesOf startAnimationForElement]. rewrite exec_bind, Hc. clear Hc.
      destruct (classListContains props "animated").
      * split; [|intros inst [[=]|[]]].
        rewrite exec_bind, exec_bind, exec_ret.
        apply (Inv_start_immediate h L props w HI).
      * exact (descend_ok h doc cs IH L w HI).
Qed.

(** ** Every world the page reaches satisfies the invariant *)

Lemma initial_lookup hs p :
  heap (initialWorld hs) !! p =
  option_map (fun s => {| state := s; reactions := [] |}) (hs !! p).
Proof.
  cbn [initialWorld heap]. revert p.
  induction hs as [|s hs IH]; intros [|p]; cbn; auto.
Qed.


Lemma initial_reactionsOf hs p : reactionsOf (initialWorld hs) p = [].
Proof. unfold reactionsOf. rewrite initial_lookup. now destruct (hs !! p). Qed.

Lemma Inv_initial hs : Inv (length hs) [] (initialWorld hs).
Proof.
  split.
  - constructor.
    + cbn [initialWorld heap]. now rewrite length_map.
    + intros inst [].
    + intros i1 i2 [].
    + intros inst [].
    + intros inst [].
    + intros j [].
    + intros p r. now rewrite initial_reactionsOf.
    + intros l [].
    + intros cb [].
    + intros e v. cbn [initialWorld animationPlayState]. now rewrite lookup_empty.
  - split; intros ? [].
Qed.

Lemma documentOk_hostOk doc hs : documentOk doc hs -> hostOk (length hs) doc.
Proof.
  intros [H1 H2]. split; [assumption|].
  eapply Forall_impl; [exact H2|]. cbv beta. now intros font [H _].
Qed.

Lemma history_performAll doc acts w :
  snd (history doc acts w) = performAll doc acts w.
Proof.
  revert w. induction acts as [|a rest IH]; intros w; [reflexivity|].
  cbn [history performAll fold_left]. specialize (IH (perform doc a w)).
  destruct (history doc rest (perform doc a w)) as [log w']. exact IH.
Qed.

Lemma logOf_cons doc a rest w :
  logOf doc (a :: rest) w =
  logOf doc rest (perform doc a w) ++
  match a with ActStart element => entriesOf doc element w | ActEvent _ => [] end.
Proof.
  unfold logOf. cbn [history].
  now destruct (history doc rest (perform doc a w)) as [log w'].
Qed.

Lemma performAll_app doc acts1 acts2 w :
  performAll doc (acts1 ++ acts2) w = performAll doc acts2 (performAll doc acts1 w).
Proof. apply fold_left_app. Qed.

Lemma logOf_app doc acts1 acts2 w :
  logOf doc (acts1 ++ acts2) w =
  logOf doc acts2 (performAll doc acts1 w) ++ logOf doc acts1 w.
Proof.
  revert w. induction acts1 as [|a rest IH]; intros w.
  - cbn [app performAll fold_left]. unfold logOf at 3. cbn. now rewrite app_nil_r.
  - cbn [app]. rewrite !logOf_cons, IH. cbn [performAll fold_left].
    now rewrite app_assoc.
Qed.

Lemma Inv_perform h L doc a w :
  hostOk h doc -> Inv h L w ->
  Inv h (match a with ActStart element => entriesOf doc element w | ActEvent _ => [] end
         ++ L) (perform doc a w).
Proof.
  intros Hh HI. destruct a as [element|ev]; cbn [perform app].
  - exact (proj1 (Inv_start h doc Hh element L w HI)).
  - now apply Inv_step.
Qed.

Lemma Inv_history h L doc acts w :
  hostOk h doc -> Inv h L w ->
  Inv h (logOf doc acts w ++ L) (performAll doc acts w).
Proof.
  intros Hh. revert L w. induction acts as [|a rest IH]; intros L w HI.
  - exact HI.
  - rewrite logOf_cons, <- app_assoc. cbn [performAll fold_left].
    apply IH. now apply Inv_perform.
Qed.

(** The invariant of a page that started with the promises [hs] of the
    host and has been through [acts]. *)
Lemma Inv_reachable doc hs acts :
  documentOk doc hs ->
  Inv (length hs) (logOf doc acts (initialWorld hs))
      (performAll doc acts (initialWorld hs)).
Proof.
  intros Hd. rewrite <- (app_nil_r (logOf doc acts (initialWorld hs))).
  apply Inv_history; [now apply documentOk_hostOk|apply Inv_initial].
Qed.

(** ** What the script cannot undo, and what only a frame does *)

Create HintDb quiet.

Lemma quiet_refl w : quiet w w.
Proof. split; [apply later_refl|reflexivity]. Qed.

Lemma quiet_trans w1 w2 w3 : quiet w1 w2 -> quiet w2 w3 -> quiet w1 w3.
Proof.
  intros [H1 H2] [H3 H4]. split; [now apply (later_trans w1 w2)|congruence].
Qed.

Lemma quiet_same w w' :
  heap w' = heap w -> animationPlayState w' = animationPlayState w -> quiet w w'.
Proof. intros H1 H2. split; [now apply later_same_heap|assumption]. Qed.

Lemma quiet_keeps w w' : quiet w w' -> keeps w w'.
Proof. intros [H1 H2]. split; [assumption|]. intros e. now rewrite H2. Qed.

Lemma keeps_refl w : keeps w w.
Proof. apply quiet_keeps, quiet_refl. Qed.

Lemma keeps_trans w1 w2 w3 : keeps w1 w2 -> keeps w2 w3 -> keeps w1 w3.
Proof.
  intros [H1 H2] [H3 H4]. split; [now apply (later_trans w1 w2)|auto].
Qed.

Lemma quietM_ret {A} (a : A) : quietM (ret a).
Proof. intros w. rewrite exec_ret. apply quiet_refl. Qed.

Lemma quietM_bind {A B} (c : M A) (k : A -> M B) :
  quietM c -> (forall a, quietM (k a)) -> quietM (x <- c ;; k x).
Proof.
  intros Hc Hk w. rewrite exec_bind.
  apply (quiet_trans w (exec c w)); [apply Hc|apply Hk].
Qed.

Lemma quietM_newPromise : quietM newPromise.
Proof.
  intros w. pose proof (grown_newPromise w) as G. split; [now apply grown_later|].
  apply G.
Qed.

Lemma quietM_settle s p : s <> Pending -> quietM (settle s p).
Proof. intros Hs w. split; [now apply settle_later|apply settle_playState]. Qed.

Lemma quietM_resolvePromise p : quietM (resolvePromise p).
Proof. now apply quietM_settle. Qed.

Lemma quietM_rejectPromise p : quietM (rejectPromise p).
Proof. now apply quietM_settle. Qed.

Lemma quietM_performThen p r : quietM (performThen p r).
Proof.
  intros w. split; [apply performThen_later|].
  apply (performThen_others p r w).
Qed.

Lemma quietM_enqueueJob j : quietM (enqueueJob j).
Proof. intros w. now apply quiet_same. Qed.

Lemma quietM_getAllRecord a : quietM (getAllRecord a).
Proof. intros w. now apply quiet_same. Qed.

Lemma quietM_putAllRecord a r : quietM (putAllRecord a r).
Proof. intros w. now apply quiet_same. Qed.

Lemma quietM_setLoading e v : quietM (setLoading e v).
Proof. intros w. now apply quiet_same. Qed.

Lemma quietM_addEventListener e t cb : quietM (addEventListener e t cb).
Proof. intros w. now apply quiet_same. Qed.

Lemma quietM_requestAnimationFrame cb : quietM (requestAnimationFrame cb).
Proof. intros w. now apply quiet_same. Qed.

#[export] Hint Resolve quietM_ret quietM_newPromise quietM_resolvePromise
  quietM_rejectPromise quietM_performThen quietM_enqueueJob quietM_getAllRecord
  quietM_putAllRecord quietM_setLoading quietM_addEventListener
  quietM_requestAnimationFrame : quiet.

Ltac quiet_steps :=
  repeat match goal with
         | |- quietM (bind _ _) => apply quietM_bind; [|intros ?]
         | |- quietM _ => solve [auto with quiet]
         end.

Lemma quietM_forEach {A} (f : A -> M unit) l :
  (forall x, quietM (f x)) -> quietM (forEach f l).
Proof.
  intros Hf. induction l as [|x l IH]; cbn [forEach]; quiet_steps.
Qed.

Lemma quietM_pushEach {A} (f : A -> M nat) items acc :
  (forall x, quietM (f x)) -> quietM (pushEach f items acc).
Proof.
  intros Hf. revert acc.
  induction items as [|x items IH]; intros acc; cbn [pushEach]; quiet_steps.
Qed.

Lemma quietM_loadImage image : quietM (loadImage image).
Proof. unfold loadImage. destruct (complete image); quiet_steps. Qed.

Lemma quietM_loadVideo video : quietM (loadVideo video).
Proof. unfold loadVideo. destruct (videoReady video); quiet_steps. Qed.

Lemma quietM_allStep a m : quietM (allStep a m).
Proof. unfold allStep. quiet_steps. Qed.

Lemma quietM_promiseAll ms : quietM (promiseAll ms).
Proof.
  unfold promiseAll. quiet_steps.
  - apply quietM_forEach. intros m. apply quietM_allStep.
  - destruct (Nat.eqb _ 0); quiet_steps.
Qed.

Lemma quietM_collect doc element : quietM (collectLoadingPromises doc element).
Proof.
  unfold collectLoadingPromises. quiet_steps; apply quietM_pushEach; intros x;
    [apply quietM_loadImage|apply quietM_loadVideo|apply quietM_ret].
Qed.

Lemma quietM_loadElementResources doc element :
  quietM (loadElementResources doc element).
Proof.
  unfold loadElementResources, resolveWithThenable. quiet_steps.
  - apply quietM_collect.
  - apply quietM_promiseAll.
Qed.

(** The dispatcher itself sets no play state: it asks for a frame. *)
Lemma quietM_start doc element : quietM (startAnimationForElement doc element).
Proof.
  induction element as [d|d|props cs IH] using Node_nested_ind;
    cbn [startAnimationForElement]; quiet_steps.
  cbv zeta.
  destruct (classListContains props "animated" && hasDependencies _).
  - quiet_steps. apply quietM_loadElementResources.
  - destruct (classListContains props "animated").
    + unfold requestAnimationFrameAndStart. quiet_steps.
    + induction IH as [|c rest Hc _ IHrest]; [quiet_steps|].
      destruct c; [exact IHrest|exact IHrest|]. quiet_steps.
Qed.

Lemma quietM_allResolveElement a i : quietM (allResolveElement a i).
Proof.
  unfold allResolveElement. quiet_steps.
  destruct (values _ !! i) as [[|]|]; quiet_steps.
  destruct (Nat.eqb _ 0); quiet_steps.
Qed.

(** Every closure but the frame callback. *)
Lemma quietM_runCallback cb :
  (forall e, cb <> CbAnimationStart e) -> quietM (runCallback cb).
Proof.
  intros Hcb. destruct cb; cbn [runCallback]; quiet_steps.
  - apply quietM_allResolveElement.
  - now destruct (Hcb element).
Qed.

Lemma keeps_runCallback cb w : keeps w (exec (runCallback cb) w).
Proof.
  destruct cb as [p|p|p|p|a i|e s|s|e];
    try (apply quiet_keeps, quietM_runCallback; discriminate).
  split; [now apply later_same_heap|]. intros e' He'.
  cbn. destruct (decide (e = e')) as [->|Hne].
  - apply lookup_insert_eq.
  - now rewrite lookup_insert_ne.
Qed.

Lemma keeps_forEach {A} (g : A -> Callback) l w :
  keeps w (exec (forEach (fun x => runCallback (g x)) l) w).
Proof.
  revert w. induction l as [|x l IH]; intros w; cbn [forEach].
  - rewrite exec_ret. apply keeps_refl.
  - rewrite exec_bind.
    apply (keeps_trans w (exec (runCallback (g x)) w));
      [apply keeps_runCallback|apply IH].
Qed.

(** Whatever happens on the page, settled promises and running
    animations stay. *)
Lemma keeps_step doc ev w : keeps w (exec (step doc ev) w).
Proof.
  destruct ev as [target type|i ok| | |]; cbn [step].
  - rewrite dispatchEvent_exec. apply keeps_forEach.
  - destruct (fonts doc !! i) as [font|].
    + apply quiet_keeps, quietM_settle. now destruct ok.
    + apply quiet_keeps, quietM_ret.
  - apply quiet_keeps, quietM_resolvePromise.
  - rewrite runAnimationFrame_exec.
    apply (keeps_trans w (setAnimationFrameCallbacks [] w)).
    + now apply quiet_keeps, quiet_same.
    + apply (keeps_forEach (fun cb => cb)).
  - destruct (microtasks w) as [|j rest] eqn:E.
    + unfold exec, runMicrotask. rewrite E. apply keeps_refl.
    + rewrite (runMicrotask_exec w j rest E).
      apply (keeps_trans w (setMicrotasks rest w)).
      * now apply quiet_keeps, quiet_same.
      * destruct j as [cb|p t]; cbn [runJob].
        -- apply keeps_runCallback.
        -- apply quiet_keeps, quietM_performThen.
Qed.

Lemma keeps_perform doc a w : keeps w (perform doc a w).
Proof.
  destruct a as [element|ev]; cbn [perform].
  - apply quiet_keeps, quietM_start.
  - apply keeps_step.
Qed.

Lemma keeps_performAll doc acts w : keeps w (performAll doc acts w).
Proof.
  revert w. induction acts as [|a rest IH]; intros w; [apply keeps_refl|].
  cbn [performAll fold_left].
  apply (keeps_trans w (perform doc a w)); [apply keeps_perform|apply IH].
Qed.




(** ** Events start nothing anew *)

Lemma allResolveElement_listeners a i w :
  listeners (exec (allResolveElement a i) w) = listeners w.
Proof.
  unfold allResolveElement. rewrite exec_bind.
  change (exec (getAllRecord a) w) with w.
  destruct (values _ !! i) as [[|]|]; try reflexivity.
  rewrite exec_bind. destruct (Nat.eqb _ 0).
  - etransitivity; [apply (settle_listeners Fulfilled)|reflexivity].
  - reflexivity.
Qed.

Lemma runCallback_listeners cb w :
  listeners (exec (runCallback cb) w) = listeners w.
Proof.
  destruct cb; cbn [runCallback];
    try apply (settle_listeners Fulfilled); try apply (settle_listeners Rejected).
  - apply allResolveElement_listeners.
  - rewrite exec_bind.
    etransitivity; [apply (settle_listeners Fulfilled)|reflexivity].
  - reflexivity.
Qed.

Lemma forEach_callbacks_listeners {A} (g : A -> Callback) l w :
  listeners (exec (forEach (fun x => runCallback (g x)) l) w) = listeners w.
Proof.
  revert w. induction l as [|x l IH]; intros w; [reflexivity|].
  cbn [forEach]. rewrite exec_bind, IH. apply runCallback_listeners.
Qed.

(** An event creates no promise and registers no listener: nothing that
    was loading is asked for again. *)
Lemma step_starts_nothing doc ev w :
  length (heap (exec (step doc ev) w)) = length (heap w) /\
  listeners (exec (step doc ev) w) = listeners w.
Proof.
  destruct ev as [target type|i ok| | |]; cbn [step].
  - rewrite dispatchEvent_exec.
    split; [apply forEach_callbacks_length|apply forEach_callbacks_listeners].
  - destruct (fonts doc !! i) as [font|]; [|now split].
    split; [apply settle_length|apply settle_listeners].
  - split; [apply settle_length|apply settle_listeners].
  - rewrite runAnimationFrame_exec. split.
    + now rewrite (forEach_callbacks_length (fun cb => cb)).
    + now rewrite (forEach_callbacks_listeners (fun cb => cb)).
  - destruct (microtasks w) as [|j rest] eqn:E.
    + unfold exec, runMicrotask. rewrite E. now split.
    + rewrite (runMicrotask_exec w j rest E). destruct j as [cb|p t]; cbn [runJob].
      * split; [now rewrite runCallback_length|now rewrite runCallback_listeners].
      * split; [now rewrite performThen_length|].
        now rewrite (proj1 (proj2 (performThen_others t _ _))).
Qed.

(** ** The job queue runs dry *)

Lemma list_sum_insert {A} (f : A -> nat) (l : list A) x v old :
  l !! x = Some old ->
  list_sum (List.map f (<[x := v]> l)) + f old = list_sum (List.map f l) + f v.
Proof.
  revert x. induction l as [|y l IH]; intros [|x] Hx; try discriminate.
  - simpl in Hx. injection Hx as ->. simpl. lia.
  - simpl in Hx |- *. specialize (IH x Hx). lia.
Qed.

Lemma reactionJobs_weight s rs :
  list_sum (List.map jobWeight (List.map (reactionJob s) rs)) = length rs.
Proof.
  induction rs as [|r rs IH]; [reflexivity|].
  cbn [List.map length].
  change (list_sum (?a :: ?l)) with (a + list_sum l). now rewrite IH.
Qed.

Lemma pending_lookup w x :
  stateOf w x = Pending -> x < length (heap w) ->
  exists pr, heap w !! x = Some pr /\ state pr = Pending /\
             reactions pr = reactionsOf w x.
Proof.
  intros Hs Hx. destruct (lookup_lt_is_Some_2 (heap w) x Hx) as [pr Hpr].
  exists pr. unfold stateOf, reactionsOf in *. rewrite Hpr in *. auto.
Qed.

Lemma pendingWork_settled s x w :
  s <> Pending -> stateOf w x = Pending -> x < length (heap w) ->
  S (pendingWork (settledWorld s x w)) = pendingWork w.
Proof.
  intros Hs Hp Hx. destruct (pending_lookup w x Hp Hx) as (pr & Hpr & Hst & Hrs).
  unfold pendingWork, settledWorld. cbn [microtasks heap setMicrotasks setHeap].
  rewrite map_app, list_sum_app, reactionJobs_weight.
  pose proof (list_sum_insert promiseWeight (heap w) x
                {| state := s; reactions := [] |} pr Hpr) as E.
  assert (Hold : promiseWeight pr = S (length (reactionsOf w x)))
    by (unfold promiseWeight; now rewrite Hst, Hrs).
  assert (Hnew : promiseWeight {| state := s; reactions := [] |} = 0)
    by now destruct s.
  rewrite Hold, Hnew in E. lia.
Qed.

Lemma pendingWork_settle s x w :
  s <> Pending -> pendingWork (exec (settle s x) w) <= pendingWork w.
Proof.
  intros Hs. destruct (settle_cases s x w) as [->|(Hp & Hx & ->)]; [lia|].
  pose proof (pendingWork_settled s x w Hs Hp Hx). lia.
Qed.

Lemma pendingWork_performThen x r w :
  pendingWork (exec (performThen x r) w) <= S (pendingWork w).
Proof.
  destruct (performThen_cases x r w) as [[_ ->]|[(Hp & Hx & ->)|(_ & _ & ->)]].
  - lia.
  - destruct (pending_lookup w x Hp Hx) as (pr & Hpr & Hst & Hrs).
    unfold pendingWork, thenWorld. cbn [microtasks heap setHeap].
    pose proof (list_sum_insert promiseWeight (heap w) x
                  {| state := Pending; reactions := reactionsOf w x ++ [r] |}
                  pr Hpr) as E.
    assert (Hold : promiseWeight pr = S (length (reactionsOf w x)))
      by (unfold promiseWeight; now rewrite Hst, Hrs).
    assert (Hnew : promiseWeight
                     {| state := Pending; reactions := reactionsOf w x ++ [r] |} =
                   S (S (length (reactionsOf w x)))).
    { unfold promiseWeight. cbn [state reactions]. rewrite length_app. cbn. lia. }
    rewrite Hold, Hnew in E. lia.
  - unfold pendingWork. cbn [microtasks heap setMicrotasks].
    rewrite map_app, list_sum_app. cbn. lia.
Qed.

Lemma pendingWork_allResolveElement a i w :
  pendingWork (exec (allResolveElement a i) w) <= pendingWork w.
Proof.
  unfold allResolveElement. rewrite exec_bind.
  change (snd (getAllRecord a w)) with w.
  destruct (values _ !! i) as [[|]|]; try (rewrite exec_ret; lia).
  rewrite exec_bind. destruct (Nat.eqb _ 0).
  - etransitivity; [now apply (pendingWork_settle Fulfilled)|]. reflexivity.
  - reflexivity.
Qed.

Lemma pendingWork_runCallback cb w :
  pendingWork (exec (runCallback cb) w) <= pendingWork w.
Proof.
  destruct cb; cbn [runCallback];
    try (now apply (pendingWork_settle Fulfilled));
    try (now apply (pendingWork_settle Rejected)).
  - apply pendingWork_allResolveElement.
  - rewrite exec_bind.
    etransitivity; [now apply (pendingWork_settle Fulfilled)|]. reflexivity.
  - reflexivity.
Qed.

(** Every turn of a queue that is not empty leaves less to do. *)
Lemma pendingWork_runMicrotask w :
  microtasks w <> [] -> pendingWork (exec runMicrotask w) < pendingWork w.
Proof.
  destruct (microtasks w) as [|j rest] eqn:E; [contradiction|]. intros _.
  rewrite (runMicrotask_exec w j rest E).
  assert (Hw : pendingWork w = jobWeight j + pendingWork (setMicrotasks rest w)).
  { unfold pendingWork. rewrite E. cbn [microtasks heap setMicrotasks List.map].
    change (list_sum (?a :: ?l)) with (a + list_sum l). lia. }
  destruct j as [cb|p t]; cbn [runJob jobWeight] in *.
  - pose proof (pendingWork_runCallback cb (setMicrotasks rest w)). lia.
  - pose proof (pendingWork_performThen t (thenableReaction p) (setMicrotasks rest w)).
    unfold thenableReaction in *. lia.
Qed.

Lemma performAll_turns doc n w :
  performAll doc (microtaskTurns (S n)) w =
  performAll doc (microtaskTurns n) (exec runMicrotask w).
Proof. reflexivity. Qed.

(** The queue is empty after as many turns as there was work. *)
Lemma drain doc w :
  exists n, microtasks (performAll doc (microtaskTurns n) w) = [].
Proof.
  remember (pendingWork w) as k eqn:Hk. revert w Hk.
  induction k as [k IH] using lt_wf_ind. intros w ->.
  destruct (microtasks w) as [|j rest] eqn:E.
  - now exists 0.
  - assert (Hne : microtasks w <> []) by (rewrite E; discriminate).
    destruct (IH _ (pendingWork_runMicrotask w Hne) _ eq_refl) as [n Hn].
    exists (S n). now rewrite performAll_turns.
Qed.

(** ** The promises of the host are settled by the host alone *)

Lemma oldKept_same n w w' : heap w' = heap w -> oldKept n w w'.
Proof.
  intros E. split; [now rewrite E|]. intros p _. now apply stateOf_heap.
Qed.

Lemma keepsOld_ret {A} n (a : A) : keepsOld n (ret a).
Proof. intros w _. rewrite exec_ret. now apply oldKept_same. Qed.

Lemma keepsOld_bind {A B} n (c : M A) (k : A -> M B) :
  keepsOld n c -> (forall a, keepsOld n (k a)) -> keepsOld n (x <- c ;; k x).
Proof.
  intros Hc Hk w Hw. rewrite exec_bind. destruct (Hc w Hw) as [H1 H2].
  assert (Hw' : n <= length (heap (exec c w))) by lia.
  destruct (Hk (fst (c w)) (exec c w) Hw') as [H3 H4].
  unfold exec in *. split; [lia|]. intros p Hp. now rewrite H4, H2.
Qed.

(** A promise made on the way is not one of the first [n]. *)
Lemma keepsOld_new {B} n (k : nat -> M B) :
  (forall a, n <= a -> keepsOld n (k a)) -> keepsOld n (x <- newPromise ;; k x).
Proof.
  intros Hk w Hw. rewrite exec_bind.
  assert (H1 : oldKept n w (exec newPromise w)).
  { split; [unfold exec; rewrite newPromise_length; lia|].
    intros p _. apply stateOf_newPromise. }
  destruct H1 as [H1 H2].
  assert (Hw' : n <= length (heap (exec newPromise w))) by lia.
  destruct (Hk (length (heap w)) Hw (exec newPromise w) Hw') as [H3 H4].
  change (fst (newPromise w)) with (length (heap w)).
  unfold exec in *. split; [lia|]. intros p Hp. now rewrite H4, H2.
Qed.

Lemma keepsOld_settle n s p : n <= p -> keepsOld n (settle s p).
Proof.
  intros Hp w _. split; [now rewrite settle_length|].
  intros q Hq. apply settle_stateOf_other. lia.
Qed.

Lemma keepsOld_performThen n p r : keepsOld n (performThen p r).
Proof.
  intros w _. split; [now rewrite performThen_length|].
  intros q _. apply performThen_stateOf.
Qed.

Ltac old_steps :=
  repeat match goal with
         | |- keepsOld _ (bind newPromise _) => apply keepsOld_new; intros ? ?
         | |- keepsOld _ (bind _ _) => apply keepsOld_bind; [|intros ?]
         | |- keepsOld _ (ret _) => apply keepsOld_ret
         | |- keepsOld _ (resolvePromise _) => now apply keepsOld_settle
         | |- keepsOld _ (rejectPromise _) => now apply keepsOld_settle
         | |- keepsOld _ (performThen _ _) => apply keepsOld_performThen
         | |- keepsOld _ _ => solve [intros ? _; now apply oldKept_same]
         end.

Lemma keepsOld_forEach {A} n (f : A -> M unit) l :
  (forall x, keepsOld n (f x)) -> keepsOld n (forEach f l).
Proof.
  intros Hf. induction l as [|x l IH]; cbn [forEach]; old_steps; auto.
Qed.

Lemma keepsOld_pushEach {A} n (f : A -> M nat) items acc :
  (forall x, keepsOld n (f x)) -> keepsOld n (pushEach f items acc).
Proof.
  intros Hf. revert acc.
  induction items as [|x items IH]; intros acc; cbn [pushEach]; old_steps; auto.
Qed.

Lemma keepsOld_loadImage n image : keepsOld n (loadImage image).
Proof. unfold loadImage. destruct (complete image); old_steps. Qed.

Lemma keepsOld_loadVideo n video : keepsOld n (loadVideo video).
Proof. unfold loadVideo. destruct (videoReady video); old_steps. Qed.

Lemma keepsOld_promiseAll n ms : keepsOld n (promiseAll ms).
Proof.
  unfold promiseAll. old_steps.
  - apply keepsOld_forEach. intros m. unfold allStep. old_steps.
  - destruct (Nat.eqb _ 0); old_steps.
Qed.

Lemma keepsOld_collect n doc element :
  keepsOld n (collectLoadingPromises doc element).
Proof.
  unfold collectLoadingPromises. old_steps; apply keepsOld_pushEach; intros x;
    [apply keepsOld_loadImage|apply keepsOld_loadVideo|apply keepsOld_ret].
Qed.

Lemma keepsOld_start n doc element :
  keepsOld n (startAnimationForElement doc element).
Proof.
  induction element as [d|d|props cs IH] using Node_nested_ind;
    cbn [startAnimationForElement]; old_steps.
  cbv zeta.
  destruct (classListContains props "animated" && hasDependencies _).
  - unfold loadElementResources, resolveWithThenable. old_steps.
    + apply keepsOld_collect.
    + apply keepsOld_promiseAll.
  - destruct (classListContains props "animated").
    + unfold requestAnimationFrameAndStart. old_steps.
    + induction IH as [|c rest Hc _ IHrest]; [old_steps|].
      destruct c; [exact IHrest|exact IHrest|]. old_steps. exact Hc.
Qed.






(** ** When the job queue is empty *)

Lemma count_false_all_true (vs : list bool) :
  (forall k, k < length vs -> vs !! k = Some true) ->
  length (List.filter negb vs) = 0.
Proof.
  induction vs as [|v vs IH]; intros H; [reflexivity|].
  pose proof (H 0 ltac:(cbn; lia)) as H0. cbn in H0. injection H0 as ->.
  cbn. apply IH. intros k Hk. apply (H (S k)). cbn. lia.
Qed.

Section Quiescent.
Variables (h : nat) (L : list Entry) (w : World) (inst : Instance).
Hypothesis HI : Inv h L w.
Hypothesis Hq : microtasks w = [].
Hypothesis Ha : armed L inst.

Lemma quiescent_live :
  memberLive w [] inst /\ allLive w [] inst /\ resourcesLive w [] inst.
Proof. destruct HI as [_ [H _]]. rewrite Hq in H. now apply H. Qed.

(** A rejected wait has brought down the whole chain. *)
Lemma quiescent_rejected m :
  In m (iMembers inst) -> stateOf w m = Rejected ->
  stateOf w (iAll inst) = Rejected /\ stateOf w (iResources inst) = Rejected /\
  stateOf w (iResult inst) = Rejected.
Proof.
  intros Hm Hr. destruct quiescent_live as (H1 & H2 & H3).
  apply list_elem_of_In, list_elem_of_lookup_1 in Hm as [i Hi].
  destruct (H1 i m Hi) as (_ & M2 & _).
  assert (A : stateOf w (iAll inst) = Rejected) by (destruct (M2 Hr) as [?|[]]; auto).
  destruct H2 as (_ & A2 & _).
  assert (R : stateOf w (iResources inst) = Rejected)
    by (destruct (A2 A) as [?|[[]|[]]]; auto).
  destruct H3 as (_ & R2 & _).
  assert (S : stateOf w (iResult inst) = Rejected)
    by (destruct (R2 R) as [?|[]]; auto).
  auto.
Qed.

(** The waits are all fulfilled: the chain is, and the frame is asked
    for or has come. *)
Lemma quiescent_fulfilled :
  allFulfilled w (iMembers inst) ->
  stateOf w (iAll inst) = Fulfilled /\ stateOf w (iResources inst) = Fulfilled /\
  stateOf w (iResult inst) = Fulfilled /\ immediateLive w (iElement inst).
Proof.
  intros Hall. destruct quiescent_live as (H1 & H2 & H3).
  destruct (safe_record h L w (proj1 HI) inst Ha) as (r & Hr & Hlen & Hrem & _).
  assert (H0 : remainingElementsCount r = 0).
  { rewrite Hrem. apply count_false_all_true. intros k Hk. rewrite Hlen in Hk.
    destruct (lookup_lt_is_Some_2 (iMembers inst) k Hk) as [m Hm].
    destruct (H1 k m Hm) as (_ & _ & M3).
    unfold allFulfilled in Hall. rewrite Forall_forall in Hall.
    destruct (M3 (Hall m (list_elem_of_lookup_2 _ _ _ Hm)))
      as [(r' & Hr' & Hk')|[]].
    congruence. }
  destruct H2 as (_ & _ & A3 & A4).
  assert (A : stateOf w (iAll inst) = Fulfilled) by now apply (A4 r).
  assert (R : stateOf w (iResources inst) = Fulfilled)
    by (destruct (A3 A) as [?|[[]|[]]]; auto).
  destruct H3 as (_ & _ & R3).
  destruct (R3 R) as [[S F]|[]]. auto.
Qed.
End Quiescent.

(** Events add nothing to the log. *)
Lemma logOf_events doc evs w : logOf doc (List.map ActEvent evs) w = [].
Proof.
  revert w. induction evs as [|ev evs IH]; intros w; [reflexivity|].
  cbn [List.map]. rewrite logOf_cons, IH. reflexivity.
Qed.

Lemma microtaskTurns_events n :
  microtaskTurns n = List.map ActEvent (repeat EvMicrotask n).
Proof. induction n as [|n IH]; [reflexivity|]. cbn. now f_equal. Qed.

Lemma Inv_events h L doc evs w :
  hostOk h doc -> Inv h L w -> Inv h L (performAll doc (List.map ActEvent evs) w).
Proof.
  intros Hh HI. pose proof (Inv_history h L doc (List.map ActEvent evs) w Hh HI) as H.
  now rewrite logOf_events in H.
Qed.

(** The frame sets the play state of every element it was asked for. *)
Lemma frame_runs h L doc w e :
  Inv h L w -> immediateLive w e ->
  animationPlayState (perform doc (ActEvent EvAnimationFrame) w) !! e = Some "running".
Proof.
  intros [HS _] He. cbn [perform step]. rewrite runAnimationFrame_exec.
  assert (Hcbs : Forall (fun cb => exists e, cb = CbAnimationStart e)
                        (animationFrameCallbacks w)).
  { apply Forall_forall. intros cb Hcb. apply list_elem_of_In in Hcb.
    destruct (safe_frames h L w HS cb Hcb) as (e' & -> & _). now exists e'. }
  destruct (forEach_frames_effect (animationFrameCallbacks w)
              (setAnimationFrameCallbacks [] w) Hcbs)
    as (_ & _ & _ & _ & _ & F1 & F2 & _).
  destruct He as [He|He]; [now apply F1|now apply F2].
Qed.

(** Once its waits are fulfilled, a run sets its element running: the
    jobs of the queue and one frame are enough. *)
Lemma released_runs h L doc w entry e :
  hostOk h doc -> Inv h L w -> In entry L -> releasedBy w e entry ->
  exists n, animationPlayState
              (performAll doc (microtaskTurns n ++ [ActEvent EvAnimationFrame]) w) !! e
            = Some "running".
Proof.
  intros Hh HI Hin Hrel. destruct (drain doc w) as [n Hn]. exists n.
  rewrite performAll_app. cbn [performAll fold_left].
  rewrite microtaskTurns_events in *.
  pose proof (Inv_events h L doc (repeat EvMicrotask n) w Hh HI) as HI1.
  pose proof (keeps_performAll doc (List.map ActEvent (repeat EvMicrotask n)) w)
    as [Hl _].
  apply (frame_runs h L); [assumption|].
  destruct entry as [inst|e']; cbn in Hrel.
  - destruct Hrel as [<- Hall].
    apply (quiescent_fulfilled h L _ inst HI1 Hn Hin).
    now apply (later_allFulfilled w).
  - subst e'. now apply (proj2 (proj2 HI1)).
Qed.

(** Once a wait is rejected, so is the whole chain after the jobs of the
    queue. *)
Lemma rejected_blocks h L doc w inst m :
  hostOk h doc -> Inv h L w -> armed L inst ->
  In m (iMembers inst) -> stateOf w m = Rejected ->
  exists n, let w' := performAll doc (microtaskTurns n) w in
    stateOf w' (iAll inst) = Rejected /\ stateOf w' (iResources inst) = Rejected /\
    stateOf w' (iResult inst) = Rejected.
Proof.
  intros Hh HI Ha Hm Hr. destruct (drain doc w) as [n Hn]. exists n. cbv zeta.
  rewrite microtaskTurns_events in *.
  pose proof (Inv_events h L doc (repeat EvMicrotask n) w Hh HI) as HI1.
  pose proof (keeps_performAll doc (List.map ActEvent (repeat EvMicrotask n)) w)
    as [Hl _].
  apply (quiescent_rejected h L _ inst HI1 Hn Ha m Hm).
  now apply (later_rejected w).
Qed.

(** ** A call of the dispatcher in the life of a page *)

Lemma promiseAll_fst ms w : fst (promiseAll ms w) = length (heap w).
Proof.
  unfold promiseAll, bind. cbn [newPromise putAllRecord].
  destruct (forEach _ ms _) as [[] w1]. cbn [getAllRecord].
  destruct (Nat.eqb _ 0).
  - now destruct (resolvePromise _ _).
  - reflexivity.
Qed.

Lemma loadElementResources_fst doc element w :
  fst (loadElementResources doc element w) = length (heap w).
Proof.
  unfold loadElementResources, bind. cbn [newPromise].
  destruct (collectLoadingPromises _ _ _) as [ms w3].
  destruct (promiseAll ms w3) as [a w5].
  now destruct (resolveWithThenable _ a w5).
Qed.

Lemma runOf_entries doc props cs w :
  classListContains props "animated" && hasDependencies (ElementNode props cs) = true ->
  entriesOf doc (ElementNode props cs) w = [Armed (runOf doc props cs w)].
Proof.
  intros Hc. destruct (start_armed_exec doc props cs w Hc) as [E1 E2].
  cbv zeta in E1, E2. rewrite E2. unfold runOf, resourcesOf, joinSet, aggregateOf.
  rewrite E1, loadElementResources_fst, newPromise_length.
  destruct (collectLoadingPromises _ _ _) as [ms w3]. cbn [fst snd].
  now rewrite promiseAll_fst.
Qed.

Lemma reach_Inv doc hs acts :
  documentOk doc hs -> Inv (length hs) (reachLog doc hs acts) (reach doc hs acts).
Proof. apply Inv_reachable. Qed.

Lemma reach_app doc hs acts more :
  reach doc hs (acts ++ more) = performAll doc more (reach doc hs acts).
Proof. apply performAll_app. Qed.

Lemma reachLog_app doc hs acts more :
  reachLog doc hs (acts ++ more) =
  logOf doc more (reach doc hs acts) ++ reachLog doc hs acts.
Proof. apply logOf_app. Qed.

(** The run of a call is in the log of every history with the call. *)
Lemma reachLog_dispatch doc hs pre post props cs :
  classListContains props "animated" && hasDependencies (ElementNode props cs) = true ->
  armed (reachLog doc hs (pre ++ ActStart (ElementNode props cs) :: post))
        (runOf doc props cs (reach doc hs pre)).
Proof.
  intros Hc. unfold armed. rewrite reachLog_app, logOf_cons, runOf_entries by assumption.
  apply in_app_iff. left. apply in_app_iff. right. now left.
Qed.

(** An animation runs because a call was released. *)
Lemma running_released h L w e v :
  Inv h L w -> animationPlayState w !! e = Some v ->
  v = "running" /\ exists entry, In entry L /\ releasedBy w e entry.
Proof.
  intros [HS _] Hv. destruct (safe_play h L w HS e v Hv) as [-> Hst].
  split; [reflexivity|]. destruct Hst as [Hi|(inst & Ha & He & Hr)].
  - exists (Immediate e). now split.
  - exists (Armed inst). split; [assumption|]. split; [assumption|].
    destruct (safe_chain h L w HS inst Ha) as (C1 & C2 & _). auto.
Qed.

(** An element whose only call has a rejected wait is not running. *)
Lemma blocked_not_running h L w inst m :
  Inv h L w -> armed L inst -> dispatchedOnce L inst ->
  In m (iMembers inst) -> stateOf w m = Rejected ->
  animationPlayState w !! iElement inst = None.
Proof.
  intros HI Ha Honce Hm Hr.
  destruct (animationPlayState w !! iElement inst) as [v|] eqn:E; [|reflexivity].
  exfalso. destruct (running_released h L w _ v HI E) as [_ (entry & Hin & Hrel)].
  assert (He : entryElement entry = iElement inst).
  { destruct entry as [i|e]; cbn in Hrel |- *; [apply Hrel|assumption]. }
  rewrite (Honce entry Hin He) in Hrel. destruct Hrel as [_ Hall].
  unfold allFulfilled in Hall. rewrite Forall_forall in Hall.
  specialize (Hall m (proj2 (list_elem_of_In _ _) Hm)). congruence.
Qed.

(** What runs at some time of a history runs at its end. *)
Lemma prefix_running doc hs acts k e v :
  documentOk doc hs ->
  animationPlayState (reach doc hs (firstn k acts)) !! e = Some v ->
  animationPlayState (reach doc hs acts) !! e = Some "running".
Proof.
  intros Hd Hv.
  destruct (running_released _ _ _ e v (reach_Inv doc hs (firstn k acts) Hd) Hv)
    as [-> _].
  rewrite <- (firstn_skipn k acts) at 1. rewrite reach_app.
  now apply (keeps_performAll doc (skipn k acts)).
Qed.

Lemma prefix_rejected doc hs acts more p :
  stateOf (reach doc hs acts) p = Rejected ->
  stateOf (reach doc hs (acts ++ more)) p = Rejected.
Proof.
  intros Hp. rewrite reach_app.
  now apply (later_rejected _ _ p (proj1 (keeps_performAll doc more _))).
Qed.


Lemma pageDocument_ok : documentOk pageDocument pageHost.
Proof.
  split; [cbn; lia|]. apply Forall_cons. split; [|apply Forall_nil; exact I].
  cbn. split; [lia|discriminate].
Qed.

Lemma gallery_animated :
  classListContains galleryProps "animated" && hasDependencies gallery = true.
Proof. reflexivity. Qed.

(** ** The dispatcher and its waits *)



(** An element whose only call has a rejected wait runs at no time. *)
Lemma never_running doc hs pre mid post props cs m :
  documentOk doc hs ->
  classListContains props "animated" && hasDependencies (ElementNode props cs) = true ->
  dispatchedOnce
    (reachLog doc hs ((pre ++ ActStart (ElementNode props cs) :: mid) ++ post))
    (runOf doc props cs (reach doc hs pre)) ->
  In m (joinSet doc (ElementNode props cs) (reach doc hs pre)) ->
  stateOf (reach doc hs (pre ++ ActStart (ElementNode props cs) :: mid)) m = Rejected ->
  forall k,
    animationPlayState
      (reach doc hs (firstn k ((pre ++ ActStart (ElementNode props cs) :: mid) ++ post)))
      !! eid props = None.
Proof.
  intros Hd Hc Honce Hm Hr k.
  set (acts := (pre ++ ActStart (ElementNode props cs) :: mid) ++ post) in *.
  assert (Hend : animationPlayState (reach doc hs acts) !! eid props = None).
  { apply (blocked_not_running (length hs) (reachLog doc hs acts) _
             (runOf doc props cs (reach doc hs pre)) m).
    - now apply reach_Inv.
    - unfold acts. rewrite <- app_assoc. now apply reachLog_dispatch.
    - assumption.
    - exact Hm.
    - now apply prefix_rejected. }
  destruct (animationPlayState (reach doc hs (firstn k acts)) !! eid props) as [v|] eqn:E;
    [|reflexivity].
  rewrite (prefix_running doc hs acts k _ v Hd E) in Hend. discriminate.
Qed.

(** Once the waits of a run are fulfilled, so is the chain after the
    jobs of the queue. *)
Lemma fulfilled_completes h L doc w inst :
  hostOk h doc -> Inv h L w -> armed L inst -> allFulfilled w (iMembers inst) ->
  exists n, let w' := performAll doc (microtaskTurns n) w in
    stateOf w' (iAll inst) = Fulfilled /\ stateOf w' (iResources inst) = Fulfilled.
Proof.
  intros Hh HI Ha Hall. destruct (drain doc w) as [n Hn]. exists n. cbv zeta.
  rewrite microtaskTurns_events in *.
  pose proof (Inv_events h L doc (repeat EvMicrotask n) w Hh HI) as HI1.
  pose proof (keeps_performAll doc (List.map ActEvent (repeat EvMicrotask n)) w)
    as [Hl _].
  destruct (quiescent_fulfilled h L _ inst HI1 Hn Ha) as (A & R & _);
    [now apply (later_allFulfilled w)|]. now split.
Qed.


(** The log of a history with one call, by evaluation. *)
Ltac once_by_evaluation :=
  intros entry Hin He; vm_compute in Hin;
  destruct Hin as [<-|[]]; vm_compute; reflexivity.


Lemma gallery_once_failing :
  dispatchedOnce
    (reachLog pageDocument pageHost
       (([] ++ ActStart gallery :: ActEvent (EvDom 21 "error") :: microtaskTurns 4) ++ []))
    (runOf pageDocument galleryProps galleryChildren (reach pageDocument pageHost [])).
Proof. once_by_evaluation. Qed.

Lemma gallery_once_fontFailing :
  dispatchedOnce
    (reachLog pageDocument pageHost
       (([] ++ ActStart gallery :: ActEvent (EvFontFace 0 false) :: microtaskTurns 4) ++ []))
    (runOf pageDocument galleryProps galleryChildren (reach pageDocument pageHost [])).
Proof. once_by_evaluation. Qed.


(** C2, as the specification has it, fails: the first image of the
    gallery fails to load, and the promise of [loadElementResources] is
    rejected while the wait of the second image is still pending. *)
Lemma join_set_rejects_before_all_settle :
  let w := reach pageDocument pageHost failingHistory in
  let waits := joinSet pageDocument gallery (initialWorld pageHost) in
  waits <> [] /\
  stateOf w (resourcesOf pageDocument gallery (initialWorld pageHost)) = Rejected /\
  exists m, In m waits /\ stateOf w m = Pending.
Proof.
  cbv zeta. refine (conj _ (conj _ _)).
  - vm_compute. discriminate.
  - vm_compute. reflexivity.
  - exists 5. split; [vm_compute; auto|vm_compute; reflexivity].
Qed.

(** C2 (amended): the promise of [loadElementResources] is fulfilled
    only when every wait of the join set is fulfilled, and rejected only
    when some wait is rejected; it is rejected once one wait is rejected
    and the jobs of the queue have run, whatever the other waits do, and
    fulfilled once all waits are fulfilled and the jobs have run. *)
Theorem join_set_settles_with_members doc hs pre post props cs :
  documentOk doc hs ->
  classListContains props "animated" && hasDependencies (ElementNode props cs) = true ->
  let w := reach doc hs (pre ++ ActStart (ElementNode props cs) :: post) in
  let resources := resourcesOf doc (ElementNode props cs) (reach doc hs pre) in
  let waits := joinSet doc (ElementNode props cs) (reach doc hs pre) in
  (stateOf w resources = Fulfilled -> allFulfilled w waits) /\
  (stateOf w resources = Rejected -> exists m, In m waits /\ stateOf w m = Rejected) /\
  (forall m, In m waits -> stateOf w m = Rejected ->
     exists n, stateOf (performAll doc (microtaskTurns n) w) resources = Rejected) /\
  (allFulfilled w waits ->
     exists n, stateOf (performAll doc (microtaskTurns n) w) resources = Fulfilled).
Proof.
  intros Hd Hc w resources waits.
  pose proof (reach_Inv doc hs (pre ++ ActStart (ElementNode props cs) :: post) Hd) as HI.
  pose proof (reachLog_dispatch doc hs pre post props cs Hc) as Ha.
  pose proof (documentOk_hostOk doc hs Hd) as Hh.
  fold w in HI.
  destruct (safe_chain _ _ _ (proj1 HI) _ Ha) as (C1 & C2 & _ & C4 & C5 & _).
  cbn [runOf iAll iResources iMembers] in C1, C2, C4, C5.
  fold resources waits w in C1, C2, C4, C5.
  refine (conj _ (conj _ (conj _ _))).
  - intros H. auto.
  - intros H. auto.
  - intros m Hm Hr.
    destruct (rejected_blocks _ _ doc w _ m Hh HI Ha Hm Hr) as (n & _ & H & _).
    now exists n.
  - intros Hall.
    destruct (fulfilled_completes _ _ doc w _ Hh HI Ha Hall) as (n & _ & H).
    now exists n.
Qed.

(** The first image of the gallery fails: the promise of
    [loadElementResources] is rejected after some jobs. *)
Lemma join_set_settles_with_members_witness :
  exists n,
    stateOf (performAll pageDocument (microtaskTurns n)
               (reach pageDocument pageHost failingHistory))
            (resourcesOf pageDocument gallery (reach pageDocument pageHost []))
    = Rejected.
Proof.
  apply (proj1 (proj2 (proj2 (join_set_settles_with_members pageDocument pageHost []
                  (List.tl failingHistory) galleryProps galleryChildren
                  pageDocument_ok gallery_animated))) 4).
  - vm_compute. auto.
  - vm_compute. reflexivity.
Defined.

(** Nothing is registered on the promise a call of the dispatcher
    returns. *)
Lemma result_unobserved h L w inst :
  Safe h L w -> armed L inst -> reactionsOf w (iResult inst) = [].
Proof.
  intros HS Ha. destruct (reactionsOf w (iResult inst)) as [|r rs] eqn:E; [reflexivity|].
  exfalso.
  destruct (safe_reactions h L w HS (iResult inst) r) as (other & Ho & Hcase);
    [rewrite E; now left|].
  destruct (roles h L w other inst HS Ho Ha) as (_ & _ & _ & _ & R5 & R6).
  destruct Hcase as [(i & _ & Hi)|[[_ Hi]|[_ Hi]]].
  - apply (member_not_internal h L w other (iResult inst) HS Ho).
    + apply list_elem_of_In. eapply list_elem_of_lookup_2. exact Hi.
    + exists inst. split; [assumption|now left].
  - now apply R5.
  - now apply R6.
Qed.

(** A run with no rejected wait is not rejected. *)
Lemma chain_isolated h L w other :
  Safe h L w -> armed L other ->
  (forall x, In x (iMembers other) -> stateOf w x <> Rejected) ->
  stateOf w (iAll other) <> Rejected /\ stateOf w (iResources other) <> Rejected /\
  stateOf w (iResult other) <> Rejected.
Proof.
  intros HS Ha Hnone.
  destruct (safe_chain h L w HS other Ha) as (_ & _ & _ & C4 & C5 & C6).
  assert (A : stateOf w (iAll other) <> Rejected).
  { intros H. destruct (C4 H) as (x & Hx & Hr). now apply (Hnone x). }
  assert (R : stateOf w (iResources other) <> Rejected)
    by (intros H; now apply A, C5).
  refine (conj A (conj R _)). intros H. now apply R, C6.
Qed.

(** C3 (amended): when a wait of the join set of a call on a container
    is rejected, that call never starts the container: the container has
    a play state at some time of the history only if another call of the
    log has been through a branch that starts it, with every wait of its
    own fulfilled, and it has none at any time when the call is the only
    one that starts it.  No event makes the script create a promise or
    register a listener again; the promise the call returned is rejected
    once the jobs have run and nothing is registered on it, so that the
    rejection is handled nowhere; and a run none of whose own waits is
    rejected is not rejected, and starts its element once its waits are
    fulfilled. *)
Theorem failed_wait_blocks_animation doc hs pre mid post props cs m :
  documentOk doc hs ->
  classListContains props "animated" && hasDependencies (ElementNode props cs) = true ->
  In m (joinSet doc (ElementNode props cs) (reach doc hs pre)) ->
  stateOf (reach doc hs (pre ++ ActStart (ElementNode props cs) :: mid)) m = Rejected ->
  let acts := (pre ++ ActStart (ElementNode props cs) :: mid) ++ post in
  let w := reach doc hs acts in
  let result := iResult (runOf doc props cs (reach doc hs pre)) in
  ((forall k v, animationPlayState (reach doc hs (firstn k acts)) !! eid props = Some v ->
      exists other, In other (reachLog doc hs acts) /\
                    other <> Armed (runOf doc props cs (reach doc hs pre)) /\
                    releasedBy w (eid props) other) /\
   (dispatchedOnce (reachLog doc hs acts) (runOf doc props cs (reach doc hs pre)) ->
    forall k, animationPlayState (reach doc hs (firstn k acts)) !! eid props = None)) /\
  (forall ev, length (heap (exec (step doc ev) w)) = length (heap w) /\
              listeners (exec (step doc ev) w) = listeners w) /\
  (reactionsOf w result = [] /\
   exists n, stateOf (performAll doc (microtaskTurns n) w) result = Rejected) /\
  (forall other, armed (reachLog doc hs acts) other ->
     (forall x, In x (iMembers other) -> stateOf w x <> Rejected) ->
     stateOf w (iResources other) <> Rejected /\ stateOf w (iResult other) <> Rejected) /\
  (forall other, armed (reachLog doc hs acts) other ->
     allFulfilled w (iMembers other) ->
     exists n, animationPlayState
                 (performAll doc (microtaskTurns n ++ [ActEvent EvAnimationFrame]) w)
                 !! iElement other = Some "running").
Proof.
  intros Hd Hc Hm Hr acts w result.
  pose proof (reach_Inv doc hs acts Hd) as HI. fold w in HI.
  pose proof (documentOk_hostOk doc hs Hd) as Hh.
  assert (Ha : armed (reachLog doc hs acts) (runOf doc props cs (reach doc hs pre))).
  { unfold acts. rewrite <- app_assoc. now apply reachLog_dispatch. }
  assert (Hrej : stateOf w m = Rejected) by now apply prefix_rejected.
  refine (conj (conj _ _) (conj _ (conj _ (conj _ _)))).
  - intros k v Hv. pose proof (prefix_running doc hs acts k _ v Hd Hv) as Hrun.
    fold w in Hrun.
    destruct (running_released _ _ _ _ _ HI Hrun) as [_ (other & Hin & Hrel)].
    exists other. split; [exact Hin|]. split; [|exact Hrel]. intros ->.
    destruct Hrel as [_ Hall]. unfold allFulfilled in Hall. rewrite Forall_forall in Hall.
    specialize (Hall m (proj2 (list_elem_of_In _ _) Hm)). congruence.
  - intros Honce. now apply (never_running doc hs pre mid post props cs m).
  - intros ev. apply step_starts_nothing.
  - split; [now apply (result_unobserved _ _ _ _ (proj1 HI))|].
    assert (Hr' : stateOf w m = Rejected) by now apply prefix_rejected.
    destruct (rejected_blocks _ _ doc w _ m Hh HI Ha Hm Hr') as (n & _ & _ & H).
    now exists n.
  - intros other Ho Hnone.
    destruct (chain_isolated _ _ _ other (proj1 HI) Ho Hnone) as (_ & R & S). now split.
  - intros other Ho Hall.
    apply (released_runs (length hs) (reachLog doc hs acts) doc w (Armed other));
      [assumption|assumption|exact Ho|now split].
Qed.

(** The first image of the gallery fails: the gallery never runs. *)
Lemma failed_wait_blocks_animation_witness :
  animationPlayState (reach pageDocument pageHost failingHistory) !! 20 = None.
Proof.
  exact (proj2 (proj1 (failed_wait_blocks_animation pageDocument pageHost []
                         (ActEvent (EvDom 21 "error") :: microtaskTurns 4) []
                         galleryProps galleryChildren 4
                         pageDocument_ok gallery_animated
                         ltac:(vm_compute; auto) ltac:(vm_compute; reflexivity)))
               gallery_once_failing 6).
Defined.

(** C3 as claimed fails on [secondCallHistory]: wait 5 of the join set
    of the call that reached the gallery through the outer container is
    rejected, and the gallery runs all the same, started by the later call
    on the gallery itself, whose own waits are fulfilled. *)
Lemma failed_wait_yet_running :
  armed (reachLog pageDocument pageHost secondCallHistory)
        (runOf pageDocument galleryProps galleryChildren
           (snd (newPromise (initialWorld pageHost)))) /\
  In 5 (iMembers (runOf pageDocument galleryProps galleryChildren
                    (snd (newPromise (initialWorld pageHost))))) /\
  stateOf (reach pageDocument pageHost secondCallHistory) 5 = Rejected /\
  animationPlayState (reach pageDocument pageHost secondCallHistory) !! 20 = Some "running".
Proof.
  split; [vm_compute; auto|]. split; [vm_compute; auto|].
  split; vm_compute; reflexivity.
Qed.

(** The join set of an element without images, videos and spans. *)
Lemma joinSet_empty doc element w :
  getElementsByTagName element "img" = [] ->
  getElementsByTagName element "video" = [] ->
  getElementsByTagName element "span" = [] ->
  joinSet doc element w = [].
Proof.
  intros Hi Hv Hs. unfold joinSet.
  destruct (collectLoadingPromises_members doc element
              (snd (newPromise (snd (newPromise w))))) as [E _].
  cbv zeta in E. rewrite E, Hi, Hv, Hs. reflexivity.
Qed.

(** [Promise.all] of an empty array returns a fulfilled promise. *)
Lemma empty_aggregate_fulfilled h L w inst :
  Inv h L w -> armed L inst -> iMembers inst = [] -> stateOf w (iAll inst) = Fulfilled.
Proof.
  intros [HS [HL _]] Ha Hm.
  destruct (safe_record h L w HS inst Ha) as (r & Hr & Hlen & Hrem & _).
  destruct (HL inst Ha) as (_ & (_ & _ & _ & A4) & _). apply (A4 r Hr).
  rewrite Hm in Hlen. destruct (values r); [now rewrite Hrem|discriminate].
Qed.

(** C9: font waits are built for span descendants only.  An animated
    element that has text, and no image, video or span below it, has
    dependencies and an empty join set; the promise of [Promise.all] is
    fulfilled when the call of the dispatcher returns; and the jobs of the
    queue and one frame set the element running, whatever the state of the
    font promises of the page. *)
Theorem text_outside_spans_waits_for_nothing doc hs pre props cs :
  documentOk doc hs ->
  classListContains props "animated" = true ->
  hasTextContent (ElementNode props cs) = true ->
  getElementsByTagName (ElementNode props cs) "img" = [] ->
  getElementsByTagName (ElementNode props cs) "video" = [] ->
  getElementsByTagName (ElementNode props cs) "span" = [] ->
  let element := ElementNode props cs in
  let w1 := reach doc hs (pre ++ [ActStart element]) in
  hasDependencies element = true /\
  joinSet doc element (reach doc hs pre) = [] /\
  stateOf w1 (aggregateOf doc element (reach doc hs pre)) = Fulfilled /\
  exists n, animationPlayState
              (performAll doc (microtaskTurns n ++ [ActEvent EvAnimationFrame]) w1)
              !! eid props = Some "running".
Proof.
  intros Hd Hanim Htext Hi Hv Hs element w1.
  assert (Hdeps : hasDependencies element = true)
    by (unfold hasDependencies, element; now rewrite Htext).
  assert (Hc : classListContains props "animated" && hasDependencies element = true)
    by now rewrite Hanim, Hdeps.
  pose proof (joinSet_empty doc element (reach doc hs pre) Hi Hv Hs) as Hempty.
  pose proof (reach_Inv doc hs (pre ++ [ActStart element]) Hd) as HI. fold w1 in HI.
  pose proof (reachLog_dispatch doc hs pre [] props cs Hc) as Ha.
  refine (conj Hdeps (conj Hempty (conj _ _))).
  - now apply (empty_aggregate_fulfilled _ _ w1 _ HI Ha).
  - apply (released_runs (length hs) (reachLog doc hs (pre ++ [ActStart element])) doc w1
             (Armed (runOf doc props cs (reach doc hs pre))));
      [now apply documentOk_hostOk|assumption|exact Ha|].
    split; [reflexivity|]. cbn [runOf iMembers]. fold element. rewrite Hempty.
    constructor.
Qed.

(** The caption has text and no span: it runs after three jobs and a
    frame, with both font promises of the page pending. *)
Lemma text_outside_spans_waits_for_nothing_witness :
  exists n, animationPlayState
              (performAll pageDocument (microtaskTurns n ++ [ActEvent EvAnimationFrame])
                 (reach pageDocument pageHost ([] ++ [ActStart caption])))
              !! 30 = Some "running".
Proof.
  exact (proj2 (proj2 (proj2 (text_outside_spans_waits_for_nothing pageDocument pageHost []
           captionProps captionChildren pageDocument_ok
           eq_refl eq_refl eq_refl eq_refl eq_refl)))).
Defined.


(** ** The observer calls the dispatcher once *)

Lemma unobserve_In t o i :
  In i (regIds (unobserve t o)) <-> In i (regIds o) /\ i <> targetId t.
Proof.
  unfold regIds, unobserve, sameTarget. cbn [registrations].
  induction (registrations o) as [|r rs IH]; cbn [List.filter List.map In]; [tauto|].
  destruct (Nat.eqb_spec (targetId (observed r)) (targetId t)) as [E|E];
    cbn [negb List.map In]; rewrite IH; split.
  - intros [H1 H2]. auto.
  - intros [[H|H] H2]; [congruence|auto].
  - intros [H|[H1 H2]]; [subst i; auto|auto].
  - intros [[H|H] H2]; auto.
Qed.

Lemma unobserve_NoDup t o : NoDup (regIds o) -> NoDup (regIds (unobserve t o)).
Proof.
  unfold regIds, unobserve, sameTarget. cbn [registrations].
  induction (registrations o) as [|r rs IH]; cbn [List.filter List.map]; [auto|].
  rewrite NoDup_cons. intros [Hr Hrs].
  destruct (Nat.eqb (targetId (observed r)) (targetId t)); cbn [negb]; [auto|].
  cbn [List.map]. rewrite NoDup_cons. split; [|auto].
  intros Hin. apply Hr. apply list_elem_of_In in Hin. apply list_elem_of_In.
  apply in_map_iff in Hin as (r' & E & Hin). apply filter_In in Hin as [Hin _].
  apply in_map_iff. now exists r'.
Qed.

Lemma observe_In t o i :
  In i (regIds (observe t o)) <-> In i (regIds o) \/ i = targetId t.
Proof.
  unfold observe. destruct (existsb (sameTarget t) (registrations o)) eqn:E.
  - split; [auto|]. intros [H| ->]; [assumption|].
    apply existsb_exists in E as (r & Hr & Hs). apply Nat.eqb_eq in Hs.
    unfold regIds. apply in_map_iff. now exists r.
  - unfold regIds. cbn [registrations]. rewrite map_app, in_app_iff. cbn. intuition.
Qed.

Lemma observe_NoDup t o : NoDup (regIds o) -> NoDup (regIds (observe t o)).
Proof.
  intros Ho. unfold observe. destruct (existsb (sameTarget t) (registrations o)) eqn:E;
    [assumption|].
  unfold regIds. cbn [registrations]. rewrite map_app. apply NoDup_app.
  split; [exact Ho|]. split; [|apply NoDup_singleton].
  intros i Hi Hi'. apply list_elem_of_In in Hi, Hi'. cbn in Hi'.
  destruct Hi' as [<-|[]]. apply in_map_iff in Hi as (r & Hr & Hin).
  assert (Hex : existsb (sameTarget t) (registrations o) = true).
  { apply existsb_exists. exists r. split; [assumption|]. now apply Nat.eqb_eq. }
  congruence.
Qed.

Lemma observe_others t o :
  thresholds (observe t o) = thresholds o /\ queuedEntries (observe t o) = queuedEntries o.
Proof. unfold observe. now destruct (existsb _ _). Qed.

(** The observer after the loop over the containers. *)
Lemma observeAll_spec containers o :
  let o' := fold_left (fun o c => observe c o) containers o in
  thresholds o' = thresholds o /\ queuedEntries o' = queuedEntries o /\
  (NoDup (regIds o) -> NoDup (regIds o')) /\
  (forall i, In i (regIds o') <-> In i (regIds o) \/ In i (List.map targetId containers)).
Proof.
  revert o. induction containers as [|c cs IH]; intros o; cbn [fold_left List.map In].
  - repeat split; auto; tauto.
  - destruct (IH (observe c o)) as (H1 & H2 & H3 & H4).
    destruct (observe_others c o) as [E1 E2].
    refine (conj _ (conj _ (conj _ _))); try congruence.
    + intros H. now apply H3, observe_NoDup.
    + intros i. rewrite H4, observe_In. intuition.
Qed.

(** The callback removes what it calls the dispatcher on. *)
Lemma observerCallback_unobserved entries : forall o cs,
  (forall i, In i (regIds o) -> ~ In i cs) ->
  (forall i, In i (regIds (snd (observerCallback entries o))) ->
     In i (regIds o) /\
     ~ In i (cs ++ List.map targetId (fst (observerCallback entries o)))) /\
  thresholds (snd (observerCallback entries o)) = thresholds o /\
  queuedEntries (snd (observerCallback entries o)) = queuedEntries o /\
  (forall t, In t (fst (observerCallback entries o)) ->
     exists e, In e entries /\ isIntersecting e = true /\ target e = t).
Proof.
  induction entries as [|e rest IH]; intros o cs Hdis; cbn [observerCallback].
  - cbn [fst snd List.map]. rewrite app_nil_r.
    refine (conj _ (conj eq_refl (conj eq_refl _))); [auto|intros t []].
  - destruct (isIntersecting e) eqn:Ee; cbn [negb].
    + specialize (IH (unobserve (target e) o) (cs ++ [targetId (target e)])).
      destruct (observerCallback rest (unobserve (target e) o)) as [calls o'].
      cbn [fst snd List.map] in *.
      destruct IH as (H1 & H2 & H3 & H4).
      { intros i Hi. apply unobserve_In in Hi as [Hi Hne].
        rewrite in_app_iff. intros [H|[H|[]]]; [now apply (Hdis i)|congruence]. }
      refine (conj _ (conj H2 (conj H3 _))).
      * intros i Hi. destruct (H1 i Hi) as [Hin Hno]. split.
        -- now apply unobserve_In in Hin.
        -- now rewrite <- app_assoc in Hno.
      * intros t [<-|Ht]; [exists e; split; [now left|now split]|].
        destruct (H4 t Ht) as (e' & He' & Hp). exists e'. split; [now right|assumption].
    + destruct (IH o cs Hdis) as (H1 & H2 & H3 & H4).
      refine (conj H1 (conj H2 (conj H3 _))).
      intros t Ht. destruct (H4 t Ht) as (e' & He' & Hp).
      exists e'. split; [now right|assumption].
Qed.

Lemma observerCallback_NoDup entries o :
  NoDup (regIds o) -> NoDup (regIds (snd (observerCallback entries o))).
Proof.
  revert o. induction entries as [|e rest IH]; intros o Ho; cbn [observerCallback];
    [assumption|].
  destruct (isIntersecting e); cbn [negb]; [|now apply IH].
  specialize (IH (unobserve (target e) o) (unobserve_NoDup _ _ Ho)).
  now destruct (observerCallback rest (unobserve (target e) o)).
Qed.

(** A batch that names no element twice calls the dispatcher on no
    element twice. *)
Lemma observerCallback_once entries : forall o cs,
  NoDup cs -> NoDup (entryIds entries) ->
  (forall i, In i (entryIds entries) -> ~ In i cs) ->
  NoDup (cs ++ List.map targetId (fst (observerCallback entries o))).
Proof.
  induction entries as [|e rest IH]; intros o cs Hcs Hes Hdis; cbn [observerCallback].
  - cbn. now rewrite app_nil_r.
  - cbn [entryIds List.map] in Hes, Hdis. apply NoDup_cons in Hes as [He Hrest].
    destruct (isIntersecting e); cbn [negb].
    + specialize (IH (unobserve (target e) o) (cs ++ [targetId (target e)])).
      destruct (observerCallback rest (unobserve (target e) o)) as [calls o'].
      cbn [fst List.map] in *.
      change (cs ++ targetId (target e) :: List.map targetId calls)
        with (cs ++ [targetId (target e)] ++ List.map targetId calls).
      rewrite app_assoc. apply IH.
      * apply NoDup_app. split; [assumption|]. split; [|apply NoDup_singleton].
        intros i Hi Hi'. apply list_elem_of_In in Hi, Hi'. destruct Hi' as [<-|[]].
        apply (Hdis (targetId (target e))); [now left|assumption].
      * exact Hrest.
      * intros i Hi. rewrite in_app_iff. intros [H|[<-|[]]].
        -- apply (Hdis i); [now right|assumption].
        -- apply He. now apply list_elem_of_In.
    + apply IH; [assumption|assumption|]. intros i Hi. apply Hdis. now right.
Qed.

Lemma observeTarget_observed ts g r : observed (fst (observeTarget ts g r)) = observed r.
Proof.
  unfold observeTarget. destruct (g _) as [intersects area].
  now destruct (_ && _).
Qed.

Lemma observeTarget_entries ts g r e :
  In e (snd (observeTarget ts g r)) -> target e = observed r.
Proof.
  unfold observeTarget. destruct (g _) as [intersects area].
  destruct (_ && _); cbn; [tauto|]. now intros [<-|[]].
Qed.

Lemma update_regIds g o : regIds (updateIntersectionObservations g o) = regIds o.
Proof.
  unfold regIds, updateIntersectionObservations. cbn [registrations].
  rewrite !map_map. apply map_ext. intros r. now rewrite observeTarget_observed.
Qed.

(** An update queues at most one entry for each observed target. *)
Lemma update_entries ts g regs :
  NoDup (List.map (fun r => targetId (observed r)) regs) ->
  NoDup (entryIds (List.flat_map snd (List.map (observeTarget ts g) regs))) /\
  forall i, In i (entryIds (List.flat_map snd (List.map (observeTarget ts g) regs))) ->
            In i (List.map (fun r => targetId (observed r)) regs).
Proof.
  induction regs as [|r rs IH]; cbn [List.map List.flat_map]; intros Hnd.
  - split; [constructor|intros i []].
  - apply NoDup_cons in Hnd as [Hr Hrs]. destruct (IH Hrs) as [IH1 IH2].
    pose proof (observeTarget_entries ts g r) as He.
    unfold entryIds in *. rewrite map_app.
    destruct (snd (observeTarget ts g r)) as [|e [|e' es]] eqn:E.
    + cbn. split; [assumption|]. intros i Hi. right. now apply IH2.
    + cbn. rewrite (He e) by now left. split.
      * apply NoDup_cons. split; [|assumption]. intros Hin. apply Hr.
        apply list_elem_of_In in Hin. apply list_elem_of_In. now apply IH2.
      * intros i [<-|Hi]; [now left|right; now apply IH2].
    + exfalso. revert E. unfold observeTarget. destruct (g _) as [intersects area].
      now destruct (_ && _).
Qed.

Lemma pageRun_once doc evs : forall p cs queued,
  observerOk cs queued p -> promptly queued evs = true ->
  NoDup (cs ++ List.map targetId (fst (pageRun doc evs p))).
Proof.
  induction evs as [|ev rest IH]; intros p cs queued [Hcs Hok] Hp.
  - cbn. now rewrite app_nil_r.
  - cbn [pageRun]. destruct ev as [e|g|]; cbn [pageStep promptly] in *.
    + specialize (IH {| world := exec (step doc e) (world p);
                        intersectionObserver := intersectionObserver p |} cs queued).
      destruct (pageRun doc rest _) as [calls2 p2]. cbn [fst app]. apply IH; [|assumption].
      split; assumption.
    + apply andb_prop in Hp as [Hq Hp]. apply negb_true_iff in Hq. subst queued.
      specialize (IH {| world := world p;
                        intersectionObserver :=
                          option_map (updateIntersectionObservations g)
                                     (intersectionObserver p) |} cs true).
      destruct (pageRun doc rest _) as [calls2 p2]. cbn [fst app]. apply IH; [|assumption].
      split; [assumption|]. cbn [intersectionObserver].
      destruct (intersectionObserver p) as [o|]; cbn [option_map]; [|exact I].
      destruct Hok as (H1 & H2 & _ & _ & H5). rewrite update_regIds.
      unfold updateIntersectionObservations at 1 2. cbn [queuedEntries].
      rewrite (H5 eq_refl). cbn [app].
      destruct (update_entries (thresholds o) g (registrations o) H1) as [U1 U2].
      refine (conj H1 (conj H2 (conj U1 (conj _ _)))); [|discriminate].
      intros i Hi. apply H2. now apply U2.
    + unfold notifyIntersectionObserver.
      destruct (intersectionObserver p) as [o|] eqn:Eo.
      * destruct Hok as (H1 & H2 & H3 & H4 & H5).
        destruct (queuedEntries o) as [|e es] eqn:Eq.
        -- specialize (IH p cs false).
           destruct (pageRun doc rest p) as [calls2 p2]. cbn [fst app].
           apply IH; [|assumption]. split; [assumption|]. rewrite Eo, Eq.
           refine (conj H1 (conj H2 (conj H3 (conj H4 _)))). reflexivity.
        -- set (o0 := {| thresholds := thresholds o; registrations := registrations o;
                         queuedEntries := [] |}).
           pose proof (observerCallback_once (e :: es) o0 cs Hcs H3 H4) as Honce.
           pose proof (observerCallback_NoDup (e :: es) o0 H1) as Hnd.
           destruct (observerCallback_unobserved (e :: es) o0 cs H2)
             as (U1 & _ & U3 & _).
           destruct (observerCallback (e :: es) o0) as [calls1 o'].
           cbn [fst snd] in *.
           specialize (IH {| world := performAll doc
                                        (List.map (fun t => ActStart (targetNode t)) calls1)
                                        (world p);
                             intersectionObserver := Some o' |}
                          (cs ++ List.map targetId calls1) false).
           destruct (pageRun doc rest _) as [calls2 p2]. cbn [fst].
           rewrite map_app, app_assoc. apply IH; [|assumption].
           split; [assumption|]. cbn [intersectionObserver]. rewrite U3. cbn.
           refine (conj Hnd (conj _ (conj _ (conj _ _)))); try constructor; try tauto.
           intros i Hi. now apply U1.
      * specialize (IH p cs false).
        destruct (pageRun doc rest p) as [calls2 p2]. cbn [fst app].
        apply IH; [|assumption]. split; [assumption|]. now rewrite Eo.
Qed.

Lemma update_entries_In ts g regs i :
  In i (entryIds (List.flat_map snd (List.map (observeTarget ts g) regs))) ->
  In i (List.map (fun r => targetId (observed r)) regs).
Proof.
  unfold entryIds. intros Hi. apply in_map_iff in Hi as (e & <- & He).
  apply in_flat_map in He as (x & Hx & He). apply in_map_iff in Hx as (r & <- & Hr).
  apply observeTarget_entries in He. rewrite He. apply in_map_iff. now exists r.
Qed.

(** Without an observer nothing calls the dispatcher. *)
Lemma pageRun_no_observer doc evs : forall p,
  intersectionObserver p = None ->
  fst (pageRun doc evs p) = [] /\
  intersectionObserver (snd (pageRun doc evs p)) = None /\
  world (snd (pageRun doc evs p)) = performAll doc (hostActions evs) (world p).
Proof.
  induction evs as [|ev rest IH]; intros p Hp; [now cbn|].
  cbn [pageRun hostActions List.flat_map].
  destruct ev as [e|g|]; cbn [pageStep].
  - specialize (IH {| world := exec (step doc e) (world p);
                      intersectionObserver := intersectionObserver p |} Hp).
    destruct (pageRun doc rest _) as [calls2 p2]. exact IH.
  - specialize (IH {| world := world p;
                      intersectionObserver :=
                        option_map (updateIntersectionObservations g)
                                   (intersectionObserver p) |}).
    cbn [intersectionObserver world] in IH. rewrite Hp in IH. specialize (IH eq_refl).
    rewrite Hp. cbn [option_map].
    destruct (pageRun doc rest _) as [calls2 p2]. exact IH.
  - unfold notifyIntersectionObserver. rewrite Hp. specialize (IH p Hp).
    destruct (pageRun doc rest p) as [calls2 p2]. exact IH.
Qed.

(** In every run, the observer no longer watches what it has called the
    dispatcher on. *)
Lemma pageRun_watch base ts doc evs : forall p cs,
  watchOk base cs ts p ->
  watchOk base (cs ++ List.map targetId (fst (pageRun doc evs p))) ts
          (snd (pageRun doc evs p)) /\
  forall t, In t (fst (pageRun doc evs p)) -> In (targetId t) base.
Proof.
  induction evs as [|ev rest IH]; intros p cs Hok.
  - cbn. rewrite app_nil_r. split; [assumption|intros t []].
  - cbn [pageRun]. destruct ev as [e|g|]; cbn [pageStep].
    + specialize (IH {| world := exec (step doc e) (world p);
                        intersectionObserver := intersectionObserver p |} cs Hok).
      destruct (pageRun doc rest _) as [calls2 p2]. exact IH.
    + specialize (IH {| world := world p;
                        intersectionObserver :=
                          option_map (updateIntersectionObservations g)
                                     (intersectionObserver p) |} cs).
      destruct (pageRun doc rest _) as [calls2 p2]. apply IH.
      unfold watchOk in *. cbn [intersectionObserver].
      destruct (intersectionObserver p) as [o|]; cbn [option_map]; [|exact I].
      destruct Hok as (H1 & H2 & H3). rewrite update_regIds.
      refine (conj H1 (conj H2 _)). intros i.
      unfold updateIntersectionObservations. cbn [queuedEntries].
      unfold entryIds. rewrite map_app, in_app_iff. intros [Hi|Hi]; [now apply H3|].
      apply update_entries_In in Hi. now apply H2.
    + unfold notifyIntersectionObserver.
      destruct (intersectionObserver p) as [o|] eqn:Eo.
      * assert (Hok' := Hok). unfold watchOk in Hok'. rewrite Eo in Hok'.
        destruct Hok' as (H1 & H2 & H3).
        destruct (queuedEntries o) as [|e es] eqn:Eq.
        -- specialize (IH p cs Hok).
           destruct (pageRun doc rest p) as [calls2 p2]. exact IH.
        -- set (o0 := {| thresholds := thresholds o; registrations := registrations o;
                         queuedEntries := [] |}).
           destruct (observerCallback_unobserved (e :: es) o0 cs
                       (fun i Hi => proj2 (H2 i Hi))) as (U1 & U2 & U3 & U4).
           destruct (observerCallback (e :: es) o0) as [calls1 o'].
           cbn [fst snd] in *.
           specialize (IH {| world := performAll doc
                                        (List.map (fun t => ActStart (targetNode t)) calls1)
                                        (world p);
                             intersectionObserver := Some o' |}
                          (cs ++ List.map targetId calls1)).
           destruct (pageRun doc rest _) as [calls2 p2]. cbn [fst snd] in *.
           rewrite map_app, app_assoc.
           assert (Hb : forall t, In t calls1 -> In (targetId t) base).
           { intros t Ht. destruct (U4 t Ht) as (e' & He' & _ & <-). apply H3.
             unfold entryIds. apply in_map_iff. now exists e'. }
           destruct IH as [I1 I2].
           { unfold watchOk. cbn [intersectionObserver]. rewrite U2, U3. cbn.
             refine (conj H1 (conj _ _)); [|intros i []].
             intros i Hi. destruct (U1 i Hi) as [Hin Hno]. split; [|assumption].
             now apply (H2 i). }
           split; [assumption|]. intros t Ht. apply in_app_iff in Ht as [Ht|Ht]; auto.
      * specialize (IH p cs Hok).
        destruct (pageRun doc rest p) as [calls2 p2]. exact IH.
Qed.

(** The page after [observeAndAnimate]. *)
Lemma observeAndAnimate_spec containers w :
  let p := observeAndAnimate containers (freshPage w) in
  world p = w /\
  match intersectionObserver p with
  | None => containers = []
  | Some o =>
      containers <> [] /\ thresholds o = [1 # 100] /\ queuedEntries o = [] /\
      NoDup (regIds o) /\
      (forall i, In i (regIds o) <-> In i (List.map targetId containers))
  end.
Proof.
  cbv zeta. unfold observeAndAnimate. destruct containers as [|c cs].
  - now cbn.
  - cbn [length Nat.eqb]. cbn [world intersectionObserver freshPage].
    split; [reflexivity|].
    destruct (observeAll_spec (c :: cs) (newIntersectionObserver (1 # 100)))
      as (H1 & H2 & H3 & H4).
    refine (conj _ (conj H1 (conj H2 (conj _ _)))); [discriminate| |].
    + apply H3. constructor.
    + intros i. rewrite H4. cbn. tauto.
Qed.

(** C4, as the specification has it, fails: the gallery comes into
    view, leaves and comes back before the observer is notified, and the
    one batch of three entries makes the callback call the dispatcher on
    the gallery twice. *)
Lemma observer_dispatches_twice_from_one_batch :
  List.map targetId
    (fst (pageRun pageDocument
            [PeUpdate inView; PeUpdate outOfView; PeUpdate inView; PeNotify]
            (observeAndAnimate [galleryTarget] (freshPage (initialWorld pageHost)))))
  = [20; 20].
Proof. vm_compute. reflexivity. Qed.

(** C4 (amended): without a container, [observeAndAnimate] makes no
    observer, the dispatcher is never called and the page changes by the
    events of the host only.  With containers, it makes one observer with
    the threshold 0.01 that watches exactly the containers.  When every
    update of the intersections is notified before the next update, the
    dispatcher is called at most once on each container.  In every run,
    the dispatcher is called on containers only, and a container it has
    been called on is no longer watched, so that no later update queues an
    entry for it. *)
Theorem observer_dispatches_once doc containers w evs :
  let p := observeAndAnimate containers (freshPage w) in
  let calls := fst (pageRun doc evs p) in
  let final := snd (pageRun doc evs p) in
  (containers = [] ->
     intersectionObserver p = None /\ calls = [] /\
     intersectionObserver final = None /\
     world final = performAll doc (hostActions evs) w) /\
  (containers <> [] ->
     exists o, intersectionObserver p = Some o /\ thresholds o = [1 # 100] /\
       queuedEntries o = [] /\ NoDup (regIds o) /\
       (forall i, In i (regIds o) <-> In i (List.map targetId containers)) /\
       world p = w) /\
  (promptly false evs = true -> NoDup (List.map targetId calls)) /\
  (forall t, In t calls ->
     In (targetId t) (List.map targetId containers) /\
     forall o, intersectionObserver final = Some o ->
       thresholds o = [1 # 100] /\ ~ In (targetId t) (regIds o)).
Proof.
  intros p calls final.
  destruct (observeAndAnimate_spec containers w) as [Hw Ho]. fold p in Hw, Ho.
  refine (conj _ (conj _ (conj _ _))).
  - intros ->. assert (Hp : intersectionObserver p = None) by reflexivity.
    destruct (pageRun_no_observer doc evs p Hp) as (H1 & H2 & H3).
    rewrite Hw in H3. auto.
  - intros Hne. destruct (intersectionObserver p) as [o|]; [|contradiction].
    destruct Ho as (_ & H1 & H2 & H3 & H4). exists o. auto 7.
  - intros Hp. apply (pageRun_once doc evs p [] false); [|assumption].
    split; [constructor|]. destruct (intersectionObserver p) as [o|]; [|exact I].
    destruct Ho as (_ & _ & H2 & H3 & _). rewrite H2.
    refine (conj H3 (conj _ (conj _ (conj _ _)))); try constructor; auto.
  - assert (Hok : watchOk (List.map targetId containers) [] [1 # 100] p).
    { unfold watchOk. destruct (intersectionObserver p) as [o|]; [|exact I].
      destruct Ho as (_ & H1 & H2 & _ & H4). rewrite H2.
      refine (conj H1 (conj _ _)); [|intros i []].
      intros i Hi. split; [now apply H4|intros []]. }
    destruct (pageRun_watch _ _ doc evs p [] Hok) as [W1 W2].
    fold calls final in W1, W2. cbn [app] in W1.
    intros t Ht. split; [now apply W2|]. intros o Eo.
    unfold watchOk in W1. rewrite Eo in W1. destruct W1 as (T & R & _).
    split; [assumption|]. intros Hin. apply (proj2 (R _ Hin)).
    now apply in_map.
Qed.

(** The gallery comes into view, leaves and comes back, and the observer
    is notified every time: one call. *)
Lemma observer_dispatches_once_witness :
  NoDup (List.map targetId
           (fst (pageRun pageDocument
                   [PeUpdate inView; PeNotify; PeUpdate outOfView; PeNotify;
                    PeUpdate inView; PeNotify]
                   (observeAndAnimate [galleryTarget]
                      (freshPage (initialWorld pageHost)))))).
Proof.
  exact (proj1 (proj2 (proj2 (observer_dispatches_once pageDocument [galleryTarget]
           (initialWorld pageHost)
           [PeUpdate inView; PeNotify; PeUpdate outOfView; PeNotify;
            PeUpdate inView; PeNotify]))) eq_refl).
Defined.

(** ** The other branches of the dispatcher *)

(** The second branch, as one step. *)
Lemma start_immediate_eq doc props cs w :
  classListContains props "animated" = true ->
  hasDependencies (ElementNode props cs) = false ->
  startAnimationForElement doc (ElementNode props cs) w =
  (length (heap w),
   setHeap (heap w ++ [ {| state := Fulfilled; reactions := [] |} ])
     (setAnimationFrameCallbacks
        (animationFrameCallbacks w ++ [CbAnimationStart (eid props)]) w)).
Proof.
  intros Ha Hd. cbn [startAnimationForElement]. unfold bind at 1.
  change (newPromise w) with (length (heap w), snd (newPromise w)). cbv iota.
  rewrite Ha, Hd. cbn [andb].
  unfold bind, requestAnimationFrameAndStart, requestAnimationFrame, ret.
  rewrite (run_unit (resolvePromise _)). unfold resolvePromise.
  set (w2 := setAnimationFrameCallbacks _ _).
  assert (E : exec (settle Fulfilled (length (heap w))) w2 =
              setHeap (heap w ++ [ {| state := Fulfilled; reactions := [] |} ])
                (setAnimationFrameCallbacks
                   (animationFrameCallbacks w ++ [CbAnimationStart (eid props)]) w)).
  { unfold exec.
    rewrite (settle_pending Fulfilled _ w2 {| state := Pending; reactions := [] |}).
    - unfold w2. cbn. unfold setMicrotasks, setHeap, setAnimationFrameCallbacks. cbn.
      rewrite app_nil_r. f_equal.
      rewrite insert_app_r_alt by lia. now rewrite Nat.sub_diag.
    - unfold w2. cbn. rewrite lookup_app_r by lia. now rewrite Nat.sub_diag.
    - reflexivity. }
  now rewrite E.
Qed.

(** What the frame does for a callback at the end of the list. *)
Lemma frame_runs_last cbs e w :
  animationFrameCallbacks w = cbs ++ [CbAnimationStart e] ->
  animationPlayState (exec runAnimationFrame w) !! e = Some "running".
Proof.
  intros E. rewrite runAnimationFrame_exec, E, forEach_app.
  cbn [forEach]. rewrite exec_bind, exec_ret. cbn [runCallback].
  unfold exec, setPlayState. cbn. apply lookup_insert_eq.
Qed.

(** An animated element with nothing to wait for: the call makes its
    own promise, fulfilled when it returns, asks for a frame and does
    nothing else; the frame sets the element running. *)
Theorem start_without_dependencies doc props cs w :
  classListContains props "animated" = true ->
  hasDependencies (ElementNode props cs) = false ->
  let r := fst (startAnimationForElement doc (ElementNode props cs) w) in
  let w' := exec (startAnimationForElement doc (ElementNode props cs)) w in
  r = length (heap w) /\ length (heap w') = S (length (heap w)) /\
  stateOf w' r = Fulfilled /\
  listeners w' = listeners w /\ microtasks w' = microtasks w /\
  allRecords w' = allRecords w /\ loadingAttr w' = loadingAttr w /\
  animationPlayState w' = animationPlayState w /\
  animationFrameCallbacks w' =
    animationFrameCallbacks w ++ [CbAnimationStart (eid props)] /\
  animationPlayState (exec runAnimationFrame w') !! eid props = Some "running".
Proof.
  intros Ha Hd r w'. unfold r, w', exec.
  rewrite (start_immediate_eq doc props cs w Ha Hd). cbn [fst snd].
  refine (conj eq_refl (conj _ (conj _ _))).
  - cbn. rewrite length_app. cbn. lia.
  - unfold stateOf. cbn. rewrite lookup_app_r by lia. now rewrite Nat.sub_diag.
  - repeat (split; [reflexivity|]).
    now apply (frame_runs_last (animationFrameCallbacks w)).
Qed.

Lemma start_without_dependencies_witness :
  animationPlayState
    (exec runAnimationFrame
       (exec (startAnimationForElement pageDocument spinner) (initialWorld pageHost)))
    !! 40 = Some "running".
Proof.
  destruct (start_without_dependencies pageDocument spinnerProps []
              (initialWorld pageHost) eq_refl eq_refl)
    as (_ & _ & _ & _ & _ & _ & _ & _ & _ & H).
  exact H.
Defined.

(** The promise a call returns is the one it makes first. *)
Lemma firstChildStart_fst doc r cs w : fst (firstChildStart doc r cs w) = r.
Proof.
  revert w. induction cs as [|c cs IH]; intros w; cbn [firstChildStart].
  - unfold bind. now destruct (resolvePromise r w).
  - destruct c; [apply IH|apply IH|]. unfold bind.
    destruct (startAnimationForElement doc _ w) as [x w1].
    now destruct (resolvePromise r w1).
Qed.

Lemma start_fst doc element w :
  fst (startAnimationForElement doc element w) = length (heap w).
Proof.
  destruct element as [d|d|props cs]; cbn [startAnimationForElement]; unfold bind at 1;
    change (newPromise w) with (length (heap w), snd (newPromise w)); cbv iota.
  - unfold bind. now destruct (rejectPromise _ _).
  - unfold bind. now destruct (rejectPromise _ _).
  - destruct (classListContains props "animated" && hasDependencies _).
    + unfold bind. destruct (loadElementResources _ _ _) as [x w1].
      now destruct (performThen x _ w1).
    + destruct (classListContains props "animated").
      * unfold bind. destruct (requestAnimationFrameAndStart _ _) as [x w1].
        now destruct (resolvePromise _ w1).
      * apply (firstChildStart_fst doc (length (heap w)) cs).
Qed.

(** The search for the first element child fulfils the promise of the
    call, whatever the child does. *)
Lemma firstChildStart_result doc r cs : forall w,
  r < length (heap w) -> stateOf w r = Pending ->
  stateOf (exec (firstChildStart doc r cs) w) r = Fulfilled.
Proof.
  induction cs as [|c cs IH]; intros w Hr Hp; cbn [firstChildStart].
  - rewrite exec_bind, exec_ret. now apply (settle_stateOf_pending Fulfilled).
  - destruct c as [d|d|props cs']; [now apply IH|now apply IH|].
    rewrite exec_bind, exec_bind, exec_ret.
    destruct (keepsOld_start (S r) doc (ElementNode props cs') w Hr) as [Hl Hs].
    specialize (Hs r (Nat.lt_succ_diag_r r)). unfold exec in Hl, Hs.
    apply (settle_stateOf_pending Fulfilled); [lia|]. now rewrite Hs.
Qed.

(** The promise a call returns, when the call returns: pending when the
    call waits for resources, fulfilled when it asks for the frame at
    once or hands over to the first element child, whose own waits it
    does not wait for, and rejected on a node without a class list. *)
Theorem start_result_state doc element w :
  let r := fst (startAnimationForElement doc element w) in
  let w' := exec (startAnimationForElement doc element) w in
  r = length (heap w) /\
  stateOf w' r =
    match element with
    | ElementNode props cs =>
        if classListContains props "animated" && hasDependencies element
        then Pending else Fulfilled
    | _ => Rejected
    end.
Proof.
  cbv zeta. rewrite start_fst. split; [reflexivity|].
  assert (Hnew : stateOf (snd (newPromise w)) (length (heap w)) = Pending)
    by apply newPromise_stateOf_new.
  assert (Hlen : length (heap w) < length (heap (snd (newPromise w))))
    by (rewrite newPromise_length; lia).
  destruct element as [d|d|props cs]; cbn [startAnimationForElement];
    rewrite exec_bind; change (fst (newPromise w)) with (length (heap w)).
  - rewrite exec_bind, exec_ret. now apply (settle_stateOf_pending Rejected).
  - rewrite exec_bind, exec_ret. now apply (settle_stateOf_pending Rejected).
  - destruct (classListContains props "animated" && hasDependencies _) eqn:Hc.
    + assert (Hk : keepsOld (S (length (heap w)))
                     (resources <- loadElementResources doc (ElementNode props cs) ;;
                      performThen resources
                        {| onFulfilled := CbAsyncResume (eid props) (length (heap w));
                           onRejected := CbAsyncThrow (length (heap w)) |} ;;;
                      ret (length (heap w)))).
      { unfold loadElementResources, resolveWithThenable. old_steps.
        - apply keepsOld_collect.
        - apply keepsOld_promiseAll. }
      destruct (Hk (snd (newPromise w)) Hlen) as [_ Hs]. rewrite Hs by lia. exact Hnew.
    + destruct (classListContains props "animated").
      * rewrite exec_bind, exec_bind, exec_ret.
        now apply (settle_stateOf_pending Fulfilled).
      * now apply (firstChildStart_result doc (length (heap w)) cs).
Qed.

(** ** Which element a call can start *)

Lemma entriesOf_firstAnimated doc element : forall w entry,
  In entry (entriesOf doc element w) ->
  exists p cs, firstAnimated element = Some (p, cs) /\ entryElement entry = eid p.
Proof.
  induction element as [d|d|props cs IH] using Node_nested_ind; intros w entry;
    cbn [entriesOf firstAnimated]; try (intros []).
  destruct (classListContains props "animated") eqn:Ha; cbn [andb].
  - destruct (hasDependencies (ElementNode props cs)).
    + destruct (collectLoadingPromises doc _ _) as [ms w3].
      intros [<-|[]]. now exists props, cs.
    + intros [<-|[]]. now exists props, cs.
  - generalize (snd (newPromise w)). intros w1.
    induction IH as [|c rest Hc _ IHrest]; [intros []|].
    destruct c as [d|d|p' cs']; [exact IHrest|exact IHrest|]. apply Hc.
Qed.

(** Every entry of the log was made by a call of the history. *)
Lemma logOf_origin doc acts : forall w entry,
  In entry (logOf doc acts w) ->
  exists pre node post,
    acts = pre ++ ActStart node :: post /\
    In entry (entriesOf doc node (performAll doc pre w)).
Proof.
  induction acts as [|a rest IH]; intros w entry; [intros []|].
  rewrite logOf_cons, in_app_iff. intros [Hin|Hin].
  - destruct (IH _ _ Hin) as (pre & node & post & -> & He).
    now exists (a :: pre), node, post.
  - destruct a as [node|ev]; [|destruct Hin]. now exists [], node, rest.
Qed.

(** An element runs only if a call of the dispatcher was made on a node
    whose chain of first element children reaches it as its first animated
    element: the dispatcher never starts a later sibling or an element
    below an animated one. *)
Theorem only_first_animated_runs doc hs acts e v :
  documentOk doc hs ->
  animationPlayState (reach doc hs acts) !! e = Some v ->
  exists pre node post p cs,
    acts = pre ++ ActStart node :: post /\
    firstAnimated node = Some (p, cs) /\ eid p = e.
Proof.
  intros Hd Hv.
  destruct (running_released _ _ _ e v (reach_Inv doc hs acts Hd) Hv)
    as [_ (entry & Hin & Hrel)].
  destruct (logOf_origin doc acts _ entry Hin) as (pre & node & post & E & He).
  destruct (entriesOf_firstAnimated doc node _ entry He) as (p & cs & Hf & Hp).
  exists pre, node, post, p, cs. split; [exact E|]. split; [exact Hf|].
  rewrite <- Hp. destruct entry as [i|e']; cbn in Hrel |- *; [apply Hrel|assumption].
Qed.

Lemma only_first_animated_runs_witness :
  exists pre node post p cs,
    [ActStart nestedPage; ActEvent EvAnimationFrame] = pre ++ ActStart node :: post /\
    firstAnimated node = Some (p, cs) /\ eid p = 40.
Proof.
  apply (only_first_animated_runs pageDocument pageHost
           [ActStart nestedPage; ActEvent EvAnimationFrame] 40 "running"
           pageDocument_ok).
  vm_compute. reflexivity.
Defined.

(** ** The array of the aggregator *)

(** A loop over wait primitives: the wait of item [k] is the [k]-th new
    promise, fulfilled when the item is ready and pending otherwise. *)
Lemma pushEach_states {A} (f : A -> M nat) (ok : A -> bool) items : forall acc w,
  (forall x w, grown w (snd (f x w)) /\
               length (heap (snd (f x w))) = S (length (heap w)) /\
               stateOf (snd (f x w)) (length (heap w)) =
                 if ok x then Fulfilled else Pending) ->
  forall k x, items !! k = Some x ->
    stateOf (snd (pushEach f items acc w)) (length (heap w) + k) =
      if ok x then Fulfilled else Pending.
Proof.
  induction items as [|y items IH]; intros acc w Hf k x Hk; [discriminate|].
  cbn [pushEach]. unfold bind. destruct (Hf y w) as (Hg & Hl & Hs).
  destruct (f y w) as [p w1]. cbn [snd] in *. destruct k as [|k].
  - injection Hk as ->. rewrite Nat.add_0_r.
    pose proof (grown_pushEach f items (acc ++ [p]) w1 (fun x w => proj1 (Hf x w))) as G.
    rewrite (grown_stateOf w1 _ _ G) by lia. exact Hs.
  - cbn in Hk. specialize (IH (acc ++ [p]) w1 Hf k x Hk).
    rewrite Hl in IH. now replace (length (heap w) + S k) with (S (length (heap w)) + k) by lia.
Qed.

Lemma loadImage_state (x : ElementProps * list Node) w :
  grown w (snd (loadImage (fst x) w)) /\
  length (heap (snd (loadImage (fst x) w))) = S (length (heap w)) /\
  stateOf (snd (loadImage (fst x) w)) (length (heap w)) =
    if complete (fst x) then Fulfilled else Pending.
Proof.
  split; [apply grown_loadImage|]. split; [apply loadImage_fresh|].
  rewrite loadImage_eq. cbn [snd]. unfold stateOf.
  destruct (complete (fst x)); cbn; rewrite lookup_app_r by lia;
    now rewrite Nat.sub_diag.
Qed.

Lemma loadVideo_state (x : ElementProps * list Node) w :
  grown w (snd (loadVideo (fst x) w)) /\
  length (heap (snd (loadVideo (fst x) w))) = S (length (heap w)) /\
  stateOf (snd (loadVideo (fst x) w)) (length (heap w)) =
    if videoReady (fst x) then Fulfilled else Pending.
Proof.
  split; [apply grown_loadVideo|]. split; [apply loadVideo_fresh|].
  rewrite loadVideo_eq. cbn [snd]. unfold stateOf.
  destruct (videoReady (fst x)); cbn; rewrite lookup_app_r by lia;
    now rewrite Nat.sub_diag.
Qed.

(** The waits of the images and of the videos when the loops end. *)
Lemma collect_states doc element w :
  let images := getElementsByTagName element "img" in
  let videos := getElementsByTagName element "video" in
  let w' := snd (collectLoadingPromises doc element w) in
  (forall k image, images !! k = Some image ->
     stateOf w' (length (heap w) + k) =
       if complete (fst image) then Fulfilled else Pending) /\
  (forall k video, videos !! k = Some video ->
     stateOf w' (length (heap w) + length images + k) =
       if videoReady (fst video) then Fulfilled else Pending).
Proof.
  intros images videos w'.
  unfold w', collectLoadingPromises, bind. fold images videos.
  pose proof (pushEach_states (fun e : ElementProps * list Node => loadImage (fst e))
                (fun e => complete (fst e)) images [] w loadImage_state) as S1.
  pose proof (pushEach_fresh (fun e : ElementProps * list Node => loadImage (fst e))
                images [] w loadImage_fresh) as [_ L1].
  destruct (pushEach _ images [] w) as [acc1 w1]. cbn [snd] in S1, L1.
  pose proof (pushEach_states (fun e : ElementProps * list Node => loadVideo (fst e))
                (fun e => videoReady (fst e)) videos acc1 w1 loadVideo_state) as S2.
  pose proof (grown_pushEach (fun e : ElementProps * list Node => loadVideo (fst e))
                videos acc1 w1 (fun x w => grown_loadVideo (fst x) w)) as G2.
  destruct (pushEach _ videos acc1 w1) as [acc2 w2]. cbn [snd] in S2, G2.
  rewrite (pushEach_ret (fun e : ElementProps * list Node =>
                           loadFonts doc (fst e) (loadedFontsOf doc))). cbn [snd].
  split.
  - intros k image Hk. rewrite (grown_stateOf w1 w2 _ G2); [now apply S1|].
    apply lookup_lt_Some in Hk. lia.
  - intros k video Hk. specialize (S2 k video Hk). now rewrite L1 in S2.
Qed.

(** The array [loadingPromises] when [Promise.all] is reached: one new
    promise for every image below the element, in tree order, then one
    for every video, then the font wait of every span; the wait of an
    image is fulfilled already exactly when the image is complete, and
    the wait of a video when the video is ready or has a poster. *)
Theorem join_set_layout doc element w :
  let images := getElementsByTagName element "img" in
  let videos := getElementsByTagName element "video" in
  let spans := getElementsByTagName element "span" in
  let members := fst (collectLoadingPromises doc element w) in
  let w' := snd (collectLoadingPromises doc element w) in
  members =
    seq (length (heap w)) (length images + length videos) ++
    List.map (fun e => loadFonts doc (fst e) (loadedFontsOf doc)) spans /\
  length members = length images + length videos + length spans /\
  length (heap w') = length (heap w) + length images + length videos /\
  (forall k image, images !! k = Some image ->
     stateOf w' (length (heap w) + k) =
       if complete (fst image) then Fulfilled else Pending) /\
  (forall k video, videos !! k = Some video ->
     stateOf w' (length (heap w) + length images + k) =
       if videoReady (fst video) then Fulfilled else Pending).
Proof.
  intros images videos spans members w'.
  destruct (collectLoadingPromises_members doc element w) as [E1 E2].
  cbv zeta in E1, E2. fold images videos spans members w' in E1, E2.
  refine (conj E1 (conj _ (conj _ _))).
  - rewrite E1, length_app, length_seq, length_map. lia.
  - rewrite E2. lia.
  - exact (collect_states doc element w).
Qed.

(** ** The snapshot of the fonts *)

Lemma find_rev_last {A} (f : A -> bool) (l : list A) :
  match List.find f (List.rev l) with
  | Some x => exists before after,
      l = before ++ x :: after /\ f x = true /\ Forall (fun y => f y = false) after
  | None => Forall (fun y => f y = false) l
  end.
Proof.
  induction l as [|a l IH] using rev_ind; [constructor|].
  rewrite rev_app_distr. cbn [List.rev app List.find]. destruct (f a) eqn:E.
  - exists l, []. split; [reflexivity|]. split; [assumption|constructor].
  - destruct (List.find f (List.rev l)) as [x|].
    + destruct IH as (before & after & -> & Hx & Hall).
      exists before, (after ++ [a]). split; [now rewrite <- app_assoc|].
      split; [assumption|]. apply Forall_app. split; [assumption|].
      now apply Forall_cons.
    + apply Forall_app. split; [assumption|]. now apply Forall_cons.
Qed.

(** The map built by [document.fonts.forEach] holds, for a key, the
    last face with that key (a later [set] replaces an earlier one), and
    nothing exactly when no face has the key. *)
Theorem snapshot_keeps_last_face doc key :
  match loadedFontsOf doc !! key with
  | Some font => exists before after,
      fonts doc = before ++ font :: after /\
      fontKeyOf (family font) (style font) (weight font) = key /\
      Forall (fun f => fontKeyOf (family f) (style f) (weight f) <> key) after
  | None =>
      Forall (fun f => fontKeyOf (family f) (style f) (weight f) <> key) (fonts doc)
  end.
Proof.
  rewrite loadedFontsOf_lookup. unfold faceFor.
  pose proof (find_rev_last (fun font => String.eqb (fontKeyOfFace font) key)
                (fonts doc)) as H.
  destruct (List.find _ (List.rev (fonts doc))) as [font|].
  - destruct H as (before & after & E & Hk & Hall). exists before, after.
    split; [exact E|]. split; [now apply String.eqb_eq in Hk|].
    eapply Forall_impl; [exact Hall|]. cbv beta. intros f Hf.
    now apply String.eqb_neq in Hf.
  - eapply Forall_impl; [exact H|]. cbv beta. intros f Hf.
    now apply String.eqb_neq in Hf.
Qed.

(** The waits of an element whose images are complete and whose videos
    are ready, when the loops end. *)
Lemma collect_all_ready doc element w :
  Forall (fun e => complete (fst e) = true) (getElementsByTagName element "img") ->
  Forall (fun e => videoReady (fst e) = true) (getElementsByTagName element "video") ->
  getElementsByTagName element "span" = [] ->
  allFulfilled (snd (collectLoadingPromises doc element w))
               (fst (collectLoadingPromises doc element w)).
Proof.
  intros Hi Hv Hs.
  destruct (collectLoadingPromises_members doc element w) as [E _].
  destruct (collect_states doc element w) as [S1 S2]. cbv zeta in E, S1, S2.
  rewrite E, Hs. cbn [List.map]. rewrite app_nil_r.
  apply Forall_forall. intros m Hm. apply list_elem_of_In, in_seq in Hm.
  set (images := getElementsByTagName element "img") in *.
  set (videos := getElementsByTagName element "video") in *.
  destruct (decide (m - length (heap w) < length images)) as [Hlt|Hge].
  - destruct (lookup_lt_is_Some_2 images _ Hlt) as [image Hk].
    specialize (S1 _ image Hk). rewrite Forall_forall in Hi.
    rewrite (Hi image (list_elem_of_lookup_2 _ _ _ Hk)) in S1.
    now replace (length (heap w) + (m - length (heap w))) with m in S1 by lia.
  - assert (Hlt : m - length (heap w) - length images < length videos) by lia.
    destruct (lookup_lt_is_Some_2 videos _ Hlt) as [video Hk].
    specialize (S2 _ video Hk). rewrite Forall_forall in Hv.
    rewrite (Hv video (list_elem_of_lookup_2 _ _ _ Hk)) in S2.
    now replace (length (heap w) + length images +
                 (m - length (heap w) - length images)) with m in S2 by lia.
Qed.

Lemma keepsOld_armTail n e s r ms : keepsOld n (armTail e s r ms).
Proof. unfold armTail, resolveWithThenable. old_steps. apply keepsOld_promiseAll. Qed.

(** An animated element all of whose images are complete and all of
    whose videos are ready or have a poster, and which has no span: every
    wait of the join set is fulfilled when the call returns, and the jobs
    of the queue and one frame set the element running, without any event
    of a resource. *)
Theorem cached_media_start doc hs pre props cs :
  documentOk doc hs ->
  classListContains props "animated" && hasDependencies (ElementNode props cs) = true ->
  Forall (fun e => complete (fst e) = true)
         (getElementsByTagName (ElementNode props cs) "img") ->
  Forall (fun e => videoReady (fst e) = true)
         (getElementsByTagName (ElementNode props cs) "video") ->
  getElementsByTagName (ElementNode props cs) "span" = [] ->
  let w1 := reach doc hs (pre ++ [ActStart (ElementNode props cs)]) in
  allFulfilled w1 (joinSet doc (ElementNode props cs) (reach doc hs pre)) /\
  exists n, animationPlayState
              (performAll doc (microtaskTurns n ++ [ActEvent EvAnimationFrame]) w1)
              !! eid props = Some "running".
Proof.
  intros Hd Hc Hi Hv Hs w1.
  set (w0 := reach doc hs pre).
  set (w2 := snd (newPromise (snd (newPromise w0)))).
  pose proof (collect_all_ready doc (ElementNode props cs) w2 Hi Hv Hs) as Hall.
  destruct (start_armed_exec doc props cs w0 Hc) as [E _]. cbv zeta in E. fold w2 in E.
  assert (Hw1 : w1 = exec (armTail (eid props) (length (heap w0)) (S (length (heap w0)))
                             (fst (collectLoadingPromises doc (ElementNode props cs) w2)))
                          (snd (collectLoadingPromises doc (ElementNode props cs) w2))).
  { unfold w1. rewrite reach_app. fold w0. cbn [performAll fold_left perform].
    unfold exec at 1. now rewrite E. }
  assert (Hall1 : allFulfilled w1 (joinSet doc (ElementNode props cs) w0)).
  { unfold joinSet. fold w2. rewrite Hw1.
    set (w3 := snd (collectLoadingPromises doc (ElementNode props cs) w2)) in *.
    destruct (keepsOld_armTail (length (heap w3)) (eid props) (length (heap w0))
                (S (length (heap w0)))
                (fst (collectLoadingPromises doc (ElementNode props cs) w2)) w3
                (Nat.le_refl _)) as [_ Hk].
    unfold allFulfilled in *. eapply Forall_impl; [exact Hall|]. cbv beta.
    intros m Hm. rewrite Hk; [exact Hm|].
    apply stateOf_not_pending_lt. congruence. }
  split; [exact Hall1|].
  apply (released_runs (length hs)
           (reachLog doc hs (pre ++ [ActStart (ElementNode props cs)])) doc w1
           (Armed (runOf doc props cs w0))).
  - now apply documentOk_hostOk.
  - now apply reach_Inv.
  - now apply (reachLog_dispatch doc hs pre [] props cs).
  - split; [reflexivity|exact Hall1].
Qed.

Lemma cached_media_start_witness :
  exists n, animationPlayState
              (performAll pageDocument (microtaskTurns n ++ [ActEvent EvAnimationFrame])
                 (reach pageDocument pageHost ([] ++ [ActStart cached])))
              !! 60 = Some "running".
Proof.
  refine (proj2 (cached_media_start pageDocument pageHost [] cachedProps cachedChildren
                   pageDocument_ok eq_refl _ _ eq_refl)).
  - vm_compute. repeat constructor.
  - vm_compute. repeat constructor.
Defined.












(** Induction on functions, with the hypothesis for every function
    handed over. *)
Lemma Callable_nested_ind (P : Callable -> Prop) :
  (forall label calls, Forall (fun s => P (handedOver s)) calls -> P (callable label calls)) ->
  forall c, P c.
Proof.
  intros H. fix IH 1. intros [label calls]. apply H.
  induction calls as [|s rest IHr]; constructor; [|exact IHr].
  destruct s as [c p|c given]; apply IH.
Qed.

Lemma call_eq label calls w :
  call (callable label calls) w = fold_left runStatement calls (setRan (ran w ++ [label]) w).
Proof.
  cbn [call]. generalize (setRan (ran w ++ [label]) w).
  induction calls as [|s rest IH]; intros w'; [reflexivity|].
  destruct s as [c p|c given]; cbn [fold_left runStatement]; apply IH.
Qed.

(** A property of the window that the steps of the two classes keep is
    kept by every call. *)
Lemma call_preserves (P : Window -> Prop) :
  (forall l w, P w -> P (setRan l w)) ->
  (forall w, P w -> P (ensureScriptExecutor w)) ->
  (forall e w, P w -> P (pushCallback e w)) ->
  (forall w, P w -> P (ensureResizeHandler w)) ->
  (forall c o w, P w -> P (pushResizeCallback c o w)) ->
  forall c w, P w -> P (call c w).
Proof.
  intros Hran Hse Hpc Hrh Hpr.
  induction c as [label calls IH] using Callable_nested_ind. intros w Hw.
  rewrite call_eq. specialize (Hran (ran w ++ [label]) w Hw). revert Hran.
  generalize (setRan (ran w ++ [label]) w). clear w Hw.
  induction IH as [|s rest Hs _ IHrest]; intros w Hw; [exact Hw|].
  cbn [fold_left]. apply IHrest.
  assert (Hexec : forall c p w, (forall w, P w -> P (call c w)) -> P w ->
                    P (executeWhenReadyWith (call c) c p w)).
  { intros c p w0 Hc Hw0. unfold executeWhenReadyWith, runOnLoadWith.
    destruct (readyStateLoading _); [apply Hpc|apply Hc]; now apply Hse. }
  destruct s as [c p|c given]; cbn [runStatement handedOver] in *.
  - now apply Hexec.
  - unfold setupDebouncedResizeHandler, setupDebouncedResizeHandlerWith, runOnResizeWith.
    destruct (options_runOnLoad _).
    + apply Hexec; [exact Hs|]. now apply Hpr, Hrh.
    + now apply Hpr, Hrh.
Qed.

Lemma executeWhenReady_preserves (P : Window -> Prop) :
  (forall l w, P w -> P (setRan l w)) ->
  (forall w, P w -> P (ensureScriptExecutor w)) ->
  (forall e w, P w -> P (pushCallback e w)) ->
  (forall w, P w -> P (ensureResizeHandler w)) ->
  (forall c o w, P w -> P (pushResizeCallback c o w)) ->
  forall c p w, P w -> P (executeWhenReady c p w).
Proof.
  intros Hran Hse Hpc Hrh Hpr c p w Hw.
  unfold executeWhenReady, executeWhenReadyWith, runOnLoadWith.
  destruct (readyStateLoading _); [now apply Hpc, Hse|].
  apply call_preserves; auto.
Qed.

(** ** The sort *)

Lemma insertBy_Permutation {A} (key : A -> Z) x l : Permutation (insertBy key x l) (x :: l).
Proof.
  induction l as [|y rest IH]; [reflexivity|]. cbn [insertBy].
  destruct (key x <=? key y)%Z; [reflexivity|].
  rewrite IH. apply perm_swap.
Qed.

Lemma sortBy_Permutation {A} (key : A -> Z) l : Permutation (sortBy key l) l.
Proof.
  induction l as [|x rest IH]; [reflexivity|]. cbn [sortBy fold_right].
  fold (sortBy key rest). rewrite insertBy_Permutation. now constructor.
Qed.

Lemma ascending_cons {A} (key : A -> Z) x l :
  ascending key (x :: l) <-> Forall (fun y => (key x <= key y)%Z) l /\ ascending key l.
Proof.
  split.
  - intros H. split.
    + apply Forall_forall. intros y Hy. apply list_elem_of_lookup_1 in Hy as [j Hj].
      apply (H 0 (S j) x y); [lia|reflexivity|exact Hj].
    + intros i j a b Hij Ha Hb. apply (H (S i) (S j) a b); [lia|exact Ha|exact Hb].
  - intros [Hall Hasc] i j a b Hij Ha Hb. destruct j as [|j]; [lia|].
    cbn in Hb. destruct i as [|i].
    + cbn in Ha. injection Ha as <-. rewrite Forall_forall in Hall.
      apply Hall. now apply list_elem_of_lookup_2 in Hb.
    + cbn in Ha. apply (Hasc i j a b); [lia|exact Ha|exact Hb].
Qed.

Lemma insertBy_ascending {A} (key : A -> Z) x l :
  ascending key l -> ascending key (insertBy key x l).
Proof.
  induction l as [|y rest IH]; intros H; cbn [insertBy].
  - apply ascending_cons. split; [constructor|]. intros i j a b _ Hi. destruct i; discriminate.
  - destruct (key x <=? key y)%Z eqn:E.
    + apply Z.leb_le in E. apply ascending_cons. split; [|exact H].
      apply ascending_cons in H as [Hall _]. constructor; [exact E|].
      eapply Forall_impl; [exact Hall|]. cbv beta. intros; lia.
    + apply Z.leb_gt in E. apply ascending_cons in H as [Hall Hasc].
      apply ascending_cons. split; [|now apply IH].
      apply Forall_forall. intros z Hz.
      apply list_elem_of_In in Hz.
      apply (Permutation_in _ (insertBy_Permutation key x rest)) in Hz.
      destruct Hz as [<-|Hz]; [lia|].
      rewrite Forall_forall in Hall. apply Hall. now apply list_elem_of_In.
Qed.

Lemma sortBy_ascending {A} (key : A -> Z) l : ascending key (sortBy key l).
Proof.
  induction l as [|x rest IH]; cbn [sortBy fold_right].
  - intros i j a b _ Hi. destruct i; discriminate.
  - now apply insertBy_ascending.
Qed.

(** The sort keeps the entries of equal key in the order they had. *)
Lemma insertBy_filter {A} (key : A -> Z) k x l :
  List.filter (fun y => (key y =? k)%Z) (insertBy key x l) =
  List.filter (fun y => (key y =? k)%Z) (x :: l).
Proof.
  induction l as [|y rest IH]; [reflexivity|]. cbn [insertBy].
  destruct (key x <=? key y)%Z eqn:E; [reflexivity|]. apply Z.leb_gt in E.
  cbn [List.filter] in *. rewrite IH.
  destruct (key x =? k)%Z eqn:Ex; [|reflexivity].
  destruct (key y =? k)%Z eqn:Ey; [|reflexivity]. lia.
Qed.

Lemma sortBy_filter {A} (key : A -> Z) k l :
  List.filter (fun y => (key y =? k)%Z) (sortBy key l) =
  List.filter (fun y => (key y =? k)%Z) l.
Proof.
  induction l as [|x rest IH]; [reflexivity|]. cbn [sortBy fold_right].
  fold (sortBy key rest). rewrite insertBy_filter. cbn [List.filter]. now rewrite IH.
Qed.

(** A sorted array is left as it is. *)
Lemma insertBy_head {A} (key : A -> Z) x l :
  Forall (fun y => (key x <= key y)%Z) l -> insertBy key x l = x :: l.
Proof.
  destruct l as [|y rest]; [reflexivity|]. intros H. cbn [insertBy].
  apply Forall_cons in H as [H _]. apply Z.leb_le in H. now rewrite H.
Qed.

Lemma sortBy_ascending_id {A} (key : A -> Z) l : ascending key l -> sortBy key l = l.
Proof.
  induction l as [|x rest IH]; [reflexivity|]. intros H.
  apply ascending_cons in H as [Hall Hasc]. cbn [sortBy fold_right].
  fold (sortBy key rest). rewrite IH by exact Hasc. now apply insertBy_head.
Qed.

(** ** What a call does once the document is parsed *)

Lemma ensureScriptExecutor_fields w :
  ran (ensureScriptExecutor w) = ran w /\
  readyStateLoading (ensureScriptExecutor w) = readyStateLoading w /\
  callbacksOf (ensureScriptExecutor w) = callbacksOf w /\
  canva_debounceResize (ensureScriptExecutor w) = canva_debounceResize w.
Proof.
  unfold ensureScriptExecutor, callbacksOf.
  destruct (canva_scriptExecutor w) eqn:E; cbn; rewrite ?E; auto.
Qed.

Lemma ensureResizeHandler_fields w :
  ran (ensureResizeHandler w) = ran w /\
  readyStateLoading (ensureResizeHandler w) = readyStateLoading w /\
  callbacksOf (ensureResizeHandler w) = callbacksOf w.
Proof.
  unfold ensureResizeHandler, callbacksOf. destruct (canva_debounceResize w); cbn; auto.
Qed.

Lemma pushResizeCallback_fields c o w :
  ran (pushResizeCallback c o w) = ran w /\
  readyStateLoading (pushResizeCallback c o w) = readyStateLoading w /\
  callbacksOf (pushResizeCallback c o w) = callbacksOf w.
Proof.
  unfold pushResizeCallback, callbacksOf. destruct (canva_debounceResize w); cbn; auto.
Qed.

Lemma executeWhenReadyWith_parsed c p w :
  parsedCall c -> readyStateLoading w = false ->
  ran (executeWhenReadyWith (call c) c p w) = ran w ++ callOrder c /\
  readyStateLoading (executeWhenReadyWith (call c) c p w) = false /\
  callbacksOf (executeWhenReadyWith (call c) c p w) = callbacksOf w.
Proof.
  intros Hc Hw. unfold executeWhenReadyWith, runOnLoadWith.
  destruct (ensureScriptExecutor_fields w) as (Hr & Hl & Hq & _).
  rewrite Hl, Hw. destruct (Hc (ensureScriptExecutor w)) as (H1 & H2 & H3); [congruence|].
  rewrite H1, H2, H3, Hr, Hq. auto.
Qed.

Lemma call_parsed c : parsedCall c.
Proof.
  induction c as [label calls IH] using Callable_nested_ind. intros w Hw.
  rewrite call_eq. cbn [callOrder].
  enough (Hfold : forall w1, readyStateLoading w1 = false ->
            ran (fold_left runStatement calls w1) =
              ran w1 ++ flat_map (fun s =>
                          match s with
                          | CallExecuteWhenReady c' _ => callOrder c'
                          | CallSetupDebouncedResizeHandler c' given =>
                              if options_runOnLoad (withDefaults given)
                              then callOrder c' else []
                          end) calls /\
            readyStateLoading (fold_left runStatement calls w1) = false /\
            callbacksOf (fold_left runStatement calls w1) = callbacksOf w1).
  { destruct (Hfold (setRan (ran w ++ [label]) w) Hw) as (H1 & H2 & H3).
    rewrite H1, H2, H3. cbn. rewrite <- app_assoc. auto. }
  clear w Hw.
  induction IH as [|s rest Hs _ IHrest]; intros w Hw.
  - cbn. now rewrite app_nil_r.
  - cbn [fold_left flat_map].
    assert (Hstep : ran (runStatement w s) =
                      ran w ++ match s with
                               | CallExecuteWhenReady c' _ => callOrder c'
                               | CallSetupDebouncedResizeHandler c' given =>
                                   if options_runOnLoad (withDefaults given)
                                   then callOrder c' else []
                               end /\
                    readyStateLoading (runStatement w s) = false /\
                    callbacksOf (runStatement w s) = callbacksOf w).
    { destruct s as [c p|c given]; cbn [runStatement handedOver] in *.
      - now apply executeWhenReadyWith_parsed.
      - unfold setupDebouncedResizeHandler, setupDebouncedResizeHandlerWith, runOnResizeWith.
        destruct (ensureResizeHandler_fields w) as (Hr1 & Hl1 & Hq1).
        destruct (pushResizeCallback_fields c (withDefaults given) (ensureResizeHandler w))
          as (Hr2 & Hl2 & Hq2).
        destruct (options_runOnLoad (withDefaults given)).
        + destruct (executeWhenReadyWith_parsed c (options_priority (withDefaults given))
                      (pushResizeCallback c (withDefaults given) (ensureResizeHandler w)) Hs)
            as (H1 & H2 & H3); [congruence|].
          rewrite H1, H2, H3. split; [congruence|]. split; [reflexivity|congruence].
        + rewrite app_nil_r. split; [congruence|]. split; congruence. }
    destruct Hstep as (H1 & H2 & H3).
    destruct (IHrest (runStatement w s) H2) as (K1 & K2 & K3).
    rewrite K1, K2, K3, H1, H3, app_assoc. auto.
Qed.

(** Calls in a row, once the document is parsed. *)
Lemma calls_parsed (entries : list CallbackWithPriority) : forall w,
  readyStateLoading w = false ->
  ran (fold_left (fun w entry => call (callback entry) w) entries w) =
    ran w ++ flat_map (fun entry => callOrder (callback entry)) entries /\
  readyStateLoading (fold_left (fun w entry => call (callback entry) w) entries w) = false /\
  callbacksOf (fold_left (fun w entry => call (callback entry) w) entries w) = callbacksOf w.
Proof.
  induction entries as [|e rest IH]; intros w Hw.
  - cbn. now rewrite app_nil_r.
  - cbn [fold_left flat_map]. destruct (call_parsed (callback e) w Hw) as (H1 & H2 & H3).
    destruct (IH _ H2) as (K1 & K2 & K3). rewrite K1, K2, K3, H1, H3, app_assoc. auto.
Qed.

(** Once the document is parsed, a function handed to
    [executeWhenReady] is called before [executeWhenReady] returns, and so
    is, depth first, every function it hands over in turn, whatever the
    priorities given; nothing is added to the array of the executor. *)
Theorem executeWhenReady_after_parsing c p w :
  readyStateLoading w = false ->
  ran (executeWhenReady c p w) = ran w ++ callOrder c /\
  readyStateLoading (executeWhenReady c p w) = false /\
  canva_scriptExecutor (executeWhenReady c p w) = Some (callbacksOf w).
Proof.
  intros Hw. destruct (executeWhenReadyWith_parsed c (priorityOrDefault p) w (call_parsed c) Hw)
    as (H1 & H2 & H3).
  split; [exact H1|]. split; [exact H2|].
  unfold executeWhenReady. unfold callbacksOf in H3 at 1.
  assert (Hsome : is_Some (canva_scriptExecutor
                             (executeWhenReadyWith (call c) c (priorityOrDefault p) w))).
  { unfold executeWhenReadyWith, runOnLoadWith.
    destruct (ensureScriptExecutor_fields w) as (_ & Hl & _ & _). rewrite Hl, Hw.
    apply (call_preserves (fun w => is_Some (canva_scriptExecutor w))).
    - intros l w0 H. exact H.
    - intros w0 H. unfold ensureScriptExecutor. destruct (canva_scriptExecutor w0) eqn:E.
      + now rewrite E.
      + cbn. eauto.
    - intros e w0 [q H]. unfold pushCallback. rewrite H. cbn. eauto.
    - intros w0 H. unfold ensureResizeHandler. now destruct (canva_debounceResize w0).
    - intros c0 o w0 H. unfold pushResizeCallback. now destruct (canva_debounceResize w0).
    - unfold ensureScriptExecutor. destruct (canva_scriptExecutor w) eqn:E.
      + rewrite E. eauto.
      + cbn. eauto. }
  destruct Hsome as [q Hq]. rewrite Hq in *. cbn in H3. now rewrite H3.
Qed.

(** ** The functions of the two scripts *)

Lemma executeWhenReady_after_parsing_witness :
  ran (executeWhenReady menuMain None (newWindow false 800 600)) = [1; 2].
Proof.
  exact (proj1 (executeWhenReady_after_parsing menuMain None (newWindow false 800 600)
                  eq_refl)).
Defined.

(** While the document is loading. *)
Lemma executeWhenReady_loading c p w :
  readyStateLoading w = true ->
  executeWhenReady c p w = pushCallback (entryOf (c, p)) (ensureScriptExecutor w).
Proof.
  intros Hw. unfold executeWhenReady, executeWhenReadyWith, runOnLoadWith.
  destruct (ensureScriptExecutor_fields w) as (_ & Hl & _ & _). now rewrite Hl, Hw.
Qed.

Lemma pushCallback_ensure e w :
  executorOk w ->
  let w' := pushCallback e (ensureScriptExecutor w) in
  readyStateLoading w' = readyStateLoading w /\ ran w' = ran w /\
  canva_scriptExecutor w' = Some (callbacksOf w ++ [e]) /\ executorOk w'.
Proof.
  unfold executorOk, pushCallback, ensureScriptExecutor, callbacksOf.
  destruct (canva_scriptExecutor w) as [q|] eqn:E; intros H; cbn; rewrite ?E; cbn; auto.
Qed.

Lemma scripts_loading scripts : forall w,
  readyStateLoading w = true -> executorOk w ->
  let w' := windowSteps (scriptSteps scripts) w in
  readyStateLoading w' = true /\ ran w' = ran w /\
  callbacksOf w' = callbacksOf w ++ List.map entryOf scripts /\ executorOk w'.
Proof.
  induction scripts as [|[c p] rest IH]; intros w Hw Hok.
  - cbn. rewrite app_nil_r. auto.
  - cbn [scriptSteps List.map windowSteps fold_left windowStep fst snd].
    rewrite (executeWhenReady_loading c p w Hw).
    destruct (pushCallback_ensure (entryOf (c, p)) w Hok) as (H1 & H2 & H3 & H4).
    cbv zeta in H1, H2, H3, H4.
    destruct (IH (pushCallback (entryOf (c, p)) (ensureScriptExecutor w)))
      as (K1 & K2 & K3 & K4); [congruence|exact H4|].
    cbv zeta in K1, K2, K3, K4. unfold windowSteps, scriptSteps in *.
    rewrite K1, K2, K3. split; [reflexivity|]. split; [exact H2|]. split; [|exact K4].
    unfold callbacksOf at 1. rewrite H3. cbn. now rewrite <- app_assoc.
Qed.

(** While the document is loading, [executeWhenReady] calls nothing;
    when the document is parsed, the functions handed over until then are
    called in ascending order of priority, those of equal priority in the
    order they were handed over, and a function handed over by one of them
    is called at once, before the next of them. *)
Theorem domContentLoaded_calls_by_priority scripts w :
  readyStateLoading w = true -> executorOk w ->
  let queued := callbacksOf w ++ List.map entryOf scripts in
  let order := sortBy priority queued in
  ran (windowSteps (scriptSteps scripts) w) = ran w /\
  ran (windowSteps (scriptSteps scripts ++ [StepDOMContentLoaded]) w) =
    ran w ++ flat_map (fun entry => callOrder (callback entry)) order /\
  Permutation order queued /\
  ascending priority order /\
  forall k, List.filter (fun entry => (priority entry =? k)%Z) order =
            List.filter (fun entry => (priority entry =? k)%Z) queued.
Proof.
  intros Hw Hok queued order.
  destruct (scripts_loading scripts w Hw Hok) as (H1 & H2 & H3 & H4).
  cbv zeta in H1, H2, H3, H4. split; [exact H2|].
  split; [|split; [apply sortBy_Permutation|split;
                   [apply sortBy_ascending|intros k; apply sortBy_filter]]].
  unfold windowSteps in *. rewrite fold_left_app. cbn [fold_left windowStep].
  set (w1 := fold_left windowStep (scriptSteps scripts) w) in *.
  unfold domContentLoaded. rewrite H4. fold queued in H3. unfold callbacksOf in H3.
  destruct (canva_scriptExecutor w1) as [q|] eqn:E; cbn in H3.
  - cbn [Nat.iter nat_rect]. unfold onDOMContentLoaded.
    change (canva_scriptExecutor (setReadyStateLoading false w1))
      with (canva_scriptExecutor w1). rewrite E, H3. cbv zeta. fold order.
    destruct (calls_parsed order
                (setScriptExecutor (Some order) (setReadyStateLoading false w1)) eq_refl)
      as (K1 & _). rewrite K1. cbn [ran setScriptExecutor setReadyStateLoading].
    now rewrite H2.
  - cbn. unfold order. rewrite <- H3. cbn. now rewrite app_nil_r.
Qed.

Lemma domContentLoaded_calls_by_priority_witness :
  ran (windowSteps (scriptSteps [(animationMain, None); (menuMain, Some 5%Z)]
                  ++ [StepDOMContentLoaded]) (newWindow true 800 600)) = [1; 2; 3].
Proof.
  destruct (domContentLoaded_calls_by_priority
              [(animationMain, None); (menuMain, Some 5%Z)] (newWindow true 800 600)
              eq_refl eq_refl) as (_ & H & _).
  exact H.
Defined.

(** ** What every page keeps *)

Lemma entriesOk_nil : entriesOk [].
Proof. split; [reflexivity|]. intros i j a b _ Hi. destruct i; discriminate. Qed.

Lemma entriesOk_push l c o :
  entriesOk l ->
  entriesOk (sortBy (fun r => options_priority (resizeCallback_options r))
               (l ++ [ {| resizeCallback_id := length l; resizeCallback_callback := c;
                          resizeCallback_options := o;
                          resizeCallback_executed := options_runOnLoad o |} ])).
Proof.
  intros [Hid _]. split; [|apply sortBy_ascending].
  set (new := {| resizeCallback_id := length l |}).
  pose proof (sortBy_Permutation (fun r => options_priority (resizeCallback_options r))
                (l ++ [new])) as Hp.
  rewrite (Permutation_length Hp), Hp, List.map_app, Hid, length_app.
  cbn [List.map length]. rewrite Nat.add_1_r, seq_S. reflexivity.
Qed.

Lemma entriesOk_map (f : ResizeCallback -> ResizeCallback) l :
  (forall r, resizeCallback_id (f r) = resizeCallback_id r) ->
  (forall r, resizePriority (f r) = resizePriority r) ->
  entriesOk l -> entriesOk (List.map f l).
Proof.
  intros Hid Hkey [H1 H2]. split.
  - rewrite List.map_map, length_map. erewrite map_ext; [exact H1|]. intros r. apply Hid.
  - intros i j a b Hij Ha Hb.
    change (List.map f l) with (f <$> l) in Ha, Hb.
    rewrite list_lookup_fmap in Ha, Hb.
    destruct (l !! i) as [a'|] eqn:Ea; [|discriminate].
    destruct (l !! j) as [b'|] eqn:Eb; [|discriminate].
    cbn in Ha, Hb. injection Ha as <-. injection Hb as <-. rewrite !Hkey.
    exact (H2 i j a' b' Hij Ea Eb).
Qed.

Lemma windowOk_setRan l w : windowOk w -> windowOk (setRan l w).
Proof. intros H. exact H. Qed.

Lemma windowOk_ensureScriptExecutor w : windowOk w -> windowOk (ensureScriptExecutor w).
Proof.
  intros (H1 & H2 & H3). unfold ensureScriptExecutor.
  destruct (canva_scriptExecutor w) eqn:E; [exact (conj H1 (conj H2 H3))|].
  refine (conj _ (conj H2 H3)). unfold executorOk in *. cbn. rewrite E in H1. now rewrite H1.
Qed.

Lemma windowOk_pushCallback e w : windowOk w -> windowOk (pushCallback e w).
Proof.
  intros (H1 & H2 & H3). unfold pushCallback.
  destruct (canva_scriptExecutor w) eqn:E; [|exact (conj H1 (conj H2 H3))].
  refine (conj _ (conj H2 H3)). unfold executorOk in *. cbn. now rewrite E in H1.
Qed.

Lemma windowOk_ensureResizeHandler w : windowOk w -> windowOk (ensureResizeHandler w).
Proof.
  intros (H1 & H2 & H3). unfold ensureResizeHandler.
  destruct (canva_debounceResize w) eqn:E; [exact (conj H1 (conj H2 H3))|].
  split; [exact H1|]. split.
  - unfold handlerOk in *. cbn. rewrite E in H2. now rewrite H2.
  - apply entriesOk_nil.
Qed.

Lemma windowOk_pushResizeCallback c o w : windowOk w -> windowOk (pushResizeCallback c o w).
Proof.
  intros (H1 & H2 & H3). unfold pushResizeCallback.
  destruct (canva_debounceResize w) as [h|] eqn:E; [|exact (conj H1 (conj H2 H3))].
  split; [exact H1|]. split.
  - unfold handlerOk in *. cbn. now rewrite E in H2.
  - unfold resizeCallbacksOf in *. rewrite E in H3. cbn. now apply entriesOk_push.
Qed.

Lemma windowOk_call c w : windowOk w -> windowOk (call c w).
Proof.
  apply call_preserves.
  - apply windowOk_setRan.
  - apply windowOk_ensureScriptExecutor.
  - apply windowOk_pushCallback.
  - apply windowOk_ensureResizeHandler.
  - apply windowOk_pushResizeCallback.
Qed.

Lemma windowOk_executeWhenReady c p w : windowOk w -> windowOk (executeWhenReady c p w).
Proof.
  apply executeWhenReady_preserves.
  - apply windowOk_setRan.
  - apply windowOk_ensureScriptExecutor.
  - apply windowOk_pushCallback.
  - apply windowOk_ensureResizeHandler.
  - apply windowOk_pushResizeCallback.
Qed.

Lemma windowOk_markExecuted id w : windowOk w -> windowOk (markExecuted id w).
Proof.
  intros (H1 & H2 & H3). unfold markExecuted.
  destruct (canva_debounceResize w) as [h|] eqn:E; [|exact (conj H1 (conj H2 H3))].
  split; [exact H1|]. split.
  - unfold handlerOk in *. cbn. now rewrite E in H2.
  - unfold resizeCallbacksOf in *. rewrite E in H3. cbn.
    apply entriesOk_map; [| |exact H3]; intros r; now destruct (_ =? _)%nat.
Qed.

Lemma windowOk_setPrevious width height w : windowOk w -> windowOk (setPrevious width height w).
Proof.
  intros (H1 & H2 & H3). unfold setPrevious.
  destruct (canva_debounceResize w) as [h|] eqn:E; [|exact (conj H1 (conj H2 H3))].
  split; [exact H1|]. split.
  - unfold handlerOk in *. cbn. now rewrite E in H2.
  - unfold resizeCallbacksOf in *. now rewrite E in H3.
Qed.

Lemma windowOk_forEach count : forall index hw hh w,
  windowOk w -> windowOk (forEachResizeCallback count index hw hh w).
Proof.
  induction count as [|count IH]; intros index hw hh w Hw; [exact Hw|].
  cbn [forEachResizeCallback]. apply IH. unfold visitResizeCallback.
  destruct (resizeCallbacksOf w !! index) as [r|]; [|exact Hw].
  destruct (shouldExecute hw hh r); [|exact Hw].
  now apply windowOk_markExecuted, windowOk_call.
Qed.

Lemma windowOk_onWindowResize w : windowOk w -> windowOk (onWindowResize w).
Proof.
  intros Hw. unfold onWindowResize. destruct (canva_debounceResize w) as [h|]; [|exact Hw].
  cbv zeta. now apply windowOk_setPrevious, windowOk_forEach.
Qed.

Lemma windowOk_onDOMContentLoaded w : windowOk w -> windowOk (onDOMContentLoaded w).
Proof.
  intros Hw. unfold onDOMContentLoaded.
  destruct (canva_scriptExecutor w) as [q|] eqn:E; [|exact Hw]. cbv zeta.
  assert (H0 : windowOk (setScriptExecutor (Some (sortBy priority q)) w)).
  { destruct Hw as (H1 & H2 & H3). refine (conj _ (conj H2 H3)).
    unfold executorOk in *. cbn. now rewrite E in H1. }
  revert H0. generalize (setScriptExecutor (Some (sortBy priority q)) w).
  induction (sortBy priority q) as [|e rest IH]; intros w0 H0; [exact H0|].
  cbn [fold_left]. now apply IH, windowOk_call.
Qed.

Lemma windowOk_iter (f : Window -> Window) n :
  (forall w, windowOk w -> windowOk (f w)) -> forall w, windowOk w -> windowOk (Nat.iter n f w).
Proof. intros Hf w Hw. induction n as [|n IH]; [exact Hw|]. cbn. now apply Hf. Qed.

Lemma windowOk_windowStep w s : windowOk w -> windowOk (windowStep w s).
Proof.
  intros Hw. destruct s as [c p| |width height|ms|handle]; cbn [windowStep].
  - now apply windowOk_executeWhenReady.
  - unfold domContentLoaded. apply windowOk_iter; [apply windowOk_onDOMContentLoaded|].
    exact Hw.
  - unfold resize. apply windowOk_iter; [|exact Hw]. intros w0 H0. exact H0.
  - exact Hw.
  - unfold runTimeout. destruct (takeTimeout handle (clock w)) as [[u k]|]; [|exact Hw].
    now apply windowOk_onWindowResize.
Qed.

Lemma windowOk_windowSteps steps : forall w, windowOk w -> windowOk (windowSteps steps w).
Proof.
  induction steps as [|s rest IH]; intros w Hw; [exact Hw|].
  cbn [windowSteps fold_left]. now apply IH, windowOk_windowStep.
Qed.

Lemma windowOk_newWindow loading width height : windowOk (newWindow loading width height).
Proof. split; [reflexivity|]. split; [reflexivity|]. apply entriesOk_nil. Qed.

(** Whatever the scripts hand over and whatever happens to the page,
    there is at most one executor and one resize handler, each with its one
    listener, and the callbacks of the resize handler stand in ascending
    order of priority. *)
Theorem page_keeps_one_executor_and_handler steps loading width height :
  let w := windowSteps steps (newWindow loading width height) in
  domContentLoadedListeners w <= 1 /\
  (domContentLoadedListeners w = 1 <-> is_Some (canva_scriptExecutor w)) /\
  resizeListeners w <= 1 /\
  (resizeListeners w = 1 <-> is_Some (canva_debounceResize w)) /\
  ascending resizePriority (resizeCallbacksOf w).
Proof.
  intros w.
  destruct (windowOk_windowSteps steps _ (windowOk_newWindow loading width height))
    as (H1 & H2 & _ & H3).
  fold w in H1, H2, H3. unfold executorOk in H1. unfold handlerOk in H2.
  rewrite H1, H2.
  assert (Hopt : forall A (o : option A),
            match o with Some _ => 1 | None => 0 end <= 1 /\
            (match o with Some _ => 1 | None => 0 end = 1 <-> is_Some o)).
  { intros A [x|]; (split; [lia|]); split; eauto; try discriminate. intros [x [=]]. }
  destruct (Hopt _ (canva_scriptExecutor w)) as [A1 A2].
  destruct (Hopt _ (canva_debounceResize w)) as [B1 B2].
  auto.
Qed.

(** ** A pass of the resize handler *)

(** The sizes and the timers are the host's. *)
Lemma call_host c w :
  clientWidth (call c w) = clientWidth w /\ innerHeight (call c w) = innerHeight w /\
  clock (call c w) = clock w /\ timeoutId (call c w) = timeoutId w.
Proof.
  apply (call_preserves (fun w' => clientWidth w' = clientWidth w /\
                                   innerHeight w' = innerHeight w /\
                                   clock w' = clock w /\ timeoutId w' = timeoutId w)).
  - intros l w0 H. exact H.
  - intros w0 H. unfold ensureScriptExecutor. now destruct (canva_scriptExecutor w0).
  - intros e w0 H. unfold pushCallback. now destruct (canva_scriptExecutor w0).
  - intros w0 H. unfold ensureResizeHandler. now destruct (canva_debounceResize w0).
  - intros c0 o w0 H. unfold pushResizeCallback. now destruct (canva_debounceResize w0).
  - auto.
Qed.

Lemma call_setupFree c :
  setupFree c = true -> forall w, canva_debounceResize (call c w) = canva_debounceResize w.
Proof.
  induction c as [label calls IH] using Callable_nested_ind. intros Hc w.
  rewrite call_eq. cbn [setupFree] in Hc.
  change (canva_debounceResize w)
    with (canva_debounceResize (setRan (ran w ++ [label]) w)).
  generalize (setRan (ran w ++ [label]) w). clear w.
  induction IH as [|s rest Hs _ IHrest]; intros w; [reflexivity|].
  cbn [forallb] in Hc. apply andb_true_iff in Hc as [Hs1 Hrest].
  cbn [fold_left]. rewrite (IHrest Hrest).
  destruct s as [c p|c given]; [|discriminate]. cbn [runStatement handedOver] in *.
  unfold executeWhenReady, executeWhenReadyWith, runOnLoadWith.
  destruct (ensureScriptExecutor_fields w) as (_ & _ & _ & Hh).
  destruct (readyStateLoading _).
  - unfold pushCallback. destruct (canva_scriptExecutor _); exact Hh.
  - now rewrite (Hs Hs1).
Qed.

(** Setting [executed] on the object with a given identity, in an array
    of distinct objects. *)
Lemma mark_other id l :
  id ∉ List.map resizeCallback_id l ->
  List.map (fun r => if (resizeCallback_id r =? id)%nat then setExecuted r else r) l = l.
Proof.
  induction l as [|x rest IH]; intros H; [reflexivity|]. cbn [List.map] in *.
  apply not_elem_of_cons in H as [Hx Hrest]. rewrite (IH Hrest).
  destruct (Nat.eqb_spec (resizeCallback_id x) id); [congruence|reflexivity].
Qed.

Lemma mark_one pre r post :
  NoDup (List.map resizeCallback_id (pre ++ r :: post)) ->
  List.map (fun x => if (resizeCallback_id x =? resizeCallback_id r)%nat
                     then setExecuted x else x) (pre ++ r :: post) =
  pre ++ setExecuted r :: post.
Proof.
  intros H. rewrite List.map_app in H. cbn [List.map] in H.
  apply NoDup_app in H as (_ & Hpre & Hpost). apply NoDup_cons in Hpost as [Hpost _].
  rewrite List.map_app. cbn [List.map]. rewrite Nat.eqb_refl.
  rewrite (mark_other _ post Hpost), (mark_other _ pre); [reflexivity|].
  intros Hin. apply (Hpre _ Hin). left.
Qed.

Lemma visited_id hw hh r : resizeCallback_id (visited hw hh r) = resizeCallback_id r.
Proof. unfold visited. now destruct (shouldExecute hw hh r). Qed.

Lemma visited_setExecuted hw hh r : visited hw hh r = setExecuted r.
Proof.
  unfold visited, shouldExecute. destruct r as [i c o e]. cbn.
  destruct e; cbn; [|reflexivity].
  now destruct (hw && _ || _).
Qed.

Lemma markExecuted_fields id w :
  ran (markExecuted id w) = ran w /\
  readyStateLoading (markExecuted id w) = readyStateLoading w /\
  clientWidth (markExecuted id w) = clientWidth w /\
  innerHeight (markExecuted id w) = innerHeight w.
Proof. unfold markExecuted. now destruct (canva_debounceResize w). Qed.

Lemma visit_pass w h hw hh i w' :
  NoDup (List.map resizeCallback_id (resizeCallbacks h)) ->
  Forall (fun r => setupFree (resizeCallback_callback r) = true) (resizeCallbacks h) ->
  i < length (resizeCallbacks h) ->
  passState w h hw hh i w' ->
  passState w h hw hh (S i) (visitResizeCallback hw hh i w').
Proof.
  intros Hnd Hfree Hi (Hh & Hr & Hl & Hcw & Hch).
  destruct (lookup_lt_is_Some_2 _ _ Hi) as [r Hlook].
  set (l := resizeCallbacks h) in *.
  set (pre := List.map (visited hw hh) (take i l)) in *.
  assert (Hdrop : drop i l = r :: drop (S i) l) by now apply drop_S.
  assert (Htake : take (S i) l = take i l ++ [r]) by now apply take_S_r.
  assert (Hlen : length pre = i).
  { unfold pre. rewrite length_map, length_take. lia. }
  assert (Hcur : resizeCallbacksOf w' !! i = Some r).
  { unfold resizeCallbacksOf. rewrite Hh. cbn. rewrite Hdrop.
    rewrite lookup_app_r by lia. now rewrite Hlen, Nat.sub_diag. }
  unfold visitResizeCallback. rewrite Hcur.
  unfold passState. fold l. rewrite Htake, List.map_app, List.filter_app, flat_map_app.
  cbn [List.map List.filter]. fold pre. rewrite <- app_assoc. cbn [app].
  destruct (shouldExecute hw hh r) eqn:Hs.
  - assert (Hfr : setupFree (resizeCallback_callback r) = true).
    { rewrite Forall_forall in Hfree. apply Hfree. now apply list_elem_of_lookup_2 in Hlook. }
    destruct (call_parsed (resizeCallback_callback r) w' Hl) as (C1 & C2 & _).
    destruct (call_host (resizeCallback_callback r) w') as (C3 & C4 & _).
    pose proof (call_setupFree _ Hfr w') as C5.
    destruct (markExecuted_fields (resizeCallback_id r) (call (resizeCallback_callback r) w'))
      as (M1 & M2 & M3 & M4).
    rewrite M1, M2, M3, M4, C1, C2, C3, C4, Hr, Hcw, Hch.
    split; [|split; [|auto]].
    + unfold markExecuted. rewrite C5, Hh. cbn. f_equal. unfold setResizeCallbacks. cbn.
      f_equal. rewrite Hdrop.
      assert (Hv : visited hw hh r = setExecuted r) by (unfold visited; now rewrite Hs).
      rewrite Hv. apply mark_one.
      replace (List.map resizeCallback_id (pre ++ r :: drop (S i) l))
        with (List.map resizeCallback_id l); [exact Hnd|].
      rewrite <- (take_drop_middle l i r Hlook) at 1.
      rewrite !List.map_app. cbn [List.map]. unfold pre. rewrite List.map_map.
      f_equal. apply map_ext. intros x. now rewrite visited_id.
    + cbn [flat_map]. now rewrite app_nil_r, app_assoc.
  - split; [|split; [|auto]].
    + assert (Hv : visited hw hh r = r) by (unfold visited; now rewrite Hs).
      now rewrite Hh, Hdrop, Hv.
    + cbn [flat_map]. now rewrite app_nil_r.
Qed.

Lemma forEach_pass w h hw hh count : forall i w',
  NoDup (List.map resizeCallback_id (resizeCallbacks h)) ->
  Forall (fun r => setupFree (resizeCallback_callback r) = true) (resizeCallbacks h) ->
  i + count = length (resizeCallbacks h) ->
  passState w h hw hh i w' ->
  passState w h hw hh (length (resizeCallbacks h))
    (forEachResizeCallback count i hw hh w').
Proof.
  induction count as [|count IH]; intros i w' Hnd Hfree Hlen Hp.
  - rewrite Nat.add_0_r in Hlen. now subst i.
  - cbn [forEachResizeCallback]. apply IH; [assumption|assumption|lia|].
    apply visit_pass; [assumption|assumption|lia|assumption].
Qed.

(** One pass of [onWindowResize], for callbacks that register no resize
    callback, once the document is parsed. *)
Lemma onWindowResize_eq w h :
  canva_debounceResize w = Some h ->
  readyStateLoading w = false ->
  NoDup (List.map resizeCallback_id (resizeCallbacks h)) ->
  Forall (fun r => setupFree (resizeCallback_callback r) = true) (resizeCallbacks h) ->
  let hasWidthChanged := negb (previousWindowWidth h =? clientWidth w)%Z in
  let hasHeightChanged := negb (previousWindowHeight h =? innerHeight w)%Z in
  ran (onWindowResize w) =
    ran w ++ flat_map (fun r => callOrder (resizeCallback_callback r))
               (List.filter (shouldExecute hasWidthChanged hasHeightChanged)
                  (resizeCallbacks h)) /\
  canva_debounceResize (onWindowResize w) =
    Some {| resizeCallbacks := List.map setExecuted (resizeCallbacks h);
            previousWindowWidth := clientWidth w;
            previousWindowHeight := innerHeight w |} /\
  readyStateLoading (onWindowResize w) = false /\
  clientWidth (onWindowResize w) = clientWidth w /\
  innerHeight (onWindowResize w) = innerHeight w.
Proof.
  intros Hh Hl Hnd Hfree hw hh. unfold onWindowResize. rewrite Hh. cbv zeta. fold hw hh.
  assert (H0 : passState w h hw hh 0 w).
  { unfold passState. rewrite take_0, drop_0. cbn. rewrite app_nil_r, Hh.
    split; [now destruct h|auto]. }
  destruct (forEach_pass w h hw hh (length (resizeCallbacks h)) 0 w Hnd Hfree eq_refl H0)
    as (P1 & P2 & P3 & P4 & P5).
  rewrite take_ge, drop_ge, app_nil_r in P1 by lia. rewrite take_ge in P2 by lia.
  unfold setPrevious. rewrite P1. cbn.
  split; [exact P2|]. split; [|auto].
  do 2 f_equal. apply map_ext. intros r. apply visited_setExecuted.
Qed.

Lemma reached_distinct steps loading width height h :
  canva_debounceResize (windowSteps steps (newWindow loading width height)) = Some h ->
  NoDup (List.map resizeCallback_id (resizeCallbacks h)).
Proof.
  intros Hh.
  destruct (windowOk_windowSteps steps _ (windowOk_newWindow loading width height))
    as (_ & _ & Hid & _).
  unfold resizeCallbacksOf in Hid. rewrite Hh in Hid. rewrite Hid. apply NoDup_seq.
Qed.

(** A pass of [onWindowResize] once the document is parsed, when no
    callback of the handler registers a resize callback: the callbacks
    called are, in the order of the array, those not yet executed, those
    that run on a change of width if the width differs from the one of the
    pass before, and those that run on a change of height if the height
    differs; afterwards every callback is marked executed and the sizes of
    this pass are the previous ones. *)
Theorem resize_pass steps loading width height h :
  let w := windowSteps steps (newWindow loading width height) in
  canva_debounceResize w = Some h ->
  readyStateLoading w = false ->
  Forall (fun r => setupFree (resizeCallback_callback r) = true) (resizeCallbacks h) ->
  let hasWidthChanged := negb (previousWindowWidth h =? clientWidth w)%Z in
  let hasHeightChanged := negb (previousWindowHeight h =? innerHeight w)%Z in
  ran (onWindowResize w) =
    ran w ++ flat_map (fun r => callOrder (resizeCallback_callback r))
               (List.filter (shouldExecute hasWidthChanged hasHeightChanged)
                  (resizeCallbacks h)) /\
  canva_debounceResize (onWindowResize w) =
    Some {| resizeCallbacks := List.map setExecuted (resizeCallbacks h);
            previousWindowWidth := clientWidth w;
            previousWindowHeight := innerHeight w |}.
Proof.
  intros w Hh Hl Hfree hw hh.
  destruct (onWindowResize_eq w h Hh Hl (reached_distinct _ _ _ _ _ Hh) Hfree)
    as (H1 & H2 & _).
  split; [exact H1|exact H2].
Qed.

Lemma resize_pass_witness : ran (onWindowResize menuPage) = [1; 2; 2].
Proof.
  refine (proj1 (resize_pass
                   [StepScript menuMain None; StepDOMContentLoaded; StepResize 500 600]
                   true 800 600 _ eq_refl eq_refl _)).
  repeat constructor.
Defined.

Lemma filter_executed l :
  List.filter (shouldExecute false false) (List.map setExecuted l) = [].
Proof. induction l as [|r rest IH]; [reflexivity|]. cbn. exact IH. Qed.

(** Once the document is parsed, and when no callback of the handler
    registers a resize callback: a second pass of [onWindowResize] while
    the sizes are what they were at the first calls nothing and leaves the
    handler as it is.  (A callback that registers a resize callback during
    the first pass adds an entry the loop has not visited, and the second
    pass calls it.) *)
Theorem resize_pass_again steps loading width height h :
  let w := windowSteps steps (newWindow loading width height) in
  canva_debounceResize w = Some h ->
  readyStateLoading w = false ->
  Forall (fun r => setupFree (resizeCallback_callback r) = true) (resizeCallbacks h) ->
  ran (onWindowResize (onWindowResize w)) = ran (onWindowResize w) /\
  canva_debounceResize (onWindowResize (onWindowResize w)) =
    canva_debounceResize (onWindowResize w).
Proof.
  intros w Hh Hl Hfree.
  destruct (onWindowResize_eq w h Hh Hl (reached_distinct _ _ _ _ _ Hh) Hfree)
    as (_ & H2 & H3 & H4 & H5).
  set (w1 := onWindowResize w) in *.
  set (h1 := {| resizeCallbacks := List.map setExecuted (resizeCallbacks h);
                previousWindowWidth := clientWidth w;
                previousWindowHeight := innerHeight w |}) in *.
  assert (Hnd : NoDup (List.map resizeCallback_id (resizeCallbacks h1))).
  { cbn. rewrite List.map_map. cbn. exact (reached_distinct _ _ _ _ _ Hh). }
  assert (Hfree1 : Forall (fun r => setupFree (resizeCallback_callback r) = true)
                     (resizeCallbacks h1)).
  { cbn. apply Forall_forall. intros r Hr.
    apply list_elem_of_In, in_map_iff in Hr as (r0 & <- & Hr0). cbn.
    rewrite Forall_forall in Hfree. apply Hfree. now apply list_elem_of_In. }
  destruct (onWindowResize_eq w1 h1 H2 H3 Hnd Hfree1) as (K1 & K2 & _).
  cbv zeta in K1, K2. rewrite H4, H5 in K1, K2. cbn in K1, K2.
  rewrite !Z.eqb_refl in K1. cbn [negb] in K1. rewrite filter_executed in K1.
  cbn in K1. rewrite app_nil_r in K1. split; [exact K1|].
  rewrite K2, H2. unfold h1. do 2 f_equal.
  rewrite List.map_map. apply map_ext. now intros [i c o e].
Qed.

Lemma resize_pass_again_witness :
  ran (onWindowResize (onWindowResize menuPage)) = [1; 2; 2].
Proof.
  refine (eq_trans
            (proj1 (resize_pass_again
                      [StepScript menuMain None; StepDOMContentLoaded; StepResize 500 600]
                      true 800 600 _ eq_refl eq_refl _)) _).
  - repeat constructor.
  - reflexivity.
Defined.

Lemma elapsed_app {A} (l1 l2 : list (DebounceStep A)) :
  elapsed (l1 ++ l2) = elapsed l1 + elapsed l2.
Proof. unfold elapsed. now rewrite List.map_app, list_sum_app. Qed.

Lemma noCall_app {A} (l1 l2 : list (DebounceStep A)) :
  noCall (l1 ++ l2) = noCall l1 && noCall l2.
Proof. unfold noCall. apply forallb_app. Qed.

(** A call when at most the timer of [timeoutId] is pending: that timer
    is cleared and one new timer is set. *)
Lemma debounced_single {A} delay (args : A) id k :
  (timeouts k = [] \/
   exists t, timeouts k = [t] /\ id = Some (timeoutHandle t)) ->
  debounced delay args id k =
    (Some (nextHandle k),
     {| time := time k; nextHandle := S (nextHandle k);
        timeouts := [ {| timeoutHandle := nextHandle k; due := time k + delay;
                         timeoutArguments := args |} ] |}).
Proof.
  intros H. unfold debounced, setTimeout.
  assert (E : timeouts (clearTimeout id k) = [] /\
              time (clearTimeout id k) = time k /\
              nextHandle (clearTimeout id k) = nextHandle k).
  { unfold clearTimeout. destruct H as [H|(t & H & ->)].
    - destruct id; cbn; rewrite ?H; auto.
    - cbn. rewrite H. cbn. now rewrite Nat.eqb_refl. }
  destruct E as (E1 & E2 & E3). cbn [fst snd]. now rewrite E1, E2, E3.
Qed.

(** The host runs a timer when at most one is pending. *)
Lemma takeTimeout_single {A} handle (k : Clock A) t :
  timeouts k = [t] ->
  takeTimeout handle k =
    if (timeoutHandle t =? handle)%nat && (due t <=? time k)%nat
    then Some (timeoutArguments t,
               {| time := time k; nextHandle := nextHandle k; timeouts := [] |})
    else None.
Proof.
  intros H. unfold takeTimeout. rewrite H. cbn.
  destruct (timeoutHandle t =? handle)%nat; cbn; [|reflexivity].
  now destruct (due t <=? time k)%nat.
Qed.

Lemma takeTimeout_none {A} handle (k : Clock A) :
  timeouts k = [] -> takeTimeout handle k = None.
Proof. intros H. unfold takeTimeout. now rewrite H. Qed.

Lemma debounceSteps_snoc {A} delay (steps : list (DebounceStep A)) s d :
  debounceSteps delay (steps ++ [s]) d = debounceStep delay (debounceSteps delay steps d) s.
Proof. unfold debounceSteps. now rewrite fold_left_app. Qed.

Lemma debouncerOk_pending {A} delay start (steps : list (DebounceStep A)) d :
  debouncerOk delay start steps d ->
  timeouts (debouncerClock d) = [] \/
  exists t, timeouts (debouncerClock d) = [t] /\ debouncerTimeoutId d = Some (timeoutHandle t).
Proof.
  intros [_ [H|(handle & pre & args & post & H & Hid & _)]]; [now left|right].
  eexists. split; [exact H|exact Hid].
Qed.

Lemma debouncerOk_step {A} delay start (steps : list (DebounceStep A)) d s :
  debouncerOk delay start steps d ->
  debouncerOk delay start (steps ++ [s]) (debounceStep delay d s).
Proof.
  intros Hok. pose proof (debouncerOk_pending _ _ _ _ Hok) as Hp.
  destruct Hok as [Ht Hq]. unfold debouncerOk. rewrite elapsed_app.
  destruct s as [args|ms|handle]; cbn [debounceStep].
  - rewrite (debounced_single delay args _ _ Hp). cbn.
    split; [lia|].
    right. exists (nextHandle (debouncerClock d)), steps, args, [].
    split; [now rewrite Ht|]. auto.
  - cbn. split; [rewrite ?Ht; unfold elapsed; cbn; lia|].
    destruct Hq as [H|(handle & pre & args & post & H & Hid & E & Hn)]; [now left|right].
    exists handle, pre, args, (post ++ [DebounceTick ms]).
    split; [exact H|]. split; [exact Hid|]. split; [now rewrite E, <- app_assoc|].
    rewrite noCall_app, Hn. reflexivity.
  - destruct Hq as [H|(h & pre & args & post & H & Hid & E & Hn)].
    + rewrite (takeTimeout_none handle _ H). split; [rewrite ?Ht; unfold elapsed; cbn; lia|now left].
    + rewrite (takeTimeout_single handle _ _ H). cbn.
      destruct ((h =? handle)%nat && _).
      * cbn. split; [rewrite ?Ht; unfold elapsed; cbn; lia|now left].
      * split; [rewrite ?Ht; unfold elapsed; cbn; lia|]. right.
        exists h, pre, args, (post ++ [DebounceTimeout handle]).
        split; [exact H|]. split; [exact Hid|]. split; [now rewrite E, <- app_assoc|].
        rewrite noCall_app, Hn. reflexivity.
Qed.

Lemma debouncerOk_steps {A} delay start (steps : list (DebounceStep A)) :
  debouncerOk delay start steps (debounceSteps delay steps (newDebouncer start)).
Proof.
  induction steps as [|s steps IH] using rev_ind.
  - split; [cbn; lia|now left].
  - rewrite debounceSteps_snoc. now apply debouncerOk_step.
Qed.

(** Whenever the host runs a timer, either nothing is called, or
    [callbackFunction] is called once, with the arguments of the last call
    of the debounced function, and at least the delay has passed since that
    call; at most one timer is ever pending. *)
Theorem debounce_calls_after_quiet_delay {A} delay start (steps : list (DebounceStep A))
    handle :
  let d := debounceSteps delay steps (newDebouncer start) in
  let d' := debounceStep delay d (DebounceTimeout handle) in
  length (timeouts (debouncerClock d)) <= 1 /\
  (invocations d' = invocations d \/
   exists pre args post,
     steps = pre ++ DebouncedCall args :: post /\ noCall post = true /\
     delay <= elapsed post /\
     invocations d' = invocations d ++ [(start + elapsed steps, args)] /\
     timeouts (debouncerClock d') = []).
Proof.
  intros d d'. destruct (debouncerOk_steps delay start steps) as [Ht Hq]. fold d in Ht, Hq.
  unfold d'. cbn [debounceStep].
  destruct Hq as [H|(h & pre & args & post & H & Hid & E & Hn)].
  - rewrite H, (takeTimeout_none handle _ H). cbn. split; [lia|now left].
  - rewrite H, (takeTimeout_single handle _ _ H). cbn. split; [lia|].
    destruct (h =? handle)%nat; cbn; [|now left].
    destruct (Nat.leb_spec (start + elapsed pre + delay) (time (debouncerClock d)));
      [|now left].
    right. exists pre, args, post. split; [exact E|]. split; [exact Hn|].
    cbn. rewrite Ht. split; [|auto].
    rewrite E, elapsed_app in Ht. rewrite Ht in *.
    change (DebouncedCall args :: post) with ([DebouncedCall args] ++ post) in *.
    rewrite (elapsed_app [DebouncedCall args] post) in H0.
    change (elapsed [DebouncedCall args]) with 0 in H0. lia.
Qed.

(** Time passing changes the clock only. *)
Lemma debounce_ticks {A} delay ticks : forall d1 : Debouncer A,
  timeouts (debouncerClock (debounceSteps delay (List.map DebounceTick ticks) d1)) =
    timeouts (debouncerClock d1) /\
  debouncerTimeoutId (debounceSteps delay (List.map DebounceTick ticks) d1) =
    debouncerTimeoutId d1 /\
  invocations (debounceSteps delay (List.map DebounceTick ticks) d1) = invocations d1 /\
  time (debouncerClock (debounceSteps delay (List.map DebounceTick ticks) d1)) =
    time (debouncerClock d1) + list_sum ticks.
Proof.
  induction ticks as [|ms rest IH]; intros d1.
  - cbn. repeat split; try reflexivity; lia.
  - destruct (IH (debounceStep delay d1 (DebounceTick ms))) as (K1 & K2 & K3 & K4).
    unfold debounceSteps in *. cbn [List.map fold_left]. rewrite K1, K2, K3, K4.
    change (list_sum (ms :: rest)) with (ms + list_sum rest).
    cbn [debounceStep debouncerClock debouncerTimeoutId invocations tick time timeouts].
    repeat split; try reflexivity; lia.
Qed.

(** After a call of the debounced function, once the delay has passed
    without another call and without the timer having run, the timer of
    [timeoutId] calls [callbackFunction] with the arguments of that call,
    whatever calls came before it. *)
Theorem debounce_last_call_runs {A} delay start (pre : list (DebounceStep A)) args ticks :
  delay <= list_sum ticks ->
  let steps := pre ++ DebouncedCall args :: List.map DebounceTick ticks in
  let d := debounceSteps delay steps (newDebouncer start) in
  exists handle,
    debouncerTimeoutId d = Some handle /\
    invocations (debounceStep delay d (DebounceTimeout handle)) =
      invocations d ++ [(start + elapsed steps, args)].
Proof.
  intros Hd steps d.
  pose (d0 := debounceSteps delay pre (newDebouncer start)).
  pose proof (debouncerOk_steps delay start pre) as Hok. fold d0 in Hok.
  pose proof (debouncerOk_pending _ _ _ _ Hok) as Hp. destruct Hok as [Ht _].
  set (t := {| timeoutHandle := nextHandle (debouncerClock d0);
               due := time (debouncerClock d0) + delay; timeoutArguments := args |}).
  assert (Hd1 : d = debounceSteps delay (List.map DebounceTick ticks)
                      (debounceStep delay d0 (DebouncedCall args))).
  { unfold d, steps, debounceSteps. now rewrite fold_left_app. }
  destruct (debounce_ticks delay ticks (debounceStep delay d0 (DebouncedCall args)))
    as (K1 & K2 & K3 & K4).
  rewrite <- Hd1 in K1, K2, K3, K4.
  assert (Hcall : debounceStep delay d0 (DebouncedCall args) =
                  {| debouncerTimeoutId := Some (nextHandle (debouncerClock d0));
                     debouncerClock :=
                       {| time := time (debouncerClock d0);
                          nextHandle := S (nextHandle (debouncerClock d0));
                          timeouts := [t] |};
                     invocations := invocations d0 |}).
  { cbn [debounceStep]. now rewrite (debounced_single delay args _ _ Hp). }
  rewrite Hcall in K1, K2, K3, K4.
  cbn [debouncerClock debouncerTimeoutId invocations time timeouts] in K1, K2, K3, K4.
  exists (nextHandle (debouncerClock d0)). split; [exact K2|].
  - cbn [debounceStep]. rewrite (takeTimeout_single _ _ _ K1). cbn [timeoutHandle t due].
    rewrite Nat.eqb_refl. cbn [andb].
    destruct (Nat.leb_spec (time (debouncerClock d0) + delay) (time (debouncerClock d)));
      [|lia].
    cbn. do 3 f_equal. destruct (debouncerOk_steps delay start steps) as [Ht' _].
    exact Ht'.
Qed.

Lemma debounce_last_call_runs_witness :
  exists handle,
    debouncerTimeoutId
      (debounceSteps 100 ([DebouncedCall "a"; DebounceTick 30] ++
                          DebouncedCall "b" :: List.map DebounceTick [60; 40])
         (newDebouncer 0)) = Some handle /\
    invocations
      (debounceStep 100
         (debounceSteps 100 ([DebouncedCall "a"; DebounceTick 30] ++
                             DebouncedCall "b" :: List.map DebounceTick [60; 40])
            (newDebouncer 0))
         (DebounceTimeout handle)) =
    invocations
      (debounceSteps 100 ([DebouncedCall "a"; DebounceTick 30] ++
                          DebouncedCall "b" :: List.map DebounceTick [60; 40])
         (newDebouncer 0)) ++
    [(0 + elapsed ([DebouncedCall "a"; DebounceTick 30] ++
                   DebouncedCall "b" :: List.map DebounceTick [60; 40]), "b")].
Proof.
  apply (debounce_last_call_runs 100 0 [DebouncedCall "a"; DebounceTick 30] "b" [60; 40]).
  cbn. lia.
Defined.

(** ** The timer of the resize handler *)

Lemma sameTimers_call c w : sameTimers w (call c w).
Proof. destruct (call_host c w) as (_ & _ & H1 & H2). now split. Qed.

Lemma sameTimers_executeWhenReady c p w : sameTimers w (executeWhenReady c p w).
Proof.
  unfold sameTimers.
  apply (executeWhenReady_preserves (fun w' => clock w' = clock w /\ timeoutId w' = timeoutId w)).
  - intros l w0 H. exact H.
  - intros w0 H. unfold ensureScriptExecutor. now destruct (canva_scriptExecutor w0).
  - intros e w0 H. unfold pushCallback. now destruct (canva_scriptExecutor w0).
  - intros w0 H. unfold ensureResizeHandler. now destruct (canva_debounceResize w0).
  - intros c0 o w0 H. unfold pushResizeCallback. now destruct (canva_debounceResize w0).
  - auto.
Qed.

Lemma sameTimers_trans w1 w2 w3 : sameTimers w1 w2 -> sameTimers w2 w3 -> sameTimers w1 w3.
Proof. intros [A1 A2] [B1 B2]. split; congruence. Qed.

Lemma sameTimers_onDOMContentLoaded w : sameTimers w (onDOMContentLoaded w).
Proof.
  unfold onDOMContentLoaded. destruct (canva_scriptExecutor w) as [q|]; [|now split].
  cbv zeta.
  assert (H0 : sameTimers w (setScriptExecutor (Some (sortBy priority q)) w)) by now split.
  revert H0. generalize (setScriptExecutor (Some (sortBy priority q)) w).
  induction (sortBy priority q) as [|e rest IH]; intros w0 H0; [exact H0|].
  cbn [fold_left]. apply IH. eapply sameTimers_trans; [exact H0|apply sameTimers_call].
Qed.

Lemma sameTimers_forEach count : forall index hw hh w,
  sameTimers w (forEachResizeCallback count index hw hh w).
Proof.
  induction count as [|count IH]; intros index hw hh w; [now split|].
  cbn [forEachResizeCallback]. eapply sameTimers_trans; [|apply IH].
  unfold visitResizeCallback. destruct (resizeCallbacksOf w !! index) as [r|]; [|now split].
  destruct (shouldExecute hw hh r); [|now split].
  eapply sameTimers_trans; [apply sameTimers_call|].
  unfold markExecuted. now destruct (canva_debounceResize _).
Qed.

Lemma sameTimers_onWindowResize w : sameTimers w (onWindowResize w).
Proof.
  unfold onWindowResize. destruct (canva_debounceResize w) as [h|]; [|now split].
  cbv zeta. eapply sameTimers_trans; [apply sameTimers_forEach|].
  unfold setPrevious. now destruct (canva_debounceResize _).
Qed.

Lemma timersOk_same w w' : sameTimers w w' -> timersOk w -> timersOk w'.
Proof. intros [H1 H2] H. unfold timersOk in *. now rewrite H1, H2. Qed.

(** The debounced listener, called when at most its own timer is
    pending. *)
Lemma debouncedResizeEvent_eq w :
  timersOk w ->
  debouncedResizeEvent w =
    setTimer (Some (nextHandle (clock w)))
      {| time := time (clock w); nextHandle := S (nextHandle (clock w));
         timeouts := [ {| timeoutHandle := nextHandle (clock w);
                          due := time (clock w) + 100; timeoutArguments := tt |} ] |} w.
Proof.
  intros H. unfold debouncedResizeEvent.
  now rewrite (debounced_single 100 tt (timeoutId w) (clock w) H).
Qed.

Lemma timersOk_debouncedResizeEvent w : timersOk w -> timersOk (debouncedResizeEvent w).
Proof.
  intros H. rewrite (debouncedResizeEvent_eq w H). right. eexists. split; reflexivity.
Qed.

Lemma timersOk_windowStep w s : timersOk w -> timersOk (windowStep w s).
Proof.
  intros Hw. destruct s as [c p| |width height|ms|handle]; cbn [windowStep].
  - exact (timersOk_same _ _ (sameTimers_executeWhenReady c p w) Hw).
  - unfold domContentLoaded.
    assert (H0 : timersOk (setReadyStateLoading false w)) by exact Hw.
    revert H0. generalize (setReadyStateLoading false w).
    induction (domContentLoadedListeners w) as [|n IH]; intros w0 H0; [exact H0|].
    cbn [Nat.iter nat_rect].
    exact (timersOk_same _ _ (sameTimers_onDOMContentLoaded _) (IH w0 H0)).
  - unfold resize.
    assert (H0 : timersOk (setSize width height w)) by exact Hw.
    revert H0. generalize (setSize width height w).
    induction (resizeListeners w) as [|n IH]; intros w0 H0; [exact H0|].
    cbn [Nat.iter nat_rect]. apply timersOk_debouncedResizeEvent, IH, H0.
  - exact Hw.
  - unfold runTimeout. destruct Hw as [H|(t & H & Hid)].
    + rewrite (takeTimeout_none handle _ H). now left.
    + rewrite (takeTimeout_single handle _ _ H).
      destruct ((timeoutHandle t =? handle)%nat && _); [|right; eauto].
      apply (timersOk_same _ _ (sameTimers_onWindowResize _)). now left.
Qed.

Lemma timersOk_windowSteps steps : forall w, timersOk w -> timersOk (windowSteps steps w).
Proof.
  induction steps as [|s rest IH]; intros w Hw; [exact Hw|].
  cbn [windowSteps fold_left]. now apply IH, timersOk_windowStep.
Qed.

Lemma samePage_refl w : samePage w w.
Proof. repeat split. Qed.

Lemma samePage_trans w1 w2 w3 : samePage w1 w2 -> samePage w2 w3 -> samePage w1 w3.
Proof.
  intros (A1 & A2 & A3 & A4 & A5 & A6) (B1 & B2 & B3 & B4 & B5 & B6).
  repeat split; congruence.
Qed.

Lemma samePage_iter n : forall w, samePage w (Nat.iter n debouncedResizeEvent w).
Proof.
  induction n as [|n IH]; intros w; [apply samePage_refl|].
  cbn [Nat.iter nat_rect]. eapply samePage_trans; [apply IH|]. repeat split.
Qed.

Lemma samePage_burst steps : forall w,
  quietBurst steps = true -> samePage w (windowSteps steps w).
Proof.
  induction steps as [|s rest IH]; intros w Hq; [apply samePage_refl|].
  cbn [quietBurst forallb] in Hq. apply andb_true_iff in Hq as [Hs Hrest].
  cbn [windowSteps fold_left]. eapply samePage_trans; [|apply IH; exact Hrest].
  destruct s as [c p| |width height|ms|handle]; try discriminate; cbn [windowStep].
  - unfold resize. eapply samePage_trans; [|apply samePage_iter]. repeat split.
  - repeat split.
Qed.

(** The event [resize] on a window with a handler, when at most the
    timer of [timeoutId] is pending. *)
Lemma resize_eq width height w :
  resizeListeners w = 1 -> timersOk w ->
  resize width height w =
    setTimer (Some (nextHandle (clock w)))
      {| time := time (clock w); nextHandle := S (nextHandle (clock w));
         timeouts := [ {| timeoutHandle := nextHandle (clock w);
                          due := time (clock w) + 100; timeoutArguments := tt |} ] |}
      (setSize width height w).
Proof.
  intros H1 Hok. unfold resize. rewrite H1. cbn [Nat.iter nat_rect].
  now rewrite debouncedResizeEvent_eq.
Qed.

(** Time passes. *)
Lemma ticks_fields ticks : forall w,
  let w' := windowSteps (List.map StepTick ticks) w in
  samePage w w' /\ clientWidth w' = clientWidth w /\ innerHeight w' = innerHeight w /\
  timeoutId w' = timeoutId w /\ timeouts (clock w') = timeouts (clock w) /\
  nextHandle (clock w') = nextHandle (clock w) /\
  time (clock w') = time (clock w) + list_sum ticks.
Proof.
  induction ticks as [|ms rest IH]; intros w.
  - cbn. split; [apply samePage_refl|]. repeat split; try reflexivity; lia.
  - cbn [List.map windowSteps fold_left].
    destruct (IH (windowStep w (StepTick ms))) as (K0 & K1 & K2 & K3 & K4 & K5 & K6).
    unfold windowSteps in *. cbv zeta. rewrite K1, K2, K3, K4, K5, K6.
    change (list_sum (ms :: rest)) with (ms + list_sum rest).
    split; [eapply samePage_trans; [|exact K0]; repeat split|].
    cbn. repeat split; try reflexivity; lia.
Qed.

(** A burst of [resize] events on a window with a resize handler, during
    which no timer runs, calls nothing; once 100 milliseconds have passed
    since its last event, exactly one timer is pending, the one of
    [timeoutId], and when the host runs it, [onWindowResize] is called
    once, with the sizes of the last event. *)
Theorem resize_burst_one_timer steps loading width0 height0 burst width height ticks :
  let w := windowSteps steps (newWindow loading width0 height0) in
  is_Some (canva_debounceResize w) ->
  quietBurst burst = true ->
  100 <= list_sum ticks ->
  let w1 := windowSteps (burst ++ StepResize width height :: List.map StepTick ticks) w in
  ran w1 = ran w /\ canva_debounceResize w1 = canva_debounceResize w /\
  clientWidth w1 = width /\ innerHeight w1 = height /\
  exists handle,
    timeoutId w1 = Some handle /\ length (timeouts (clock w1)) = 1 /\
    windowStep w1 (StepTimeout handle) =
      onWindowResize (setTimer (Some handle) (timerGone (clock w1)) w1).
Proof.
  intros w Hh Hq Ht w1.
  pose proof (windowOk_windowSteps steps _ (windowOk_newWindow loading width0 height0))
    as (_ & Hl & _). fold w in Hl. unfold handlerOk in Hl.
  assert (Hok : timersOk w).
  { apply timersOk_windowSteps. now left. }
  set (wb := windowSteps burst w).
  pose proof (samePage_burst burst w Hq) as (B1 & B2 & B3 & B4 & B5 & B6). fold wb in B1, B5, B6.
  assert (Hokb : timersOk wb) by now apply timersOk_windowSteps.
  assert (Hlb : resizeListeners wb = 1).
  { rewrite B6, Hl. now destruct Hh as [h ->]. }
  set (wr := resize width height wb).
  assert (E : w1 = windowSteps (List.map StepTick ticks) wr).
  { unfold w1, windowSteps. now rewrite fold_left_app. }
  pose proof (resize_eq width height wb Hlb Hokb) as Er. fold wr in Er.
  destruct (ticks_fields ticks wr) as ((T1 & _ & _ & _ & T5 & _) & T7 & T8 & T9 & T10 & T11 & T12).
  cbv zeta in T1, T5, T7, T8, T9, T10, T11, T12. rewrite <- E in *.
  rewrite Er in T1, T5, T7, T8, T9, T10, T11, T12.
  cbn in T1, T5, T7, T8, T9, T10, T11, T12.
  split; [congruence|]. split; [congruence|]. split; [exact T7|]. split; [exact T8|].
  exists (nextHandle (clock wb)). split; [exact T9|]. split; [now rewrite T10|].
  cbn [windowStep]. unfold runTimeout. rewrite (takeTimeout_single _ _ _ T10).
  cbn [timeoutHandle due timeoutArguments]. rewrite Nat.eqb_refl. cbn [andb].
  destruct (Nat.leb_spec (time (clock wb) + 100) (time (clock w1))); [|lia].
  now rewrite T9.
Qed.

Lemma resize_burst_one_timer_witness :
  ran (windowStep
         (windowSteps ([StepResize 700 600; StepTick 50] ++
                     StepResize 500 600 :: List.map StepTick [60; 40])
            (windowSteps [StepScript menuMain None; StepDOMContentLoaded]
               (newWindow true 800 600)))
         (StepTimeout 2)) = [1; 2; 2].
Proof.
  destruct (resize_burst_one_timer [StepScript menuMain None; StepDOMContentLoaded]
              true 800 600 [StepResize 700 600; StepTick 50] 500 600 [60; 40])
    as (_ & _ & _ & _ & handle & Hid & _ & H).
  - eexists. reflexivity.
  - reflexivity.
  - cbn. lia.
  - injection Hid as <-. rewrite H. reflexivity.
Defined.

(** ** The menu script on its page *)

Lemma menuWindow_pass previousWidth previousHeight width height w :
  menuWindow previousWidth previousHeight w ->
  menuWindow width height (onWindowResize (setSize width height w)) /\
  ran (onWindowResize (setSize width height w)) =
    ran w ++ repeat 2 (if (previousWidth =? width)%Z then 0 else 1).
Proof.
  intros [Hh Hl].
  destruct (onWindowResize_eq (setSize width height w)
              {| resizeCallbacks := [adjustEntry]; previousWindowWidth := previousWidth;
                 previousWindowHeight := previousHeight |} Hh Hl)
    as (H1 & H2 & H3 & _).
  - cbn. repeat constructor. intros H. inversion H.
  - repeat constructor.
  - split; [split; [exact H2|exact H3]|].
    rewrite H1. cbn [ran setSize]. f_equal.
    cbn [resizeCallbacks previousWindowWidth previousWindowHeight clientWidth innerHeight
         setSize List.filter].
    unfold shouldExecute. cbn [adjustEntry resizeCallback_executed resizeCallback_options
      options_runOnWidthChange options_runOnHeightChange negb orb].
    rewrite andb_true_r, andb_false_r, orb_false_r.
    now destruct (previousWidth =? width)%Z.
Qed.

Lemma menuWindow_passes sizes : forall previousWidth previousHeight w,
  menuWindow previousWidth previousHeight w ->
  ran (resizePasses sizes w) = ran w ++ repeat 2 (widthChanges previousWidth sizes).
Proof.
  induction sizes as [|[width height] rest IH]; intros pw ph w Hw.
  - cbn. now rewrite app_nil_r.
  - cbn [resizePasses fold_left fst snd widthChanges].
    destruct (menuWindow_pass pw ph width height w Hw) as [Hw' Hr].
    fold (resizePasses rest (onWindowResize (setSize width height w))).
    rewrite (IH width height _ Hw'), Hr, <- app_assoc. f_equal.
    now rewrite repeat_app.
Qed.

(** The menu script on a page with a horizontal menu: its callback and
    the callback that adjusts the menu are called once each when the
    document is parsed, whether the script ran before or after; from then
    on a pass of the resize handler calls the adjusting callback exactly
    when the width of the window differs from the width at the pass before
    (at first, from the width when the handler was made), so a change of
    height alone never adjusts the menu. On a page without a horizontal
    menu the callback of the script is called and nothing else happens: no
    resize handler is made and no listener for [resize] is registered. *)
Theorem menu_script_adjusts_on_width_change loading width height sizes :
  let loaded :=
    windowSteps [StepScript menuMain None; StepDOMContentLoaded]
      (newWindow loading width height) in
  let bare :=
    windowSteps [StepScript menuMainWithoutMenu None; StepDOMContentLoaded]
      (newWindow loading width height) in
  ran loaded = [1; 2] /\
  ran (resizePasses sizes loaded) = [1; 2] ++ repeat 2 (widthChanges width sizes) /\
  ran bare = [1] /\ canva_debounceResize bare = None /\ resizeListeners bare = 0.
Proof.
  intros loaded bare.
  assert (H : menuWindow width height loaded /\ ran loaded = [1; 2]).
  { unfold loaded. destruct loading; (split; [split|]); reflexivity. }
  destruct H as [Hw Hr]. split; [exact Hr|]. split.
  - now rewrite (menuWindow_passes sizes width height loaded Hw), Hr.
  - unfold bare. destruct loading; repeat split.
Qed.

Lemma menuEvents_noAdjust menuManager events : forall d,
  noAdjust events = true ->
  menuStyles (menuEvents menuManager events d) = menuStyles d.
Proof.
  induction events as [|e rest IH]; intros d H; [reflexivity|].
  cbn [noAdjust forallb] in H. apply andb_true_iff in H as [He Hrest].
  cbn [menuEvents fold_left]. unfold menuEvents in IH. rewrite (IH _ Hrest).
  now destruct e.
Qed.

(** The menu shows what the last call of the callback chose, from the
    width the body had at that call: the hamburger menu if the horizontal
    menu, as wide as it was when the manager was made, is wider than the
    body, and the horizontal menu otherwise, also at equal widths. A width
    the body gets later changes nothing until the callback is called
    again, and the callback leaves the checkbox alone. *)
Theorem menu_follows_last_adjust menuManager before after d :
  noAdjust after = true ->
  let atCall := menuEvents menuManager before d in
  let d' := menuEvents menuManager (before ++ AdjustCalled :: after) d in
  menuStyles d' =
    (if (horizontalMenuWidth menuManager >? body_clientWidth atCall)%Z
     then ("flex", "block", "none", "hidden")
     else ("none", "none", "flex", "visible")) /\
  menuToggle_checked (menuEvents menuManager (before ++ [AdjustCalled]) d) =
    menuToggle_checked atCall.
Proof.
  intros Hafter atCall d'. unfold d', menuEvents. rewrite !fold_left_app.
  cbn [fold_left]. fold (menuEvents menuManager before d). fold atCall.
  fold (menuEvents menuManager after (menuEvent menuManager atCall AdjustCalled)).
  rewrite (menuEvents_noAdjust _ _ _ Hafter). cbn [menuEvent]. unfold adjustMenuDisplay.
  cbv zeta. now destruct (_ >? _)%Z.
Qed.

Lemma menu_follows_last_adjust_witness :
  menuStyles
    (menuEvents {| horizontalMenuWidth := 640 |}
       ([BodyResized 500; AdjustCalled; BodyResized 640] ++
        AdjustCalled :: [BodyResized 300; HashChanged])
       {| menuButton_display := EmptyString; verticalMenu_display := EmptyString;
          horizontalMenu_display := EmptyString; horizontalMenu_visibility := EmptyString;
          menuToggle_checked := true; body_clientWidth := 1000 |}) =
  ("none", "none", "flex", "visible").
Proof.
  exact (proj1 (menu_follows_last_adjust {| horizontalMenuWidth := 640 |}
                  [BodyResized 500; AdjustCalled; BodyResized 640]
                  [BodyResized 300; HashChanged] _ eq_refl)).
Defined.

Lemma stopParentAnimation_lookup parent (styles : gmap nat string) p :
  stopParentAnimation parent styles !! p =
    if isParent p parent then Some "none" else styles !! p.
Proof.
  destruct parent as [q|]; cbn; [|reflexivity].
  destruct (Nat.eqb_spec q p) as [->|Hne].
  - apply lookup_insert_eq.
  - now apply lookup_insert_ne.
Qed.

Lemma bool_eq_iff (a b : bool) : (a = true <-> b = true) -> a = b.
Proof.
  destruct a, b; intros [H1 H2]; try reflexivity.
  - symmetry. now apply H1.
  - now apply H2.
Qed.

(** The loop of the script. *)
Lemma visitImage_fold imgs p : forall s,
  animationStyle (fold_left visitImage imgs s) !! p =
    (if existsb (fun img => isParent p (snd img) && complete (fst img)) imgs
     then Some "none" else animationStyle s !! p) /\
  loadListeners (fold_left visitImage imgs s) =
    loadListeners s ++
    List.map (fun img => (eid (fst img), snd img))
      (List.filter (fun img => negb (complete (fst img))) imgs).
Proof.
  induction imgs as [|img rest IH]; intros s.
  - cbn. now rewrite app_nil_r.
  - cbn [fold_left existsb List.filter]. destruct (IH (visitImage s img)) as [H1 H2].
    rewrite H1, H2. unfold visitImage. destruct (complete (fst img)); cbn.
    + rewrite stopParentAnimation_lookup, andb_true_r.
      split; [|reflexivity]. destruct (isParent p (snd img)); cbn; [|reflexivity].
      now destruct (existsb _ rest).
    + rewrite andb_false_r. cbn. split; [reflexivity|]. now rewrite <- app_assoc.
Qed.

(** The listeners of one image, called in order. *)
Lemma listeners_fold image p ls : forall styles : gmap nat string,
  fold_left (fun styles l =>
               if (fst l =? image)%nat then stopParentAnimation (snd l) styles else styles)
    ls styles !! p =
  if existsb (fun l : nat * option nat => (fst l =? image)%nat && isParent p (snd l)) ls
  then Some "none" else styles !! p.
Proof.
  induction ls as [|l rest IH]; intros styles; [reflexivity|].
  cbn [fold_left existsb]. rewrite IH.
  destruct (fst l =? image)%nat; cbn; [|reflexivity].
  rewrite stopParentAnimation_lookup.
  destruct (isParent p (snd l)); cbn; [|reflexivity]. now destruct (existsb _ rest).
Qed.

Lemma imageEvents_fold events p : forall s,
  animationStyle (imageEvents events s) !! p =
    (if existsb (fun l : nat * option nat => hasLoaded events (fst l) && isParent p (snd l))
          (loadListeners s)
     then Some "none" else animationStyle s !! p) /\
  loadListeners (imageEvents events s) = loadListeners s.
Proof.
  induction events as [|e rest IH]; intros s.
  - cbn. split; [|reflexivity].
    replace (existsb _ (loadListeners s)) with false; [reflexivity|].
    symmetry. induction (loadListeners s) as [|l ls IHl]; [reflexivity|]. exact IHl.
  - cbn [imageEvents fold_left]. fold (imageEvents rest (imageEvent s e)).
    destruct (IH (imageEvent s e)) as [H1 H2]. rewrite H1, H2.
    destruct e as [image|image]; cbn [imageEvent loadListeners animationStyle].
    + split; [|reflexivity]. rewrite listeners_fold.
      set (a := existsb _ (loadListeners s)). set (b := existsb _ (loadListeners s)).
      set (c := existsb _ (loadListeners s)).
      assert (E : c = a || b).
      { unfold a, b, c. apply bool_eq_iff. rewrite orb_true_iff, !existsb_exists.
        split.
        - intros (l & Hl & H). cbn [hasLoaded existsb] in H.
          apply andb_true_iff in H as [H Hp]. apply orb_true_iff in H as [H|H].
          + right. exists l. split; [exact Hl|]. apply Nat.eqb_eq in H. subst image.
            now rewrite Nat.eqb_refl.
          + left. exists l. split; [exact Hl|]. unfold hasLoaded. now rewrite H.
        - intros [(l & Hl & H)|(l & Hl & H)]; exists l; (split; [exact Hl|]);
            apply andb_true_iff in H as [H Hp]; cbn [hasLoaded existsb]; rewrite Hp.
          + unfold hasLoaded in H. rewrite H. now rewrite orb_true_r.
          + apply Nat.eqb_eq in H. subst image. now rewrite Nat.eqb_refl. }
      rewrite E. now destruct a, b.
    + split; [|reflexivity]. reflexivity.
Qed.

(** After the script and any events of images, [style.animation] of an
    element is ["none"] exactly when the element is the parent of an image
    that was in the document when the script ran and that was complete then
    or has loaded since; every other element has the value it had: a
    failure of an image stops nothing, and neither does an image that came
    later. *)
Theorem parent_animation_stopped root styles events p :
  animationStyle (imageEvents events (stopAnimations root styles)) !! p =
    if stoppedBy root events p then Some "none" else styles !! p.
Proof.
  destruct (imageEvents_fold events p (stopAnimations root styles)) as [H1 _].
  unfold stopAnimations in *.
  destruct (visitImage_fold (documentImages root) p
              {| animationStyle := styles; loadListeners := [] |}) as [H2 H3].
  rewrite H1, H2, H3. cbn [animationStyle loadListeners app].
  set (imgs := documentImages root).
  set (a := existsb _ (List.map _ _)). set (b := existsb _ imgs).
  assert (E : stoppedBy root events p = a || b).
  { unfold stoppedBy, a, b. fold imgs. apply bool_eq_iff.
    rewrite orb_true_iff, !existsb_exists. split.
    - intros (img & Hin & H). apply andb_true_iff in H as [Hp H].
      destruct (complete (fst img)) eqn:Hc.
      + right. exists img. split; [exact Hin|]. now rewrite Hp, Hc.
      + left. exists (eid (fst img), snd img). split.
        * apply in_map_iff. exists img. split; [reflexivity|].
          apply filter_In. split; [exact Hin|]. now rewrite Hc.
        * cbn in *. now rewrite H, Hp.
    - intros [(l & Hl & H)|(img & Hin & H)].
      + apply in_map_iff in Hl as (img & <- & Hi). apply filter_In in Hi as [Hin Hc].
        exists img. split; [exact Hin|]. cbn in H. apply andb_true_iff in H as [H Hp].
        rewrite Hp, H. now rewrite orb_true_r.
      + exists img. split; [exact Hin|]. apply andb_true_iff in H as [Hp Hc].
        now rewrite Hp, Hc. }
  rewrite E. now destruct a, b.
Qed.
